(** * autotag: version resolution from git tags and commit messages

    A shallow embedding of [autotag.go] (package [autotag]) together with
    the parts of the Go libraries it calls ([strings], [strconv], [regexp],
    [sort] and [github.com/hashicorp/go-version]), followed by the
    properties of the resolution engine. *)

From Stdlib Require Import Bool Arith ZArith Lia List Ascii String.
From Stdlib Require Import Permutation Sorted.
From Stdlib Require Import DecimalString DecimalPos DecimalN DecimalZ.
Import ListNotations.

Local Open Scope string_scope.
Local Open Scope Z_scope.

(** ** Results of fallible calls *)

Inductive result (E A : Type) : Type :=
| Ok (a : A)
| Err (e : E).
Arguments Ok {E A} a.
Arguments Err {E A} e.

Definition bind {E A B} (m : result E A) (f : A -> result E B) : result E B :=
  match m with
  | Ok a => f a
  | Err e => Err e
  end.

Notation "x <- m ;; k" := (bind m (fun x => k))
  (at level 61, m at next level, right associativity).

Definition isOk {E A} (m : result E A) : bool :=
  match m with Ok _ => true | Err _ => false end.

Definition mapOk {E A B} (f : A -> B) (m : result E A) : result E B :=
  match m with Ok a => Ok (f a) | Err e => Err e end.

(** ** Package [strings] *)

Module strings.

(** [strings.Split(s, sep)] for a one-byte separator. *)
Fixpoint Split (s : string) (sep : ascii) : list string :=
  match s with
  | EmptyString => [EmptyString]
  | String a s' =>
      if Ascii.eqb a sep then EmptyString :: Split s' sep
      else match Split s' sep with
           | p :: ps => String a p :: ps
           | [] => [String a EmptyString]
           end
  end.

Definition HasPrefix (s pre : string) : bool := String.prefix pre s.

Fixpoint Contains (s sub : string) : bool :=
  if String.prefix sub s then true
  else match s with
       | EmptyString => false
       | String _ s' => Contains s' sub
       end.

Definition Join (l : list string) (sep : string) : string :=
  String.concat sep l.

(** The line feed, "\n" in Go. *)
Definition LF : string := String (ascii_of_nat 10) EmptyString.

End strings.

(** ** Package [strconv] *)

Module strconv.

Definition maxUint64 : Z := 2 ^ 64 - 1.
Definition maxInt64 : Z := 2 ^ 63 - 1.

(** The two causes of a [*NumError]. *)
Inductive NumError : Type :=
| ErrSyntax
| ErrRange.

Definition isDigit (a : ascii) : bool :=
  let n := nat_of_ascii a in (48 <=? n)%nat && (n <=? 57)%nat.

Definition digitVal (a : ascii) : Z := Z.of_nat (nat_of_ascii a) - 48.

(** The loop of [ParseUint] in base 10 on 64 bits: [n] is the value
    read so far; the range is checked before the next byte is looked
    at. *)
Fixpoint parseUintLoop (n : Z) (s : string) : Z * option NumError :=
  match s with
  | EmptyString => (n, None)
  | String c s' =>
      if isDigit c then
        if maxUint64 / 10 + 1 <=? n then (maxUint64, Some ErrRange)
        else
          let n1 := n * 10 + digitVal c in
          if maxUint64 <? n1 then (maxUint64, Some ErrRange)
          else parseUintLoop n1 s'
      else (0, Some ErrSyntax)
  end.

(** [strconv.ParseUint(s, 10, 64)]: the value and the error, [None]
    being nil. *)
Definition ParseUint (s : string) : Z * option NumError :=
  match s with
  | EmptyString => (0, Some ErrSyntax)
  | _ => parseUintLoop 0 s
  end.

(** [strconv.ParseInt(s, 10, 64)]. *)
Definition ParseInt (s : string) : Z * option NumError :=
  match s with
  | EmptyString => (0, Some ErrSyntax)
  | String a s' =>
      let neg := Ascii.eqb a "-" in
      let body := if Ascii.eqb a "+" || neg then s' else s in
      let (un, err) := ParseUint body in
      match err with
      | Some ErrSyntax => (0, Some ErrSyntax)
      | _ =>
          if negb neg && (maxInt64 + 1 <=? un)
          then (maxInt64, Some ErrRange)
          else if neg && (maxInt64 + 1 <? un)
          then (- (maxInt64 + 1), Some ErrRange)
          else (if neg then - un else un, None)
      end
  end.

(** [strconv.FormatUint(n, 10)] for [0 <= n]. *)
Definition FormatUint (n : Z) : string :=
  NilZero.string_of_uint (N.to_uint (Z.to_N n)).

(** [strconv.FormatInt(n, 10)]. *)
Definition FormatInt (n : Z) : string :=
  NilZero.string_of_int (Z.to_int n).

(** [x + 1] on [uint64]. *)
Definition incUint64 (x : Z) : Z := (x + 1) mod 2 ^ 64.

End strconv.

(** ** Package [regexp]

    Go's [regexp] gives the leftmost match and, among the matches at that
    position, the one a backtracking search finds first.  The matcher
    below is that backtracking search, in continuation-passing style. *)

Module regexp.

Inductive Syntax : Type :=
| Empty
| Class (p : ascii -> bool)
| Cat (r1 r2 : Syntax)
| Alt (r1 r2 : Syntax)
| Star (greedy : bool) (r : Syntax)
| Group (i : nat) (r : Syntax)
| BeginText
| EndText.

Definition Captures := list (nat * string).

Definition orElse {R} (a b : option R) : option R :=
  match a with Some x => Some x | None => b end.

(** The iterations of a star: [body] runs the starred expression, an
    iteration has to consume something, and [fuel] bounds the number of
    iterations by the length of the text left. *)
Fixpoint starLoop {R : Type}
         (body : string -> Captures -> (string -> Captures -> option R)
                 -> option R)
         (greedy : bool) (k : string -> Captures -> option R)
         (fuel : nat) (s : string) (c : Captures) {struct fuel} : option R :=
  match fuel with
  | O => k s c
  | S fuel' =>
      let again :=
        body s c
             (fun s1 c1 =>
                if (String.length s1 <? String.length s)%nat
                then starLoop body greedy k fuel' s1 c1 else None) in
      if greedy then orElse again (k s c) else orElse (k s c) again
  end.

Section Run.
Context {R : Type}.
(** Length of the whole text, to recognise its beginning. *)
Variable n : nat.

Fixpoint run (r : Syntax) (s : string) (c : Captures)
         (k : string -> Captures -> option R) {struct r} : option R :=
  match r with
  | Empty => k s c
  | Class p =>
      match s with
      | String a s' => if p a then k s' c else None
      | EmptyString => None
      end
  | Cat r1 r2 => run r1 s c (fun s1 c1 => run r2 s1 c1 k)
  | Alt r1 r2 => orElse (run r1 s c k) (run r2 s c k)
  | Star g r1 => starLoop (run r1) g k (String.length s) s c
  | Group i r1 =>
      run r1 s c
          (fun s1 c1 =>
             k s1 ((i, substring 0 (String.length s - String.length s1) s)
                     :: c1))
  | BeginText => if (String.length s =? n)%nat then k s c else None
  | EndText =>
      match s with
      | EmptyString => k s c
      | String _ _ => None
      end
  end.
End Run.

(** [r+], [r?], [r??] and literal text. *)
Definition Plus (r : Syntax) : Syntax := Cat r (Star true r).
Definition Quest (r : Syntax) : Syntax := Alt r Empty.
Definition QuestLazy (r : Syntax) : Syntax := Alt Empty r.

Fixpoint Lit (s : string) : Syntax :=
  match s with
  | EmptyString => Empty
  | String a s' => Cat (Class (Ascii.eqb a)) (Lit s')
  end.

Definition inRange (lo hi : nat) (a : ascii) : bool :=
  let n := nat_of_ascii a in (lo <=? n)%nat && (n <=? hi)%nat.

Definition isDigit : ascii -> bool := inRange 48 57.
Definition isUpper : ascii -> bool := inRange 65 90.
Definition isLower : ascii -> bool := inRange 97 122.
Definition isAlpha (a : ascii) : bool := isUpper a || isLower a.

(** Perl classes [\d], [\w], [\s] (ASCII only in Go) and [.]. *)
Definition perlD : ascii -> bool := isDigit.
Definition perlW (a : ascii) : bool :=
  isDigit a || isAlpha a || Ascii.eqb a "_".
Definition perlS (a : ascii) : bool :=
  let n := nat_of_ascii a in
  (n =? 9)%nat || (n =? 10)%nat || (n =? 12)%nat || (n =? 13)%nat
  || (n =? 32)%nat.
Definition anyCharNotNL (a : ascii) : bool :=
  negb (nat_of_ascii a =? 10)%nat.

(** Case folding of the flag [(?i)] on ASCII letters. *)
Definition lower (a : ascii) : ascii :=
  if isUpper a then ascii_of_nat (nat_of_ascii a + 32) else a.

Fixpoint LitFold (s : string) : Syntax :=
  match s with
  | EmptyString => Empty
  | String a s' =>
      Cat (Class (fun b => Ascii.eqb (lower b) (lower a))) (LitFold s')
  end.

(** A compiled expression: its syntax and the names of its groups,
    group 0 (the whole match) first. *)
Record Regexp : Type := MustCompile {
  syntax : Syntax;
  SubexpNames : list string
}.

Fixpoint lookup (i : nat) (c : Captures) : string :=
  match c with
  | [] => EmptyString
  | (j, w) :: c' => if (i =? j)%nat then w else lookup i c'
  end.

(** The leftmost match: the text from its start, the text after it and
    the groups. *)
Fixpoint search (r : Syntax) (n : nat) (s : string)
  : option (string * string * Captures) :=
  match run n r s [] (fun s' c => Some (s', c)) with
  | Some (s', c) => Some (s, s', c)
  | None =>
      match s with
      | EmptyString => None
      | String _ s' => search r n s'
      end
  end.

(** [re.FindStringSubmatch(s)]: [None] is the nil slice; a group that
    took no part in the match is the empty string. *)
Definition FindStringSubmatch (re : Regexp) (s : string)
  : option (list string) :=
  match search (syntax re) (String.length s) s with
  | None => None
  | Some (s0, s1, c) =>
      Some (substring 0 (String.length s0 - String.length s1) s0
              :: map (fun i => lookup i c)
                     (seq 1 (List.length (SubexpNames re) - 1)))
  end.

Definition MatchString (re : Regexp) (s : string) : bool :=
  match search (syntax re) (String.length s) s with
  | None => false
  | Some _ => true
  end.

End regexp.

(** ** Errors

    One constructor per error the program builds; [ErrExternal] carries
    the message of an error coming from git or the file system. *)

Inductive error : Type :=
| ErrExternal (msg : string)
| ErrMalformedVersion (v : string)
| ErrParsingVersion (v : string)
| ErrInvalidBuildMetadata (meta : string)
| ErrBuildNumberWithMetadata (meta : string)
| ErrInvalidPreReleaseName (name : string)
| ErrInvalidTimestampLayout (layout : string)
| ErrNoMainOrMaster
| ErrFetchTags (cause : error)
| ErrReadingCommit (rev : string) (cause : error)
| ErrNoStableTags
| ErrEmptyTag
| ErrHeadCommit (cause : error)
| ErrAlreadyPreRelease
| ErrPreReleaseNumber
| ErrSameCommit
| ErrNilCommit
| ErrNoBumpFound
| ErrCustomWithBuildNumber
| ErrBuildNumber
| ErrNoMatch (commitID : string)
| PanicNilDereference.

(** ** Package [github.com/hashicorp/go-version] *)

Module version.
Import regexp.

Record Version : Type := mkVersion {
  metadata : string;
  pre : string;
  segments : list Z;
  si : nat;
  original : string
}.

(** [[0-9A-Za-z\-~]] and [[A-Za-z\-~]] *)
Definition idChar (a : ascii) : bool :=
  isDigit a || isAlpha a || Ascii.eqb a "-" || Ascii.eqb a "~".
Definition idStart (a : ascii) : bool :=
  isAlpha a || Ascii.eqb a "-" || Ascii.eqb a "~".

(** The group "(\.[0-9A-Za-z\-~]+)", numbered [i], under a star. *)
Definition dotted (i : nat) : Syntax :=
  Star true (Group i (Cat (Lit ".") (Plus (Class idChar)))).

(** [VersionRegexpRaw] is the concatenation of
    "v?([0-9]+(\.[0-9]+)*?)",
    "(-([0-9]+[0-9A-Za-z\-~]*", [tail], ")|(-?([A-Za-z\-~]+[0-9A-Za-z\-~]*",
    [tail], ")))?" and "(\+([0-9A-Za-z\-~]+", [tail], "))??",
    where [tail] is the expression of [dotted]. *)
Definition VersionRegexpRaw : Syntax :=
  Cat (Quest (Lit "v"))
 (Cat (Group 1 (Cat (Plus (Class isDigit))
                    (Star false (Group 2 (Cat (Lit ".")
                                              (Plus (Class isDigit)))))))
 (Cat (Quest
         (Group 3
            (Alt (Cat (Lit "-")
                      (Group 4 (Cat (Plus (Class isDigit))
                               (Cat (Star true (Class idChar))
                                    (dotted 5)))))
                 (Group 6 (Cat (Quest (Lit "-"))
                               (Group 7 (Cat (Plus (Class idStart))
                                        (Cat (Star true (Class idChar))
                                             (dotted 8)))))))))
      (QuestLazy
         (Group 9 (Cat (Lit "+")
                       (Group 10 (Cat (Plus (Class idChar))
                                      (dotted 11)))))))).

Definition versionRegexp : Regexp :=
  MustCompile (Cat BeginText (Cat VersionRegexpRaw EndText))
              (repeat EmptyString 12).

Fixpoint parseSegments (l : list string) : option (list Z) :=
  match l with
  | [] => Some []
  | str :: l' =>
      match strconv.ParseInt str with
      | (_, Some _) => None
      | (val, None) =>
          match parseSegments l' with
          | None => None
          | Some vals => Some (val :: vals)
          end
      end
  end.

(** Fewer than three segments are padded with zeros. *)
Definition pad3 (segs : list Z) : list Z :=
  segs ++ repeat 0 (3 - List.length segs).

Definition NewVersion (v : string) : result error Version :=
  match FindStringSubmatch versionRegexp v with
  | None => Err (ErrMalformedVersion v)
  | Some matches =>
      let segmentsStr := strings.Split (nth 1 matches EmptyString) "." in
      match parseSegments segmentsStr with
      | None => Err (ErrParsingVersion v)
      | Some segs =>
          let p := nth 7 matches EmptyString in
          let p := if String.eqb p EmptyString
                   then nth 4 matches EmptyString else p in
          Ok {| metadata := nth 10 matches EmptyString;
                pre := p;
                segments := pad3 segs;
                si := List.length segmentsStr;
                original := v |}
      end
  end.

Definition Metadata (v : Version) : string := metadata v.
Definition Prerelease (v : Version) : string := pre v.
Definition Segments64 (v : Version) : list Z := segments v.

Definition String (v : Version) : string :=
  strings.Join (map strconv.FormatInt (segments v)) "."
  ++ (if String.eqb (pre v) EmptyString then EmptyString
      else "-" ++ pre v)
  ++ (if String.eqb (metadata v) EmptyString then EmptyString
      else "+" ++ metadata v).

Definition allZero (segs : list Z) : bool := forallb (Z.eqb 0) segs.

Definition isSome {A} (o : option A) : bool :=
  match o with Some _ => true | None => false end.

Definition comparePart (preSelf preOther : string) : Z :=
  if String.eqb preSelf preOther then 0
  else
    let (selfInt, err) := strconv.ParseInt preSelf in
    let selfNumeric := negb (isSome err) in
    let (otherInt, err) := strconv.ParseInt preOther in
    let otherNumeric := negb (isSome err) in
    if String.eqb preSelf EmptyString then
      (if otherNumeric then -1 else 1)
    else if String.eqb preOther EmptyString then
      (if selfNumeric then 1 else -1)
    else if selfNumeric && negb otherNumeric then -1
    else if negb selfNumeric && otherNumeric then 1
    else if negb selfNumeric && negb otherNumeric
            && String.ltb preOther preSelf then 1
    else if otherInt <? selfInt then 1
    else -1.

(** The loop of [comparePrereleases] over the longer of the two lists
    of parts, a missing part being the empty string. *)
Fixpoint compareParts (self other : list string) : Z :=
  match self, other with
  | [], [] => 0
  | a :: self', [] =>
      let c := comparePart a EmptyString in
      if c =? 0 then compareParts self' [] else c
  | [], b :: other' =>
      let c := comparePart EmptyString b in
      if c =? 0
      then (fix rest (l : list string) : Z :=
              match l with
              | [] => 0
              | b :: l' =>
                  let c := comparePart EmptyString b in
                  if c =? 0 then rest l' else c
              end) other'
      else c
  | a :: self', b :: other' =>
      let c := comparePart a b in
      if c =? 0 then compareParts self' other' else c
  end.

Definition comparePrereleases (v other : string) : Z :=
  if String.eqb v other then 0
  else compareParts (strings.Split v ".") (strings.Split other ".").

(** The loop of [Compare] over segments of possibly different
    lengths. *)
Fixpoint compareSegments (self other : list Z) : Z :=
  match self, other with
  | [], [] => 0
  | [], _ :: _ => if allZero other then 0 else -1
  | _ :: _, [] => if allZero self then 0 else 1
  | lhs :: self', rhs :: other' =>
      if lhs =? rhs then compareSegments self' other'
      else if lhs <? rhs then -1
      else 1
  end.

Definition Compare (v other : Version) : Z :=
  if String.eqb (String v) (String other) then 0
  else if list_eq_dec Z.eq_dec (Segments64 v) (Segments64 other) then
    let preSelf := Prerelease v in
    let preOther := Prerelease other in
    if String.eqb preSelf EmptyString && String.eqb preOther EmptyString
    then 0
    else if String.eqb preSelf EmptyString then 1
    else if String.eqb preOther EmptyString then -1
    else comparePrereleases preSelf preOther
  else compareSegments (Segments64 v) (Segments64 other).

Definition Equal (v o : Version) : bool := Compare v o =? 0.
Definition GreaterThan (v o : Version) : bool := 0 <? Compare v o.
Definition LessThan (v o : Version) : bool := Compare v o <? 0.

End version.

(** ** Package [sort]

    [sort.Sort] on a slice of at most twelve elements is an insertion
    sort: each element in turn moves towards the front while
    [data.Less(j, j-1)] holds.  The prefix already sorted is kept
    reversed, its last element first.  Longer slices go through the
    other branches of the library's sort, which are not modelled. *)

Module sort.
Section Sort.
Context {A : Type}.
(** [less x p] is [data.Less(j, j-1)] with [x] at [j] and [p] at
    [j-1]. *)
Variable less : A -> A -> bool.

Fixpoint insert (x : A) (revPrefix : list A) : list A :=
  match revPrefix with
  | [] => [x]
  | p :: rest => if less x p then p :: insert x rest else x :: revPrefix
  end.

Definition Sort (data : list A) : list A :=
  rev (fold_left (fun acc x => insert x acc) data []).
End Sort.
End sort.

(** ** Package [github.com/gogs/git-module], as far as it is used

    A repository is a snapshot: each call of the program is a field. *)

Module git.

Record Commit : Type := mkCommit {
  ID : string;
  Message : string
}.

Record Repository : Type := mkRepository {
  Tags : result error (list string);
  CommitByRevision : string -> result error Commit;
  Branches : result error (list string);
  BranchCommitID : string -> result error string;
  BranchCommit : string -> result error Commit;
  (** a commit of the slice may be nil *)
  RevList : list string -> list (option Commit) * option error
}.

End git.

(** ** Package [time]: the instant returned by [timeNow().UTC()] *)

Module time.
Record Time : Type := mkTime {
  Unix : Z;
  Format : string -> string
}.
End time.

(** ** Package [autotag] *)

Module autotag.
Import regexp version.

Definition datetimeTsLayout : string := "20060102150405".

(** "(?i)\[major\]|\#major" and its two siblings *)
Definition majorRex : Regexp :=
  MustCompile (Alt (LitFold "[major]") (LitFold "#major")) [EmptyString].
Definition minorRex : Regexp :=
  MustCompile (Alt (LitFold "[minor]") (LitFold "#minor")) [EmptyString].
Definition patchRex : Regexp :=
  MustCompile (Alt (LitFold "[patch]") (LitFold "#patch")) [EmptyString].

(** [[^()\r\n]] *)
Definition notParenCRLF (a : ascii) : bool :=
  negb (Ascii.eqb a "(" || Ascii.eqb a ")"
        || (nat_of_ascii a =? 13)%nat || (nat_of_ascii a =? 10)%nat).

(** [conventionalCommitRex]: "^\s*(?P<type>\w+)", then
    "(?P<scope>(?:\([^()\r\n]*\)|\()?(?P<breaking>!)?)", then the
    optional group "subject", a colon followed by ".*" *)
Definition conventionalCommitRex : Regexp :=
  MustCompile
    (Cat BeginText
    (Cat (Star true (Class perlS))
    (Cat (Group 1 (Plus (Class perlW)))
    (Cat (Group 2
            (Cat (Quest (Alt (Cat (Lit "(")
                             (Cat (Star true (Class notParenCRLF))
                                  (Lit ")")))
                             (Lit "(")))
                 (Quest (Group 3 (Lit "!")))))
         (Quest (Group 4 (Cat (Lit ":")
                              (Star true (Class anyCharNotNL)))))))))
    [EmptyString; "type"; "scope"; "breaking"; "subject"].

(** The three magnitudes, [majorBumper], [minorBumper] and
    [patchBumper]; a nil [bumper] is [None]. *)
Inductive bumper : Type :=
| majorBumper
| minorBumper
| patchBumper.

(** A Go map with string keys, as the list of its entries. *)
Fixpoint mapIndex {V : Type} (m : list (string * V)) (key : string)
  : option V :=
  match m with
  | [] => None
  | (k, v) :: m' => if String.eqb k key then Some v else mapIndex m' key
  end.

Definition mapAssign {V : Type} (m : list (string * V)) (key : string)
           (v : V) : list (string * V) :=
  (key, v) :: m.

Definition conventionalCommitAuthorizedTypes : list (string * bumper) :=
  [ ("feat", minorBumper);
    ("build", patchBumper);
    ("chore", patchBumper);
    ("ci", patchBumper);
    ("docs", patchBumper);
    ("fix", patchBumper);
    ("perf", patchBumper);
    ("refactor", patchBumper);
    ("revert", patchBumper);
    ("style", patchBumper);
    ("test", patchBumper) ].

(** [versionRex]: "^v?", then one group holding "[\d]+\.?" and ".*" *)
Definition versionRex : Regexp :=
  MustCompile
    (Cat BeginText
    (Cat (Quest (Lit "v"))
         (Group 1 (Cat (Plus (Class perlD))
                  (Cat (Quest (Lit "."))
                       (Star true (Class anyCharNotNL)))))))
    [EmptyString; EmptyString].

(** [[0-9A-Za-z-]] *)
Definition alnumHyphen (a : ascii) : bool :=
  isDigit a || isAlpha a || Ascii.eqb a "-".

(** [semVerPreReleaseName] and [semVerBuildMetaRex]:
    "^[0-9A-Za-z-]+$" *)
Definition semVerPreReleaseName : Regexp :=
  MustCompile (Cat BeginText (Cat (Plus (Class alnumHyphen)) EndText))
              [EmptyString].
Definition semVerBuildMetaRex : Regexp :=
  MustCompile (Cat BeginText (Cat (Plus (Class alnumHyphen)) EndText))
              [EmptyString].

Record GitRepoConfig : Type := mkGitRepoConfig {
  RepoPath : string;
  Branch : string;
  PreReleaseName : string;
  PreReleaseTimestampLayout : string;
  PreReleaseNumber : bool;
  BuildMetadata : string;
  Scheme : string;
  Prefix : bool;
  StrictMatch : bool;
  BuildNumber : bool
}.

Record GitRepo : Type := mkGitRepo {
  repo : git.Repository;
  currentVersion : option Version;
  currentTag : option git.Commit;
  newVersion : option Version;
  branch : string;
  branchID : string;
  curPreReleaseVer : option Version;
  latestTagVersion : option Version;
  latestTagCommit : option git.Commit;
  preReleaseName : string;
  preReleaseTimestampLayout : string;
  preReleaseNumber : bool;
  buildMetadata : string;
  scheme : string;
  strictMatch : bool;
  prefix : bool;
  buildNumber : bool
}.

(** Assignments to the fields the program writes after construction. *)
Definition setCurrent (r : GitRepo) (v : Version) (c : git.Commit)
  : GitRepo :=
  mkGitRepo (repo r) (Some v) (Some c) (newVersion r) (branch r)
            (branchID r) (curPreReleaseVer r) (latestTagVersion r)
            (latestTagCommit r) (preReleaseName r)
            (preReleaseTimestampLayout r) (preReleaseNumber r)
            (buildMetadata r) (scheme r) (strictMatch r) (prefix r)
            (buildNumber r).

Definition setNewVersion (r : GitRepo) (v : option Version) : GitRepo :=
  mkGitRepo (repo r) (currentVersion r) (currentTag r) v (branch r)
            (branchID r) (curPreReleaseVer r) (latestTagVersion r)
            (latestTagCommit r) (preReleaseName r)
            (preReleaseTimestampLayout r) (preReleaseNumber r)
            (buildMetadata r) (scheme r) (strictMatch r) (prefix r)
            (buildNumber r).

Definition setBranchID (r : GitRepo) (id : string) : GitRepo :=
  mkGitRepo (repo r) (currentVersion r) (currentTag r) (newVersion r)
            (branch r) id (curPreReleaseVer r) (latestTagVersion r)
            (latestTagCommit r) (preReleaseName r)
            (preReleaseTimestampLayout r) (preReleaseNumber r)
            (buildMetadata r) (scheme r) (strictMatch r) (prefix r)
            (buildNumber r).

Definition setCurPreReleaseVer (r : GitRepo) (v : Version) : GitRepo :=
  mkGitRepo (repo r) (currentVersion r) (currentTag r) (newVersion r)
            (branch r) (branchID r) (Some v) (latestTagVersion r)
            (latestTagCommit r) (preReleaseName r)
            (preReleaseTimestampLayout r) (preReleaseNumber r)
            (buildMetadata r) (scheme r) (strictMatch r) (prefix r)
            (buildNumber r).

Definition setLatestTag (r : GitRepo) (v : Version) (c : git.Commit)
  : GitRepo :=
  mkGitRepo (repo r) (currentVersion r) (currentTag r) (newVersion r)
            (branch r) (branchID r) (curPreReleaseVer r) (Some v)
            (Some c) (preReleaseName r)
            (preReleaseTimestampLayout r) (preReleaseNumber r)
            (buildMetadata r) (scheme r) (strictMatch r) (prefix r)
            (buildNumber r).

(** Dereference of a pointer that may be nil. *)
Definition deref {A : Type} (p : option A) : result error A :=
  match p with
  | Some a => Ok a
  | None => Err PanicNilDereference
  end.

Definition nonEmpty (s : string) : bool := negb (String.eqb s EmptyString).

(** *** Validation of the configuration *)

Definition validateSemVerBuildMetadata (meta : string) : bool :=
  forallb (fun s => negb (String.eqb s EmptyString
                          || negb (MatchString semVerBuildMetaRex s)))
          (strings.Split meta ".").

Definition validateSemVerPreReleaseName (meta : string) : bool :=
  forallb (fun s => negb (String.eqb s EmptyString
                          || strings.HasPrefix s "0"
                          || negb (MatchString semVerPreReleaseName s)))
          (strings.Split meta ".").

(** [None] is the nil error. *)
Definition validateConfig (cfg : GitRepoConfig) : option error :=
  if nonEmpty (BuildMetadata cfg)
     && negb (validateSemVerBuildMetadata (BuildMetadata cfg))
  then Some (ErrInvalidBuildMetadata (BuildMetadata cfg))
  else if BuildNumber cfg && nonEmpty (BuildMetadata cfg)
  then Some (ErrBuildNumberWithMetadata (BuildMetadata cfg))
  else if nonEmpty (PreReleaseName cfg)
          && negb (validateSemVerPreReleaseName (PreReleaseName cfg))
  then Some (ErrInvalidPreReleaseName (PreReleaseName cfg))
  else if String.eqb (PreReleaseTimestampLayout cfg) EmptyString
          || String.eqb (PreReleaseTimestampLayout cfg) "datetime"
          || String.eqb (PreReleaseTimestampLayout cfg) "epoch"
  then None
  else Some (ErrInvalidTimestampLayout (PreReleaseTimestampLayout cfg)).

(** *** Bump operations *)

(** Modelled from the spec: the file declaring [bumper], [majorBumper],
    [minorBumper], [patchBumper] and their method [bump] is missing.
    The spec gives: Major -> (major+1,0,0); Minor -> (major,minor+1,0);
    Patch -> (major,minor,patch+1); all strip prerelease and build
    metadata. *)
Definition bump (b : bumper) (cur : Version) : result error Version :=
  let major := nth 0 (Segments64 cur) 0 in
  let minor := nth 1 (Segments64 cur) 0 in
  let patch := nth 2 (Segments64 cur) 0 in
  let segs := match b with
              | majorBumper => [major + 1; 0; 0]
              | minorBumper => [major; minor + 1; 0]
              | patchBumper => [major; minor; patch + 1]
              end in
  Ok {| metadata := EmptyString;
        pre := EmptyString;
        segments := segs;
        si := 3;
        original := strings.Join (map strconv.FormatInt segs) "." |}.

(** *** Commit classification *)

Definition parseAutotagCommit (msg : string) : option bumper :=
  if MatchString majorRex msg then Some majorBumper
  else if MatchString minorRex msg then Some minorBumper
  else if MatchString patchRex msg then Some patchBumper
  else None.

Definition findNamedMatches (regex : Regexp) (str : string)
  : list (string * string) :=
  match FindStringSubmatch regex str with
  | None => []
  | Some matches =>
      fold_left (fun results ni => mapAssign results (fst ni) (snd ni))
                (combine (SubexpNames regex) matches) []
  end.

Definition mapGet (m : list (string * string)) (key : string) : string :=
  match mapIndex m key with
  | Some v => v
  | None => EmptyString
  end.

Definition parseConventionalCommit (msg : string) (strictMatch : bool)
  : option bumper :=
  let matches := findNamedMatches conventionalCommitRex msg in
  let bumperType :=
    mapIndex conventionalCommitAuthorizedTypes (mapGet matches "type") in
  let authorized := isSome bumperType in
  if strictMatch && negb authorized then None
  else if strings.Contains msg (strings.LF ++ "BREAKING CHANGE:")
  then Some majorBumper
  else match mapIndex matches "breaking" with
       | Some breaking =>
           if String.eqb breaking "!" then Some majorBumper
           else bumperType
       | None => bumperType
       end.

(** The [switch] of [parseCommit] on the scheme. *)
Definition schemeBumper (scheme : string) (strictMatch : bool)
           (msg : string) : option bumper :=
  if String.eqb scheme "conventional"
  then parseConventionalCommit msg strictMatch
  else if String.eqb scheme EmptyString || String.eqb scheme "autotag"
  then parseAutotagCommit msg
  else None.

Definition parseCommit (r : GitRepo) (commit : git.Commit)
  : result error (option Version) :=
  let msg := git.Message commit in
  let b := schemeBumper (scheme r) (strictMatch r) msg in
  match b with
  | None => if strictMatch r then Err (ErrNoMatch (git.ID commit))
            else Ok None
  | Some b =>
      cur <- deref (currentVersion r) ;;
      v <- bump b cur ;;
      Ok (Some v)
  end.

(** *** Tag index *)

(** The pair returned by [parseVersion]: a pointer that may be nil and
    an error that may be nil. *)
Definition parseVersion (v : string) : option Version * option error :=
  let v :=
    if MatchString versionRex v then
      match FindStringSubmatch versionRex v with
      | Some m => if (2 <=? List.length m)%nat
                  then nth 1 m EmptyString else v
      | None => v
      end
    else v in
  match NewVersion v with
  | Ok nVersion => (Some nVersion, None)
  | Err _ =>
      (* [version.NewVersion] returns a nil pointer with its error, so
         the test [err != nil && nVersion != nil] fails *)
      (None, None)
  end.

Definition maybeVersionFromTag (tag : string)
  : result error (option Version) :=
  if String.eqb tag EmptyString then Err ErrEmptyTag
  else match parseVersion tag with
       | (_, Some vErr) => Err vErr
       | (ver, None) => Ok ver
       end.

(** The first loop of [parseTags]: [versions] is the map from version
    pointers to commits, one entry per version tag.  Go ranges over a
    map in an unspecified order; the order of insertion stands for it,
    and the tags are any list. *)
Fixpoint collectVersions (rp : git.Repository) (tags : list string)
         (versions : list (Version * git.Commit))
  : result error (list (Version * git.Commit)) :=
  match tags with
  | [] => Ok versions
  | commit :: tags' =>
      match maybeVersionFromTag commit with
      | Err _ => collectVersions rp tags' versions
      | Ok None => collectVersions rp tags' versions
      | Ok (Some v) =>
          match git.CommitByRevision rp commit with
          | Err err => Err (ErrReadingCommit commit err)
          | Ok c => collectVersions rp tags' (versions ++ [(v, c)])
          end
      end
  end.

(** [sort.Sort(sort.Reverse(version.Collection(keys)))]: the element at
    [j] moves before the one at [j-1] when the latter is
    [LessThan] it. *)
Definition sortReverse (keys : list (Version * git.Commit))
  : list (Version * git.Commit) :=
  sort.Sort (fun x p => LessThan (fst p) (fst x)) keys.

(** The second loop of [parseTags], [i] being the index of the head of
    [keys]. *)
Fixpoint scanKeys (r : GitRepo) (i : nat)
         (keys : list (Version * git.Commit)) : result error GitRepo :=
  match keys with
  | [] => Err ErrNoStableTags
  | (version, c) :: keys' =>
      let r := if (i =? 0)%nat then setLatestTag r version c else r in
      let r :=
        if nonEmpty (preReleaseName r) && nonEmpty (Prerelease version)
           && negb (isSome (curPreReleaseVer r))
        then
          if strings.HasPrefix (Prerelease version)
                               (preReleaseName r ++ ".")
          then setCurPreReleaseVer r version else r
        else r in
      if (String.length (Prerelease version) =? 0)%nat
      then Ok (setCurrent r version c)
      else scanKeys r (S i) keys'
  end.

Definition parseTags (r : GitRepo) : result error GitRepo :=
  match git.Tags (repo r) with
  | Err err => Err (ErrFetchTags err)
  | Ok tags =>
      versions <- collectVersions (repo r) tags [] ;;
      scanKeys r 0 (sortReverse versions)
  end.

(** *** Pre-release composition *)

Definition preReleaseVersion (now : time.Time) (v : Version)
           (curPrereleaseVer : option Version) (name tsLayout : string)
           (autoIncrease : bool) : result error Version :=
  if (String.length name =? 0)%nat && (String.length tsLayout =? 0)%nat
  then Ok v
  else if (0 <? String.length (Prerelease v))%nat
  then Err ErrAlreadyPreRelease
  else
    let buf := name in
    buf <-
      (if (0 <? String.length tsLayout)%nat then
         let buf := if (0 <? String.length buf)%nat
                    then buf ++ "." else buf in
         let timestamp :=
           if String.eqb tsLayout "epoch"
           then strconv.FormatInt (time.Unix now)
           else time.Format now tsLayout in
         Ok (buf ++ timestamp)
       else if (0 <? String.length name)%nat && autoIncrease then
         let buf := if (0 <? String.length buf)%nat
                    then buf ++ "." else buf in
         prereleaseNumber <-
           match curPrereleaseVer with
           | None => Ok "1"
           | Some cur =>
               let prereleaseParts :=
                 strings.Split (Prerelease cur) "." in
               if (List.length prereleaseParts =? 2)%nat then
                 match strconv.ParseUint
                         (nth 1 prereleaseParts EmptyString) with
                 | (_, Some _) => Err ErrPreReleaseNumber
                 | (currentPrereleaseNumber, None) =>
                     Ok (strconv.FormatUint
                           (strconv.incUint64 currentPrereleaseNumber))
                 end
               else Ok "1"
           end ;;
         Ok (buf ++ prereleaseNumber)
       else Ok buf) ;;
    NewVersion (version.String v ++ "-" ++ buf).

(** *** Version resolution *)

Definition retrieveBranchInfo (r : GitRepo) : result error GitRepo :=
  match git.BranchCommitID (repo r) (branch r) with
  | Err err => Err (ErrHeadCommit err)
  | Ok id => Ok (setBranchID r id)
  end.

(** The loop of [calcVersion] over the commits, oldest first. *)
Fixpoint walkCommits (r : GitRepo) (commits : list (option git.Commit))
  : result error GitRepo :=
  match commits with
  | [] => Ok r
  | commit :: rest =>
      match commit with
      | None => Err ErrNilCommit
      | Some commit =>
          v <- parseCommit r commit ;;
          r <- match v with
               | None => Ok r
               | Some v =>
                   cur <- deref (newVersion r) ;;
                   Ok (if GreaterThan v cur
                       then setNewVersion r (Some v) else r)
               end ;;
          walkCommits r rest
      end
  end.

(** "if there is no movement on the version from commits, bump
    patch" *)
Definition bumpFallback (r : GitRepo) : result error GitRepo :=
  new <- deref (newVersion r) ;;
  cur <- deref (currentVersion r) ;;
  if Equal new cur then
    if strictMatch r then Err ErrNoBumpFound
    else v <- bump patchBumper cur ;; Ok (setNewVersion r (Some v))
  else Ok r.

(** "append pre-release-name and/or pre-release-timestamp to the
    version" *)
Definition appendPreRelease (now : time.Time) (r : GitRepo)
  : result error GitRepo :=
  if (0 <? String.length (preReleaseName r))%nat
     || (0 <? String.length (preReleaseTimestampLayout r))%nat
  then
    new <- deref (newVersion r) ;;
    v <- preReleaseVersion now new (curPreReleaseVer r)
           (preReleaseName r) (preReleaseTimestampLayout r)
           (preReleaseNumber r) ;;
    Ok (setNewVersion r (Some v))
  else Ok r.

(** "append optional build metadata" *)
Definition appendBuildMetadata (r : GitRepo) : result error GitRepo :=
  if buildNumber r then
    if nonEmpty (buildMetadata r) then Err ErrCustomWithBuildNumber
    else
      latest <- deref (latestTagVersion r) ;;
      let metadata := Metadata latest in
      buildMetadata <-
        (if String.eqb metadata EmptyString then Ok "1"
         else match strconv.ParseUint metadata with
              | (_, Some _) => Err ErrBuildNumber
              | (currentBuildNumber, None) =>
                  Ok (strconv.FormatUint
                        (strconv.incUint64 currentBuildNumber))
              end) ;;
      new <- deref (newVersion r) ;;
      v <- NewVersion (version.String new ++ "+" ++ buildMetadata) ;;
      Ok (setNewVersion r (Some v))
  else if nonEmpty (buildMetadata r) then
    new <- deref (newVersion r) ;;
    v <- NewVersion (version.String new ++ "+" ++ buildMetadata r) ;;
    Ok (setNewVersion r (Some v))
  else Ok r.

Definition calcVersion (now : time.Time) (r : GitRepo)
  : result error GitRepo :=
  let r := setNewVersion r (currentVersion r) in
  r <- retrieveBranchInfo r ;;
  startCommit <- git.BranchCommit (repo r) (branch r) ;;
  tag <- deref (currentTag r) ;;
  let revList := [git.ID tag ++ ".." ++ git.ID startCommit] in
  let l := fst (git.RevList (repo r) revList) in
  if (List.length l =? 0)%nat && strictMatch r then Err ErrSameCommit
  else
    r <- walkCommits r (rev l) ;;
    r <- bumpFallback r ;;
    r <- appendPreRelease now r ;;
    appendBuildMetadata r.

Definition LatestVersion (r : GitRepo) : result error string :=
  new <- deref (newVersion r) ;;
  Ok (version.String new).

(** *** Construction *)

(** What [NewRepo] asks of the operating system and of git. *)
Record Env : Type := mkEnv {
  filepathAbs : string -> result error string;
  filepathJoin : string -> string -> string;
  (** the error of [os.Stat] when [os.IsNotExist] holds of it *)
  statNotExist : string -> option error;
  gitOpen : string -> result error git.Repository;
  timeNow : time.Time
}.

Definition generateGitDirPath (env : Env) (repoPath : string)
  : result error string :=
  absolutePath <- filepathAbs env repoPath ;;
  Ok (filepathJoin env absolutePath ".git").

(** The search for "main" or "master" among the branches. *)
Fixpoint locateBranch (branches : list string) (found : string) : string :=
  match branches with
  | [] => found
  | b :: rest =>
      if String.eqb b "main" then "main"
      else if String.eqb b "master" then locateBranch rest "master"
      else locateBranch rest found
  end.

Definition NewRepo (env : Env) (cfg : GitRepoConfig)
  : result error GitRepo :=
  match validateConfig cfg with
  | Some err => Err err
  | None =>
      let layout :=
        if String.eqb (PreReleaseTimestampLayout cfg) "datetime"
        then datetimeTsLayout else PreReleaseTimestampLayout cfg in
      gitDirPath <- generateGitDirPath env (RepoPath cfg) ;;
      match statNotExist env gitDirPath with
      | Some err => Err err
      | None =>
          rp <- gitOpen env gitDirPath ;;
          branch <-
            (if String.eqb (Branch cfg) EmptyString then
               branches <- git.Branches rp ;;
               let b := locateBranch branches EmptyString in
               if String.eqb b EmptyString then Err ErrNoMainOrMaster
               else Ok b
             else Ok (Branch cfg)) ;;
          let r := mkGitRepo rp None None None branch EmptyString
                             None None None
                             (PreReleaseName cfg) layout
                             (PreReleaseNumber cfg) (BuildMetadata cfg)
                             (Scheme cfg) (StrictMatch cfg) (Prefix cfg)
                             (BuildNumber cfg) in
          r <- parseTags r ;;
          calcVersion (timeNow env) r
      end
  end.

(** *** Tagging *)

(** [r.repo.CreateTag] writes to the repository, which the snapshot
    does not hold: the call is the function [CreateTag] of the tag name
    and the revision, and returns the text of its error, [None] being
    nil. *)
Definition tagNewVersion (CreateTag : string -> string -> option string)
           (r : GitRepo) : result error unit :=
  new <- deref (newVersion r) ;;
  let tagName := if prefix r then "v" ++ version.String new
                 else version.String new in
  match CreateTag tagName (branchID r) with
  | Some msg => Err (ErrExternal ("error creating tag: " ++ msg))
  | None => Ok tt
  end.

Definition AutoTag (CreateTag : string -> string -> option string)
           (r : GitRepo) : result error unit :=
  tagNewVersion CreateTag r.

End autotag.

Import autotag.

(** ** Test repositories *)

Module testrepo.

(** A repository with one branch: [tags] are its tag names, all on the
    commit "c0"; [commitList] are the messages committed after it,
    oldest first. *)
Definition head (commitList : list string) : git.Commit :=
  git.mkCommit ("c" ++ strconv.FormatUint (Z.of_nat (List.length commitList)))
               (last commitList "seed").

Fixpoint number (i : nat) (msgs : list string) : list (option git.Commit) :=
  match msgs with
  | [] => []
  | m :: rest =>
      Some (git.mkCommit ("c" ++ strconv.FormatUint (Z.of_nat i)) m)
        :: number (S i) rest
  end.

Definition repository (tags commitList : list string) : git.Repository :=
  git.mkRepository
    (Ok tags)
    (fun _ => Ok (git.mkCommit "c0" "seed"))
    (Ok ["main"])
    (fun _ => Ok (git.ID (head commitList)))
    (fun _ => Ok (head commitList))
    (fun _ => (rev (number 1 commitList), None)).

(** The clock of the test suite: 2019-01-01 00:00:00 UTC. *)
Definition clock : time.Time :=
  time.mkTime 1546300800 (fun _ => "20190101000000").

Definition env (tags commitList : list string) : Env :=
  mkEnv (fun p => Ok p) (fun a b => a ++ "/" ++ b) (fun _ => None)
        (fun _ => Ok (repository tags commitList)) clock.

Definition config (scheme name layout : string)
           (number strict buildNumber : bool) (meta : string)
  : GitRepoConfig :=
  mkGitRepoConfig "/repo" "main" name layout number meta scheme true
                  strict buildNumber.

Definition latest (tags commitList : list string) (cfg : GitRepoConfig)
  : result error string :=
  r <- NewRepo (env tags commitList) cfg ;; LatestVersion r.

End testrepo.


(** ** Vocabulary of the expressions *)

Module relang.
Import regexp.

(** Every byte of [s] satisfies [p]. *)
Fixpoint allChars (p : ascii -> bool) (s : string) : bool :=
  match s with
  | EmptyString => true
  | String.String a s' => p a && allChars p s'
  end.

(** [s] is empty or begins with a byte that fails [p]. *)
Definition stopsAt (p : ascii -> bool) (s : string) : bool :=
  match s with
  | EmptyString => true
  | String.String a _ => negb (p a)
  end.

(** The bytes an expression can consume. *)
Fixpoint alphabet (r : Syntax) (a : ascii) : bool :=
  match r with
  | Class p => p a
  | Cat r1 r2 | Alt r1 r2 => alphabet r1 a || alphabet r2 a
  | Star _ r1 | Group _ r1 => alphabet r1 a
  | Empty | BeginText | EndText => false
  end.

(** [I] survives the recording of every group of [r]. *)
Fixpoint Preserves (I : Captures -> Prop) (r : Syntax) : Prop :=
  match r with
  | Cat r1 r2 | Alt r1 r2 => Preserves I r1 /\ Preserves I r2
  | Star _ r1 => Preserves I r1
  | Group i r1 =>
      Preserves I r1
      /\ forall w c, allChars (alphabet r1) w = true -> I c -> I ((i, w) :: c)
  | Empty | Class _ | BeginText | EndText => True
  end.

End relang.

Import relang.

(** ** Vocabulary of the properties *)

Module props.
Import regexp version autotag.

(** The version a run resolves to, if it succeeds. *)
Definition resolved (m : result error GitRepo) : option Version :=
  match m with
  | Ok r => newVersion r
  | Err _ => None
  end.

(** The header of a commit message is its first line. *)
Definition header (msg : string) : string :=
  hd EmptyString (strings.Split msg (ascii_of_nat 10)).

(** The two breaking-change signals of a Conventional Commits message, as
    written: a "!" immediately before the colon in the header, and a
    line that begins with "BREAKING CHANGE:" after the first. *)
Definition bangBeforeColon (msg : string) : bool :=
  strings.Contains (header msg) "!:".
Definition breakingFooter (msg : string) : bool :=
  strings.Contains msg (strings.LF ++ "BREAKING CHANGE:").

(** The type the expression of the scheme reads off a message, whether
    the table authorizes it, and whether the expression read a "!" after
    the type and scope. *)
Definition conventionalType (msg : string) : string :=
  mapGet (findNamedMatches conventionalCommitRex msg) "type".
Definition authorizedType (msg : string) : bool :=
  isSome (mapIndex conventionalCommitAuthorizedTypes (conventionalType msg)).
Definition breakingMark (msg : string) : bool :=
  match mapIndex (findNamedMatches conventionalCommitRex msg) "breaking" with
  | Some b => String.eqb b "!"
  | None => false
  end.

(** The pieces of [conventionalCommitRex]: the type, the optional
    parentheses, the optional "!", the scope that holds both, and the
    subject. *)
Definition typeRe : Syntax := Group 1 (Plus (Class perlW)).
Definition parenRe : Syntax :=
  Quest (Alt (Cat (Lit "(") (Cat (Star true (Class notParenCRLF)) (Lit ")")))
             (Lit "(")).
Definition bangRe : Syntax := Quest (Group 3 (Lit "!")).
Definition scopeRe : Syntax := Group 2 (Cat parenRe bangRe).
Definition subjectRe : Syntax :=
  Group 4 (Cat (Lit ":") (Star true (Class anyCharNotNL))).

(** The continuation that ends a search. *)
Definition finish : string -> Captures -> option (string * Captures) :=
  fun s c => Some (s, c).

(** A scope as Conventional Commits writes it: none, or parentheses
    around text without parentheses and line ends. *)
Definition scopeForm (scope : string) : Prop :=
  scope = ""
  \/ exists inner,
       allChars notParenCRLF inner = true /\ scope = "(" ++ inner ++ ")".

(** The message begins with blanks, a type [ty] of word characters, a
    scope and a "!". *)
Definition bangHeader (msg ty : string) : Prop :=
  exists ws scope rest,
    msg = ws ++ ty ++ scope ++ String.String "!" rest
    /\ allChars perlS ws = true
    /\ ty <> "" /\ allChars perlW ty = true
    /\ scopeForm scope.

(** The errors of [validateConfig]. *)
Definition isConfigError (e : error) : bool :=
  match e with
  | ErrInvalidBuildMetadata _ | ErrBuildNumberWithMetadata _
  | ErrInvalidPreReleaseName _ | ErrInvalidTimestampLayout _ => true
  | _ => false
  end.

(** Some dot-separated identifier of the name begins with "0". *)
Definition hasZeroLedIdentifier (name : string) : bool :=
  existsb (fun s => strings.HasPrefix s "0") (strings.Split name ".").

(** The version a tag name parses to, if it is a version tag, and the
    versions of a list of tag names. *)
Definition versionOfTag (tag : string) : option Version :=
  match maybeVersionFromTag tag with
  | Ok (Some v) => Some v
  | _ => None
  end.

Definition isVersionTag (tag : string) : bool := isSome (versionOfTag tag).

Definition parsedVersions (tags : list string) : list Version :=
  flat_map (fun t => match versionOfTag t with
                     | Some v => [v]
                     | None => []
                     end) tags.

Definition stable (v : Version) : bool := String.eqb (Prerelease v) "".

(** A state whose repository lists the tags [tags]. *)
Definition withTags (r : GitRepo) (tags : list string) : GitRepo :=
  mkGitRepo (git.mkRepository (Ok tags)
                              (git.CommitByRevision (repo r))
                              (git.Branches (repo r))
                              (git.BranchCommitID (repo r))
                              (git.BranchCommit (repo r))
                              (git.RevList (repo r)))
            (currentVersion r) (currentTag r) (newVersion r)
            (branch r) (branchID r) (curPreReleaseVer r)
            (latestTagVersion r) (latestTagCommit r) (preReleaseName r)
            (preReleaseTimestampLayout r) (preReleaseNumber r)
            (buildMetadata r) (scheme r) (strictMatch r) (prefix r)
            (buildNumber r).

(** The order of the magnitudes: Major > Minor > Patch. *)
Definition magnitude (b : bumper) : nat :=
  match b with
  | patchBumper => 1
  | minorBumper => 2
  | majorBumper => 3
  end.

(** The greater of the magnitude found so far and one more. *)
Definition better (acc : option bumper) (b : bumper) : option bumper :=
  match acc with
  | None => Some b
  | Some a => if (magnitude a <? magnitude b)%nat then Some b else Some a
  end.

Definition maxMagnitude (bs : list bumper) : option bumper :=
  fold_left better bs None.

(** The messages of a commit range, and the magnitudes of those of its
    commits that the scheme classifies. *)
Definition messages (l : list (option git.Commit)) : list (option string) :=
  map (option_map git.Message) l.

Definition classified (scheme : string) (strict : bool)
           (ms : list (option string)) : list bumper :=
  flat_map (fun om => match om with
                      | Some m => match schemeBumper scheme strict m with
                                  | Some b => [b]
                                  | None => []
                                  end
                      | None => []
                      end) ms.

(** The version [bump] returns. *)
Definition bumped (b : bumper) (cur : Version) : Version :=
  match bump b cur with
  | Ok v => v
  | Err _ => cur
  end.

(** The version selected after a walk that found [best]. *)
Definition selected (cur : Version) (best : option bumper) : Version :=
  match best with
  | Some b => bumped b cur
  | None => cur
  end.

(** What a walk over messages finds, starting from [acc]: nothing when
    it fails. *)
Fixpoint outcome (scheme : string) (strict : bool)
         (ms : list (option string)) (acc : option bumper)
  : option (option bumper) :=
  match ms with
  | [] => Some acc
  | None :: _ => None
  | Some m :: rest =>
      match schemeBumper scheme strict m with
      | None => if strict then None else outcome scheme strict rest acc
      | Some b => outcome scheme strict rest (better acc b)
      end
  end.

(** A state whose repository lists the commits [l], newest first,
    between the baseline and the head. *)
Definition withCommits (r : GitRepo) (l : list (option git.Commit))
  : GitRepo :=
  mkGitRepo (git.mkRepository (git.Tags (repo r))
                              (git.CommitByRevision (repo r))
                              (git.Branches (repo r))
                              (git.BranchCommitID (repo r))
                              (git.BranchCommit (repo r))
                              (fun _ => (l, None)))
            (currentVersion r) (currentTag r) (newVersion r)
            (branch r) (branchID r) (curPreReleaseVer r)
            (latestTagVersion r) (latestTagCommit r) (preReleaseName r)
            (preReleaseTimestampLayout r) (preReleaseNumber r)
            (buildMetadata r) (scheme r) (strictMatch r) (prefix r)
            (buildNumber r).

(** The phases of [calcVersion] after the walk. *)
Definition compose (now : time.Time) (r : GitRepo) : result error GitRepo :=
  r <- bumpFallback r ;;
  r <- appendPreRelease now r ;;
  appendBuildMetadata r.

(** No commit of the range is nil and the scheme, not strict,
    classifies none. *)
Definition noneClassifies (scheme : string) (l : list (option git.Commit))
  : bool :=
  forallb (fun oc => match oc with
                     | Some c =>
                         negb (isSome (schemeBumper scheme false
                                                    (git.Message c)))
                     | None => false
                     end) l.

(** The only repository the environment opens is [rp]. *)
Definition gitOpenOnly (env : Env) (rp : git.Repository) : Prop :=
  forall dir rp', gitOpen env dir = Ok rp' -> rp' = rp.

(** The baseline a tag index ends with. *)
Definition baseline (m : result error GitRepo)
  : result error (option Version * option git.Commit) :=
  mapOk (fun r => (currentVersion r, currentTag r)) m.

Definition withPreReleaseNumber (cfg : GitRepoConfig) (b : bool)
  : GitRepoConfig :=
  mkGitRepoConfig (RepoPath cfg) (Branch cfg) (PreReleaseName cfg)
                  (PreReleaseTimestampLayout cfg) b (BuildMetadata cfg)
                  (Scheme cfg) (Prefix cfg) (StrictMatch cfg)
                  (BuildNumber cfg).

Definition setPreReleaseNumber (r : GitRepo) (b : bool) : GitRepo :=
  mkGitRepo (repo r) (currentVersion r) (currentTag r) (newVersion r)
            (branch r) (branchID r) (curPreReleaseVer r)
            (latestTagVersion r) (latestTagCommit r) (preReleaseName r)
            (preReleaseTimestampLayout r) b
            (buildMetadata r) (scheme r) (strictMatch r) (prefix r)
            (buildNumber r).

End props.

Import props.

(** ** Fixtures *)

(** The state of the strict Conventional Commits tests before tag
    indexing, and their commit with a "!" after an unknown type. *)
Definition strictRepo : GitRepo :=
  mkGitRepo (testrepo.repository ["v1.0.0"] []) None None None "main" ""
            None None None "" "" false "" "conventional" true true false.

Definition bangCommit : git.Commit := git.mkCommit "c1" "foo!: thing 1".

(** A configuration whose pre-release name is "0abc". *)
Definition zeroLedConfig : GitRepoConfig :=
  testrepo.config "" "0abc" "" false false false "".

(** The message of a commit whose body, not its header, mentions
    "#major". *)
Definition bodyTokenMessage : string :=
  "fix typo in readme" ++ strings.LF ++ strings.LF
  ++ "follow-up of the #major rewrite".

(** ** Vocabulary of versions *)

Module verprops.
Import regexp version.

Definition digitOrDot (a : ascii) : bool := isDigit a || Ascii.eqb "." a.

(** The segments of a parsed version are not negative. *)
Definition nonneg (v : Version) : Prop :=
  Forall (fun z => 0 <= z) (segments v).

(** Precedence by segments alone: [segLe a b] when [a] does not come
    after [b]. *)
Definition segLe (a b : list Z) : Prop := compareSegments a b <= 0.

(** A reversed sorted prefix ascends by segments. *)
Definition ascending (acc : list (Version * git.Commit)) : Prop :=
  StronglySorted (fun a b => segLe (segments (fst a)) (segments (fst b))) acc.

(** The order [sortReverse] sorts by. *)
Definition lessKey (x p : Version * git.Commit) : bool :=
  LessThan (fst p) (fst x).

End verprops.

Import verprops.

(** The state [NewRepo] builds for a test repository before the tag
    index, and the state after it. *)
Definition initial (tags commitList : list string) (cfg : GitRepoConfig)
  : GitRepo :=
  mkGitRepo (testrepo.repository tags commitList) None None None "main" ""
            None None None (PreReleaseName cfg)
            (PreReleaseTimestampLayout cfg) (PreReleaseNumber cfg)
            (BuildMetadata cfg) (Scheme cfg) (StrictMatch cfg) (Prefix cfg)
            (BuildNumber cfg).

Definition indexed (tags commitList : list string) (cfg : GitRepoConfig)
  : GitRepo :=
  match parseTags (initial tags commitList cfg) with
  | Ok r => r
  | Err _ => initial tags commitList cfg
  end.

(** Configurations of the test suite: the default one, one with
    buildNumber, one with a numbered pre-release "dev". *)
Definition plainConfig : GitRepoConfig :=
  testrepo.config "" "" "" false false false "".
Definition buildNumberConfig : GitRepoConfig :=
  testrepo.config "" "" "" false false true "".
Definition devNumberConfig : GitRepoConfig :=
  testrepo.config "" "dev" "" true false false "".

(** A stable tag with a counter and a later pre-release tag with
    another. *)
Definition countedTags : list string := ["v1.0.1+5"; "v1.0.2-dev.1+9"].

(** A pre-release tag whose number is 2^64. *)
Definition hugeNumberTags : list string :=
  ["v1.0.1"; "v1.0.2-dev.18446744073709551616"].

(** Tags of which two are not versions and one is a pre-release. *)
Definition mixedTags : list string := ["v1.0.0"; "foo"; ""; "v1.0.1-pre"].

(** The version and the metadata of the baseline and of the resolved
    version of a run. *)
Definition summary (m : result error GitRepo)
  : result error (option string * option string) :=
  mapOk (fun r => (option_map version.String (currentVersion r),
                   option_map version.String (newVersion r))) m.

(** Two commits of the test suite, oldest first, and the same in the
    other order. *)
Definition minorThenMajor : list (option git.Commit) :=
  [Some (git.mkCommit "c1" "[minor]: thing 1");
   Some (git.mkCommit "c2" "[major]: drop support for Node 6")].
Definition majorThenMinor : list (option git.Commit) :=
  [Some (git.mkCommit "c1" "[major]: drop support for Node 6");
   Some (git.mkCommit "c2" "[minor]: thing 1")].

(** ** Vocabulary of the further properties *)

Module cover.
Import regexp version autotag.

(** The scheme, strict, does not classify the message of [c]. *)
Definition unmatched (scheme : string) (c : git.Commit) : bool :=
  negb (isSome (schemeBumper scheme true (git.Message c))).

(** The pre-release of [v] begins with [name] and a dot. *)
Definition continues (name : string) (v : Version) : bool :=
  strings.HasPrefix (Prerelease v) (name ++ ".").

(** What the configuration and [NewRepo] put in a state, which the tag
    index and the resolution leave alone. *)
Definition settings (r : GitRepo) :=
  (repo r, branch r, preReleaseName r, preReleaseTimestampLayout r,
   preReleaseNumber r, buildMetadata r, scheme r, strictMatch r, prefix r,
   buildNumber r).

(** The tag [tag] of the repository [rp] is the version [v] on the
    commit [c]. *)
Definition tagged (rp : git.Repository) (tags : list string)
           (v : Version) (c : git.Commit) : Prop :=
  exists tag,
    In tag tags /\ versionOfTag tag = Some v
    /\ git.CommitByRevision rp tag = Ok c.

End cover.

Import cover.

(** ** Fixtures and vocabulary of the further properties *)

(** The configuration [cfg] with the branch [b]. *)
Definition withBranch (cfg : GitRepoConfig) (b : string) : GitRepoConfig :=
  mkGitRepoConfig (RepoPath cfg) b (PreReleaseName cfg)
                  (PreReleaseTimestampLayout cfg) (PreReleaseNumber cfg)
                  (BuildMetadata cfg) (Scheme cfg) (Prefix cfg)
                  (StrictMatch cfg) (BuildNumber cfg).

(** The default configuration without a branch, and an environment
    whose repository has the branches [branches]. *)
Definition noBranchConfig : GitRepoConfig := withBranch plainConfig "".

Definition branchesEnv (branches : list string) : Env :=
  mkEnv (fun p => Ok p) (fun a b => a ++ "/" ++ b) (fun _ => None)
        (fun _ => Ok (git.mkRepository
                        (Ok ["v1.0.0"]) (fun _ => Ok (git.mkCommit "c0" "seed"))
                        (Ok branches) (fun b => Ok b)
                        (fun b => Ok (git.mkCommit b "seed"))
                        (fun _ => ([], None))))
        testrepo.clock.

(** The errors of the phases of [calcVersion] after the walk, those of
    [version.NewVersion] included, and all the errors [calcVersion]
    builds itself. *)
Definition compositionError (e : error) : bool :=
  match e with
  | ErrNoBumpFound | ErrAlreadyPreRelease | ErrPreReleaseNumber
  | ErrCustomWithBuildNumber | ErrBuildNumber
  | ErrMalformedVersion _ | ErrParsingVersion _ => true
  | _ => false
  end.

Definition resolutionError (e : error) : bool :=
  compositionError e
  || match e with
     | ErrHeadCommit _ | ErrSameCommit | ErrNilCommit | ErrNoMatch _ => true
     | _ => false
     end.

(** A strict Conventional Commits state on the tag "v1.0.0", and three
    commits, oldest first, of which the last two have unknown types. *)
Definition strictIndexed : GitRepo :=
  indexed ["v1.0.0"] [] (testrepo.config "conventional" "" "" false true
                                         false "").

Definition threeCommits : list git.Commit :=
  [git.mkCommit "c1" "feat: thing 1";
   git.mkCommit "c2" "foo: thing 2";
   git.mkCommit "c3" "bar: thing 3"].

(** Tags of which one is a pre-release "alpha.beta" numbered 1, and the
    numbered pre-release configuration of that name. *)
Definition dottedNameTags : list string := ["v1.0.0"; "v1.0.1-alpha.beta.1"].
Definition dottedNameConfig : GitRepoConfig :=
  testrepo.config "" "alpha.beta" "" true false false "".

(** Tags with pre-releases "dev" below and above the stable tag. *)
Definition devTags : list string :=
  ["v0.9.0-dev.7"; "v1.0.0"; "v1.0.1-dev.2"; "v1.0.1-dev.3"; "v1.0.1-rc.9"].

(** A non-empty text of ASCII letters, digits and hyphens: an identifier
    of SemVer build metadata. *)
Definition identifier (s : string) : bool :=
  nonEmpty s && allChars alnumHyphen s.

(** [t] begins [s], and [t] occurs in [s], up to the case of ASCII
    letters; [t] is [u] up to case. *)
Fixpoint prefixFold (t s : string) : bool :=
  match t, s with
  | EmptyString, _ => true
  | String.String _ _, EmptyString => false
  | String.String a t', String.String b s' =>
      Ascii.eqb (regexp.lower b) (regexp.lower a) && prefixFold t' s'
  end.

Fixpoint containsFold (s t : string) : bool :=
  if prefixFold t s then true
  else match s with
       | EmptyString => false
       | String.String _ s' => containsFold s' t
       end.

Definition sameFold (t u : string) : bool :=
  (String.length t =? String.length u)%nat && prefixFold t u.

(** A message mentions a magnitude by its word in square brackets or
    after "#", in any case. *)
Definition mentions (word msg : string) : bool :=
  containsFold msg ("[" ++ word ++ "]") || containsFold msg ("#" ++ word).

(** A tag name without its leading "v", if it has one, and whether a
    text begins with a digit. *)
Definition stripV (s : string) : string :=
  match s with
  | String.String a s' => if Ascii.eqb a "v" then s' else s
  | EmptyString => s
  end.

Definition startsWithDigit (s : string) : bool :=
  match s with
  | String.String a _ => regexp.isDigit a
  | EmptyString => false
  end.

(** The group of [versionRex]. *)
Definition versionGroup : regexp.Syntax :=
  regexp.Group 1
    (regexp.Cat (regexp.Plus (regexp.Class regexp.perlD))
       (regexp.Cat (regexp.Quest (regexp.Lit "."))
                   (regexp.Star true (regexp.Class regexp.anyCharNotNL)))).

(** The longest beginning of a text over a class, and what follows
    it. *)
Fixpoint takeWhile (p : ascii -> bool) (s : string) : string :=
  match s with
  | String.String a s' => if p a then String.String a (takeWhile p s') else ""
  | EmptyString => ""
  end.

Fixpoint dropWhile (p : ascii -> bool) (s : string) : string :=
  match s with
  | String.String a s' => if p a then dropWhile p s' else s
  | EmptyString => ""
  end.

Definition startsWith (ch : ascii) (s : string) : bool :=
  match s with
  | String.String a _ => Ascii.eqb a ch
  | EmptyString => false
  end.

Definition startsWithWord (s : string) : bool :=
  match s with
  | String.String a _ => regexp.perlW a
  | EmptyString => false
  end.

(** The first word of a message, after its leading blanks, and the text
    after that word. *)
Definition firstWord (msg : string) : string :=
  takeWhile regexp.perlW (dropWhile regexp.perlS msg).

Definition afterWord (msg : string) : string :=
  dropWhile regexp.perlW (dropWhile regexp.perlS msg).

(** The text after an optional scope: parentheses around a text without
    parentheses and line ends, or else a lone opening parenthesis. *)
Definition afterParen (t : string) : string :=
  match t with
  | String.String a t' =>
      if Ascii.eqb a "("
      then match dropWhile notParenCRLF t' with
           | String.String b u => if Ascii.eqb b ")" then u else t'
           | EmptyString => t'
           end
      else t
  | EmptyString => t
  end.

Definition afterBang (u : string) : string :=
  match u with
  | String.String a u' => if Ascii.eqb a "!" then u' else u
  | EmptyString => u
  end.

(** A "!" follows the first word and its optional scope. *)
Definition bangAfterScope (msg : string) : bool :=
  nonEmpty (firstWord msg) && startsWith "!" (afterParen (afterWord msg)).

(** The value of the digits [d] after the value [acc]. *)
Fixpoint decValue (acc : Z) (d : Decimal.uint) : Z :=
  match d with
  | Decimal.Nil => acc
  | Decimal.D0 l => decValue (10 * acc) l
  | Decimal.D1 l => decValue (10 * acc + 1) l
  | Decimal.D2 l => decValue (10 * acc + 2) l
  | Decimal.D3 l => decValue (10 * acc + 3) l
  | Decimal.D4 l => decValue (10 * acc + 4) l
  | Decimal.D5 l => decValue (10 * acc + 5) l
  | Decimal.D6 l => decValue (10 * acc + 6) l
  | Decimal.D7 l => decValue (10 * acc + 7) l
  | Decimal.D8 l => decValue (10 * acc + 8) l
  | Decimal.D9 l => decValue (10 * acc + 9) l
  end.


(** ** Vocabulary of the version expression *)

Module vertext.
Import regexp version.

(** A non-empty text over a class. *)
Definition word (p : ascii -> bool) (s : string) : bool :=
  nonEmpty s && allChars p s.

(** The text of dotted parts, a dot before each, and the captures a
    group numbered [i] leaves when it takes them one by one. *)
Fixpoint dots (ids : list string) : string :=
  match ids with
  | [] => ""
  | id :: rest => "." ++ id ++ dots rest
  end.

Definition pushAll (i : nat) (ids : list string) (c : Captures) : Captures :=
  fold_left (fun c id => (i, "." ++ id) :: c) ids c.

(** [r] takes [s] down to [s'] and turns the captures [c] into [c'],
    before anything else it could do, whenever what follows succeeds
    there; [r] fails on [s] whatever follows. *)
Definition Takes (n : nat) (r : Syntax) (s s' : string) (c c' : Captures)
  : Prop :=
  forall (R : Type) (K : string -> Captures -> option R) (x : R),
    K s' c' = Some x -> run n r s c K = Some x.

Definition Fails (n : nat) (r : Syntax) (s : string) (c : Captures) : Prop :=
  forall (R : Type) (K : string -> Captures -> option R),
    run n r s c K = None.

(** The pieces of [VersionRegexpRaw]: the segments, the pre-release
    and the metadata. *)
Definition dottedGroup (i : nat) (p : ascii -> bool) : Syntax :=
  Group i (Cat (Lit ".") (Plus (Class p))).

Definition segmentsRe : Syntax :=
  Group 1 (Cat (Plus (Class isDigit)) (Star false (dottedGroup 2 isDigit))).

Definition prereleaseRe : Syntax :=
  Group 3
    (Alt (Cat (Lit "-")
              (Group 4 (Cat (Plus (Class isDigit))
                       (Cat (Star true (Class idChar)) (dotted 5)))))
         (Group 6 (Cat (Quest (Lit "-"))
                       (Group 7 (Cat (Plus (Class idStart))
                                (Cat (Star true (Class idChar))
                                     (dotted 8))))))).

Definition metadataRe : Syntax :=
  Group 9 (Cat (Lit "+") (Group 10 (Cat (Plus (Class idChar)) (dotted 11)))).

(** A text of identifiers between dots: a first one and dotted ones. *)
Definition dottedText (id0 : string) (ids : list string) : string :=
  id0 ++ dots ids.

(** [sep] and [x], or nothing when [x] is empty. *)
Definition optional (sep x : string) : string :=
  if String.eqb x "" then "" else sep ++ x.

(** The text begins with a character of the class. *)
Definition startsWithClass (p : ascii -> bool) (s : string) : bool :=
  match s with
  | String.String a _ => p a
  | EmptyString => false
  end.

(** A pre-release or a metadata, if any, as its first identifier and
    the dotted ones; its text; whether its identifiers are non-empty
    texts over the class of identifiers. *)
Definition Parts : Type := option (string * list string).

Definition partsText (o : Parts) : string :=
  match o with
  | None => ""
  | Some (id0, ids) => dottedText id0 ids
  end.

Definition partsOK (o : Parts) : bool :=
  match o with
  | None => true
  | Some (id0, ids) => word idChar id0 && forallb (word idChar) ids
  end.

(** The captures the pre-release and the metadata leave. *)
Definition preCaps (o : Parts) (c : Captures) : Captures :=
  match o with
  | None => c
  | Some (id0, ids) =>
      if startsWithClass isDigit id0
      then (3%nat, "-" ++ dottedText id0 ids)
             :: (4%nat, dottedText id0 ids) :: pushAll 5 ids c
      else (3%nat, "-" ++ dottedText id0 ids)
             :: (6%nat, "-" ++ dottedText id0 ids)
             :: (7%nat, dottedText id0 ids) :: pushAll 8 ids c
  end.

Definition metaCaps (o : Parts) (c : Captures) : Captures :=
  match o with
  | None => c
  | Some (id0, ids) =>
      (9%nat, "+" ++ dottedText id0 ids)
        :: (10%nat, dottedText id0 ids) :: pushAll 11 ids c
  end.

(** The text of a version with the segments [seg0] and [segs]. *)
Definition versionText (seg0 : string) (segs : list string)
           (pre meta : Parts) : string :=
  dottedText seg0 segs ++ optional "-" (partsText pre)
  ++ optional "+" (partsText meta).

End vertext.

Import vertext.

(** ** The language of an expression *)

Module relangw.
Import regexp.

Definition flatten (ws : list string) : string :=
  fold_right append "" ws.

(** The texts an expression can take. *)
Fixpoint Lang (r : Syntax) (w : string) : Prop :=
  match r with
  | Empty | BeginText | EndText => w = ""
  | Class p => exists a, w = String.String a "" /\ p a = true
  | Cat r1 r2 => exists w1 w2, w = w1 ++ w2 /\ Lang r1 w1 /\ Lang r2 w2
  | Alt r1 r2 => Lang r1 w \/ Lang r2 w
  | Star _ r1 => exists ws, w = flatten ws /\ Forall (Lang r1) ws
  | Group _ r1 => Lang r1 w
  end.

(** [I] survives the recording of every group of [r] on a text of the
    group. *)
Fixpoint Keeps (I : Captures -> Prop) (r : Syntax) : Prop :=
  match r with
  | Cat r1 r2 | Alt r1 r2 => Keeps I r1 /\ Keeps I r2
  | Star _ r1 => Keeps I r1
  | Group i r1 =>
      Keeps I r1 /\ forall w c, Lang r1 w -> I c -> I ((i, w) :: c)
  | Empty | Class _ | BeginText | EndText => True
  end.

(** A text is the text of some pre-release or metadata with proper
    identifiers, or is empty; the captures that
    [version.NewVersion] reads are such texts. *)
Definition shaped (x : string) : Prop :=
  exists o : Parts, partsOK o = true /\ x = partsText o.

Definition shapedCaptures (c : Captures) : Prop :=
  shaped (lookup 4 c) /\ shaped (lookup 7 c) /\ shaped (lookup 10 c).

End relangw.

Import relangw.

(** ** Versions in normal form *)

Module normal.
Import regexp version autotag.

(** A pre-release or a metadata is empty or made of non-empty
    identifiers between dots. *)
Definition dottedOK (x : string) : bool :=
  String.eqb x "" || forallb (word idChar) (strings.Split x ".").

(** At least three segments, each in the range of a signed word, and a
    pre-release and a metadata of proper identifiers: what
    [version.NewVersion] returns. *)
Definition canonical (v : Version) : bool :=
  (3 <=? List.length (segments v))%nat
  && forallb (fun z => (0 <=? z) && (z <=? strconv.maxInt64)) (segments v)
  && dottedOK (pre v) && dottedOK (metadata v).

(** What [version.NewVersion] makes of the text of [v]. *)
Definition reparsed (v : Version) : Version :=
  {| metadata := metadata v;
     pre := pre v;
     segments := segments v;
     si := List.length (segments v);
     original := version.String v |}.

(** The version [v] with the pre-release [p], and with the metadata
    [m], as [version.NewVersion] reads them off the text. *)
Definition withPre (v : Version) (p : string) : Version :=
  {| metadata := "";
     pre := p;
     segments := segments v;
     si := List.length (segments v);
     original := version.String v ++ "-" ++ p |}.

Definition withMeta (v : Version) (m : string) : Version :=
  {| metadata := m;
     pre := pre v;
     segments := segments v;
     si := List.length (segments v);
     original := version.String v ++ "+" ++ m |}.

(** The name of the tag [tagNewVersion] writes. *)
Definition tagNameOf (r : GitRepo) (v : Version) : string :=
  if prefix r then "v" ++ version.String v else version.String v.

End normal.

Import normal.

(** The version of the tag "v1.2", and a version with a pre-release and
    a metadata, as [version.NewVersion] returns them. *)
Definition shortVersion : version.Version :=
  version.mkVersion "" "" [1; 2; 0] 2 "1.2".

Definition candidateVersion : version.Version :=
  version.mkVersion "7" "rc.1" [1; 2; 0] 2 "1.2-rc.1+7".

(** A state with buildNumber on the tag "v1.0.0+4", whose candidate is
    the version 1.2.0, and the version of that tag. *)
Definition builtTag : version.Version :=
  version.mkVersion "4" "" [1; 0; 0] 3 "1.0.0+4".
Definition countedBuild : GitRepo :=
  setNewVersion (indexed ["v1.0.0+4"] [] buildNumberConfig)
                (Some shortVersion).

(** The state [NewRepo] builds in a repository with the branches
    "develop" and "master" when no branch is configured. *)
Definition builtOnMaster : GitRepo :=
  match NewRepo (branchesEnv ["develop"; "master"]) noBranchConfig with
  | Ok r => r
  | Err _ => initial [] [] noBranchConfig
  end.
(** A state whose pre-release tag "v1.1.0-rc.1" resolves to no commit,
    and a strict state with the scheme "semver", which is none of the
    schemes of [parseCommit]. *)
Definition unreadableTag : GitRepo :=
  mkGitRepo (git.mkRepository
               (Ok ["v1.0.0"; "v1.1.0-rc.1"; "nightly"])
               (fun t => if String.eqb t "v1.1.0-rc.1"
                         then Err (ErrExternal "object not found")
                         else Ok (git.mkCommit "c0" "seed"))
               (Ok ["main"]) (fun b => Ok b)
               (fun b => Ok (git.mkCommit b "seed"))
               (fun _ => ([], None)))
            None None None "main" "" None None None "" "" false "" ""
            false true false.

Definition semverScheme : GitRepo :=
  indexed ["v1.0.0"] [] (testrepo.config "semver" "" "" false true false "").

(** A state without buildNumber whose build metadata is "g12345678" and
    whose candidate is the version 1.2.0. *)
Definition customBuild : GitRepo :=
  setNewVersion
    (indexed ["v1.0.0"] []
             (testrepo.config "" "" "" false false false "g12345678"))
    (Some shortVersion).

(** ** Vocabulary of the order of the tag index and of the walk *)

(** The version of the tag "v1.0.0". *)
Definition firstRelease : version.Version :=
  version.mkVersion "" "" [1; 0; 0] 3 "1.0.0".

(** No commit of the range is nil and, with strictMatch, the scheme
    classifies every one: the walk meets no error. *)
Definition walkable (scheme : string) (strict : bool)
           (ms : list (option string)) : bool :=
  forallb (fun om => match om with
                     | Some m =>
                         negb strict
                         || version.isSome (schemeBumper scheme strict m)
                     | None => false
                     end) ms.

(** go-version's order is consistent on [vs]: no version of [vs] is
    [LessThan] one that is [LessThan] it, and not being [LessThan] is
    transitive on [vs].  It is not so on all versions: the
    pre-releases "a.b", "a" and "a.1" are each [LessThan] the next and
    the last is [LessThan] the first. *)
Definition consistent (vs : list version.Version) : bool :=
  forallb
    (fun a =>
       forallb
         (fun b =>
            (negb (version.LessThan a b) || negb (version.LessThan b a))
            && forallb
                 (fun c => version.LessThan a b || version.LessThan b c
                           || negb (version.LessThan a c))
                 vs)
         vs)
    vs.

(** A reversed sorted prefix in which no entry is [LessThan] a later
    entry of the sorted order. *)
Definition descending (acc : list (version.Version * git.Commit)) : Prop :=
  StronglySorted
    (fun a b => version.LessThan (fst b) (fst a) = false) acc.

(** The state [r] with the buildNumber option [b]. *)
Definition setBuildNumber (r : GitRepo) (b : bool) : GitRepo :=
  mkGitRepo (repo r) (currentVersion r) (currentTag r) (newVersion r)
            (branch r) (branchID r) (curPreReleaseVer r)
            (latestTagVersion r) (latestTagCommit r) (preReleaseName r)
            (preReleaseTimestampLayout r) (preReleaseNumber r)
            (buildMetadata r) (scheme r) (strictMatch r) (prefix r) b.

(** The version [version.NewVersion] reads from a text, if any. *)
Definition parsedText (s : string) : option version.Version :=
  match version.NewVersion s with
  | Ok v => Some v
  | Err _ => None
  end.

(** The version 1.0.2 as a patch bump returns it. *)
Definition patchedRelease : version.Version :=
  version.mkVersion "" "" [1; 0; 2] 3 "1.0.2".

(** Tags with numbered pre-releases "dev" of the same segments, the
    highest number neither first nor last. *)
Definition numberedTags : list string :=
  ["v1.0.0"; "v1.0.1-dev.9"; "v1.0.1-dev.10"; "v1.0.1-dev.2"].

(** The version of the tag "v1.0.1-dev.10". *)
Definition tenthDev : version.Version :=
  version.mkVersion "" "dev.10" [1; 0; 1] 3 "1.0.1-dev.10".

(** Tags of which the stable one has the segments of a pre-release. *)
Definition releasedTags : list string := ["v1.0.2-dev.1+9"; "v1.0.2+3"].

(** * Properties *)

(** Projections of a state built by the assignments. *)
Ltac fields :=
  unfold setPreReleaseNumber, setNewVersion, setBranchID, setCurrent,
    setLatestTag, setCurPreReleaseVer, withCommits, withTags in *;
  cbn [repo currentVersion currentTag newVersion branch branchID
       curPreReleaseVer latestTagVersion latestTagCommit preReleaseName
       preReleaseTimestampLayout preReleaseNumber buildMetadata scheme
       strictMatch prefix buildNumber] in *.

(** ** Strict Conventional Commits and unauthorized types *)

Section StrictConventional.
Import regexp version.

Lemma parseConventionalCommit_strict_unauthorized (msg : string) :
  authorizedType msg = false ->
  parseConventionalCommit msg true = None.
Proof.
  unfold authorizedType, conventionalType, parseConventionalCommit.
  intros H. rewrite H. reflexivity.
Qed.

(** C8: under the Conventional Commits scheme with strictMatch, a commit
    whose type is not in the table of authorized types gets a nil bumper
    and [parseCommit] fails with the error naming the commit, whatever
    else the message holds (a "!" before the colon, a "BREAKING CHANGE:"
    footer); the walk over a range fails at such a commit. *)
Theorem strict_unauthorized_type_fails
        (r : GitRepo) (commit : git.Commit)
        (rest : list (option git.Commit)) :
  scheme r = "conventional" ->
  strictMatch r = true ->
  authorizedType (git.Message commit) = false ->
  parseConventionalCommit (git.Message commit) true = None
  /\ parseCommit r commit = Err (ErrNoMatch (git.ID commit))
  /\ walkCommits r (Some commit :: rest) = Err (ErrNoMatch (git.ID commit)).
Proof.
  intros Hs Hst Hty.
  pose proof (parseConventionalCommit_strict_unauthorized _ Hty) as Hnil.
  assert (Hpc : parseCommit r commit = Err (ErrNoMatch (git.ID commit))).
  { unfold parseCommit, schemeBumper. rewrite Hs, Hst. simpl.
    rewrite Hnil. reflexivity. }
  repeat split; trivial.
  simpl. rewrite Hpc. reflexivity.
Qed.

End StrictConventional.

Lemma strict_unauthorized_type_fails_witness :
  bangBeforeColon (git.Message bangCommit) = true
  /\ parseConventionalCommit (git.Message bangCommit) true = None
  /\ parseCommit strictRepo bangCommit = Err (ErrNoMatch "c1")
  /\ walkCommits strictRepo [Some bangCommit] = Err (ErrNoMatch "c1").
Proof.
  split; [vm_compute; reflexivity|].
  apply (strict_unauthorized_type_fails strictRepo bangCommit []);
    vm_compute; reflexivity.
Defined.

(** ** Validation of the pre-release name *)

Section Validation.
Import regexp version.

Lemma zeroLed_nonEmpty (name : string) :
  hasZeroLedIdentifier name = true -> nonEmpty name = true.
Proof.
  destruct name; [discriminate | reflexivity].
Qed.

Lemma zeroLed_invalid (name : string) :
  hasZeroLedIdentifier name = true ->
  validateSemVerPreReleaseName name = false.
Proof.
  unfold hasZeroLedIdentifier, validateSemVerPreReleaseName.
  intros H. apply existsb_exists in H. destruct H as [s [Hin Hs]].
  destruct (forallb _ _) eqn:E; [|reflexivity].
  rewrite forallb_forall in E. specialize (E s Hin).
  rewrite Hs in E. rewrite orb_true_r in E. discriminate.
Qed.

(** C9: a pre-release name one of whose dot-separated identifiers begins
    with "0" is rejected by [validateSemVerPreReleaseName], alphanumeric
    identifiers such as "0abc" included; [validateConfig] then returns a
    configuration error and [NewRepo] returns it whatever the file system
    and the repository are. *)
Theorem zero_led_prerelease_name_rejected (cfg : GitRepoConfig) :
  hasZeroLedIdentifier (PreReleaseName cfg) = true ->
  validateSemVerPreReleaseName (PreReleaseName cfg) = false
  /\ exists err,
       validateConfig cfg = Some err
       /\ isConfigError err = true
       /\ (nonEmpty (BuildMetadata cfg) = false ->
           err = ErrInvalidPreReleaseName (PreReleaseName cfg))
       /\ forall env, NewRepo env cfg = Err err.
Proof.
  intros H.
  pose proof (zeroLed_invalid _ H) as Hv.
  pose proof (zeroLed_nonEmpty _ H) as Hn.
  split; [exact Hv|].
  assert (Hnew : forall err, validateConfig cfg = Some err ->
                             forall env, NewRepo env cfg = Err err).
  { intros err E env. unfold NewRepo. rewrite E. reflexivity. }
  unfold validateConfig in *. rewrite Hv, Hn in *. simpl in *.
  destruct (nonEmpty (BuildMetadata cfg)) eqn:Em; simpl in *.
  - destruct (negb (validateSemVerBuildMetadata (BuildMetadata cfg))).
    + eexists; repeat split; [discriminate | now apply Hnew].
    + destruct (BuildNumber cfg); simpl in *;
        eexists; repeat split; try discriminate; now apply Hnew.
  - rewrite andb_false_r in *.
    eexists; repeat split; now apply Hnew.
Qed.

End Validation.

Lemma zero_led_prerelease_name_rejected_witness :
  validateSemVerPreReleaseName "0abc" = false
  /\ exists err,
       validateConfig zeroLedConfig = Some err
       /\ isConfigError err = true
       /\ (nonEmpty (BuildMetadata zeroLedConfig) = false ->
           err = ErrInvalidPreReleaseName "0abc")
       /\ forall env, NewRepo env zeroLedConfig = Err err.
Proof.
  apply (zero_led_prerelease_name_rejected zeroLedConfig).
  vm_compute. reflexivity.
Defined.

(** ** The autotag scheme reads the whole message *)

(** C4: the header of [bodyTokenMessage] holds none of the tokens, so
    that the header alone gets no classification, and yet the message is
    classified Major: the expressions are matched against the message,
    body included. *)
Theorem autotag_token_in_body_classifies :
  parseAutotagCommit (header bodyTokenMessage) = None
  /\ parseAutotagCommit bodyTokenMessage = Some majorBumper.
Proof.
  vm_compute. split; reflexivity.
Qed.

(** ** The pre-release number flag without a name or a layout *)

Section NumberFlag.
Import regexp version.

Lemma scanKeys_number (b : bool) keys : forall r i,
  scanKeys (setPreReleaseNumber r b) i keys
  = mapOk (fun r' => setPreReleaseNumber r' b) (scanKeys r i keys).
Proof.
  induction keys as [|[v c] keys IH]; intros r i; simpl; [reflexivity|].
  destruct (String.length (Prerelease v) =? 0)%nat.
  - destruct (i =? 0)%nat; simpl;
      repeat match goal with |- context [if ?x then _ else _] =>
                               destruct x end; reflexivity.
  - rewrite <- IH. f_equal.
    destruct (i =? 0)%nat; simpl;
      repeat match goal with |- context [if ?x then _ else _] =>
                               destruct x end; reflexivity.
Qed.

Lemma parseTags_number (b : bool) (r : GitRepo) :
  parseTags (setPreReleaseNumber r b)
  = mapOk (fun r' => setPreReleaseNumber r' b) (parseTags r).
Proof.
  unfold parseTags. simpl.
  destruct (git.Tags (repo r)); [|reflexivity].
  destruct (collectVersions (repo r) a []); simpl; [|reflexivity].
  apply scanKeys_number.
Qed.

Lemma walkCommits_frame commits : forall r r1,
  walkCommits r commits = Ok r1 -> r1 = setNewVersion r (newVersion r1).
Proof.
  induction commits as [|[c|] commits IH]; intros r r1 H; simpl in H;
    try discriminate.
  - injection H as <-. destruct r; reflexivity.
  - destruct (parseCommit r c) as [[v|]|]; simpl in H; try discriminate.
    + destruct (newVersion r) as [nv|]; simpl in H; [|discriminate].
      destruct (GreaterThan v nv); apply IH in H; exact H.
    + now apply IH.
Qed.

Lemma walkCommits_number (b : bool) commits : forall r,
  walkCommits (setPreReleaseNumber r b) commits
  = mapOk (fun r' => setPreReleaseNumber r' b) (walkCommits r commits).
Proof.
  induction commits as [|[c|] commits IH]; intros r; simpl;
    try reflexivity.
  change (parseCommit (setPreReleaseNumber r b) c) with (parseCommit r c).
  destruct (parseCommit r c) as [[v|]|]; simpl; try reflexivity.
  - destruct (newVersion r) as [nv|]; simpl; [|reflexivity].
    destruct (GreaterThan v nv);
      [apply (IH (setNewVersion r (Some v))) | apply IH].
  - apply IH.
Qed.

Lemma bumpFallback_number (b : bool) (r : GitRepo) :
  bumpFallback (setPreReleaseNumber r b)
  = mapOk (fun r' => setPreReleaseNumber r' b) (bumpFallback r).
Proof.
  unfold bumpFallback, bump. fields.
  destruct (newVersion r) as [nv|] eqn:En; simpl; [|reflexivity].
  destruct (currentVersion r) as [cur|] eqn:Ec; simpl; [|reflexivity].
  destruct (Equal nv cur); [|simpl; rewrite ?En, ?Ec; reflexivity].
  destruct (strictMatch r); simpl; rewrite ?En, ?Ec; reflexivity.
Qed.

Lemma appendPreRelease_number (now : time.Time) (b : bool) (r : GitRepo) :
  preReleaseName r = "" ->
  preReleaseTimestampLayout r = "" ->
  appendPreRelease now (setPreReleaseNumber r b)
  = mapOk (fun r' => setPreReleaseNumber r' b) (appendPreRelease now r).
Proof.
  intros Hn Hl. unfold appendPreRelease. fields. rewrite Hn, Hl.
  simpl. rewrite Hn, Hl. reflexivity.
Qed.

Lemma appendBuildMetadata_number (b : bool) (r : GitRepo) :
  appendBuildMetadata (setPreReleaseNumber r b)
  = mapOk (fun r' => setPreReleaseNumber r' b) (appendBuildMetadata r).
Proof.
  unfold appendBuildMetadata. fields.
  destruct (buildNumber r) eqn:Eb.
  - destruct (nonEmpty (buildMetadata r)); [reflexivity|].
    destruct (latestTagVersion r) as [lt|] eqn:El; simpl; [|reflexivity].
    destruct (if String.eqb (Metadata lt) "" then _ else _);
      simpl; [|reflexivity].
    destruct (newVersion r) as [nv|]; simpl; [|reflexivity].
    destruct (NewVersion _); simpl; rewrite ?Eb, ?El; reflexivity.
  - destruct (nonEmpty (buildMetadata r)); [|simpl; now rewrite Eb].
    destruct (newVersion r) as [nv|]; simpl; [|reflexivity].
    destruct (NewVersion _); simpl; rewrite ?Eb; reflexivity.
Qed.

Lemma bumpFallback_frame (r r1 : GitRepo) :
  bumpFallback r = Ok r1 -> r1 = setNewVersion r (newVersion r1).
Proof.
  unfold bumpFallback, bump.
  destruct (newVersion r) as [nv|] eqn:En; simpl; [|discriminate].
  destruct (currentVersion r) as [cur|]; simpl; [|discriminate].
  destruct (Equal nv cur).
  - destruct (strictMatch r); [discriminate|].
    simpl. intros H. injection H as <-. reflexivity.
  - intros H. injection H as <-. destruct r; reflexivity.
Qed.

Lemma calcVersion_number (now : time.Time) (b : bool) (r : GitRepo) :
  preReleaseName r = "" ->
  preReleaseTimestampLayout r = "" ->
  calcVersion now (setPreReleaseNumber r b)
  = mapOk (fun r' => setPreReleaseNumber r' b) (calcVersion now r).
Proof.
  intros Hn Hl. destruct r as [rp cv ct nv br bid cpv ltv ltc pn pl pnum
                                 bm sch st pf bn].
  simpl in Hn, Hl. subst pn pl.
  unfold calcVersion, retrieveBranchInfo. fields.
  destruct (git.BranchCommitID rp br) as [id|]; simpl; [|reflexivity].
  destruct (git.BranchCommit rp br) as [sc|]; simpl; [|reflexivity].
  destruct ct as [tag|]; simpl; [|reflexivity].
  destruct (_ && st); [reflexivity|].
  match goal with
  | |- bind (walkCommits ?x ?l) _ = mapOk _ (bind (walkCommits ?y _) _) =>
      pose proof (walkCommits_number b l y) as Hw
  end.
  unfold setPreReleaseNumber at 1 in Hw. simpl in Hw. rewrite Hw. clear Hw.
  destruct (walkCommits _ _) as [r1|] eqn:E; simpl; [|reflexivity].
  apply walkCommits_frame in E.
  rewrite bumpFallback_number.
  destruct (bumpFallback r1) as [r2|] eqn:E2; simpl; [|reflexivity].
  apply bumpFallback_frame in E2.
  rewrite appendPreRelease_number
    by (rewrite E2, E; reflexivity).
  destruct (appendPreRelease now r2) as [r3|]; simpl; [|reflexivity].
  apply appendBuildMetadata_number.
Qed.

Lemma scanKeys_config keys : forall r i r1,
  scanKeys r i keys = Ok r1 ->
  preReleaseName r1 = preReleaseName r
  /\ preReleaseTimestampLayout r1 = preReleaseTimestampLayout r.
Proof.
  induction keys as [|[v c] keys IH]; intros r i r1 H; simpl in H;
    [discriminate|].
  destruct (String.length (Prerelease v) =? 0)%nat.
  - injection H as <-.
    destruct (i =? 0)%nat; fields;
      repeat match goal with |- context [if ?x then _ else _] =>
                               destruct x end; fields; auto.
  - apply IH in H. revert H.
    destruct (i =? 0)%nat; fields;
      repeat match goal with |- context [if ?x then _ else _] =>
                               destruct x end; fields; auto.
Qed.

Lemma parseTags_config (r r1 : GitRepo) :
  parseTags r = Ok r1 ->
  preReleaseName r1 = preReleaseName r
  /\ preReleaseTimestampLayout r1 = preReleaseTimestampLayout r.
Proof.
  unfold parseTags.
  destruct (git.Tags (repo r)); [|discriminate].
  destruct (collectVersions _ _ _); simpl; [|discriminate].
  apply scanKeys_config.
Qed.

Lemma NewRepo_number (env : Env) (cfg : GitRepoConfig) (b : bool) :
  PreReleaseName cfg = "" ->
  PreReleaseTimestampLayout cfg = "" ->
  NewRepo env (withPreReleaseNumber cfg b)
  = mapOk (fun r' => setPreReleaseNumber r' b)
          (NewRepo env (withPreReleaseNumber cfg false)).
Proof.
  intros Hn Hl. unfold NewRepo.
  change (validateConfig (withPreReleaseNumber cfg b))
    with (validateConfig cfg).
  change (validateConfig (withPreReleaseNumber cfg false))
    with (validateConfig cfg).
  destruct (validateConfig cfg); [reflexivity|]. simpl.
  rewrite Hn, Hl. simpl.
  destruct (generateGitDirPath env (RepoPath cfg)) as [dir|];
    simpl; [|reflexivity].
  destruct (statNotExist env dir); [reflexivity|].
  destruct (gitOpen env dir) as [rp|]; simpl; [|reflexivity].
  match goal with
  | |- bind ?m _ = _ => destruct m as [br|]
  end; simpl; [|reflexivity].
  match goal with
  | |- bind (parseTags ?x) _ = mapOk _ (bind (parseTags ?y) _) =>
      change x with (setPreReleaseNumber y b)
  end.
  rewrite parseTags_number.
  destruct (parseTags _) as [r1|] eqn:E; simpl; [|reflexivity].
  apply parseTags_config in E. destruct E as [E1 E2].
  apply calcVersion_number; [rewrite E1 | rewrite E2]; reflexivity.
Qed.

(** C10: with an empty preReleaseName and an empty
    preReleaseTimestampLayout, [NewRepo] resolves to the same version, or
    fails with the same error, whether preReleaseNumber is set or not,
    for every environment and every other setting. *)
Theorem preReleaseNumber_without_name_has_no_effect
        (env : Env) (cfg : GitRepoConfig) :
  PreReleaseName cfg = "" ->
  PreReleaseTimestampLayout cfg = "" ->
  mapOk newVersion (NewRepo env (withPreReleaseNumber cfg true))
  = mapOk newVersion (NewRepo env (withPreReleaseNumber cfg false))
  /\ bind (NewRepo env (withPreReleaseNumber cfg true)) LatestVersion
     = bind (NewRepo env (withPreReleaseNumber cfg false)) LatestVersion.
Proof.
  intros Hn Hl. rewrite (NewRepo_number env cfg true Hn Hl).
  destruct (NewRepo env (withPreReleaseNumber cfg false));
    split; reflexivity.
Qed.

End NumberFlag.

(** ** Soundness of the matcher *)

Section MatcherSoundness.
Import regexp.

Lemma length_append (s t : string) :
  String.length (s ++ t) = (String.length s + String.length t)%nat.
Proof. induction s; simpl; congruence. Qed.

Lemma append_nil_r (s : string) : s ++ "" = s.
Proof. induction s; simpl; congruence. Qed.

Lemma append_assoc (s t u : string) : (s ++ t) ++ u = s ++ (t ++ u).
Proof. induction s; simpl; congruence. Qed.

Lemma substring_append (w s : string) :
  substring 0 (String.length (w ++ s) - String.length s) (w ++ s) = w.
Proof.
  rewrite length_append, Nat.add_sub.
  induction w as [|a w IH]; simpl.
  - destruct s; reflexivity.
  - now rewrite IH.
Qed.

Lemma allChars_app p (s t : string) :
  allChars p (s ++ t) = allChars p s && allChars p t.
Proof.
  induction s as [|a s IH]; simpl; [reflexivity|].
  now rewrite IH, andb_assoc.
Qed.

Lemma allChars_mono (p q : ascii -> bool) (s : string) :
  (forall a, p a = true -> q a = true) ->
  allChars p s = true -> allChars q s = true.
Proof.
  intros Hpq. induction s as [|a s IH]; simpl; [reflexivity|].
  intros H. apply andb_true_iff in H as [Ha Hs].
  now rewrite (Hpq _ Ha), IH.
Qed.

(** A successful run of [r] consumed a word over the alphabet of [r],
    kept every property the groups of [r] preserve, and ended in a
    successful call of its continuation. *)
Lemma run_sound {R : Type} (n : nat) (I : Captures -> Prop) (r : Syntax) :
  Preserves I r ->
  forall (s : string) (c : Captures) (k : string -> Captures -> option R)
         (x : R),
    I c ->
    run n r s c k = Some x ->
    exists w s' c',
      s = w ++ s' /\ allChars (alphabet r) w = true /\ I c'
      /\ k s' c' = Some x.
Proof.
  induction r as [| p | r1 IH1 r2 IH2 | r1 IH1 r2 IH2 | g r1 IH1
                  | i r1 IH1 | |]; intros HP s c k x HI H; simpl in H.
  - exists "", s, c. auto.
  - destruct s as [|a s]; [discriminate|].
    destruct (p a) eqn:Ep; [|discriminate].
    exists (String.String a ""), s, c. simpl. rewrite Ep. auto.
  - destruct HP as [HP1 HP2].
    apply (IH1 HP1) in H; trivial.
    destruct H as (w1 & s1 & c1 & -> & Hw1 & HI1 & H).
    apply (IH2 HP2) in H; trivial.
    destruct H as (w2 & s2 & c2 & -> & Hw2 & HI2 & H).
    exists (w1 ++ w2), s2, c2. rewrite append_assoc, allChars_app.
    repeat split; trivial.
    rewrite (allChars_mono (alphabet r1) (alphabet (Cat r1 r2)) w1),
            (allChars_mono (alphabet r2) (alphabet (Cat r1 r2)) w2);
      trivial; intros a Ha; simpl; rewrite Ha; auto using orb_true_r.
  - destruct HP as [HP1 HP2].
    destruct (run n r1 s c k) eqn:E1; simpl in H.
    + injection H as ->. apply (IH1 HP1) in E1; trivial.
      destruct E1 as (w & s' & c' & -> & Hw & HI' & Hk).
      exists w, s', c'. repeat split; trivial.
      apply (allChars_mono (alphabet r1)); trivial.
      intros a Ha; simpl; now rewrite Ha.
    + apply (IH2 HP2) in H; trivial.
      destruct H as (w & s' & c' & -> & Hw & HI' & Hk).
      exists w, s', c'. repeat split; trivial.
      apply (allChars_mono (alphabet r2)); trivial.
      intros a Ha; simpl; rewrite Ha; auto using orb_true_r.
  - simpl in HP. remember (String.length s) as fuel eqn:Hf. clear Hf.
    revert s c x HI H.
    induction fuel as [|fuel IHf]; intros s c x HI H; simpl in H.
    + exists "", s, c. auto.
    + assert (Hagain :
                forall y,
                  run n r1 s c
                      (fun s1 c1 =>
                         if (String.length s1 <? String.length s)%nat
                         then starLoop (run n r1) g k fuel s1 c1
                         else None) = Some y ->
                  exists w s' c',
                    s = w ++ s' /\ allChars (alphabet (Star g r1)) w = true
                    /\ I c' /\ k s' c' = Some y).
      { intros y Hy. apply (IH1 HP) in Hy; trivial.
        destruct Hy as (w1 & s1 & c1 & -> & Hw1 & HI1 & Hy).
        destruct (String.length s1 <? String.length (w1 ++ s1))%nat;
          [|discriminate].
        apply IHf in Hy; trivial.
        destruct Hy as (w2 & s2 & c2 & -> & Hw2 & HI2 & Hy).
        exists (w1 ++ w2), s2, c2. rewrite append_assoc, allChars_app.
        change (alphabet (Star g r1)) with (alphabet r1) in *.
        rewrite Hw1, Hw2. auto. }
      destruct g; unfold orElse in H.
      * match type of H with
        | match ?a with _ => _ end = _ => destruct a eqn:E
        end.
        -- injection H as ->. now apply Hagain.
        -- exists "", s, c. auto.
      * destruct (k s c) eqn:E.
        -- injection H as ->. exists "", s, c. auto.
        -- now apply Hagain.
  - destruct HP as [HP1 HG].
    apply (IH1 HP1) in H; trivial.
    destruct H as (w & s' & c' & -> & Hw & HI' & Hk).
    rewrite substring_append in Hk.
    exists w, s', ((i, w) :: c'). auto.
  - destruct (String.length s =? n)%nat; [|discriminate].
    exists "", s, c. auto.
  - destruct s; [|discriminate].
    exists "", "", c. auto.
Qed.

End MatcherSoundness.

(** ** Decimal output and the text of a version *)

Section VersionText.
Import regexp version.

Lemma string_of_uint_digits (d : Decimal.uint) :
  allChars isDigit (NilEmpty.string_of_uint d) = true.
Proof. induction d; simpl; auto. Qed.

Lemma FormatInt_digits (z : Z) :
  0 <= z ->
  allChars isDigit (strconv.FormatInt z) = true
  /\ strconv.FormatInt z <> "".
Proof.
  intros Hz. unfold strconv.FormatInt.
  destruct z as [|p|p]; [split; [reflexivity|discriminate] | | lia].
  simpl. pose proof (Unsigned.to_uint_nonnil p) as Hnil.
  destruct (Pos.to_uint p) eqn:E; try congruence;
    (split; [apply (string_of_uint_digits (_ u)) || apply string_of_uint_digits
            | discriminate]).
Qed.

Lemma FormatInt_inj (z1 z2 : Z) :
  strconv.FormatInt z1 = strconv.FormatInt z2 -> z1 = z2.
Proof.
  unfold strconv.FormatInt. intros H.
  apply DecimalZ.to_int_inj.
  assert (Hn : forall z, Z.to_int z <> Decimal.Pos Decimal.Nil
                         /\ Z.to_int z <> Decimal.Neg Decimal.Nil).
  { intros [|p|p]; simpl; split; try discriminate;
      intros [= E]; now apply (Unsigned.to_uint_nonnil p). }
  pose proof (NilZero.isi (Z.to_int z1) (proj1 (Hn z1)) (proj2 (Hn z1)))
    as H1.
  pose proof (NilZero.isi (Z.to_int z2) (proj1 (Hn z2)) (proj2 (Hn z2)))
    as H2.
  rewrite H in H1. congruence.
Qed.

(** A text splits in one way only into a word over [p] and a rest that
    stops at [p]. *)
Lemma span_unique (p : ascii -> bool) (s1 : string) :
  forall s2 t1 t2,
    allChars p s1 = true -> allChars p s2 = true ->
    stopsAt p t1 = true -> stopsAt p t2 = true ->
    s1 ++ t1 = s2 ++ t2 -> s1 = s2 /\ t1 = t2.
Proof.
  induction s1 as [|a s1 IH]; intros s2 t1 t2 H1 H2 T1 T2 E; simpl in *.
  - destruct s2 as [|b s2]; simpl in *; [auto|].
    subst t1. simpl in T1. apply andb_true_iff in H2 as [Hb _].
    rewrite Hb in T1. discriminate.
  - apply andb_true_iff in H1 as [Ha H1].
    destruct s2 as [|b s2]; simpl in *.
    + subst t2. simpl in T2. rewrite Ha in T2. discriminate.
    + apply andb_true_iff in H2 as [Hb H2].
      injection E as -> E.
      destruct (IH _ _ _ H1 H2 T1 T2 E) as [-> ->]. auto.
Qed.

Lemma Join_cons (x : string) (l : list string) :
  strings.Join (x :: l) "."
  = x ++ match l with [] => "" | _ => "." ++ strings.Join l "." end.
Proof.
  unfold strings.Join. destruct l; simpl; [now rewrite append_nil_r|].
  reflexivity.
Qed.

Lemma Join_FormatInt_digitOrDot (l : list Z) :
  Forall (fun z => 0 <= z) l ->
  allChars digitOrDot (strings.Join (map strconv.FormatInt l) ".") = true.
Proof.
  induction 1 as [|z l Hz Hl IH]; [reflexivity|].
  simpl map. rewrite Join_cons, allChars_app.
  apply andb_true_iff. split.
  - apply (allChars_mono isDigit); [|now apply FormatInt_digits].
    intros a Ha. unfold digitOrDot. now rewrite Ha.
  - destruct l; [reflexivity|]. exact IH.
Qed.

Lemma Join_FormatInt_inj (l1 : list Z) :
  forall l2,
    Forall (fun z => 0 <= z) l1 -> Forall (fun z => 0 <= z) l2 ->
    strings.Join (map strconv.FormatInt l1) "."
    = strings.Join (map strconv.FormatInt l2) "." ->
    l1 = l2.
Proof.
  induction l1 as [|z1 l1 IH]; intros l2 H1 H2 E.
  - destruct l2 as [|z2 l2]; [reflexivity|].
    inversion H2; subst. simpl map in E. rewrite Join_cons in E.
    destruct (FormatInt_digits z2) as [_ Hne]; trivial.
    destruct (strconv.FormatInt z2); [congruence | discriminate].
  - inversion H1; subst.
    destruct l2 as [|z2 l2].
    + simpl map in E. rewrite Join_cons in E.
      destruct (FormatInt_digits z1) as [_ Hne]; trivial.
      destruct (strconv.FormatInt z1); [congruence | discriminate].
    + inversion H2; subst. simpl map in E. rewrite !Join_cons in E.
      apply (span_unique isDigit) in E.
      * destruct E as [Ez El]. apply FormatInt_inj in Ez. subst z2.
        f_equal. destruct l1, l2; try reflexivity; try discriminate.
        apply IH; trivial. simpl in El. now injection El.
      * now apply FormatInt_digits.
      * now apply FormatInt_digits.
      * destruct l1; reflexivity.
      * destruct l2; reflexivity.
Qed.

(** The text of a version with segments that are not negative gives the
    segments back. *)
Lemma String_segments (v w : Version) :
  nonneg v -> nonneg w ->
  version.String v = version.String w -> segments v = segments w.
Proof.
  unfold nonneg, version.String. intros Hv Hw E.
  apply (span_unique digitOrDot) in E.
  - destruct E as [E _]. now apply Join_FormatInt_inj.
  - now apply Join_FormatInt_digitOrDot.
  - now apply Join_FormatInt_digitOrDot.
  - destruct (String.eqb (pre v) ""); [|reflexivity].
    destruct (String.eqb (metadata v) ""); reflexivity.
  - destruct (String.eqb (pre w) ""); [|reflexivity].
    destruct (String.eqb (metadata w) ""); reflexivity.
Qed.

End VersionText.

(** ** Parsed versions have segments that are not negative *)

Section ParsedVersions.
Import regexp version.

Lemma search_sound (I : Captures -> Prop) (r : Syntax) (n : nat) :
  Preserves I r -> I [] ->
  forall s s0 s1 c, search r n s = Some (s0, s1, c) -> I c.
Proof.
  intros HP HI. induction s as [|a s IH]; intros s0 s1 c H; simpl in H.
  - destruct (run n r "" [] _) as [[s' c']|] eqn:E; [|discriminate].
    injection H as _ <- <-.
    apply (run_sound n I r HP) in E; trivial.
    destruct E as (w & s2 & c2 & _ & _ & HI2 & [= <- <-]). exact HI2.
  - destruct (run n r (String.String a s) [] _) as [[s' c']|] eqn:E.
    + injection H as _ <- <-.
      apply (run_sound n I r HP) in E; trivial.
      destruct E as (w & s2 & c2 & _ & _ & HI2 & [= <- <-]). exact HI2.
    + eauto.
Qed.

Lemma versionRegexp_group1 (s s0 s1 : string) (c : Captures) :
  search (syntax versionRegexp) (String.length s) s = Some (s0, s1, c) ->
  allChars digitOrDot (lookup 1 c) = true.
Proof.
  apply (search_sound (fun c => allChars digitOrDot (lookup 1 c) = true)).
  - simpl. repeat split; intros w c' Hw Hc'; simpl; trivial.
    eapply allChars_mono; [|exact Hw].
    intros a. unfold digitOrDot. simpl.
    destruct (isDigit a); simpl; [reflexivity|].
    rewrite !orb_false_r. auto.
  - reflexivity.
Qed.

Lemma parseUintLoop_range (s : string) : forall acc n,
  0 <= acc <= strconv.maxUint64 ->
  strconv.parseUintLoop acc s = (n, None) ->
  0 <= n <= strconv.maxUint64.
Proof.
  induction s as [|a s IH]; intros acc n Hacc H; simpl in H.
  - now injection H as <-.
  - destruct (strconv.isDigit a) eqn:Ea; [|discriminate].
    destruct (_ <=? acc); [discriminate|].
    destruct (Z.ltb_spec strconv.maxUint64 (acc * 10 + strconv.digitVal a));
      [discriminate|].
    apply IH in H; trivial. split; [|lia].
    unfold strconv.digitVal.
    unfold strconv.isDigit in Ea. apply andb_true_iff in Ea as [Ea _].
    apply Nat.leb_le in Ea. lia.
Qed.

Lemma ParseUint_range (s : string) (n : Z) :
  strconv.ParseUint s = (n, None) -> 0 <= n <= strconv.maxUint64.
Proof.
  unfold strconv.ParseUint. destruct s as [|a s]; [discriminate|].
  apply parseUintLoop_range. unfold strconv.maxUint64.
  change (2 ^ 64) with 18446744073709551616. lia.
Qed.

Lemma parseUintLoop_ErrRange (s : string) : forall acc un,
  strconv.parseUintLoop acc s = (un, Some strconv.ErrRange) ->
  un = strconv.maxUint64.
Proof.
  induction s as [|a s IH]; intros acc un H; simpl in H; [discriminate|].
  destruct (strconv.isDigit a); [|discriminate].
  destruct (_ <=? acc); [now injection H as <-|].
  destruct (_ <? _); [now injection H as <- | now apply IH in H].
Qed.

Lemma ParseInt_digits_nonneg (s : string) (n : Z) :
  allChars isDigit s = true -> strconv.ParseInt s = (n, None) -> 0 <= n.
Proof.
  destruct s as [|a s]; [discriminate|]. intros Hd H.
  simpl in Hd. apply andb_true_iff in Hd as [Ha _].
  unfold strconv.ParseInt in H.
  assert (Ep : Ascii.eqb a "+" = false).
  { destruct (Ascii.eqb_spec a "+"); [subst; discriminate | reflexivity]. }
  assert (Em : Ascii.eqb a "-" = false).
  { destruct (Ascii.eqb_spec a "-"); [subst; discriminate | reflexivity]. }
  rewrite Ep, Em in H. cbn [orb andb negb] in H.
  destruct (strconv.ParseUint (String.String a s)) as [un [[]|]] eqn:E;
    try discriminate.
  - apply parseUintLoop_ErrRange in E. subst un. discriminate.
  - apply ParseUint_range in E.
    destruct (strconv.maxInt64 + 1 <=? un); [discriminate|].
    injection H as <-. lia.
Qed.

Lemma Split_digits (s : string) :
  allChars digitOrDot s = true ->
  Forall (fun part => allChars isDigit part = true) (strings.Split s ".").
Proof.
  induction s as [|a s IH]; simpl; intros H.
  - repeat constructor.
  - apply andb_true_iff in H as [Ha H]. specialize (IH H).
    destruct (Ascii.eqb_spec a ".") as [->|Hne].
    + constructor; [reflexivity | exact IH].
    + destruct (strings.Split s ".") as [|part parts].
      * repeat constructor. simpl. unfold digitOrDot in Ha.
        destruct (Ascii.eqb_spec "." a); [congruence|].
        rewrite orb_false_r in Ha. now rewrite Ha.
      * inversion IH; subst. constructor; trivial. simpl.
        unfold digitOrDot in Ha.
        destruct (Ascii.eqb_spec "." a); [congruence|].
        rewrite orb_false_r in Ha. now rewrite Ha.
Qed.

Lemma parseSegments_nonneg (l : list string) : forall segs,
  Forall (fun part => allChars isDigit part = true) l ->
  parseSegments l = Some segs -> Forall (fun z => 0 <= z) segs.
Proof.
  induction l as [|str l IH]; intros segs Hl H; simpl in H.
  - injection H as <-. constructor.
  - inversion Hl; subst.
    destruct (strconv.ParseInt str) as [val [err|]] eqn:E; [discriminate|].
    destruct (parseSegments l) as [vals|]; [|discriminate].
    injection H as <-. constructor; [|now apply IH].
    now apply (ParseInt_digits_nonneg str).
Qed.

Lemma NewVersion_nonneg (s : string) (v : Version) :
  NewVersion s = Ok v -> nonneg v.
Proof.
  unfold NewVersion, FindStringSubmatch.
  destruct (search _ _ s) as [[[s0 s1] c]|] eqn:E; [|discriminate].
  apply versionRegexp_group1 in E.
  change (nth 1 (_ :: map (fun i => lookup i c) _) "") with (lookup 1 c).
  destruct (parseSegments _) as [segs|] eqn:Es; [|discriminate].
  intros [= <-]. unfold nonneg. simpl.
  apply parseSegments_nonneg in Es; [|now apply Split_digits].
  unfold pad3. apply Forall_app. split; trivial.
  apply Forall_forall. intros z Hz. apply repeat_spec in Hz. lia.
Qed.

Lemma bump_nonneg (b : bumper) (cur v : Version) :
  nonneg cur -> bump b cur = Ok v -> nonneg v.
Proof.
  unfold nonneg, bump, Segments64. intros Hc [= <-]. simpl.
  assert (Hn : forall i, 0 <= nth i (segments cur) 0).
  { intros i. destruct (nth_in_or_default i (segments cur) 0) as [Hin | ->];
      [|lia].
    rewrite Forall_forall in Hc. now apply Hc. }
  pose proof (Hn 0%nat). pose proof (Hn 1%nat). pose proof (Hn 2%nat).
  destruct b; repeat constructor; lia.
Qed.

End ParsedVersions.

(** ** Precedence by segments *)

Section SegmentOrder.
Import regexp version.

Lemma compareSegments_nil_l (c : list Z) :
  compareSegments [] c = if allZero c then 0 else -1.
Proof. destruct c; reflexivity. Qed.

Lemma compareSegments_nil_r (a : list Z) :
  compareSegments a [] = if allZero a then 0 else 1.
Proof. destruct a; reflexivity. Qed.

Lemma compareSegments_refl (a : list Z) : compareSegments a a = 0.
Proof. induction a; simpl; [reflexivity|]. now rewrite Z.eqb_refl. Qed.

Lemma compareSegments_antisym (a : list Z) : forall b,
  compareSegments a b = - compareSegments b a.
Proof.
  induction a as [|x a IH]; intros [|y b]; simpl; try reflexivity.
  - destruct (_ && _); reflexivity.
  - destruct (_ && _); reflexivity.
  - rewrite (Z.eqb_sym y x).
    destruct (Z.eqb_spec x y); [apply IH|].
    destruct (Z.ltb_spec x y), (Z.ltb_spec y x); try reflexivity; lia.
Qed.

Lemma compareSegments_allZero_l (a : list Z) : forall c,
  Forall (fun z => 0 <= z) c ->
  allZero a = true -> compareSegments a c = compareSegments [] c.
Proof.
  induction a as [|x a IH]; intros c Hc Ha; [reflexivity|].
  unfold allZero in Ha. cbn [forallb] in Ha.
  apply andb_true_iff in Ha as [Hx Ha].
  apply Z.eqb_eq in Hx. subst x. fold (allZero a) in Ha.
  destruct c as [|z c]; cbn [compareSegments].
  - unfold allZero. cbn [forallb]. fold (allZero a). now rewrite Ha.
  - inversion Hc; subst.
    unfold allZero. cbn [forallb]. fold (allZero c).
    destruct (Z.eqb_spec 0 z) as [<-|Hz]; cbn [andb].
    + rewrite IH; trivial. apply compareSegments_nil_l.
    + destruct (Z.ltb_spec 0 z); [reflexivity | lia].
Qed.

Lemma compareSegments_allZero_r (a c : list Z) :
  Forall (fun z => 0 <= z) a ->
  allZero c = true -> compareSegments a c = compareSegments a [].
Proof.
  intros Ha Hc.
  rewrite (compareSegments_antisym a c), (compareSegments_antisym a []).
  now rewrite compareSegments_allZero_l.
Qed.

Lemma segLe_nil_l (c : list Z) : segLe [] c.
Proof.
  unfold segLe. rewrite compareSegments_nil_l.
  destruct (allZero c); lia.
Qed.

Lemma segLe_refl (a : list Z) : segLe a a.
Proof. unfold segLe. rewrite compareSegments_refl. lia. Qed.

Lemma segLe_trans (a : list Z) : forall b c,
  Forall (fun z => 0 <= z) a -> Forall (fun z => 0 <= z) c ->
  segLe a b -> segLe b c -> segLe a c.
Proof.
  induction a as [|x a IH]; intros b c Ha Hc H1 H2.
  - apply segLe_nil_l.
  - destruct b as [|y b].
    + unfold segLe in *. rewrite compareSegments_nil_r in H1.
      destruct (allZero (x :: a)) eqn:E; [|lia].
      rewrite compareSegments_allZero_l; trivial.
    + destruct c as [|z c].
      * unfold segLe in *. rewrite compareSegments_nil_r in H2.
        destruct (allZero (y :: b)) eqn:E; [|lia].
        now rewrite compareSegments_allZero_r in H1.
      * inversion Ha; inversion Hc; subst.
        unfold segLe in *. simpl in *.
        destruct (Z.eqb_spec x y) as [->|Hxy].
        -- destruct (Z.eqb_spec y z) as [->|Hyz];
             [now apply (IH b c) | exact H2].
        -- destruct (Z.ltb_spec x y); [|lia].
           destruct (Z.eqb_spec y z) as [->|Hyz].
           ++ destruct (Z.eqb_spec x z); [lia|].
              destruct (Z.ltb_spec x z); lia.
           ++ destruct (Z.ltb_spec y z); [|lia].
              destruct (Z.eqb_spec x z); [lia|].
              destruct (Z.ltb_spec x z); lia.
Qed.

(** What [Compare] tells of the segments. *)
Lemma LessThan_segLe (v w : Version) :
  LessThan v w = true -> segLe (segments v) (segments w).
Proof.
  unfold LessThan, Compare, Segments64. intros H. apply Z.ltb_lt in H.
  destruct (String.eqb _ _); [lia|].
  destruct (list_eq_dec _ _ _) as [->|_]; [apply segLe_refl|].
  unfold segLe. lia.
Qed.

Lemma not_LessThan_segLe (v w : Version) :
  nonneg v -> nonneg w ->
  LessThan v w = false -> segLe (segments w) (segments v).
Proof.
  unfold LessThan, Compare, Segments64. intros Hv Hw H.
  apply Z.ltb_ge in H.
  destruct (String.eqb_spec (version.String v) (version.String w)) as [E|_].
  - rewrite (String_segments v w Hv Hw E). apply segLe_refl.
  - destruct (list_eq_dec _ _ _) as [->|_]; [apply segLe_refl|].
    unfold segLe. rewrite compareSegments_antisym. lia.
Qed.

Lemma segLe_not_GreaterThan (w v : Version) :
  Prerelease w = "" -> Prerelease v = "" ->
  segLe (segments w) (segments v) -> GreaterThan w v = false.
Proof.
  unfold GreaterThan, Compare, Segments64. intros Hw Hv H.
  apply Z.ltb_ge.
  destruct (String.eqb _ _); [lia|].
  destruct (list_eq_dec _ _ _) as [_|_].
  - rewrite Hw, Hv. simpl. lia.
  - exact H.
Qed.

End SegmentOrder.

(** ** The sort of the tag index *)

Section SortedKeys.
Import regexp version.

Lemma insert_In (x y : Version * git.Commit) acc :
  In y (sort.insert lessKey x acc) <-> y = x \/ In y acc.
Proof.
  induction acc as [|p acc IH]; simpl; [intuition|].
  destruct (lessKey x p); simpl; rewrite ?IH; intuition.
Qed.

Lemma insert_ascending (x : Version * git.Commit) acc :
  nonneg (fst x) -> Forall (fun k => nonneg (fst k)) acc ->
  ascending acc -> ascending (sort.insert lessKey x acc).
Proof.
  intros Hx Hacc Hs. induction Hs as [|p acc Hs IH Hp]; simpl.
  - repeat constructor.
  - inversion Hacc as [|? ? Hpn Haccn]; subst.
    destruct (lessKey x p) eqn:E; unfold lessKey in E.
    + constructor; [now apply IH|].
      apply Forall_forall. intros y Hy. apply insert_In in Hy.
      destruct Hy as [->|Hy].
      * now apply LessThan_segLe.
      * rewrite Forall_forall in Hp. now apply Hp.
    + apply not_LessThan_segLe in E; trivial.
      constructor; [now constructor|].
      constructor; trivial.
      rewrite Forall_forall in *. intros y Hy.
      apply (segLe_trans _ (segments (fst p))); auto.
      apply (Haccn y Hy).
Qed.

Lemma fold_insert_spec (l : list (Version * git.Commit)) : forall acc,
  Forall (fun k => nonneg (fst k)) l ->
  Forall (fun k => nonneg (fst k)) acc ->
  ascending acc ->
  let out := fold_left (fun acc x => sort.insert lessKey x acc) l acc in
  ascending out /\ (forall y, In y out <-> In y l \/ In y acc).
Proof.
  induction l as [|x l IH]; intros acc Hl Hacc Hs; simpl.
  - split; [exact Hs | intuition].
  - inversion Hl; subst.
    destruct (IH (sort.insert lessKey x acc)) as [Ha Hin]; trivial.
    + apply Forall_forall. intros y Hy. apply insert_In in Hy.
      destruct Hy as [->|Hy]; trivial.
      rewrite Forall_forall in Hacc. auto.
    + now apply insert_ascending.
    + split; [exact Ha|].
      intros y. rewrite Hin, insert_In. intuition.
Qed.

Lemma ascending_before (l1 : list (Version * git.Commit)) : forall v l2,
  ascending (l1 ++ v :: l2) ->
  Forall (fun w => segLe (segments (fst w)) (segments (fst v))) l1.
Proof.
  induction l1 as [|a l1 IH]; intros v l2 H; [constructor|].
  simpl in H. inversion H as [|? ? Hs Ha]; subst.
  constructor; [|now apply (IH v l2)].
  rewrite Forall_forall in Ha. apply Ha. apply in_or_app. right. now left.
Qed.

(** The sorted keys hold the same entries, and an entry that follows
    another does not precede it by segments. *)
Lemma sortReverse_spec (keys : list (Version * git.Commit)) :
  Forall (fun k => nonneg (fst k)) keys ->
  (forall y, In y (sortReverse keys) <-> In y keys)
  /\ forall front v back,
       sortReverse keys = (front ++ v :: back)%list ->
       Forall (fun w => segLe (segments (fst w)) (segments (fst v))) back.
Proof.
  intros Hk. unfold sortReverse, sort.Sort.
  destruct (fold_insert_spec keys [] Hk) as [Ha Hin];
    [constructor | constructor |].
  cbv zeta in Ha, Hin.
  change (fun x p => LessThan (fst p) (fst x)) with lessKey.
  split.
  - intros y. rewrite <- in_rev, Hin. simpl. intuition.
  - intros front v back E.
    apply (f_equal (@rev _)) in E. rewrite rev_involutive in E.
    rewrite rev_app_distr in E. simpl in E. rewrite <- app_assoc in E.
    simpl in E. rewrite E in Ha. apply ascending_before in Ha.
    apply Forall_forall. intros w Hw. rewrite Forall_forall in Ha.
    apply Ha. now apply -> in_rev.
Qed.

End SortedKeys.

(** ** The tag index *)

Section TagIndex.
Import regexp version.

Lemma versionOfTag_nonneg (t : string) (v : Version) :
  versionOfTag t = Some v -> nonneg v.
Proof.
  unfold versionOfTag, maybeVersionFromTag, parseVersion.
  destruct (String.eqb t ""); [discriminate|].
  match goal with
  | |- context [NewVersion ?x] => destruct (NewVersion x) eqn:E
  end; [|discriminate].
  intros [= <-]. now apply NewVersion_nonneg in E.
Qed.

Lemma collectVersions_ok (rp : git.Repository) (tags : list string) :
  forall acc vs,
    collectVersions rp tags acc = Ok vs ->
    map fst vs = (map fst acc ++ parsedVersions tags)%list.
Proof.
  induction tags as [|t tags IH]; intros acc vs H; simpl in H.
  - injection H as <-. simpl. now rewrite app_nil_r.
  - unfold parsedVersions. simpl. fold (parsedVersions tags).
    unfold versionOfTag.
    destruct (maybeVersionFromTag t) as [[v|]|]; simpl; try now apply IH.
    destruct (git.CommitByRevision rp t); [|discriminate].
    apply IH in H. rewrite H, map_app, <- app_assoc. reflexivity.
Qed.

Lemma collectVersions_filter (rp : git.Repository) (tags : list string) :
  forall acc,
    collectVersions rp (filter isVersionTag tags) acc
    = collectVersions rp tags acc.
Proof.
  induction tags as [|t tags IH]; intros acc; simpl; [reflexivity|].
  unfold isVersionTag, versionOfTag.
  destruct (maybeVersionFromTag t) as [[v|]|] eqn:E; simpl; trivial.
  rewrite E. destruct (git.CommitByRevision rp t); [apply IH | reflexivity].
Qed.

Lemma collectVersions_err (rp : git.Repository) (tags : list string) :
  forall acc e,
    collectVersions rp tags acc = Err e ->
    exists t cause,
      e = ErrReadingCommit t cause /\ In t tags /\ isVersionTag t = true
      /\ git.CommitByRevision rp t = Err cause.
Proof.
  induction tags as [|t tags IH]; intros acc e H; simpl in H;
    [discriminate|].
  assert (Hrec : forall acc',
             collectVersions rp tags acc' = Err e ->
             exists t0 cause,
               e = ErrReadingCommit t0 cause /\ In t0 (t :: tags)
               /\ isVersionTag t0 = true
               /\ git.CommitByRevision rp t0 = Err cause).
  { intros acc' H'. apply IH in H'.
    destruct H' as (t0 & cause & ? & ? & ? & ?).
    exists t0, cause. simpl. auto. }
  unfold isVersionTag, versionOfTag in *.
  destruct (maybeVersionFromTag t) as [[v|]|] eqn:E; eauto.
  destruct (git.CommitByRevision rp t) as [c|cause] eqn:Ec; eauto.
  injection H as <-. exists t, cause. rewrite E. simpl. auto.
Qed.

Lemma length_zero (s : string) :
  (String.length s =? 0)%nat = String.eqb s "".
Proof. destruct s; reflexivity. Qed.

Lemma scanKeys_ok keys : forall r i r',
  scanKeys r i keys = Ok r' ->
  exists front v c back,
    keys = (front ++ (v, c) :: back)%list
    /\ Forall (fun k => stable (fst k) = false) front
    /\ stable v = true
    /\ currentVersion r' = Some v /\ currentTag r' = Some c.
Proof.
  induction keys as [|[v c] keys IH]; intros r i r' H; simpl in H;
    [discriminate|].
  rewrite length_zero in H. fold (stable v) in H.
  destruct (stable v) eqn:Ev.
  - injection H as <-. exists [], v, c, keys. repeat split; auto.
  - apply IH in H. destruct H as (front & v' & c' & back & -> & Hf & H).
    exists ((v, c) :: front), v', c', back. repeat split; try apply H.
    constructor; trivial.
Qed.

Lemma scanKeys_err keys : forall r i e,
  scanKeys r i keys = Err e ->
  e = ErrNoStableTags /\ Forall (fun k => stable (fst k) = false) keys.
Proof.
  induction keys as [|[v c] keys IH]; intros r i e H; simpl in H.
  - injection H as <-. auto.
  - rewrite length_zero in H. fold (stable v) in H.
    destruct (stable v) eqn:Ev; [discriminate|].
    apply IH in H. destruct H as [-> H]. auto.
Qed.

Lemma collected_nonneg (rp : git.Repository) (tags : list string)
      (vs : list (Version * git.Commit)) :
  collectVersions rp tags [] = Ok vs ->
  Forall (fun k => nonneg (fst k)) vs.
Proof.
  intros H. apply collectVersions_ok in H. simpl in H.
  apply Forall_forall. intros k Hk.
  assert (Hin : In (fst k) (parsedVersions tags)).
  { rewrite <- H. now apply in_map. }
  unfold parsedVersions in Hin. apply in_flat_map in Hin.
  destruct Hin as (t & _ & Ht).
  destruct (versionOfTag t) as [v|] eqn:E; [|contradiction].
  destruct Ht as [<-|[]]. now apply versionOfTag_nonneg in E.
Qed.

(** The baseline of a successful index is a stable parsed version that
    no stable parsed version is greater than. *)
Lemma parseTags_baseline (r r' : GitRepo) (tags : list string) :
  git.Tags (repo r) = Ok tags ->
  parseTags r = Ok r' ->
  exists v,
    currentVersion r' = Some v
    /\ stable v = true
    /\ In v (parsedVersions tags)
    /\ forall w, In w (parsedVersions tags) -> stable w = true ->
                 GreaterThan w v = false.
Proof.
  intros Ht H. unfold parseTags in H. rewrite Ht in H.
  destruct (collectVersions (repo r) tags []) as [vs|] eqn:Ec;
    [|discriminate].
  simpl in H.
  pose proof (collected_nonneg _ _ _ Ec) as Hnn.
  pose proof (collectVersions_ok _ _ _ _ Ec) as Hvs. simpl in Hvs.
  destruct (sortReverse_spec vs Hnn) as [Hin Hsorted].
  apply scanKeys_ok in H.
  destruct H as (front & v & c & back & Ek & Hf & Hv & Hcv & _).
  exists v. repeat split; trivial.
  - rewrite <- Hvs. change v with (fst (v, c)). apply in_map.
    apply Hin. rewrite Ek. apply in_or_app. right. now left.
  - intros w Hw Hst. rewrite <- Hvs in Hw. apply in_map_iff in Hw.
    destruct Hw as ([w' cw] & <- & Hw). simpl in Hst |- *.
    apply Hin in Hw. rewrite Ek in Hw.
    apply in_app_or in Hw. destruct Hw as [Hw|[Hw|Hw]].
    + rewrite Forall_forall in Hf. apply Hf in Hw. simpl in Hw. congruence.
    + injection Hw as <- <-.
      unfold GreaterThan, Compare. now rewrite String.eqb_refl.
    + specialize (Hsorted _ _ _ Ek). rewrite Forall_forall in Hsorted.
      apply Hsorted in Hw. simpl in Hw.
      apply segLe_not_GreaterThan; trivial;
        now apply String.eqb_eq.
Qed.

(** Without a stable parsed version the index fails, and the error
    [ErrNoStableTags] means that there is none. *)
Lemma parseTags_no_stable (r : GitRepo) (tags : list string) :
  git.Tags (repo r) = Ok tags ->
  (Forall (fun w => stable w = false) (parsedVersions tags) ->
   isOk (parseTags r) = false)
  /\ (parseTags r = Err ErrNoStableTags ->
      Forall (fun w => stable w = false) (parsedVersions tags))
  /\ (Forall (fun w => stable w = false) (parsedVersions tags) ->
      (forall t, In t tags -> isVersionTag t = true ->
                 isOk (git.CommitByRevision (repo r) t) = true) ->
      parseTags r = Err ErrNoStableTags).
Proof.
  intros Ht. unfold parseTags. rewrite Ht.
  destruct (collectVersions (repo r) tags []) as [vs|] eqn:Ec; simpl.
  - pose proof (collected_nonneg _ _ _ Ec) as Hnn.
    pose proof (collectVersions_ok _ _ _ _ Ec) as Hvs. simpl in Hvs.
    destruct (sortReverse_spec vs Hnn) as [Hin _].
    assert (Hall : Forall (fun w => stable w = false) (parsedVersions tags)
                   -> scanKeys r 0 (sortReverse vs) = Err ErrNoStableTags).
    { intros Hno.
      destruct (scanKeys r 0 (sortReverse vs)) as [r'|e] eqn:Es.
      - apply scanKeys_ok in Es.
        destruct Es as (front & v & c & back & Ek & _ & Hv & _).
        rewrite Forall_forall in Hno.
        rewrite (Hno v) in Hv; [discriminate|].
        rewrite <- Hvs. change v with (fst (v, c)). apply in_map.
        apply Hin. rewrite Ek. apply in_or_app. right. now left.
      - apply scanKeys_err in Es. now destruct Es as [-> _]. }
    repeat split.
    + intros Hno. now rewrite Hall.
    + intros Es. apply scanKeys_err in Es. destruct Es as [_ Hk].
      rewrite <- Hvs. apply Forall_forall. intros w Hw.
      apply in_map_iff in Hw. destruct Hw as (k & <- & Hk').
      rewrite Forall_forall in Hk. apply Hk. now apply Hin.
    + intros Hno _. now apply Hall.
  - apply collectVersions_err in Ec.
    destruct Ec as (t & cause & -> & Hin & Hvt & Hc).
    repeat split; try reflexivity; try discriminate.
    intros _ Hread. specialize (Hread t Hin Hvt).
    rewrite Hc in Hread. discriminate.
Qed.

Lemma collectVersions_ext (rp1 rp2 : git.Repository) (tags : list string) :
  git.CommitByRevision rp1 = git.CommitByRevision rp2 ->
  forall acc, collectVersions rp1 tags acc = collectVersions rp2 tags acc.
Proof.
  intros E. induction tags as [|t tags IH]; intros acc; simpl;
    [reflexivity|].
  rewrite E. destruct (maybeVersionFromTag t) as [[v|]|]; trivial.
  destruct (git.CommitByRevision rp2 t); trivial.
Qed.

Lemma scanKeys_baseline keys : forall a b i j,
  baseline (scanKeys a i keys) = baseline (scanKeys b j keys).
Proof.
  induction keys as [|[v c] keys IH]; intros a b i j; simpl;
    [reflexivity|].
  destruct (String.length (Prerelease v) =? 0)%nat; [reflexivity|].
  apply IH.
Qed.

Lemma parseTags_skips_unparseable (r : GitRepo) (tags : list string) :
  baseline (parseTags (withTags r (filter isVersionTag tags)))
  = baseline (parseTags (withTags r tags)).
Proof.
  unfold parseTags, withTags. cbn [repo git.Tags].
  rewrite collectVersions_filter.
  match goal with
  | |- baseline (bind (collectVersions ?rp1 _ _) _)
       = baseline (bind (collectVersions ?rp2 _ _) _) =>
      rewrite (collectVersions_ext rp1 rp2 tags eq_refl)
  end.
  destruct (collectVersions _ tags []) as [vs|]; simpl; [|reflexivity].
  apply scanKeys_baseline.
Qed.

End TagIndex.

(** ** Precedence of the bumped versions *)

Section BumpOrder.
Import regexp version.

Ltac zcmp :=
  repeat match goal with
         | |- context [Z.eqb ?a ?b] =>
             (destruct (Z.eqb_spec a b); try lia)
         | |- context [Z.ltb ?a ?b] =>
             (destruct (Z.ltb_spec a b); try lia)
         end.

Lemma bump_bumped (b : bumper) (cur : Version) :
  bump b cur = Ok (bumped b cur).
Proof. reflexivity. Qed.

Lemma bumped_nonneg (b : bumper) (cur : Version) :
  nonneg cur -> nonneg (bumped b cur).
Proof. intros H. now apply (bump_nonneg b cur). Qed.

Lemma compareSegments_bumped_cur (b : bumper) (cur : Version) :
  compareSegments (segments (bumped b cur)) (segments cur) = 1.
Proof.
  unfold bumped, bump, Segments64. cbn [segments].
  destruct (segments cur) as [|M [|m [|p rest]]], b;
    cbn [nth compareSegments allZero forallb andb]; zcmp; reflexivity.
Qed.

Lemma compareSegments_bumped (a b : bumper) (cur : Version) :
  compareSegments (segments (bumped b cur)) (segments (bumped a cur))
  = if (magnitude a <? magnitude b)%nat then 1
    else if (magnitude b <? magnitude a)%nat then -1 else 0.
Proof.
  unfold bumped, bump, Segments64. cbn [segments].
  generalize (nth 0 (segments cur) 0), (nth 1 (segments cur) 0),
    (nth 2 (segments cur) 0).
  intros M m p.
  destruct a, b; cbn [compareSegments magnitude Nat.ltb Nat.leb];
    zcmp; reflexivity.
Qed.

(** The shortcut of [Compare] on equal texts cannot hide a difference of
    segments. *)
Lemma Compare_by_segments (v w : Version) :
  nonneg v -> nonneg w ->
  compareSegments (segments v) (segments w) <> 0 ->
  Compare v w = compareSegments (segments v) (segments w).
Proof.
  intros Hv Hw Hne. unfold Compare, Segments64.
  destruct (String.eqb_spec (version.String v) (version.String w)) as [E|_].
  - apply String_segments in E; trivial. rewrite E in Hne.
    now rewrite compareSegments_refl in Hne.
  - destruct (list_eq_dec _ _ _) as [E|_]; [|reflexivity].
    rewrite E in Hne. now rewrite compareSegments_refl in Hne.
Qed.

Lemma Compare_refl (v : Version) : Compare v v = 0.
Proof. unfold Compare. now rewrite String.eqb_refl. Qed.

Lemma GreaterThan_bumped_cur (b : bumper) (cur : Version) :
  nonneg cur -> GreaterThan (bumped b cur) cur = true.
Proof.
  intros H. unfold GreaterThan.
  rewrite Compare_by_segments; auto using bumped_nonneg;
    rewrite compareSegments_bumped_cur; [reflexivity | discriminate].
Qed.

Lemma Equal_bumped_cur (b : bumper) (cur : Version) :
  nonneg cur -> Equal (bumped b cur) cur = false.
Proof.
  intros H. unfold Equal.
  rewrite Compare_by_segments; auto using bumped_nonneg;
    rewrite compareSegments_bumped_cur; [reflexivity | discriminate].
Qed.

Lemma GreaterThan_bumped (a b : bumper) (cur : Version) :
  nonneg cur ->
  GreaterThan (bumped b cur) (bumped a cur)
  = (magnitude a <? magnitude b)%nat.
Proof.
  intros H. unfold GreaterThan.
  destruct a, b; try (rewrite Compare_refl; reflexivity);
    (rewrite Compare_by_segments; auto using bumped_nonneg;
     rewrite compareSegments_bumped; cbn; [reflexivity | discriminate]).
Qed.

(** The step of the walk on the selected version. *)
Lemma GreaterThan_selected (acc : option bumper) (b : bumper)
      (cur : Version) :
  nonneg cur ->
  (if GreaterThan (bumped b cur) (selected cur acc)
   then bumped b cur else selected cur acc)
  = selected cur (better acc b).
Proof.
  intros H. destruct acc as [a|]; simpl.
  - rewrite GreaterThan_bumped; trivial.
    destruct (magnitude a <? magnitude b)%nat; reflexivity.
  - now rewrite GreaterThan_bumped_cur.
Qed.

End BumpOrder.

(** ** The walk over a commit range *)

Section Walk.
Import regexp version.

Lemma setNewVersion_eta (r : GitRepo) (v : option Version) :
  newVersion r = v -> setNewVersion r v = r.
Proof. intros <-. destruct r; reflexivity. Qed.

(** The walk computes [outcome] on the messages. *)
Lemma walkCommits_outcome commits : forall r cur acc,
  currentVersion r = Some cur ->
  nonneg cur ->
  newVersion r = Some (selected cur acc) ->
  match outcome (scheme r) (strictMatch r) (messages commits) acc with
  | Some best =>
      walkCommits r commits = Ok (setNewVersion r (Some (selected cur best)))
  | None => isOk (walkCommits r commits) = false
  end.
Proof.
  induction commits as [|[c|] commits IH]; intros r cur acc Hc Hn Hv;
    cbn [messages map option_map outcome walkCommits].
  - now rewrite setNewVersion_eta.
  - unfold parseCommit.
    destruct (schemeBumper (scheme r) (strictMatch r) (git.Message c))
      as [b|] eqn:Eb.
    + rewrite Hc. cbn [deref bind]. rewrite bump_bumped. cbn [bind].
      rewrite Hv. cbn [deref bind].
      pose proof (GreaterThan_selected acc b cur Hn) as Hsel.
      specialize (IH (if GreaterThan (bumped b cur) (selected cur acc)
                      then setNewVersion r (Some (bumped b cur)) else r)
                     cur (better acc b)).
      destruct (GreaterThan (bumped b cur) (selected cur acc));
        (fold (messages commits);
         specialize (IH Hc Hn); cbn [newVersion setNewVersion] in IH;
         rewrite <- Hsel in IH at 1; specialize (IH ltac:(auto));
         exact IH).
    + destruct (strictMatch r) eqn:Es; [reflexivity|].
      cbn [bind]. fold (messages commits).
      specialize (IH r cur acc Hc Hn Hv). rewrite Es in IH. exact IH.
  - reflexivity.
Qed.

Lemma better_comm (acc : option bumper) (a b : bumper) :
  better (better acc a) b = better (better acc b) a.
Proof. destruct acc as [[]|], a, b; reflexivity. Qed.

(** The outcome of a walk does not depend on the order of the
    messages. *)
Lemma outcome_perm (sch : string) (strict : bool)
      (ms ms' : list (option string)) :
  Permutation ms ms' ->
  forall acc, outcome sch strict ms acc = outcome sch strict ms' acc.
Proof.
  induction 1 as [|x l l' _ IH|x y l|l l' l'' _ IH1 _ IH2]; intros acc.
  - reflexivity.
  - simpl. destruct x as [m|]; [|reflexivity].
    destruct (schemeBumper sch strict m); [apply IH|].
    destruct strict; [reflexivity | apply IH].
  - simpl. destruct x as [mx|], y as [my|]; try reflexivity.
    + destruct (schemeBumper sch strict mx) as [bx|],
               (schemeBumper sch strict my) as [by'|];
        try (destruct strict; reflexivity).
      now rewrite better_comm.
    + destruct (schemeBumper sch strict mx); [reflexivity|].
      destruct strict; reflexivity.
    + destruct (schemeBumper sch strict my); [reflexivity|].
      destruct strict; reflexivity.
  - now rewrite IH1.
Qed.

Lemma outcome_classified (sch : string) (strict : bool)
      (ms : list (option string)) : forall acc best,
  outcome sch strict ms acc = Some best ->
  best = fold_left better (classified sch strict ms) acc.
Proof.
  induction ms as [|[m|] ms IH]; intros acc best H; simpl in H.
  - now injection H as <-.
  - unfold classified. cbn [flat_map]. fold (classified sch strict ms).
    destruct (schemeBumper sch strict m) as [b|].
    + cbn [app fold_left]. now apply IH.
    + destruct strict; [discriminate|]. now apply IH.
  - discriminate.
Qed.

Lemma fold_better_spec (bs : list bumper) : forall acc,
  (bs = [] /\ fold_left better bs acc = acc)
  \/ exists top,
       fold_left better bs acc = Some top
       /\ (In top bs \/ acc = Some top)
       /\ (forall b, In b bs -> (magnitude b <= magnitude top)%nat)
       /\ (forall a, acc = Some a -> (magnitude a <= magnitude top)%nat).
Proof.
  induction bs as [|b bs IH]; intros acc; [now left|]. right.
  cbn [fold_left].
  destruct (IH (better acc b)) as [[-> E]|(top & E & Hin & Hmax & Hacc)].
  - cbn [fold_left]. destruct acc as [a|]; cbn [better].
    + destruct (Nat.ltb_spec (magnitude a) (magnitude b)).
      * exists b. repeat split; simpl; auto.
        -- intros b' [<-|[]]. lia.
        -- intros a' [= <-]. lia.
      * exists a. repeat split; simpl; auto.
        -- intros b' [<-|[]]. lia.
        -- intros a' [= <-]. lia.
    + exists b. repeat split; simpl; auto.
      * intros b' [<-|[]]. lia.
      * discriminate.
  - exists top. rewrite E. split; [reflexivity|].
    assert (Hb : (magnitude b <= magnitude top)%nat
                 /\ (forall a, acc = Some a ->
                               (magnitude a <= magnitude top)%nat)
                 /\ (better acc b = Some top -> b = top \/ acc = Some top)).
    { destruct acc as [a|]; cbn [better] in *.
      - destruct (Nat.ltb_spec (magnitude a) (magnitude b)).
        + specialize (Hacc b eq_refl). repeat split; try lia.
          * intros a' [= <-]. lia.
          * intros [= <-]. auto.
        + specialize (Hacc a eq_refl). repeat split; try lia.
          * intros a' [= <-]. lia.
          * auto.
      - specialize (Hacc b eq_refl). repeat split; try lia.
        + discriminate.
        + intros [= <-]. auto. }
    destruct Hb as (Hb1 & Hb2 & Hb3).
    repeat split; trivial.
    + destruct Hin as [Hin|Hin]; [left; now right|].
      destruct (Hb3 Hin) as [-> | ->]; [left; now left | now right].
    + intros b' [<-|Hb']; auto.
Qed.

(** The phases after the walk do not look at the repository. *)
Lemma compose_withCommits (now : time.Time) (r : GitRepo)
      (l : list (option git.Commit)) :
  resolved (compose now (withCommits r l)) = resolved (compose now r).
Proof.
  destruct r as [rp cv ct nv br bid cpv ltv ltc pn pl pnum bm sch st pf bn].
  unfold compose, withCommits, bumpFallback, appendPreRelease,
    appendBuildMetadata, bump. fields.
  repeat (first
            [ reflexivity
            | match goal with
              | |- context [if ?x then _ else _] => destruct x
              | |- context [deref ?x] => destruct x
              | |- context [bind ?m _] =>
                  lazymatch m with
                  | bind _ _ => fail
                  | Ok _ => fail
                  | Err _ => fail
                  | _ => destruct m
                  end
              end; cbn [deref bind resolved]; fields ]).
Qed.

End Walk.

(** ** Highest magnitude wins *)

Section HighestMagnitude.
Import regexp version.

Lemma parseTags_wf (r0 r : GitRepo) :
  parseTags r0 = Ok r ->
  exists cur tag,
    currentVersion r = Some cur /\ currentTag r = Some tag
    /\ nonneg cur /\ Prerelease cur = "".
Proof.
  unfold parseTags. intros H.
  destruct (git.Tags (repo r0)) as [tags|]; [|discriminate].
  destruct (collectVersions (repo r0) tags []) as [vs|] eqn:Ec;
    [|discriminate].
  simpl in H. pose proof (collected_nonneg _ _ _ Ec) as Hnn.
  destruct (sortReverse_spec vs Hnn) as [Hin _].
  apply scanKeys_ok in H.
  destruct H as (front & v & c & back & Ek & _ & Hv & Hcv & Hct).
  exists v, c. repeat split; trivial.
  - rewrite Forall_forall in Hnn. apply (Hnn (v, c)).
    apply Hin. rewrite Ek. apply in_or_app. right. now left.
  - now apply String.eqb_eq.
Qed.

(** The resolution of a range, given the baseline. *)
Lemma calcVersion_withCommits (now : time.Time) (r : GitRepo)
      (cur : Version) (tag : git.Commit) (l : list (option git.Commit)) :
  currentVersion r = Some cur -> currentTag r = Some tag -> nonneg cur ->
  resolved (calcVersion now (withCommits r l))
  = match git.BranchCommitID (repo r) (branch r),
          git.BranchCommit (repo r) (branch r) with
    | Ok id, Ok _ =>
        if (List.length l =? 0)%nat && strictMatch r then None
        else
          match outcome (scheme r) (strictMatch r) (messages (rev l)) None
          with
          | Some best =>
              resolved
                (compose now
                   (setNewVersion (setBranchID r id)
                                  (Some (selected cur best))))
          | None => None
          end
    | _, _ => None
    end.
Proof.
  intros Hc Ht Hn. unfold calcVersion, retrieveBranchInfo.
  cbn [withCommits repo branch currentTag currentVersion strictMatch
       setNewVersion git.BranchCommitID git.BranchCommit git.RevList fst].
  destruct (git.BranchCommitID (repo r) (branch r)) as [id|];
    [|reflexivity].
  cbn [bind].
  cbn [withCommits repo branch currentTag currentVersion strictMatch
       setNewVersion setBranchID git.BranchCommitID git.BranchCommit
       git.RevList fst].
  destruct (git.BranchCommit (repo r) (branch r)) as [h|]; [|reflexivity].
  cbn [bind]. rewrite Ht. cbn [deref bind fst].
  destruct ((List.length l =? 0)%nat && strictMatch r); [reflexivity|].
  match goal with
  | |- resolved (bind (walkCommits ?s _) _) = _ =>
      pose proof (walkCommits_outcome (rev l) s cur None) as Hw
  end.
  specialize (Hw Hc Hn Hc).
  cbn [scheme strictMatch setBranchID setNewVersion withCommits] in Hw.
  destruct (outcome (scheme r) (strictMatch r) (messages (rev l)) None)
    as [best|].
  - rewrite Hw. cbn [bind].
    rewrite <- (compose_withCommits now _ l). reflexivity.
  - destruct (walkCommits _ _); [discriminate | reflexivity].
Qed.

End HighestMagnitude.

(** ** The pre-release number *)

Section PreReleaseNumber.
Import regexp version.

Lemma ParseUint_non_numeric (s : string) :
  s = "" \/ allChars isDigit s = false ->
  snd (strconv.ParseUint s) <> None.
Proof.
  intros [->|H]; [discriminate|].
  unfold strconv.ParseUint. destruct s as [|a s]; [discriminate|].
  generalize 0. revert H. generalize (String.String a s). clear a s.
  induction s as [|b t IH]; intros Ht acc; simpl in *; [discriminate|].
  change (strconv.isDigit b) with (isDigit b).
  destruct (isDigit b); simpl in Ht; [|discriminate].
  destruct (_ <=? acc); [discriminate|].
  destruct (_ <? _); [discriminate|]. now apply IH.
Qed.

Lemma incUint64_small (n : Z) :
  0 <= n < strconv.maxUint64 -> strconv.incUint64 n = n + 1.
Proof.
  unfold strconv.incUint64, strconv.maxUint64.
  change (2 ^ 64) with 18446744073709551616. intros H.
  apply Z.mod_small. lia.
Qed.

Lemma length_pos (s : string) :
  s <> "" -> (0 <? String.length s)%nat = true
             /\ (String.length s =? 0)%nat = false.
Proof. destruct s; [congruence | auto]. Qed.

(** C7, amended: with a name, no timestamp layout and auto-increment,
    on a version without prerelease, the text parsed into the result is
    the version, "-", the name, "." and a number.  The number is 1
    when there is no matching pre-release or when its prerelease does
    not split into exactly two parts at the dots; with two parts, the
    second is read by [ParseUint] as a 64-bit unsigned decimal: the
    composition fails when it is not one (it is empty, holds another
    byte than a digit, or exceeds 2^64-1), and the number is its value
    plus 1 when the value is below 2^64-1. *)
Theorem prerelease_number_increments
        (now : time.Time) (v : Version) (name : string) :
  name <> "" ->
  Prerelease v = "" ->
  preReleaseVersion now v None name "" true
  = NewVersion (version.String v ++ "-" ++ (name ++ ".") ++ "1")
  /\ forall cur,
       (List.length (strings.Split (Prerelease cur) ".") <> 2%nat ->
        preReleaseVersion now v (Some cur) name "" true
        = NewVersion (version.String v ++ "-" ++ (name ++ ".") ++ "1"))
       /\ forall first second,
            strings.Split (Prerelease cur) "." = [first; second] ->
            (second = "" \/ allChars isDigit second = false ->
             snd (strconv.ParseUint second) <> None)
            /\ (snd (strconv.ParseUint second) <> None ->
                preReleaseVersion now v (Some cur) name "" true
                = Err ErrPreReleaseNumber)
            /\ forall n,
                 strconv.ParseUint second = (n, None) ->
                 n < strconv.maxUint64 ->
                 preReleaseVersion now v (Some cur) name "" true
                 = NewVersion (version.String v ++ "-" ++ (name ++ ".")
                               ++ strconv.FormatUint (n + 1)).
Proof.
  intros Hname Hv. destruct (length_pos name Hname) as [Hpos Hz].
  unfold preReleaseVersion. rewrite Hv, Hpos, Hz. cbn.
  split; [reflexivity|]. intros cur. split.
  - intros Hlen. apply Nat.eqb_neq in Hlen. now rewrite Hlen.
  - intros first second Hs. rewrite Hs. cbn.
    split; [apply ParseUint_non_numeric|]. split.
    + destruct (strconv.ParseUint second) as [n [e|]];
        [reflexivity | now intros []].
    + intros n Hp Hn. rewrite Hp. cbn.
      rewrite incUint64_small; [reflexivity|].
      apply ParseUint_range in Hp. unfold strconv.maxUint64 in *.
      change (2 ^ 64) with 18446744073709551616 in *. lia.
Qed.

End PreReleaseNumber.

(** ** The build number *)

Section BuildNumber.
Import regexp version.

Lemma scanKeys_latest_later keys : forall r i r',
  scanKeys r (S i) keys = Ok r' -> latestTagVersion r' = latestTagVersion r.
Proof.
  induction keys as [|[v c] keys IH]; intros r i r' H; simpl in H;
    [discriminate|].
  destruct (String.length (Prerelease v) =? 0)%nat.
  - injection H as <-.
    repeat match goal with |- context [if ?x then _ else _] =>
                             destruct x end; reflexivity.
  - apply IH in H. rewrite H.
    repeat match goal with |- context [if ?x then _ else _] =>
                             destruct x end; reflexivity.
Qed.

Lemma scanKeys_latest (r r' : GitRepo) (v : Version) (c : git.Commit)
      (keys : list (Version * git.Commit)) :
  scanKeys r 0 ((v, c) :: keys) = Ok r' ->
  latestTagVersion r' = Some v
  /\ (Prerelease v = "" -> currentVersion r' = Some v).
Proof.
  simpl. rewrite length_zero.
  destruct (String.eqb_spec (Prerelease v) "") as [E|E].
  - intros [= <-]. split; [|reflexivity].
    repeat match goal with |- context [if ?x then _ else _] =>
                             destruct x end; reflexivity.
  - intros H. split; [|congruence].
    apply scanKeys_latest_later in H. rewrite H.
    repeat match goal with |- context [if ?x then _ else _] =>
                             destruct x end; reflexivity.
Qed.

(** After the tag index, [latestTagVersion] is the first of the sorted
    versions: a parsed version, stable or not, that no parsed version
    comes after by segments; it is the baseline when it is stable. *)
Lemma parseTags_latest (r r' : GitRepo) (tags : list string) :
  git.Tags (repo r) = Ok tags ->
  parseTags r = Ok r' ->
  exists latest,
    latestTagVersion r' = Some latest
    /\ In latest (parsedVersions tags)
    /\ (forall w, In w (parsedVersions tags) ->
                  segLe (segments w) (segments latest))
    /\ (Prerelease latest = "" -> currentVersion r' = Some latest).
Proof.
  intros Ht H. unfold parseTags in H. rewrite Ht in H.
  destruct (collectVersions (repo r) tags []) as [vs|] eqn:Ec;
    [|discriminate].
  simpl in H.
  pose proof (collected_nonneg _ _ _ Ec) as Hnn.
  pose proof (collectVersions_ok _ _ _ _ Ec) as Hvs. simpl in Hvs.
  destruct (sortReverse_spec vs Hnn) as [Hin Hsorted].
  destruct (sortReverse vs) as [|[v c] keys] eqn:Ek; [discriminate|].
  apply scanKeys_latest in H. destruct H as [Hl Hcur].
  exists v. repeat split; trivial.
  - rewrite <- Hvs. change v with (fst (v, c)). apply in_map.
    apply Hin. now left.
  - intros w Hw. rewrite <- Hvs in Hw. apply in_map_iff in Hw.
    destruct Hw as ([w' cw] & <- & Hw). simpl.
    apply Hin in Hw. destruct Hw as [[= <- <-]|Hw]; [apply segLe_refl|].
    specialize (Hsorted [] (v, c) keys eq_refl).
    rewrite Forall_forall in Hsorted. apply (Hsorted _ Hw).
Qed.

End BuildNumber.

(** ** The empty commit range *)

Section EmptyRange.
Import regexp version.

Lemma outcome_noneClassifies (sch : string)
      (l : list (option git.Commit)) : forall acc,
  noneClassifies sch l = true ->
  outcome sch false (messages l) acc = Some acc.
Proof.
  induction l as [|[c|] l IH]; intros acc H; simpl in *;
    [reflexivity | | discriminate].
  apply andb_true_iff in H as [Hc Hl].
  destruct (schemeBumper sch false (git.Message c)); [discriminate|].
  now apply IH.
Qed.

Lemma noneClassifies_rev (sch : string) (l : list (option git.Commit)) :
  noneClassifies sch (rev l) = noneClassifies sch l.
Proof.
  unfold noneClassifies. induction l as [|x l IH]; simpl; [reflexivity|].
  rewrite forallb_app, IH. simpl. rewrite andb_true_r. apply andb_comm.
Qed.

Lemma compose_fallback (now : time.Time) (r : GitRepo) (cur : Version) :
  currentVersion r = Some cur ->
  newVersion r = Some cur ->
  strictMatch r = false ->
  compose now r
  = (r2 <- appendPreRelease now
             (setNewVersion r (Some (bumped patchBumper cur))) ;;
     appendBuildMetadata r2).
Proof.
  intros Hc Hn Hs. unfold compose, bumpFallback.
  rewrite Hc, Hn, Hs. cbn [deref bind].
  unfold Equal. rewrite Compare_refl. reflexivity.
Qed.

(** C6, amended: on an empty commit range [calcVersion] fails with
    [ErrSameCommit] when strictMatch is set; when it is not, the empty
    range is no error: the Patch bump of the baseline goes through the
    pre-release and build-metadata composition, exactly as for a range
    in which no commit classifies, and the run resolves to this bump
    itself when no pre-release name, timestamp layout, build number or
    build metadata is configured. *)
Theorem empty_range_falls_back_to_patch
        (now : time.Time) (r0 r : GitRepo) (id : string) (h : git.Commit) :
  parseTags r0 = Ok r ->
  git.BranchCommitID (repo r) (branch r) = Ok id ->
  git.BranchCommit (repo r) (branch r) = Ok h ->
  (strictMatch r = true ->
   calcVersion now (withCommits r []) = Err ErrSameCommit)
  /\ (strictMatch r = false ->
      exists cur,
        currentVersion r = Some cur
        /\ resolved (calcVersion now (withCommits r []))
           = resolved
               (r2 <- appendPreRelease now
                        (setNewVersion (setBranchID r id)
                                       (Some (bumped patchBumper cur))) ;;
                appendBuildMetadata r2)
        /\ (forall l, noneClassifies (scheme r) l = true ->
                      resolved (calcVersion now (withCommits r l))
                      = resolved (calcVersion now (withCommits r [])))
        /\ (preReleaseName r = "" -> preReleaseTimestampLayout r = "" ->
            buildNumber r = false -> buildMetadata r = "" ->
            resolved (calcVersion now (withCommits r []))
            = Some (bumped patchBumper cur))).
Proof.
  intros Hp Hid Hh.
  destruct (parseTags_wf _ _ Hp) as (cur & tag & Hc & Ht & Hn & _).
  split.
  - intros Hs. unfold calcVersion, retrieveBranchInfo.
    cbn [withCommits repo branch currentTag currentVersion strictMatch
         setNewVersion git.BranchCommitID git.BranchCommit git.RevList fst].
    rewrite Hid. cbn [bind].
    cbn [withCommits repo branch currentTag currentVersion strictMatch
         setNewVersion setBranchID git.BranchCommitID git.BranchCommit
         git.RevList fst].
    rewrite Hh. cbn [bind]. rewrite Ht. cbn [deref bind fst].
    now rewrite Hs.
  - intros Hs. exists cur. split; [exact Hc|].
    assert (Hempty :
              resolved (calcVersion now (withCommits r []))
              = resolved
                  (r2 <- appendPreRelease now
                           (setNewVersion (setBranchID r id)
                                          (Some (bumped patchBumper cur))) ;;
                   appendBuildMetadata r2)).
    { rewrite (calcVersion_withCommits now r cur tag); trivial.
      rewrite Hid, Hh, Hs. cbn [rev messages map outcome andb selected].
      rewrite andb_false_r.
      rewrite (compose_fallback now _ cur); trivial. }
    split; [exact Hempty|]. split.
    + intros l Hl. rewrite Hempty.
      rewrite (calcVersion_withCommits now r cur tag); trivial.
      rewrite Hid, Hh, Hs, andb_false_r.
      rewrite outcome_noneClassifies by now rewrite noneClassifies_rev.
      cbn [selected].
      rewrite (compose_fallback now _ cur); trivial.
    + intros Hname Hlay Hbn Hbm. rewrite Hempty.
      unfold appendPreRelease, appendBuildMetadata.
      cbn [preReleaseName preReleaseTimestampLayout setNewVersion
           setBranchID buildNumber buildMetadata newVersion].
      rewrite Hname, Hlay. cbn [String.length Nat.ltb Nat.leb orb bind].
      cbn [preReleaseName preReleaseTimestampLayout setNewVersion
           setBranchID buildNumber buildMetadata newVersion].
      rewrite Hbn, Hbm. reflexivity.
Qed.

End EmptyRange.

(** ** Greedy runs of a class *)

Section GreedyClass.
Import regexp.

(** A greedy star of a class takes the whole word over the class when
    the text stops at the class after it and the continuation then
    succeeds. *)
Lemma starLoop_class_greedy {R : Type} (n : nat) (p : ascii -> bool)
      (k : string -> Captures -> option R) (w : string) :
  forall s c fuel x,
    allChars p w = true -> stopsAt p s = true ->
    (String.length (w ++ s) <= fuel)%nat ->
    k s c = Some x ->
    starLoop (run n (Class p)) true k fuel (w ++ s) c = Some x.
Proof.
  induction w as [|a w IH]; intros s c fuel x Hw Hs Hf Hk.
  - cbn [append]. destruct fuel; cbn [starLoop]; trivial.
    cbn [run]. destruct s as [|b s]; cbn; [now rewrite Hk|].
    cbn in Hs. apply negb_true_iff in Hs. rewrite Hs. cbn. now rewrite Hk.
  - cbn [allChars] in Hw. apply andb_true_iff in Hw as [Ha Hw].
    cbn [append String.length] in *.
    destruct fuel as [|fuel]; [lia|].
    cbn [starLoop run]. rewrite Ha.
    assert (Hlt : (String.length (w ++ s) <? S (String.length (w ++ s)))%nat
                  = true) by (apply Nat.ltb_lt; lia).
    cbn [String.length]. rewrite Hlt.
    change (starLoop _ true k fuel (w ++ s) c)
      with (starLoop (run n (Class p)) true k fuel (w ++ s) c).
    rewrite (IH s c fuel x); trivial. lia.
Qed.

Lemma run_star_class {R : Type} (n : nat) (p : ascii -> bool)
      (k : string -> Captures -> option R) (w s : string) (c : Captures)
      (x : R) :
  allChars p w = true -> stopsAt p s = true ->
  k s c = Some x ->
  run n (Star true (Class p)) (w ++ s) c k = Some x.
Proof.
  intros Hw Hs Hk.
  change (run n (Star true (Class p)) (w ++ s) c k)
    with (starLoop (run n (Class p)) true k (String.length (w ++ s))
                   (w ++ s) c).
  apply starLoop_class_greedy; auto.
Qed.

End GreedyClass.

(** ** Breaking changes under the Conventional Commits scheme *)

Section BreakingChange.
Import regexp version.

Lemma subject_keeps (I : Captures -> Prop) (n : nat) (s : string)
      (c : Captures) :
  (forall w c, I c -> I ((4%nat, w) :: c)) ->
  I c ->
  exists s' c', run n (Quest subjectRe) s c finish = Some (s', c') /\ I c'.
Proof.
  intros HI Hc.
  change (run n (Quest subjectRe) s c finish)
    with (orElse (run n subjectRe s c finish) (finish s c)).
  destruct (run n subjectRe s c finish) as [[s' c']|] eqn:E.
  - exists s', c'. split; [reflexivity|].
    apply (run_sound n I subjectRe) in E; trivial.
    + destruct E as (w & s2 & c2 & _ & _ & HI2 & Hk).
      cbv [finish] in Hk. now injection Hk as _ <-.
    + cbn. repeat split; auto.
  - cbn. exists s, c. auto.
Qed.

Lemma paren_step {R : Type} (n : nat) (K : string -> Captures -> option R)
      (scope rest : string) (c : Captures) (x : R) :
  scopeForm scope ->
  K (String.String "!" rest) c = Some x ->
  run n parenRe (scope ++ String.String "!" rest) c K = Some x.
Proof.
  intros Hsc HK. unfold parenRe, Quest.
  destruct Hsc as [->|(inner & Hin & ->)].
  - cbn. exact HK.
  - change (run n (Alt (Alt (Cat (Lit "(")
                                 (Cat (Star true (Class notParenCRLF))
                                      (Lit ")")))
                            (Lit "(")) Empty)
                (("(" ++ inner ++ ")") ++ String.String "!" rest) c K)
      with (orElse
              (orElse
                 (run n (Star true (Class notParenCRLF))
                      ((inner ++ ")") ++ String.String "!" rest) c
                      (fun s1 c1 => run n (Lit ")") s1 c1 K))
                 (K ((inner ++ ")") ++ String.String "!" rest) c))
              (K (("(" ++ inner ++ ")") ++ String.String "!" rest) c)).
    rewrite append_assoc.
    rewrite (run_star_class n notParenCRLF _ inner _ c x); trivial.
Qed.

Lemma bang_step {R : Type} (n : nat) (K : string -> Captures -> option R)
      (rest : string) (c : Captures) (x : R) :
  K rest ((3%nat, "!") :: c) = Some x ->
  run n bangRe (String.String "!" rest) c K = Some x.
Proof.
  intros HK.
  change (run n bangRe (String.String "!" rest) c K)
    with (orElse (K rest ((3%nat,
                           substring 0
                             (String.length ("!" ++ rest)
                              - String.length rest)
                             ("!" ++ rest)) :: c))
                 (K (String.String "!" rest) c)).
  rewrite substring_append. now rewrite HK.
Qed.

Lemma scope_step {R : Type} (n : nat) (K : string -> Captures -> option R)
      (scope rest : string) (c : Captures) (x : R) :
  scopeForm scope ->
  K rest ((2%nat, scope ++ "!") :: (3%nat, "!") :: c) = Some x ->
  run n scopeRe (scope ++ String.String "!" rest) c K = Some x.
Proof.
  intros Hsc HK.
  change (run n scopeRe (scope ++ String.String "!" rest) c K)
    with (run n parenRe (scope ++ String.String "!" rest) c
              (fun s1 c1 =>
                 run n bangRe s1 c1
                     (fun s2 c2 =>
                        K s2 ((2%nat,
                               substring 0
                                 (String.length
                                    (scope ++ String.String "!" rest)
                                  - String.length s2)
                                 (scope ++ String.String "!" rest))
                                :: c2)))).
  apply paren_step; trivial.
  apply bang_step.
  change (String.String "!" rest) with ("!" ++ rest).
  rewrite <- append_assoc, substring_append. exact HK.
Qed.

Lemma type_step {R : Type} (n : nat) (K : string -> Captures -> option R)
      (a : ascii) (ty t : string) (c : Captures) (x : R) :
  perlW a = true -> allChars perlW ty = true -> stopsAt perlW t = true ->
  K t ((1%nat, String.String a ty) :: c) = Some x ->
  run n typeRe (String.String a ty ++ t) c K = Some x.
Proof.
  intros Ha Hty Ht HK.
  change (run n typeRe (String.String a ty ++ t) c K)
    with (if perlW a
          then run n (Star true (Class perlW)) (ty ++ t) c
                   (fun s1 c1 =>
                      K s1 ((1%nat,
                             substring 0
                               (String.length (String.String a ty ++ t)
                                - String.length s1)
                               (String.String a ty ++ t)) :: c1))
          else None).
  rewrite Ha. apply run_star_class; trivial.
  rewrite substring_append. exact HK.
Qed.

Lemma perlW_not_perlS (a : ascii) : perlW a = true -> perlS a = false.
Proof.
  destruct a as [[] [] [] [] [] [] [] []]; vm_compute; congruence.
Qed.

Lemma search_first (r : Syntax) (n : nat) (s s' : string) (c : Captures) :
  run n r s [] finish = Some (s', c) -> search r n s = Some (s, s', c).
Proof.
  unfold finish. intros H. destruct s; simpl; now rewrite H.
Qed.

(** On a header of the form blanks, type, scope, "!", the expression of
    the scheme matches at the start, reads the type into group 1 and
    the "!" into group 3. *)
Lemma conventional_header (ws : string) (a : ascii)
      (ty scope rest : string) :
  allChars perlS ws = true -> perlW a = true -> allChars perlW ty = true ->
  scopeForm scope ->
  let msg := ws ++ String.String a ty ++ scope ++ String.String "!" rest in
  exists s' c',
    search (syntax conventionalCommitRex) (String.length msg) msg
    = Some (msg, s', c')
    /\ lookup 3 c' = "!" /\ lookup 1 c' = String.String a ty.
Proof.
  intros Hws Ha Hty Hsc msg.
  destruct (subject_keeps
              (fun c => lookup 3 c = "!" /\ lookup 1 c = String.String a ty)
              (String.length msg) rest
              [(2%nat, scope ++ "!"); (3%nat, "!");
               (1%nat, String.String a ty)])
    as (s' & c' & Hrun & HI); [auto | auto |].
  exists s', c'. split; [|exact HI].
  apply search_first.
  change (run (String.length msg) (syntax conventionalCommitRex) msg []
              finish)
    with (if (String.length msg =? String.length msg)%nat
          then run (String.length msg) (Star true (Class perlS)) msg []
                   (fun s1 c1 =>
                      run (String.length msg) typeRe s1 c1
                          (fun s2 c2 =>
                             run (String.length msg) scopeRe s2 c2
                                 (fun s3 c3 =>
                                    run (String.length msg)
                                        (Quest subjectRe) s3 c3 finish)))
          else None).
  rewrite Nat.eqb_refl.
  apply run_star_class; trivial.
  - cbn. now rewrite perlW_not_perlS.
  - apply type_step; trivial.
    + destruct Hsc as [->|(inner & _ & ->)]; reflexivity.
    + apply scope_step; trivial.
Qed.

(** What the scheme reads off such a header. *)
Lemma bangHeader_reading (msg ty : string) :
  bangHeader msg ty ->
  breakingMark msg = true /\ conventionalType msg = ty.
Proof.
  intros (ws & scope & rest & -> & Hws & Hne & Hty & Hsc).
  destruct ty as [|a ty]; [congruence|].
  cbn [allChars] in Hty. apply andb_true_iff in Hty as [Ha Hty].
  destruct (conventional_header ws a ty scope rest Hws Ha Hty Hsc)
    as (s' & c' & Hs & H3 & H1).
  cbv zeta in Hs.
  unfold breakingMark, conventionalType, findNamedMatches,
    FindStringSubmatch.
  rewrite Hs. cbn [SubexpNames conventionalCommitRex List.length Nat.sub
                   seq map combine fold_left mapAssign fst snd].
  cbn [mapGet mapIndex String.eqb Ascii.eqb Bool.eqb].
  rewrite H3, H1. split; reflexivity.
Qed.

(** C3, amended: a message with a line that begins with
    "BREAKING CHANGE:" after the first, or whose header is blanks, a
    type of word characters, an optional scope in parentheses and a
    "!" (more generally, in which the expression of the scheme reads a
    "!" into its group "breaking"), is classified Major whenever
    strictMatch is off or the type of the header is in the table of
    authorized types. *)
Theorem breaking_change_is_major (msg : string) (strict : bool) :
  strict = false \/ authorizedType msg = true ->
  breakingFooter msg = true \/ breakingMark msg = true
  \/ (exists ty, bangHeader msg ty) ->
  parseConventionalCommit msg strict = Some majorBumper.
Proof.
  intros Hs Hb.
  assert (Hb' : breakingFooter msg = true \/ breakingMark msg = true).
  { destruct Hb as [Hb|[Hb|[ty Hb]]]; auto.
    right. now apply (bangHeader_reading msg ty). }
  clear Hb. revert Hs Hb'.
  unfold authorizedType, conventionalType, breakingFooter, breakingMark,
    parseConventionalCommit.
  intros Hs Hb.
  assert (E : strict
              && negb (isSome (mapIndex conventionalCommitAuthorizedTypes
                                 (mapGet (findNamedMatches
                                            conventionalCommitRex msg)
                                         "type"))) = false).
  { destruct Hs as [->| ->]; [reflexivity | apply andb_false_r]. }
  rewrite E.
  destruct (strings.Contains msg _); [reflexivity|].
  destruct Hb as [Hb|Hb]; [discriminate|].
  destruct (mapIndex (findNamedMatches conventionalCommitRex msg) "breaking");
    [|discriminate].
  now rewrite Hb.
Qed.

(** Under strictMatch an unauthorized type in such a header leaves the
    "!" without effect. *)
Lemma bang_header_unauthorized_strict (msg ty : string) :
  bangHeader msg ty ->
  mapIndex conventionalCommitAuthorizedTypes ty = None ->
  parseConventionalCommit msg true = None.
Proof.
  intros Hh Hty. apply parseConventionalCommit_strict_unauthorized.
  unfold authorizedType.
  now rewrite (proj2 (bangHeader_reading msg ty Hh)), Hty.
Qed.

End BreakingChange.

(** ** Instances *)

Lemma preReleaseNumber_without_name_has_no_effect_witness :
  mapOk newVersion
        (NewRepo (testrepo.env ["v1.0.1"] [])
                 (withPreReleaseNumber plainConfig true))
  = mapOk newVersion
          (NewRepo (testrepo.env ["v1.0.1"] [])
                   (withPreReleaseNumber plainConfig false)).
Proof.
  apply (preReleaseNumber_without_name_has_no_effect
           (testrepo.env ["v1.0.1"] []) plainConfig); reflexivity.
Defined.

Lemma breaking_change_is_major_witness :
  parseConventionalCommit "refactor(runtime)!: drop support for Node 6" true
  = Some majorBumper.
Proof.
  apply breaking_change_is_major.
  - right. vm_compute. reflexivity.
  - right. left. vm_compute. reflexivity.
Defined.

Lemma prerelease_number_increments_witness :
  preReleaseVersion testrepo.clock
                    (bumped patchBumper (bumped patchBumper
                       (version.mkVersion "" "" [1; 0; 0] 3 "1.0.0")))
                    None "dev" "" true
  = version.NewVersion "1.0.2-dev.1".
Proof.
  apply (prerelease_number_increments testrepo.clock
           (bumped patchBumper (bumped patchBumper
              (version.mkVersion "" "" [1; 0; 0] 3 "1.0.0"))) "dev").
  - discriminate.
  - reflexivity.
Defined.

Lemma empty_range_falls_back_to_patch_witness :
  calcVersion testrepo.clock
              (withCommits (indexed ["v1.0.0"] []
                              (testrepo.config "" "" "" false true false ""))
                           [])
  = Err ErrSameCommit.
Proof.
  apply (empty_range_falls_back_to_patch testrepo.clock
           (initial ["v1.0.0"] []
                    (testrepo.config "" "" "" false true false ""))
           (indexed ["v1.0.0"] []
                    (testrepo.config "" "" "" false true false ""))
           "c0" (git.mkCommit "c0" "seed"));
    vm_compute; reflexivity.
Defined.

(** ** Counterexamples *)

(** C1 as written fails: the baseline 1.0.1 carries the counter 5, a
    later pre-release tag carries 9, and the resolved version gets 10,
    not 6. *)
Lemma build_number_not_from_baseline :
  summary (NewRepo (testrepo.env countedTags []) buildNumberConfig)
  = Ok (Some "1.0.1+5", Some "1.0.2+10").
Proof. vm_compute. reflexivity. Qed.

(** C3 as written fails: under strictMatch, a "!" before the colon or
    a "BREAKING CHANGE:" footer after an unauthorized type gives no
    classification. *)
Lemma breaking_change_not_major_when_strict :
  bangBeforeColon "foo!: thing 1" = true
  /\ parseConventionalCommit "foo!: thing 1" true = None
  /\ breakingFooter
       ("foo: extend configs" ++ strings.LF ++ strings.LF
        ++ "BREAKING CHANGE: non-backwards compatible") = true
  /\ parseConventionalCommit
       ("foo: extend configs" ++ strings.LF ++ strings.LF
        ++ "BREAKING CHANGE: non-backwards compatible") true = None.
Proof. vm_compute. repeat split; reflexivity. Qed.

(** C6 as written fails: with strictMatch off and an empty range, the
    run still fails when the composition does, here on build metadata
    that is no number. *)
Lemma empty_range_may_fail_without_strict :
  StrictMatch buildNumberConfig = false
  /\ fst (git.RevList (testrepo.repository ["v1.0.0+abc"] []) []) = []
  /\ NewRepo (testrepo.env ["v1.0.0+abc"] []) buildNumberConfig
     = Err ErrBuildNumber.
Proof. vm_compute. repeat split; reflexivity. Qed.

(** C7 as written fails: the second part of "dev.18446744073709551616"
    is a number, and the composition fails instead of appending its
    successor. *)
Lemma prerelease_number_fails_on_numeric_part :
  option_map (fun v => strings.Split (version.Prerelease v) ".")
             (versionOfTag "v1.0.2-dev.18446744073709551616")
  = Some ["dev"; "18446744073709551616"]
  /\ allChars regexp.isDigit "18446744073709551616" = true
  /\ summary (NewRepo (testrepo.env hugeNumberTags []) devNumberConfig)
     = Err ErrPreReleaseNumber.
Proof. vm_compute. repeat split; reflexivity. Qed.

(** ** The test suite of the repository

    The expectations of [TestPrereleaseNumber], [TestBuildNumber],
    [TestMissingInitialTag], [TestNewRepoStrictMatch] and [TestAutoTag],
    on the test repositories. *)

Section TestSuite.
Import testrepo.

Example TestPrereleaseNumberFirstTime :
  latest ["v1.0.1"] [] devNumberConfig = Ok "1.0.2-dev.1".
Proof. vm_compute. reflexivity. Qed.

Example TestPrereleaseNumber :
  latest ["v1.0.1"; "v1.0.2-dev.1"] [] devNumberConfig = Ok "1.0.2-dev.2".
Proof. vm_compute. reflexivity. Qed.

Example TestPrereleaseNumberWithExtraTags :
  latest ["v1.0.1"; "v1.0.2-dev.1"; "v1.0.2-next.1"] [] devNumberConfig
  = Ok "1.0.2-dev.2".
Proof. vm_compute. reflexivity. Qed.

Example TestPrereleaseNumberWithNewVersion :
  latest ["v1.0.1"; "v1.0.2-dev.1"; "v1.0.2"] [] devNumberConfig
  = Ok "1.0.3-dev.1".
Proof. vm_compute. reflexivity. Qed.

Example TestBuildNumberFirstTime :
  latest ["v1.0.1"] [] buildNumberConfig = Ok "1.0.2+1".
Proof. vm_compute. reflexivity. Qed.

Example TestBuildNumber :
  latest ["v1.0.1+123"] [] buildNumberConfig = Ok "1.0.2+124".
Proof. vm_compute. reflexivity. Qed.

Example TestBuildNumberWithPrelease :
  latest ["v1.0.1+123"] [] (config "" "dev" "" false false true "")
  = Ok "1.0.2-dev+124".
Proof. vm_compute. reflexivity. Qed.

Example TestMissingInitialTag :
  latest [] ["a commit before any usable tag has been created"] plainConfig
  = Err ErrNoStableTags.
Proof. vm_compute. reflexivity. Qed.

Example TestNewRepoStrictMatch_autotag_bad_type :
  latest ["v1.0.0"] ["[foo]: thing 1"]
         (config "autotag" "" "" false true false "")
  = Err (ErrNoMatch "c1").
Proof. vm_compute. reflexivity. Qed.

Example TestNewRepoStrictMatch_same_commit :
  latest ["v1.0.0"] [] (config "autotag" "" "" false true false "")
  = Err ErrSameCommit.
Proof. vm_compute. reflexivity. Qed.

Example TestNewRepoStrictMatch_conventional_bad_type_bang :
  latest ["v1.0.0"] ["foo!: thing 1"]
         (config "conventional" "" "" false true false "")
  = Err (ErrNoMatch "c1").
Proof. vm_compute. reflexivity. Qed.

Example TestAutoTag_major :
  latest ["v1.0.0"]
         ["[major] this is a big release" ++ strings.LF ++ strings.LF
          ++ "foo bar baz" ++ strings.LF]
         (config "autotag" "" "" false false false "")
  = Ok "2.0.0".
Proof. vm_compute. reflexivity. Qed.

Example TestAutoTag_patch_fallback :
  latest ["v1.0.0"]
         ["this is just a basic change" ++ strings.LF ++ strings.LF
          ++ "foo bar baz" ++ strings.LF]
         (config "autotag" "" "" false false false "")
  = Ok "1.0.1".
Proof. vm_compute. reflexivity. Qed.

Example TestAutoTag_epoch_and_name :
  latest ["v1.0.0"] ["#patch bump"]
         (config "autotag" "dev" "epoch" false false false "")
  = Ok "1.0.1-dev.1546300800".
Proof. vm_compute. reflexivity. Qed.

Example TestAutoTag_datetime :
  latest ["v1.0.0"] ["#patch bump"]
         (config "autotag" "" "datetime" false false false "")
  = Ok "1.0.1-20190101000000".
Proof. vm_compute. reflexivity. Qed.

Example TestAutoTag_ignore_non_conforming_tags :
  latest ["v1.0.0"; "foo"; ""] ["#patch bump"]
         (config "autotag" "" "" false false false "")
  = Ok "1.0.1".
Proof. vm_compute. reflexivity. Qed.

Example TestAutoTag_prerelease_tag :
  latest ["v1.0.0"; "v1.0.1-pre"] ["#patch bump"]
         (config "autotag" "" "" false false false "")
  = Ok "1.0.1".
Proof. vm_compute. reflexivity. Qed.

Example TestAutoTag_build_metadata :
  latest ["v1.0.0"] ["#patch bump"]
         (config "autotag" "" "" false false false "g012345678")
  = Ok "1.0.1+g012345678".
Proof. vm_compute. reflexivity. Qed.

Example TestAutoTag_major_with_interstitial_minor :
  latest ["1.0.0"]
         ["#patch: thing 1"; "[minor]: break thing 1"; "feat: thing 2";
          "[major]: drop support for Node 6"]
         (config "autotag" "" "" false false false "")
  = Ok "2.0.0".
Proof. vm_compute. reflexivity. Qed.

Example TestAutoTag_not_lexicographic :
  latest ["v0.9.0"] ["[minor]: thing 1"; "[minor]: thing 2"]
         (config "autotag" "" "" false false false "")
  = Ok "0.10.0".
Proof. vm_compute. reflexivity. Qed.

Example TestAutoTag_conventional_scope :
  latest ["v1.0.0"] ["feat(lang): add polish language"]
         (config "conventional" "" "" false false false "")
  = Ok "1.1.0".
Proof. vm_compute. reflexivity. Qed.

Example TestAutoTag_conventional_bang_scope :
  latest ["v1.0.0"] ["refactor(runtime)!: drop support for Node 6"]
         (config "conventional" "" "" false false false "")
  = Ok "2.0.0".
Proof. vm_compute. reflexivity. Qed.

Example TestAutoTag_conventional_footer :
  latest ["v1.0.0"]
         ["feat: allow provided config object to extend other configs"
          ++ strings.LF ++ strings.LF ++ "body before footer"
          ++ strings.LF ++ strings.LF
          ++ "BREAKING CHANGE: non-backwards compatible"]
         (config "conventional" "" "" false false false "")
  = Ok "2.0.0".
Proof. vm_compute. reflexivity. Qed.

Example TestAutoTag_conventional_fallback :
  latest ["v1.0.0"] ["not a conventional commit message"]
         (config "conventional" "" "" false false false "")
  = Ok "1.0.1".
Proof. vm_compute. reflexivity. Qed.

Example TestAutoTag_conventional_breaking_between :
  latest ["v1.0.0"] ["feat: thing 1"; "feat!: break thing 1"; "feat: thing 2"]
         (config "conventional" "" "" false false false "")
  = Ok "2.0.0".
Proof. vm_compute. reflexivity. Qed.

Example TestValidateConfig :
  version.isSome (validateConfig (config "" "" "" false false false "foo..bar"))
  = true
  /\ version.isSome (validateConfig (config "" "" "" false false true "abc")) = true
  /\ version.isSome (validateConfig (config "" "024" "" false false false "")) = true
  /\ version.isSome (validateConfig (config "" "..." "" false false false "")) = true
  /\ version.isSome (validateConfig (config "" "" "foo" false false false "")) = true
  /\ validateConfig (config "" "foo" "epoch" false true false "g12345678")
     = None.
Proof. vm_compute. repeat split; reflexivity. Qed.

End TestSuite.

(** * Further properties *)

(** ** The branch when none is configured *)

Section BranchChoice.

Lemma locateBranch_main (branches : list string) : forall found,
  In "main" branches -> locateBranch branches found = "main".
Proof.
  induction branches as [|b rest IH]; intros found H; [destruct H|].
  simpl. destruct (String.eqb b "main") eqn:E; [reflexivity|].
  destruct H as [->|H]; [now rewrite String.eqb_refl in E|].
  destruct (String.eqb b "master"); now apply IH.
Qed.

Lemma locateBranch_no_main (branches : list string) : forall found,
  ~ In "main" branches ->
  locateBranch branches found
  = if existsb (String.eqb "master") branches then "master" else found.
Proof.
  induction branches as [|b rest IH]; intros found H; [reflexivity|].
  cbn [locateBranch existsb In] in *. destruct (String.eqb b "main") eqn:E.
  - apply String.eqb_eq in E. subst b. tauto.
  - rewrite (String.eqb_sym "master" b).
    destruct (String.eqb b "master"); cbn [orb].
    + rewrite IH by tauto. now destruct (existsb _ rest).
    + apply IH. tauto.
Qed.

Lemma existsb_eqb (x : string) (l : list string) :
  existsb (String.eqb x) l = true <-> In x l.
Proof.
  rewrite existsb_exists. split.
  - intros (y & Hy & E). apply String.eqb_eq in E. now subst.
  - intros H. exists x. split; [exact H | apply String.eqb_refl].
Qed.

(** With no branch configured, [NewRepo] runs as if "main" were
    configured when the repository has a branch "main", wherever it is
    in the list; as if "master" were, when it has "master" and no
    "main"; and fails when it has neither. *)
Theorem branch_defaults_to_main_then_master
        (env : Env) (cfg : GitRepoConfig) (dir : string)
        (rp : git.Repository) (branches : list string) :
  Branch cfg = "" ->
  generateGitDirPath env (RepoPath cfg) = Ok dir ->
  gitOpen env dir = Ok rp ->
  git.Branches rp = Ok branches ->
  (In "main" branches ->
   NewRepo env cfg = NewRepo env (withBranch cfg "main"))
  /\ (~ In "main" branches -> In "master" branches ->
      NewRepo env cfg = NewRepo env (withBranch cfg "master"))
  /\ (~ In "main" branches -> ~ In "master" branches ->
      validateConfig cfg = None -> statNotExist env dir = None ->
      NewRepo env cfg = Err ErrNoMainOrMaster).
Proof.
  intros Hb Hdir Hopen Hbr.
  assert (E : forall b,
             b <> "" -> locateBranch branches "" = b ->
             NewRepo env cfg = NewRepo env (withBranch cfg b)).
  { intros b Hne Hl. unfold NewRepo.
    change (validateConfig (withBranch cfg b)) with (validateConfig cfg).
    cbn [withBranch RepoPath Branch PreReleaseName PreReleaseTimestampLayout
         PreReleaseNumber BuildMetadata Scheme Prefix StrictMatch
         BuildNumber].
    destruct (validateConfig cfg); [reflexivity|].
    rewrite Hb, Hdir. cbn [bind].
    destruct (statNotExist env dir); [reflexivity|].
    rewrite Hopen. cbn [bind]. rewrite Hbr.
    cbn [bind String.eqb]. rewrite Hl.
    destruct b as [|a b]; [congruence|]. reflexivity. }
  repeat split.
  - intros Hm. apply E; [discriminate|].
    apply locateBranch_main, Hm.
  - intros Hm Hma. apply existsb_eqb in Hma.
    apply E; [discriminate|].
    now rewrite (locateBranch_no_main branches "" Hm), Hma.
  - intros Hm Hma Hv Hs. unfold NewRepo.
    rewrite Hv, Hb, Hdir. cbn [bind]. rewrite Hs, Hopen. cbn [bind].
    rewrite Hbr. cbn [bind String.eqb].
    rewrite (locateBranch_no_main branches "" Hm).
    destruct (existsb (String.eqb "master") branches) eqn:E1.
    + apply existsb_eqb in E1. tauto.
    + reflexivity.
Qed.

Lemma branch_defaults_to_main_then_master_witness :
  NewRepo (branchesEnv ["dev"; "master"; "main"]) noBranchConfig
  = NewRepo (branchesEnv ["dev"; "master"; "main"])
            (withBranch noBranchConfig "main").
Proof.
  refine (proj1 (branch_defaults_to_main_then_master
                   (branchesEnv ["dev"; "master"; "main"]) noBranchConfig
                   "/repo/.git" _ ["dev"; "master"; "main"]
                   eq_refl eq_refl eq_refl eq_refl) _).
  simpl. auto.
Defined.

End BranchChoice.

(** ** The map of named matches *)

Section NamedMatches.
Import regexp version.

Lemma mapIndex_fold (l : list (string * string)) :
  forall acc key,
    NoDup (map fst l) ->
    mapIndex (fold_left (fun results ni => mapAssign results (fst ni) (snd ni))
                        l acc) key
    = match mapIndex l key with
      | Some v => Some v
      | None => mapIndex acc key
      end.
Proof.
  induction l as [|[k v] l IH]; intros acc key Hnd; [reflexivity|].
  inversion Hnd as [|? ? Hk Hnd']; subst.
  cbn [fold_left fst snd]. rewrite IH by assumption.
  unfold mapAssign. cbn [mapIndex].
  destruct (String.eqb k key) eqn:E; [|reflexivity].
  apply String.eqb_eq in E. subst key.
  assert (Hnone : mapIndex l k = None).
  { clear -Hk. induction l as [|[k' v'] l IH]; [reflexivity|].
    cbn [mapIndex]. cbn [map fst In] in Hk.
    destruct (String.eqb k' k) eqn:E.
    - apply String.eqb_eq in E. tauto.
    - apply IH. tauto. }
  now rewrite Hnone.
Qed.

Lemma mapIndex_combine (names : list string) : forall (m : list string) i,
  NoDup names -> (i < List.length names)%nat ->
  List.length m = List.length names ->
  mapIndex (combine names m) (nth i names "") = Some (nth i m "").
Proof.
  induction names as [|k names IH]; intros m i Hnd Hi Hlen;
    [simpl in Hi; lia|].
  destruct m as [|v m]; [discriminate|].
  inversion Hnd as [|? ? Hk Hnd']; subst.
  cbn [combine mapIndex]. destruct i as [|i].
  - cbn [nth]. now rewrite String.eqb_refl.
  - cbn [nth]. simpl in Hi, Hlen.
    destruct (String.eqb k (nth i names "")) eqn:E.
    + apply String.eqb_eq in E. exfalso. apply Hk. rewrite E.
      apply nth_In. lia.
    + apply IH; trivial; lia.
Qed.

Lemma mapIndex_combine_none (names : list string) :
  forall (m : list string) key,
    ~ In key names -> mapIndex (combine names m) key = None.
Proof.
  induction names as [|k names IH]; intros m key Hk; [reflexivity|].
  destruct m as [|v m]; [reflexivity|].
  cbn [combine mapIndex]. cbn [In] in Hk.
  destruct (String.eqb k key) eqn:E.
  - apply String.eqb_eq in E. tauto.
  - apply IH. tauto.
Qed.

Lemma combine_fst (names : list string) : forall (m : list string),
  List.length m = List.length names -> map fst (combine names m) = names.
Proof.
  induction names as [|k names IH]; intros [|v m] H; try discriminate;
    [reflexivity|].
  cbn [combine map fst]. f_equal. apply IH. simpl in H. lia.
Qed.

Lemma FindStringSubmatch_length (re : Regexp) (s : string) (m : list string) :
  SubexpNames re <> [] ->
  FindStringSubmatch re s = Some m ->
  List.length m = List.length (SubexpNames re).
Proof.
  unfold FindStringSubmatch. intros Hne.
  destruct (search _ _ _) as [[[s0 s1] c]|]; [|discriminate].
  intros H. injection H as <-.
  cbn [List.length]. rewrite length_map, length_seq.
  destruct (SubexpNames re); [congruence | simpl; lia].
Qed.

(** For an expression whose group names differ from one another, the
    map of [findNamedMatches] is empty when the text has no match, and
    otherwise holds under the name of each group, the whole match
    included, what [FindStringSubmatch] gives at the index of the
    group, and nothing under any other key. *)
Theorem findNamedMatches_lookup (regex : Regexp) (str : string) :
  NoDup (SubexpNames regex) ->
  SubexpNames regex <> [] ->
  match FindStringSubmatch regex str with
  | None => findNamedMatches regex str = []
  | Some m =>
      (forall i, (i < List.length (SubexpNames regex))%nat ->
                 mapIndex (findNamedMatches regex str)
                          (nth i (SubexpNames regex) "")
                 = Some (nth i m ""))
      /\ forall key, ~ In key (SubexpNames regex) ->
                     mapIndex (findNamedMatches regex str) key = None
  end.
Proof.
  intros Hnd Hne. unfold findNamedMatches.
  destruct (FindStringSubmatch regex str) as [m|] eqn:E; [|reflexivity].
  pose proof (FindStringSubmatch_length regex str m Hne E) as Hlen.
  split.
  - intros i Hi. rewrite mapIndex_fold by now rewrite combine_fst.
    now rewrite mapIndex_combine.
  - intros key Hk. rewrite mapIndex_fold by now rewrite combine_fst.
    now rewrite mapIndex_combine_none.
Qed.

Lemma findNamedMatches_lookup_witness :
  mapIndex (findNamedMatches conventionalCommitRex "feat(api)!: drop v1")
           "scope"
  = Some "(api)!".
Proof.
  assert (Hnd : NoDup (SubexpNames conventionalCommitRex)).
  { repeat constructor; simpl; intuition discriminate. }
  assert (Hne : SubexpNames conventionalCommitRex <> []) by discriminate.
  pose proof (findNamedMatches_lookup conventionalCommitRex
                                      "feat(api)!: drop v1" Hnd Hne) as H.
  vm_compute FindStringSubmatch in H.
  exact (proj1 H 2%nat ltac:(simpl; lia)).
Defined.

End NamedMatches.

(** ** Errors of the resolution *)

Section Resolution.
Import regexp version.

Lemma NewVersion_error (s : string) (e : error) :
  NewVersion s = Err e -> compositionError e = true.
Proof.
  unfold NewVersion.
  destruct (FindStringSubmatch versionRegexp s) as [m|].
  - destruct (parseSegments _); [discriminate|].
    intros H. injection H as <-. reflexivity.
  - intros H. injection H as <-. reflexivity.
Qed.

(** A walk from a state with a baseline and a candidate keeps both set
    and changes the candidate only; it fails only on a nil commit or on
    a commit without a match. *)
Lemma walkCommits_result (l : list (option git.Commit)) : forall r cur nv,
  currentVersion r = Some cur -> newVersion r = Some nv ->
  match walkCommits r l with
  | Ok r1 => exists nv', r1 = setNewVersion r (Some nv')
  | Err e => e = ErrNilCommit \/ exists id, e = ErrNoMatch id
  end.
Proof.
  induction l as [|[c|] l IH]; intros r cur nv Hc Hn; cbn [walkCommits].
  - exists nv. now rewrite setNewVersion_eta.
  - unfold parseCommit. rewrite Hc.
    destruct (schemeBumper _ _ _) as [b|]; cbn [bind deref].
    + rewrite Hn. cbn [bind deref bump].
      match goal with
      | |- context [if ?g then _ else _] => destruct g
      end.
      * match goal with
        | |- match walkCommits ?x _ with _ => _ end =>
            specialize (IH x cur _ Hc eq_refl)
        end.
        destruct (walkCommits _ l) as [r1|e]; [|exact IH].
        destruct IH as [nv' ->]. now exists nv'.
      * apply (IH r cur nv Hc Hn).
    + destruct (strictMatch r); cbn [bind]; [eauto|].
      apply (IH r cur nv Hc Hn).
  - now left.
Qed.

Lemma bumpFallback_result (r : GitRepo) (cur nv : Version) :
  currentVersion r = Some cur -> newVersion r = Some nv ->
  match bumpFallback r with
  | Ok r1 => exists nv', r1 = setNewVersion r (Some nv')
  | Err e => e = ErrNoBumpFound
  end.
Proof.
  intros Hc Hn. unfold bumpFallback. rewrite Hc, Hn. cbn [bind deref].
  destruct (Equal nv cur).
  - destruct (strictMatch r); [reflexivity|]. cbn [bind bump]. eauto.
  - exists nv. now rewrite setNewVersion_eta.
Qed.

Lemma preReleaseVersion_error now v cur name ts inc (e : error) :
  preReleaseVersion now v cur name ts inc = Err e ->
  compositionError e = true.
Proof.
  unfold preReleaseVersion.
  destruct (_ && _); [discriminate|].
  destruct (0 <? String.length (Prerelease v))%nat.
  { intros H. injection H as <-. reflexivity. }
  destruct (0 <? String.length ts)%nat; cbn [bind].
  { apply NewVersion_error. }
  destruct (_ && inc); cbn [bind]; [|apply NewVersion_error].
  destruct cur as [cur|]; cbn [bind]; [|apply NewVersion_error].
  destruct (List.length _ =? 2)%nat; cbn [bind]; [|apply NewVersion_error].
  destruct (strconv.ParseUint _) as [n [err|]]; cbn [bind].
  - intros H. injection H as <-. reflexivity.
  - apply NewVersion_error.
Qed.

Lemma appendPreRelease_result now (r : GitRepo) (nv : Version) :
  newVersion r = Some nv ->
  match appendPreRelease now r with
  | Ok r1 => exists nv', r1 = setNewVersion r (Some nv')
  | Err e => compositionError e = true
  end.
Proof.
  intros Hn. unfold appendPreRelease. rewrite Hn.
  destruct (_ || _); cbn [bind deref].
  - destruct (preReleaseVersion _ _ _ _ _ _) as [v|e] eqn:E; cbn [bind].
    + eauto.
    + now apply preReleaseVersion_error in E.
  - exists nv. now rewrite setNewVersion_eta.
Qed.

Lemma appendBuildMetadata_result (r : GitRepo) (nv lt : Version) :
  newVersion r = Some nv -> latestTagVersion r = Some lt ->
  match appendBuildMetadata r with
  | Ok r1 => exists nv', r1 = setNewVersion r (Some nv')
  | Err e => compositionError e = true
  end.
Proof.
  intros Hn Hl. unfold appendBuildMetadata. rewrite Hn, Hl.
  destruct (buildNumber r).
  - destruct (nonEmpty (buildMetadata r)); [reflexivity|].
    cbn [bind deref].
    destruct (String.eqb (Metadata lt) ""); cbn [bind].
    + destruct (NewVersion _) as [v|e] eqn:E; cbn [bind]; [eauto|].
      now apply NewVersion_error in E.
    + destruct (strconv.ParseUint _) as [n [err|]]; cbn [bind];
        [reflexivity|].
      destruct (NewVersion _) as [v|e] eqn:E; cbn [bind]; [eauto|].
      now apply NewVersion_error in E.
  - destruct (nonEmpty (buildMetadata r)); cbn [bind deref].
    + destruct (NewVersion _) as [v|e] eqn:E; cbn [bind]; [eauto|].
      now apply NewVersion_error in E.
    + exists nv. now rewrite setNewVersion_eta.
Qed.

Lemma setNewVersion_twice (r : GitRepo) (v w : option Version) :
  setNewVersion (setNewVersion r v) w = setNewVersion r w.
Proof. reflexivity. Qed.

(** The phases after the walk change the candidate only, and fail only
    with their own errors. *)
Lemma compose_result now (r : GitRepo) (cur nv lt : Version) :
  currentVersion r = Some cur -> newVersion r = Some nv ->
  latestTagVersion r = Some lt ->
  match compose now r with
  | Ok r1 => exists nv', r1 = setNewVersion r (Some nv')
  | Err e => compositionError e = true
  end.
Proof.
  intros Hc Hn Hl. unfold compose.
  pose proof (bumpFallback_result r cur nv Hc Hn) as Hb.
  destruct (bumpFallback r) as [r1|e]; cbn [bind]; [|now subst e].
  destruct Hb as [nv1 ->].
  pose proof (appendPreRelease_result now (setNewVersion r (Some nv1)) nv1
                                      eq_refl) as Hp.
  destruct (appendPreRelease now _) as [r2|e]; cbn [bind]; [|exact Hp].
  destruct Hp as [nv2 ->]. rewrite setNewVersion_twice.
  pose proof (appendBuildMetadata_result (setNewVersion r (Some nv2)) nv2 lt
                                         eq_refl Hl) as Ha.
  destruct (appendBuildMetadata _) as [r3|e]; [|exact Ha].
  destruct Ha as [nv3 ->]. exists nv3. reflexivity.
Qed.

Lemma parseTags_latest_set (r0 r : GitRepo) :
  parseTags r0 = Ok r -> exists lt, latestTagVersion r = Some lt.
Proof.
  intros H. destruct (git.Tags (repo r0)) as [tags|] eqn:Et.
  - destruct (parseTags_latest r0 r tags Et H) as (lt & Hl & _). eauto.
  - unfold parseTags in H. now rewrite Et in H.
Qed.

(** The phases of [calcVersion] from a state with a baseline, a commit
    of the baseline and a latest tag. *)
Lemma calcVersion_result now (r : GitRepo) (cur lt : Version)
      (tag : git.Commit) :
  currentVersion r = Some cur -> currentTag r = Some tag ->
  latestTagVersion r = Some lt ->
  match calcVersion now r with
  | Ok r1 =>
      exists id nv, git.BranchCommitID (repo r) (branch r) = Ok id
                    /\ r1 = setNewVersion (setBranchID r id) (Some nv)
  | Err e =>
      resolutionError e = true
      \/ git.BranchCommit (repo r) (branch r) = Err e
  end.
Proof.
  destruct r as [rp cv ct nv0 br bid cpv ltv ltc pn pl pnum bm sch st pf bn].
  cbn. intros -> -> ->.
  unfold calcVersion, retrieveBranchInfo. fields.
  destruct (git.BranchCommitID rp br) as [id|e0]; cbn [bind]; [|now left].
  fields.
  destruct (git.BranchCommit rp br) as [h|e0]; cbn [bind]; [|now right].
  cbn [bind deref].
  destruct (_ && st); [now left|].
  match goal with
  | |- match bind (walkCommits ?x ?l) ?k with _ => _ end =>
      pose proof (walkCommits_result l x cur cur eq_refl eq_refl) as Hw;
      change (bind (walkCommits x l) k)
        with (bind (walkCommits x l) (compose now));
      destruct (walkCommits x l) as [r2|e]; cbn [bind]
  end.
  2:{ left. destruct Hw as [->|[i ->]]; reflexivity. }
  destruct Hw as [nv2 ->]. fields.
  match goal with
  | |- match compose now ?x with _ => _ end =>
      pose proof (compose_result now x cur nv2 lt eq_refl eq_refl eq_refl)
        as Hk;
      destruct (compose now x) as [r3|e]
  end.
  2:{ left. unfold resolutionError. now rewrite Hk. }
  destruct Hk as [nv3 ->]. exists id, nv3. split; reflexivity.
Qed.

(** After a successful tag index, [calcVersion] fails only with one of
    the errors it builds itself or with the error of [BranchCommit]: no
    pointer it dereferences is nil, although it checks none.  When it
    succeeds it has written the candidate and the commit of the branch,
    and nothing else. *)
Theorem calcVersion_fails_only_with_its_own_errors
        (now : time.Time) (r0 r : GitRepo) :
  parseTags r0 = Ok r ->
  match calcVersion now r with
  | Ok r1 =>
      exists id nv, git.BranchCommitID (repo r) (branch r) = Ok id
                    /\ r1 = setNewVersion (setBranchID r id) (Some nv)
  | Err e =>
      (resolutionError e = true
       \/ git.BranchCommit (repo r) (branch r) = Err e)
      /\ (git.BranchCommit (repo r) (branch r) <> Err PanicNilDereference ->
          e <> PanicNilDereference)
  end.
Proof.
  intros H.
  destruct (parseTags_wf r0 r H) as (cur & tag & Hc & Ht & _).
  destruct (parseTags_latest_set r0 r H) as [lt Hl].
  pose proof (calcVersion_result now r cur lt tag Hc Ht Hl) as Hr.
  destruct (calcVersion now r) as [r1|e]; [exact Hr|].
  split; [exact Hr|].
  intros Hb ->. destruct Hr as [Hr|Hr]; [discriminate | contradiction].
Qed.

Lemma calcVersion_fails_only_with_its_own_errors_witness :
  exists id nv,
    git.BranchCommitID (repo (indexed ["v1.0.0"] [] plainConfig))
                       (branch (indexed ["v1.0.0"] [] plainConfig)) = Ok id
    /\ Ok (setNewVersion
             (setBranchID (indexed ["v1.0.0"] [] plainConfig) id) (Some nv))
       = calcVersion testrepo.clock (indexed ["v1.0.0"] [] plainConfig).
Proof.
  pose proof (calcVersion_fails_only_with_its_own_errors
                testrepo.clock (initial ["v1.0.0"] [] plainConfig)
                (indexed ["v1.0.0"] [] plainConfig) eq_refl) as H.
  destruct (calcVersion testrepo.clock (indexed ["v1.0.0"] [] plainConfig))
    as [r1|e] eqn:E; [|discriminate E].
  destruct H as (id & nv & Hid & ->). exists id, nv. split; trivial.
Defined.

(** In a strict walk the first commit the scheme does not classify
    ends the walk with its id. *)
Lemma walkCommits_strict (cs : list git.Commit) : forall r cur nv,
  strictMatch r = true ->
  currentVersion r = Some cur -> newVersion r = Some nv ->
  match find (unmatched (scheme r)) cs with
  | Some c => walkCommits r (map Some cs) = Err (ErrNoMatch (git.ID c))
  | None => exists nv', walkCommits r (map Some cs)
                        = Ok (setNewVersion r (Some nv'))
  end.
Proof.
  induction cs as [|c cs IH]; intros r cur nv Hs Hc Hn;
    cbn [find map walkCommits].
  - exists nv. now rewrite setNewVersion_eta.
  - unfold unmatched at 1. unfold parseCommit. rewrite Hs, Hc.
    destruct (schemeBumper (scheme r) true (git.Message c)) as [b|];
      cbn [isSome negb bind deref bump]; [|reflexivity].
    rewrite Hn. cbn [bind deref].
    match goal with
    | |- context [if ?g then _ else _] => destruct g
    end.
    + match goal with
      | |- context [walkCommits ?x _] =>
          specialize (IH x cur _ Hs Hc eq_refl)
      end.
      fields. destruct (find _ cs); [exact IH|].
      destruct IH as [nv' ->]. now exists nv'.
    + apply (IH r cur nv Hs Hc Hn).
Qed.

(** With strictMatch, when some commit of the range is not classified
    by the scheme, [calcVersion] fails with the id of the oldest such
    commit, whatever the commits after it are; when all are classified
    it does not fail for want of a match. *)
Theorem strict_failure_names_oldest_unmatched
        (now : time.Time) (r0 r : GitRepo) (h : git.Commit)
        (id : string) (cs : list git.Commit) :
  parseTags r0 = Ok r ->
  strictMatch r = true ->
  git.BranchCommitID (repo r) (branch r) = Ok id ->
  git.BranchCommit (repo r) (branch r) = Ok h ->
  match find (unmatched (scheme r)) cs with
  | Some c =>
      calcVersion now (withCommits r (rev (map Some cs)))
      = Err (ErrNoMatch (git.ID c))
  | None =>
      forall i, calcVersion now (withCommits r (rev (map Some cs)))
                <> Err (ErrNoMatch i)
  end.
Proof.
  intros H.
  destruct (parseTags_wf r0 r H) as (cur & tag & Hc & Ht & _).
  destruct (parseTags_latest_set r0 r H) as [lt Hl].
  clear H. revert Hc Ht Hl.
  destruct r as [rp cv ct nv0 br bid cpv ltv ltc pn pl pnum bm sch st pf bn].
  cbn. intros -> -> -> -> Hid Hh.
  unfold calcVersion, retrieveBranchInfo. fields.
  cbn [git.BranchCommitID git.BranchCommit git.RevList].
  rewrite Hid. cbn [bind]. fields.
  cbn [git.BranchCommitID git.BranchCommit git.RevList].
  rewrite Hh. cbn [bind deref fst].
  rewrite rev_involutive, length_rev, length_map.
  match goal with
  | |- context [bind (walkCommits ?x (map Some cs)) ?k] =>
      pose proof (walkCommits_strict cs x cur cur eq_refl eq_refl eq_refl)
        as Hw;
      change (bind (walkCommits x (map Some cs)) k)
        with (bind (walkCommits x (map Some cs)) (compose now))
  end.
  fields.
  destruct cs as [|c0 cs']; [cbn; intros i; discriminate|].
  cbn [List.length Nat.eqb andb].
  destruct (find (unmatched sch) (c0 :: cs')) as [c|].
  - now rewrite Hw.
  - destruct Hw as [nv' ->]. cbn [bind]. intros i. fields.
    match goal with
    | |- compose now ?x <> _ =>
        pose proof (compose_result now x cur nv' lt eq_refl eq_refl eq_refl)
          as Hk;
        destruct (compose now x) as [r3|e]
    end; [discriminate|].
    intros E. injection E as ->. discriminate.
Qed.

Lemma strict_failure_names_oldest_unmatched_witness :
  calcVersion testrepo.clock
              (withCommits strictIndexed (rev (map Some threeCommits)))
  = Err (ErrNoMatch "c2").
Proof.
  exact (strict_failure_names_oldest_unmatched
           testrepo.clock
           (initial ["v1.0.0"] []
                    (testrepo.config "conventional" "" "" false true false ""))
           strictIndexed (git.mkCommit "c0" "seed") "c0"
           threeCommits eq_refl eq_refl eq_refl eq_refl).
Defined.

End Resolution.

(** ** What the tag index records *)

Section TagRecords.
Import regexp version.

Lemma collectVersions_tagged (rp : git.Repository) (tags : list string) :
  forall acc vs,
    collectVersions rp tags acc = Ok vs ->
    forall v c, In (v, c) vs -> In (v, c) acc \/ tagged rp tags v c.
Proof.
  induction tags as [|t tags IH]; intros acc vs H v c Hin; cbn in H.
  - injection H as <-. now left.
  - assert (Hweak : tagged rp tags v c -> tagged rp (t :: tags) v c).
    { intros (t' & Ht' & H'). exists t'. split; [now right | exact H']. }
    destruct (maybeVersionFromTag t) as [[w|]|] eqn:E.
    + destruct (git.CommitByRevision rp t) as [cw|] eqn:Ec; [|discriminate].
      destruct (IH _ _ H v c Hin) as [Ha|Ha]; [|auto].
      apply in_app_or in Ha. destruct Ha as [Ha|[Ha|[]]]; [now left|].
      injection Ha as <- <-. right. exists t. unfold versionOfTag.
      rewrite E. repeat split; trivial. now left.
    + destruct (IH _ _ H v c Hin); auto.
    + destruct (IH _ _ H v c Hin); auto.
Qed.

Lemma scanKeys_latest_commit_later keys : forall r i r',
  scanKeys r (S i) keys = Ok r' -> latestTagCommit r' = latestTagCommit r.
Proof.
  induction keys as [|[v c] keys IH]; intros r i r' H; cbn [scanKeys] in H;
    [discriminate|].
  cbn [Nat.eqb] in H.
  destruct (String.length (Prerelease v) =? 0)%nat.
  - injection H as <-.
    repeat match goal with |- context [if ?x then _ else _] =>
                             destruct x end; reflexivity.
  - apply IH in H. rewrite H.
    repeat match goal with |- context [if ?x then _ else _] =>
                             destruct x end; reflexivity.
Qed.

Lemma scanKeys_latest_commit (r r' : GitRepo) (v : Version) (c : git.Commit)
      (keys : list (Version * git.Commit)) :
  scanKeys r 0 ((v, c) :: keys) = Ok r' -> latestTagCommit r' = Some c.
Proof.
  cbn [scanKeys Nat.eqb]. intros H.
  destruct (String.length (Prerelease v) =? 0)%nat.
  - injection H as <-.
    repeat match goal with |- context [if ?x then _ else _] =>
                             destruct x end; reflexivity.
  - apply scanKeys_latest_commit_later in H. rewrite H.
    repeat match goal with |- context [if ?x then _ else _] =>
                             destruct x end; reflexivity.
Qed.

(** The baseline of a successful tag index and its commit, and the
    latest version and its commit, are each a version a tag of the
    repository parses to together with the commit that tag resolves
    to. *)
Theorem indexed_versions_carry_their_tag_commit
        (r r' : GitRepo) (tags : list string) :
  git.Tags (repo r) = Ok tags ->
  parseTags r = Ok r' ->
  exists v c lv lc,
    currentVersion r' = Some v /\ currentTag r' = Some c
    /\ tagged (repo r) tags v c
    /\ latestTagVersion r' = Some lv /\ latestTagCommit r' = Some lc
    /\ tagged (repo r) tags lv lc.
Proof.
  intros Ht H. unfold parseTags in H. rewrite Ht in H.
  destruct (collectVersions (repo r) tags []) as [vs|] eqn:Ec;
    [|discriminate].
  cbn [bind] in H.
  pose proof (collected_nonneg _ _ _ Ec) as Hnn.
  destruct (sortReverse_spec vs Hnn) as [Hin _].
  assert (Htag : forall v c, In (v, c) (sortReverse vs) ->
                             tagged (repo r) tags v c).
  { intros v c Hk. apply Hin in Hk.
    destruct (collectVersions_tagged _ _ _ _ Ec v c Hk) as [[]|Hk'].
    exact Hk'. }
  pose proof H as Hs. apply scanKeys_ok in Hs.
  destruct Hs as (front & v & c & back & Ek & _ & _ & Hcv & Hct).
  destruct (sortReverse vs) as [|[lv lc] keys] eqn:Ekeys.
  { destruct front; discriminate. }
  exists v, c, lv, lc. repeat split; trivial.
  - apply Htag. rewrite Ek. apply in_or_app. right. now left.
  - now apply (scanKeys_latest r r' lv lc keys).
  - now apply (scanKeys_latest_commit r r' lv lc keys).
  - apply Htag. now left.
Qed.

Lemma indexed_versions_carry_their_tag_commit_witness :
  exists v c lv lc,
    currentVersion (indexed mixedTags [] plainConfig) = Some v
    /\ currentTag (indexed mixedTags [] plainConfig) = Some c
    /\ tagged (testrepo.repository mixedTags []) mixedTags v c
    /\ latestTagVersion (indexed mixedTags [] plainConfig) = Some lv
    /\ latestTagCommit (indexed mixedTags [] plainConfig) = Some lc
    /\ tagged (testrepo.repository mixedTags []) mixedTags lv lc.
Proof.
  exact (indexed_versions_carry_their_tag_commit
           (initial mixedTags [] plainConfig)
           (indexed mixedTags [] plainConfig) mixedTags eq_refl eq_refl).
Defined.

(** *** The pre-release the number continues from *)

Lemma scanKeys_pre_kept keys : forall r i r' p,
  curPreReleaseVer r = Some p ->
  scanKeys r i keys = Ok r' -> curPreReleaseVer r' = Some p.
Proof.
  induction keys as [|[v c] keys IH]; intros r i r' p Hp H;
    cbn [scanKeys] in H; [discriminate|].
  assert (Hp' : curPreReleaseVer
                  (if (i =? 0)%nat then setLatestTag r v c else r) = Some p).
  { destruct (i =? 0)%nat; exact Hp. }
  rewrite Hp' in H. cbn [isSome negb] in H. rewrite andb_false_r in H.
  destruct (String.length (Prerelease v) =? 0)%nat.
  - injection H as <-. exact Hp'.
  - now apply (IH _ _ _ p Hp') in H.
Qed.

Lemma find_split {A : Type} (f : A -> bool) (l : list A) (x : A) :
  find f l = Some x ->
  exists l1 l2, l = (l1 ++ x :: l2)%list
                /\ Forall (fun y => f y = false) l1 /\ f x = true.
Proof.
  induction l as [|a l IH]; cbn [find]; [discriminate|].
  destruct (f a) eqn:E.
  - intros H. injection H as <-. exists [], l. auto.
  - intros H. destruct (IH H) as (l1 & l2 & -> & Hl1 & Hx).
    exists (a :: l1), l2. auto.
Qed.

Lemma find_none_Forall {A : Type} (f : A -> bool) (l : list A) :
  find f l = None -> Forall (fun y => f y = false) l.
Proof.
  induction l as [|a l IH]; cbn [find]; [constructor|].
  destruct (f a) eqn:E; [discriminate | auto].
Qed.

(** The second loop of [parseTags] stamps the first key before the
    baseline whose pre-release continues the configured name. *)
Lemma scanKeys_pre keys : forall r i r',
  curPreReleaseVer r = None ->
  scanKeys r i keys = Ok r' ->
  exists front v c back,
    keys = (front ++ (v, c) :: back)%list
    /\ Forall (fun k => stable (fst k) = false) front
    /\ stable v = true
    /\ currentVersion r' = Some v
    /\ curPreReleaseVer r'
       = if nonEmpty (preReleaseName r)
         then option_map fst
                (find (fun k => continues (preReleaseName r) (fst k)) front)
         else None.
Proof.
  induction keys as [|[v c] keys IH]; intros r i r' Hp H;
    [discriminate|].
  cbn [scanKeys] in H. rewrite length_zero in H. fold (stable v) in H.
  set (r1 := if (i =? 0)%nat then setLatestTag r v c else r) in *.
  assert (Hp1 : curPreReleaseVer r1 = None)
    by (subst r1; destruct (i =? 0)%nat; exact Hp).
  assert (Hn1 : preReleaseName r1 = preReleaseName r)
    by (subst r1; destruct (i =? 0)%nat; reflexivity).
  rewrite Hp1, Hn1 in H. cbn [isSome negb] in H. rewrite andb_true_r in H.
  fold (continues (preReleaseName r) v) in H.
  destruct (stable v) eqn:Ev.
  - assert (Hne : nonEmpty (Prerelease v) = false).
    { unfold nonEmpty. unfold stable in Ev. now rewrite Ev. }
    rewrite Hne, andb_false_r in H.
    injection H as <-. exists [], v, c, keys.
    cbn [find option_map]. repeat split; auto.
    change (curPreReleaseVer (setCurrent r1 v c))
      with (curPreReleaseVer r1).
    rewrite Hp1. destruct (nonEmpty (preReleaseName r)); reflexivity.
  - assert (Hne : nonEmpty (Prerelease v) = true).
    { unfold nonEmpty. unfold stable in Ev. now rewrite Ev. }
    rewrite Hne, andb_true_r in H.
    destruct (nonEmpty (preReleaseName r)) eqn:En.
    + destruct (continues (preReleaseName r) v) eqn:Econt.
      * pose proof H as Hk.
        apply (scanKeys_pre_kept keys (setCurPreReleaseVer r1 v) _ _ v
                                 eq_refl) in Hk.
        apply scanKeys_ok in H.
        destruct H as (front & v' & c' & back & -> & Hf & Hv' & Hcv & _).
        exists ((v, c) :: front), v', c', back.
        cbn [find fst]. rewrite Econt. cbn [option_map].
        repeat split; auto.
      * apply (IH _ _ _ Hp1) in H.
        destruct H as (front & v' & c' & back & -> & Hf & Hv' & Hcv & Hpre).
        exists ((v, c) :: front), v', c', back.
        cbn [find fst]. rewrite Econt.
        rewrite Hn1, En in Hpre.
        repeat split; auto.
    + apply (IH _ _ _ Hp1) in H.
      destruct H as (front & v' & c' & back & -> & Hf & Hv' & Hcv & Hpre).
      exists ((v, c) :: front), v', c', back.
      rewrite Hn1, En in Hpre.
      repeat split; auto.
Qed.

(** *** Pre-release names with a dot *)

Lemma Split_nonempty (s : string) (sep : ascii) : strings.Split s sep <> [].
Proof.
  destruct s as [|a s]; cbn [strings.Split]; [discriminate|].
  destruct (Ascii.eqb a sep); [discriminate|].
  destruct (strings.Split s sep); discriminate.
Qed.

Lemma Split_length_app (a b : string) (sep : ascii) :
  List.length (strings.Split (a ++ String.String sep b) sep)
  = (List.length (strings.Split a sep)
     + List.length (strings.Split b sep))%nat.
Proof.
  induction a as [|x a IH]; cbn [append strings.Split].
  - now rewrite Ascii.eqb_refl.
  - destruct (Ascii.eqb x sep); cbn [List.length]; [now rewrite IH|].
    pose proof (Split_nonempty (a ++ String.String sep b) sep) as H1.
    pose proof (Split_nonempty a sep) as H2.
    destruct (strings.Split (a ++ String.String sep b) sep);
      [congruence|].
    destruct (strings.Split a sep); [congruence|].
    cbn [List.length] in *. exact IH.
Qed.

Lemma Contains_dot_Split (s : string) :
  strings.Contains s "." = true ->
  (2 <= List.length (strings.Split s "."))%nat.
Proof.
  induction s as [|x s IH]; cbn [strings.Contains String.prefix];
    [discriminate|].
  cbn [strings.Split].
  destruct (ascii_dec "." x) as [<-|Hx].
  - intros _. cbn [Ascii.eqb Bool.eqb List.length].
    pose proof (Split_nonempty s ".") as H.
    destruct (strings.Split s "."); [congruence | cbn; lia].
  - destruct (Ascii.eqb x ".") eqn:E.
    { apply Ascii.eqb_eq in E. congruence. }
    intros H. specialize (IH H).
    destruct (strings.Split s "."); cbn [List.length] in *; lia.
Qed.

Lemma HasPrefix_app (s pre : string) :
  strings.HasPrefix s pre = true -> exists rest, s = pre ++ rest.
Proof.
  unfold strings.HasPrefix. revert s.
  induction pre as [|a pre IH]; intros s H.
  - exists s. reflexivity.
  - destruct s as [|b s]; cbn [String.prefix] in H; [discriminate|].
    destruct (ascii_dec a b) as [<-|]; [|discriminate].
    destruct (IH s H) as [rest ->]. exists rest. reflexivity.
Qed.

(** The pre-release a tag index records continues the configured
    name. *)
Lemma parseTags_continues (r r' : GitRepo) (p : Version) :
  curPreReleaseVer r = None ->
  parseTags r = Ok r' ->
  curPreReleaseVer r' = Some p ->
  continues (preReleaseName r) p = true.
Proof.
  intros Hp H. unfold parseTags in H.
  destruct (git.Tags (repo r)) as [tags|]; [|discriminate].
  destruct (collectVersions (repo r) tags []) as [vs|]; [|discriminate].
  cbn [bind] in H. apply (scanKeys_pre _ _ _ _ Hp) in H.
  destruct H as (front & base & c & back & _ & _ & _ & _ & Hpre).
  rewrite Hpre. destruct (nonEmpty (preReleaseName r)); [|discriminate].
  destruct (find _ front) as [[q cq]|] eqn:E; [|discriminate].
  cbn [option_map fst]. intros Hq. injection Hq as ->.
  apply find_some in E. apply E.
Qed.

(** With a pre-release name that holds a dot, the numbered pre-release
    is numbered 1 whatever the tags are: a tag that continues the name
    has more than two parts, and the number is read from the second of
    exactly two. *)
Theorem dotted_name_number_never_advances
        (now : time.Time) (r0 r : GitRepo) (v : Version) :
  parseTags r0 = Ok r ->
  curPreReleaseVer r0 = None ->
  strings.Contains (preReleaseName r0) "." = true ->
  Prerelease v = "" ->
  preReleaseVersion now v (curPreReleaseVer r) (preReleaseName r) "" true
  = NewVersion (version.String v ++ "-" ++ (preReleaseName r ++ ".") ++ "1").
Proof.
  intros H Hp Hdot Hv.
  destruct (parseTags_config r0 r H) as [Hname _].
  assert (Hcur : forall p, curPreReleaseVer r = Some p ->
                           continues (preReleaseName r0) p = true)
    by (intros p; now apply parseTags_continues).
  rewrite Hname.
  assert (Hne : preReleaseName r0 <> "").
  { intros E. rewrite E in Hdot. discriminate. }
  destruct (length_pos _ Hne) as [Hpos Hz].
  unfold preReleaseVersion. rewrite Hv, Hz, Hpos.
  cbn [String.length Nat.eqb Nat.ltb Nat.leb andb bind].
  destruct (curPreReleaseVer r) as [p|]; [|reflexivity].
  specialize (Hcur p eq_refl).
  apply HasPrefix_app in Hcur. destruct Hcur as [rest Hrest].
  rewrite Hrest, append_assoc. cbn [append].
  rewrite Split_length_app.
  pose proof (Contains_dot_Split _ Hdot) as H2.
  pose proof (Split_nonempty rest ".") as H1.
  destruct (strings.Split rest "."); [congruence|].
  cbn [List.length].
  destruct (_ =? 2)%nat eqn:E; [apply Nat.eqb_eq in E; lia|].
  reflexivity.
Qed.

Lemma dotted_name_number_never_advances_witness :
  validateConfig dottedNameConfig = None
  /\ preReleaseVersion testrepo.clock
                       (version.mkVersion "" "" [1; 0; 1] 3 "1.0.1")
                       (curPreReleaseVer
                          (indexed dottedNameTags [] dottedNameConfig))
                       "alpha.beta" "" true
     = NewVersion "1.0.1-alpha.beta.1".
Proof.
  split; [reflexivity|].
  exact (dotted_name_number_never_advances
           testrepo.clock (initial dottedNameTags [] dottedNameConfig)
           (indexed dottedNameTags [] dottedNameConfig)
           (version.mkVersion "" "" [1; 0; 1] 3 "1.0.1")
           eq_refl eq_refl eq_refl eq_refl).
Defined.

End TagRecords.

(** ** Expressions anchored at both ends, and the validation of names *)

Section Anchored.
Import regexp version.

Lemma search_after_start (r : Syntax) (n : nat) (s : string) :
  (String.length s < n)%nat -> search (Cat BeginText r) n s = None.
Proof.
  induction s as [|a s IH]; intros H; cbn [search run].
  - destruct (String.length "" =? n)%nat eqn:E;
      [apply Nat.eqb_eq in E; lia | reflexivity].
  - destruct (String.length (String.String a s) =? n)%nat eqn:E;
      [apply Nat.eqb_eq in E; lia|].
    apply IH. cbn [String.length] in H. lia.
Qed.

(** An expression that begins with "^" matches at the start of the
    text or not at all. *)
Lemma search_anchored (r : Syntax) (s : string) :
  search (Cat BeginText r) (String.length s) s
  = match run (String.length s) r s [] finish with
    | Some (s', c) => Some (s, s', c)
    | None => None
    end.
Proof.
  destruct s as [|a s]; cbn [search run]; rewrite Nat.eqb_refl;
    fold finish.
  - now destruct (run _ r "" [] finish) as [[s' c]|].
  - destruct (run _ r (String.String a s) [] finish) as [[s' c]|];
      [reflexivity|].
    apply search_after_start. cbn [String.length]. lia.
Qed.

(** "^[p]+$" matches the non-empty texts over the class. *)
Lemma MatchString_class_line (p : ascii -> bool) (names : list string)
      (s : string) :
  MatchString (MustCompile (Cat BeginText (Cat (Plus (Class p)) EndText))
                           names) s
  = nonEmpty s && allChars p s.
Proof.
  unfold MatchString. cbn [syntax]. rewrite search_anchored.
  destruct (run _ _ s [] finish) as [[s' c]|] eqn:E.
  - symmetry. destruct s as [|a s]; [cbn in E; discriminate|].
    cbn [nonEmpty String.eqb negb andb].
    change (run (String.length (String.String a s))
                (Cat (Plus (Class p)) EndText) (String.String a s) []
                finish)
      with (run (String.length (String.String a s)) (Plus (Class p))
                (String.String a s) []
                (fun s1 c1 =>
                   run (String.length (String.String a s)) EndText s1 c1
                       finish))
      in E.
    apply (run_sound _ (fun _ => True)) in E; [|cbn; auto | exact I].
    destruct E as (w & s1 & c1 & Es & Hw & _ & Hk).
    destruct s1; [|discriminate]. rewrite append_nil_r in Es.
    rewrite Es.
    eapply allChars_mono; [|exact Hw].
    intros b Hb. cbn in Hb. now destruct (p b).
  - symmetry. destruct s as [|a s]; [reflexivity|].
    cbn [nonEmpty String.eqb negb andb allChars].
    destruct (p a) eqn:Ea; [|reflexivity]. cbn [andb].
    destruct (allChars p s) eqn:Es; [|reflexivity].
    exfalso.
    change (run (String.length (String.String a s))
                (Cat (Plus (Class p)) EndText) (String.String a s) []
                finish)
      with (if p a
            then run (String.length (String.String a s))
                     (Star true (Class p)) s []
                     (fun s1 c1 =>
                        run (String.length (String.String a s)) EndText
                            s1 c1 finish)
            else None) in E.
    rewrite Ea in E.
    pose proof (run_star_class
                  (String.length (String.String a s)) p
                  (fun s1 c1 =>
                     run (String.length (String.String a s)) EndText
                         s1 c1 finish)
                  s "" [] ("", []) Es eq_refl eq_refl) as H.
    rewrite append_nil_r in H. rewrite H in E. discriminate.
Qed.

(** [validateSemVerBuildMetadata] accepts the texts whose parts between
    dots are all non-empty and made of ASCII letters, digits and
    hyphens: the empty text, a leading, a trailing or a doubled dot and
    any other character are refused. *)
Theorem build_metadata_is_dotted_identifiers (meta : string) :
  validateSemVerBuildMetadata meta
  = forallb identifier (strings.Split meta ".").
Proof.
  unfold validateSemVerBuildMetadata, semVerBuildMetaRex.
  induction (strings.Split meta ".") as [|s l IH];
    cbn [forallb]; [reflexivity|].
  rewrite IH, MatchString_class_line. f_equal.
  unfold identifier, nonEmpty.
  destruct (String.eqb s ""); cbn [negb orb andb]; [reflexivity|].
  now rewrite negb_involutive.
Qed.

(** [validateSemVerPreReleaseName] accepts what
    [validateSemVerBuildMetadata] accepts, less the texts with a part
    that begins with "0": "0" alone and "0abc" are refused as well as
    "01". *)
Theorem prerelease_name_is_metadata_without_zero_led_part (meta : string) :
  validateSemVerPreReleaseName meta
  = validateSemVerBuildMetadata meta && negb (hasZeroLedIdentifier meta).
Proof.
  unfold validateSemVerPreReleaseName, validateSemVerBuildMetadata,
    hasZeroLedIdentifier.
  unfold semVerPreReleaseName, semVerBuildMetaRex.
  induction (strings.Split meta ".") as [|s l IH];
    cbn [forallb existsb]; [reflexivity|].
  rewrite IH, !MatchString_class_line, negb_orb.
  match goal with
  | |- context [forallb ?f l && negb (existsb ?g l)] =>
      generalize (forallb f l), (existsb g l)
  end.
  intros b1 b2.
  destruct (String.eqb s ""), (strings.HasPrefix s "0"),
    (nonEmpty s && allChars alnumHyphen s), b1, b2; reflexivity.
Qed.

End Anchored.

(** ** The tokens of the autotag scheme *)

Section Tokens.
Import regexp version.

Lemma run_LitFold {R : Type} (n : nat) (t : string) :
  forall (s : string) (c : Captures) (k : string -> Captures -> option R),
    (forall s c, isSome (k s c) = true) ->
    isSome (run n (LitFold t) s c k) = prefixFold t s.
Proof.
  induction t as [|a t IH]; intros s c k Hk; cbn [LitFold run prefixFold].
  - apply Hk.
  - destruct s as [|b s]; [reflexivity|].
    destruct (Ascii.eqb (lower b) (lower a)); cbn [andb isSome];
      [|reflexivity].
    now apply IH.
Qed.

Lemma search_tokens (a b : string) (n : nat) (s : string) :
  isSome (search (Alt (LitFold a) (LitFold b)) n s)
  = containsFold s a || containsFold s b.
Proof.
  assert (Hrun : forall s,
             isSome (run n (Alt (LitFold a) (LitFold b)) s [] finish)
             = prefixFold a s || prefixFold b s).
  { intros s0. cbn [run].
    rewrite <- (run_LitFold n a s0 [] finish),
            <- (run_LitFold n b s0 [] finish) by reflexivity.
    now destruct (run n (LitFold a) s0 [] finish). }
  induction s as [|x s IH]; cbn [search containsFold];
    fold finish;
    match goal with
    | |- context [run n ?r ?s0 [] finish] =>
        specialize (Hrun s0);
        destruct (run n r s0 [] finish) as [[s1 c1]|]
    end; cbn [isSome] in *.
  - symmetry in Hrun. apply orb_true_iff in Hrun.
    destruct Hrun as [-> | ->]; [reflexivity|].
    now destruct (prefixFold a "").
  - symmetry in Hrun. apply orb_false_iff in Hrun.
    destruct Hrun as [-> ->]. reflexivity.
  - symmetry in Hrun. apply orb_true_iff in Hrun.
    destruct Hrun as [-> | ->]; [reflexivity|].
    now destruct (prefixFold a _), (containsFold s a).
  - symmetry in Hrun. apply orb_false_iff in Hrun.
    destruct Hrun as [-> ->]. exact IH.
Qed.

Lemma MatchString_tokens (a b : string) (names : list string) (s : string) :
  MatchString (MustCompile (Alt (LitFold a) (LitFold b)) names) s
  = containsFold s a || containsFold s b.
Proof.
  unfold MatchString. cbn [syntax].
  rewrite <- (search_tokens a b (String.length s) s).
  now destruct (search _ _ s).
Qed.

Lemma prefixFold_app (t u post : string) :
  sameFold t u = true -> prefixFold t (u ++ post) = true.
Proof.
  unfold sameFold. revert u.
  induction t as [|a t IH]; intros u H; [reflexivity|].
  destruct u as [|b u]; [discriminate|].
  cbn [String.length Nat.eqb prefixFold append] in *.
  apply andb_true_iff in H as [Hlen H].
  apply andb_true_iff in H as [Hab H].
  rewrite Hab. cbn [andb]. apply IH. now rewrite Hlen, H.
Qed.

Lemma containsFold_app (t pre u post : string) :
  sameFold t u = true -> containsFold (pre ++ u ++ post) t = true.
Proof.
  intros H. induction pre as [|x pre IH]; cbn [append].
  - destruct (u ++ post) eqn:E; cbn [containsFold];
      rewrite <- E, (prefixFold_app t u post H); reflexivity.
  - cbn [containsFold]. rewrite IH.
    now destruct (prefixFold t _).
Qed.

(** Under the autotag scheme a message is Major when "[major]" or
    "#major" occurs anywhere in it, in any case, whatever else it
    mentions; otherwise Minor when it so mentions "minor"; otherwise
    Patch when it so mentions "patch"; otherwise it has no
    classification. *)
Theorem autotag_scheme_reads_tokens_by_priority (msg : string) :
  parseAutotagCommit msg
  = (if mentions "major" msg then Some majorBumper
     else if mentions "minor" msg then Some minorBumper
     else if mentions "patch" msg then Some patchBumper
     else None)
  /\ forall pre tok post,
       sameFold "#major" tok = true \/ sameFold "[major]" tok = true ->
       msg = pre ++ tok ++ post ->
       parseAutotagCommit msg = Some majorBumper.
Proof.
  assert (E : parseAutotagCommit msg
              = (if mentions "major" msg then Some majorBumper
                 else if mentions "minor" msg then Some minorBumper
                 else if mentions "patch" msg then Some patchBumper
                 else None)).
  { unfold parseAutotagCommit, majorRex, minorRex, patchRex, mentions.
    now rewrite !MatchString_tokens. }
  split; [exact E|].
  intros pre tok post H ->. rewrite E. unfold mentions.
  change ("[" ++ "major" ++ "]") with "[major]".
  change ("#" ++ "major") with "#major".
  destruct H as [H|H]; rewrite (containsFold_app _ pre tok post H);
    [now rewrite orb_true_r | reflexivity].
Qed.

Lemma autotag_scheme_reads_tokens_by_priority_witness :
  parseAutotagCommit "fix: tidy [minor] #MaJoR [patch]" = Some majorBumper.
Proof.
  exact (proj2 (autotag_scheme_reads_tokens_by_priority
                  "fix: tidy [minor] #MaJoR [patch]")
               "fix: tidy [minor] " "#MaJoR" " [patch]"
               (or_introl eq_refl) eq_refl).
Defined.

End Tokens.

(** ** Tag names and versions *)

Section TagNames.
Import regexp version.

(** Every text splits into its longest beginning over a class and a
    rest that stops at the class. *)
Lemma span_exists (p : ascii -> bool) (s : string) :
  exists w t, s = w ++ t /\ allChars p w = true /\ stopsAt p t = true.
Proof.
  induction s as [|a s (w & t & -> & Hw & Ht)].
  - exists "", "". auto.
  - destruct (p a) eqn:Ea.
    + exists (String.String a w), t. cbn. rewrite Ea, Hw. auto.
    + exists "", (String.String a (w ++ t)). cbn. rewrite Ea. auto.
Qed.

(** On a text that begins with a digit the group of [versionRex] takes
    the first line. *)
Lemma versionGroup_line (s : string) :
  startsWithDigit s = true ->
  exists g t,
    s = g ++ t /\ allChars anyCharNotNL g = true
    /\ (forall n c,
          run n versionGroup s c finish = Some (t, (1%nat, g) :: c))
    /\ stopsAt anyCharNotNL t = true.
Proof.
  destruct s as [|d s]; [discriminate|]. cbn [startsWithDigit]. intros Hd.
  destruct (span_exists perlD s) as (ds & t1 & -> & Hds & Ht1).
  assert (Hc : forall a, perlD a = true -> anyCharNotNL a = true).
  { intros a. destruct a as [[] [] [] [] [] [] [] []]; vm_compute;
      congruence. }
  assert (Hnl : forall w, allChars perlD w = true ->
                          allChars anyCharNotNL w = true)
    by (intros w; now apply allChars_mono).
  assert (Hdnl : anyCharNotNL d = true) by (apply Hc; exact Hd).
  assert (Hstep : forall u w t3,
             t1 = u ++ w ++ t3 -> (u = "" \/ u = ".") ->
             (u = "" -> stopsAt (Ascii.eqb ".") t1 = true) ->
             allChars anyCharNotNL w = true ->
             stopsAt anyCharNotNL t3 = true ->
             forall n c,
               run n versionGroup (String.String d (ds ++ t1)) c finish
               = Some (t3, (1%nat, String.String d (ds ++ u ++ w)) :: c)).
  { intros u w t3 -> Hu Hdot Hw Ht3 n c.
    unfold versionGroup.
    change (run n (Group 1 _) ?s c finish)
      with (if perlD d
            then run n (Star true (Class perlD)) (ds ++ u ++ w ++ t3) c
                     (fun s1 c1 =>
                        run n (Quest (Lit "."))
                            s1 c1
                            (fun s2 c2 =>
                               run n (Star true (Class anyCharNotNL)) s2 c2
                                   (fun s3 c3 =>
                                      finish s3
                                        ((1%nat,
                                          substring 0
                                            (String.length
                                               (String.String d
                                                  (ds ++ u ++ w ++ t3))
                                             - String.length s3)
                                            (String.String d
                                               (ds ++ u ++ w ++ t3)))
                                           :: c3))))
            else None).
    unfold perlD at 1. rewrite Hd.
    apply run_star_class; trivial.
    assert (Hcap : substring 0
                     (String.length (String.String d (ds ++ u ++ w ++ t3))
                      - String.length t3)
                     (String.String d (ds ++ u ++ w ++ t3))
                   = String.String d (ds ++ u ++ w)).
    { replace (String.String d (ds ++ u ++ w ++ t3))
        with (String.String d (ds ++ u ++ w) ++ t3)
        by (cbn [append]; now rewrite !append_assoc).
      apply substring_append. }
    destruct Hu as [-> | ->].
    - cbn [append] in *. specialize (Hdot eq_refl).
      change (run n (Quest (Lit ".")) (w ++ t3) c ?K)
        with (orElse (run n (Lit ".") (w ++ t3) c K) (K (w ++ t3) c)).
      assert (Hlit : forall K : string -> Captures
                                 -> option (string * Captures),
                 run n (Lit ".") (w ++ t3) c K = None).
      { intros K. destruct (w ++ t3) as [|x y]; [reflexivity|].
        cbn in Hdot. cbn. apply negb_true_iff in Hdot. now rewrite Hdot. }
      rewrite Hlit. cbn [orElse]. cbv beta.
      rewrite (run_star_class n anyCharNotNL _ w t3 c
                 (t3, (1%nat, String.String d (ds ++ w)) :: c));
        trivial.
      unfold finish. now rewrite Hcap.
    - cbn [append] in *.
      change (run n (Quest (Lit ".")) (String.String "." (w ++ t3)) c ?K)
        with (orElse (K (w ++ t3) c) (K (String.String "." (w ++ t3)) c)).
      cbv beta.
      rewrite (run_star_class n anyCharNotNL _ w t3 c
                 (t3, (1%nat, String.String d (ds ++ "." ++ w)) :: c));
        trivial.
      unfold finish. now rewrite Hcap. }
  destruct t1 as [|x t1'].
  - exists (String.String d ds), "". repeat split.
    + cbn [allChars]. now rewrite Hdnl, (Hnl _ Hds).
    + intros n c.
      rewrite (Hstep "" "" "" eq_refl (or_introl eq_refl)
                     (fun _ => eq_refl) eq_refl eq_refl n c).
      cbn [append]. now rewrite append_nil_r.
  - destruct (Ascii.eqb "." x) eqn:Ex.
    + apply Ascii.eqb_eq in Ex. subst x.
      destruct (span_exists anyCharNotNL t1') as (w & t3 & -> & Hw & Ht3).
      exists (String.String d (ds ++ "." ++ w)), t3. repeat split.
      * cbn [append]. now rewrite !append_assoc.
      * cbn [allChars]. rewrite Hdnl, allChars_app, (Hnl _ Hds).
        cbn [append allChars andb]. exact Hw.
      * intros n c.
        apply (Hstep "." w t3 eq_refl (or_intror eq_refl)); trivial.
        discriminate.
      * exact Ht3.
    + destruct (span_exists anyCharNotNL (String.String x t1'))
        as (w & t3 & E & Hw & Ht3).
      exists (String.String d (ds ++ w)), t3. repeat split.
      * cbn [append]. now rewrite append_assoc, E.
      * cbn [allChars]. rewrite Hdnl, allChars_app, (Hnl _ Hds).
        exact Hw.
      * intros n c.
        apply (Hstep "" w t3); trivial; [now left|].
        intros _. cbn [stopsAt]. now rewrite Ex.
      * exact Ht3.
Qed.

Lemma digit_not_v (d : ascii) : isDigit d = true -> Ascii.eqb "v" d = false.
Proof.
  destruct d as [[] [] [] [] [] [] [] []]; vm_compute; congruence.
Qed.

(** What [versionRex] finds in a text that begins with a digit, with
    or without a "v" before it. *)
Lemma versionRex_submatch (s : string) :
  startsWithDigit s = true ->
  exists g,
    FindStringSubmatch versionRex s = Some [g; g]
    /\ FindStringSubmatch versionRex ("v" ++ s) = Some ["v" ++ g; g]
    /\ (allChars anyCharNotNL s = true -> g = s).
Proof.
  intros Hd.
  destruct (versionGroup_line s Hd) as (g & t & Es & Hg & Hrun & Ht).
  exists g.
  assert (Hwhole : allChars anyCharNotNL s = true -> g = s).
  { intros Hs. rewrite <- (append_nil_r s) in Es.
    apply (span_unique anyCharNotNL) in Es; trivial. now destruct Es. }
  unfold FindStringSubmatch.
  change (syntax versionRex)
    with (Cat BeginText (Cat (Quest (Lit "v")) versionGroup)).
  rewrite !search_anchored.
  assert (Hq : forall n s0,
             run n (Cat (Quest (Lit "v")) versionGroup) s0 [] finish
             = orElse
                 (match s0 with
                  | String.String a s1 =>
                      if Ascii.eqb "v" a
                      then run n versionGroup s1 [] finish else None
                  | EmptyString => None
                  end)
                 (run n versionGroup s0 [] finish)).
  { intros n s0. destruct s0; reflexivity. }
  rewrite !Hq. clear Hq.
  destruct s as [|d s]; [discriminate|]. cbn [startsWithDigit] in Hd.
  cbn [append]. rewrite (digit_not_v d Hd).
  change (Ascii.eqb "v" "v") with true. cbv iota.
  rewrite !Hrun. cbn [orElse].
  cbn [SubexpNames versionRex List.length Nat.sub seq map lookup Nat.eqb].
  repeat split.
  - rewrite Es at 1 2. now rewrite substring_append.
  - change (String.String "v" (String.String d s))
      with ("v" ++ String.String d s).
    rewrite Es at 1 2. rewrite <- append_assoc.
    now rewrite substring_append.
  - exact Hwhole.
Qed.

Lemma digits_first_fail {R : Type} (n i : nat) (X : Syntax) (s : string)
      (c : Captures) (k : string -> Captures -> option R) :
  startsWithDigit s = false ->
  run n (Group i (Cat (Plus (Class isDigit)) X)) s c k = None.
Proof.
  destruct s as [|a s]; [reflexivity|]. cbn [startsWithDigit]. intros H.
  cbn [run Plus]. now rewrite H.
Qed.

Lemma optional_v_fail {R : Type} (n : nat) (s : string) (c : Captures)
      (K : string -> Captures -> option R) :
  (forall s1, startsWithDigit s1 = false -> K s1 c = None) ->
  startsWithDigit (stripV s) = false ->
  run n (Quest (Lit "v")) s c K = None.
Proof.
  intros HK Hs.
  change (run n (Quest (Lit "v")) s c K)
    with (orElse (run n (Lit "v") s c K) (K s c)).
  destruct s as [|a s]; [cbn; now apply HK|].
  cbn [stripV] in Hs. cbn [run Lit].
  destruct (Ascii.eqb "v" a) eqn:Ea.
  - apply Ascii.eqb_eq in Ea. subst a. cbn [Ascii.eqb Bool.eqb andb] in Hs.
    rewrite (HK s Hs). cbn [orElse]. now apply HK.
  - rewrite Ascii.eqb_sym, Ea in Hs. cbn [orElse]. now apply HK.
Qed.

(** A text that does not begin with a digit after an optional "v" is
    no version for [versionRex] nor for [version.NewVersion]. *)
Lemma parseVersion_no_digit (s : string) :
  startsWithDigit (stripV s) = false -> parseVersion s = (None, None).
Proof.
  intros Hs.
  assert (H1 : search (syntax versionRex) (String.length s) s = None).
  { change (syntax versionRex)
      with (Cat BeginText (Cat (Quest (Lit "v")) versionGroup)).
    rewrite search_anchored.
    change (run (String.length s) (Cat (Quest (Lit "v")) versionGroup) s []
                finish)
      with (run (String.length s) (Quest (Lit "v")) s []
                (fun s1 c1 => run (String.length s) versionGroup s1 c1
                                  finish)).
    rewrite optional_v_fail; trivial.
    intros s1 H. now apply digits_first_fail. }
  assert (H2 : search (syntax versionRegexp) (String.length s) s = None).
  { unfold versionRegexp. cbn [syntax]. rewrite search_anchored.
    unfold VersionRegexpRaw.
    match goal with
    | |- match run ?n (Cat (Cat (Quest (Lit "v")) (Cat ?g ?rest)) EndText)
                   s [] finish with _ => _ end = _ =>
        change (run n (Cat (Cat (Quest (Lit "v")) (Cat g rest)) EndText)
                    s [] finish)
          with (run n (Quest (Lit "v")) s []
                    (fun s1 c1 =>
                       run n g s1 c1
                           (fun s2 c2 =>
                              run n rest s2 c2
                                  (fun s3 c3 => run n EndText s3 c3 finish))))
    end.
    rewrite optional_v_fail; trivial.
    intros s1 H. now apply digits_first_fail. }
  unfold parseVersion, MatchString, NewVersion, FindStringSubmatch.
  now rewrite H1, H2.
Qed.

(** A tag that begins with a digit names the same version with and
    without a "v" before it; a tag that does not begin with a digit
    after an optional "v" is skipped as no version tag, without an
    error. *)
Theorem tag_prefix_v_is_optional (s : string) :
  (startsWithDigit s = true ->
   maybeVersionFromTag ("v" ++ s) = maybeVersionFromTag s)
  /\ (s <> "" -> startsWithDigit (stripV s) = false ->
      maybeVersionFromTag s = Ok None).
Proof.
  split.
  - intros Hd. destruct (versionRex_submatch s Hd) as (g & H1 & H2 & _).
    assert (Hm : forall t m, FindStringSubmatch versionRex t = Some m ->
                             MatchString versionRex t = true).
    { intros t m. unfold FindStringSubmatch, MatchString.
      now destruct (search _ _ t) as [[[? ?] ?]|]. }
    unfold maybeVersionFromTag, parseVersion.
    rewrite (Hm _ _ H1), (Hm _ _ H2), H1, H2.
    destruct s; [discriminate|]. reflexivity.
  - intros Hne Hs. unfold maybeVersionFromTag.
    rewrite (parseVersion_no_digit s Hs).
    destruct s; [congruence | reflexivity].
Qed.

Lemma tag_prefix_v_is_optional_witness :
  maybeVersionFromTag ("v" ++ "1.2.3-rc.1") = maybeVersionFromTag "1.2.3-rc.1"
  /\ maybeVersionFromTag "release-1" = Ok None.
Proof.
  split.
  - exact (proj1 (tag_prefix_v_is_optional "1.2.3-rc.1") eq_refl).
  - refine (proj2 (tag_prefix_v_is_optional "release-1") _ eq_refl).
    discriminate.
Defined.

End TagNames.

(** ** The header of a Conventional Commits message *)

Section ConventionalHeader.
Import regexp version.

Lemma takeWhile_dropWhile (p : ascii -> bool) (s : string) :
  s = takeWhile p s ++ dropWhile p s
  /\ allChars p (takeWhile p s) = true
  /\ stopsAt p (dropWhile p s) = true.
Proof.
  induction s as [|a s (E & Hw & Ht)]; cbn [takeWhile dropWhile].
  - auto.
  - destruct (p a) eqn:Ea; cbn [append allChars stopsAt].
    + rewrite Ea, Hw. repeat split; trivial. now rewrite <- E.
    + rewrite Ea. auto.
Qed.

(** The optional scope takes the text up to [afterParen]. *)
Lemma paren_takes {R : Type} (n : nat) (K : string -> Captures -> option R)
      (t : string) (c : Captures) (x : R) :
  K (afterParen t) c = Some x -> run n parenRe t c K = Some x.
Proof.
  intros HK. unfold parenRe, Quest.
  destruct t as [|a t']; [exact HK|].
  cbn [afterParen] in HK.
  change (run n (Alt (Alt (Cat (Lit "(")
                               (Cat (Star true (Class notParenCRLF))
                                    (Lit ")")))
                          (Lit "(")) Empty)
              (String.String a t') c K)
    with (orElse
            (orElse
               (if Ascii.eqb "(" a
                then run n (Star true (Class notParenCRLF)) t' c
                         (fun s1 c1 => run n (Lit ")") s1 c1 K)
                else None)
               (if Ascii.eqb "(" a then K t' c else None))
            (K (String.String a t') c)).
  rewrite (Ascii.eqb_sym "(" a).
  destruct (Ascii.eqb a "("); [|cbn [orElse]; exact HK].
  destruct (takeWhile_dropWhile notParenCRLF t') as (E & Hw & Hu).
  remember (takeWhile notParenCRLF t') as w eqn:Ew.
  remember (dropWhile notParenCRLF t') as u eqn:Eu.
  clear Ew Eu.
  assert (Halt : forall y,
             run n (Star true (Class notParenCRLF)) t' c
                 (fun s1 c1 => run n (Lit ")") s1 c1 K) = Some y ->
             exists s1, u = String.String ")" s1).
  { intros y Er.
    apply (run_sound n (fun _ => True)) in Er; [|exact I | exact I].
    destruct Er as (w1 & s1 & c1 & E1 & Hw1 & _ & Hk1).
    destruct s1 as [|b1 s1]; [discriminate|].
    cbn [run Lit] in Hk1.
    destruct (Ascii.eqb ")" b1) eqn:Eb1; [|discriminate].
    apply Ascii.eqb_eq in Eb1. subst b1.
    rewrite E1 in E.
    apply (span_unique notParenCRLF) in E;
      [| exact Hw1 | exact Hw | reflexivity | exact Hu].
    destruct E as [_ E]. now exists s1. }
  destruct u as [|b u].
  - destruct (run n _ t' c _) as [y|] eqn:Er.
    + destruct (Halt y eq_refl) as [s1 H1]. discriminate.
    + cbn [orElse]. now rewrite HK.
  - destruct (Ascii.eqb b ")") eqn:Eb.
    + apply Ascii.eqb_eq in Eb. subst b. rewrite E.
      rewrite (run_star_class n notParenCRLF _ _ _ c x); trivial.
    + destruct (run n _ t' c _) as [y|] eqn:Er.
      * destruct (Halt y eq_refl) as [s1 H1]. injection H1 as -> _.
        now rewrite Ascii.eqb_refl in Eb.
      * cbn [orElse]. now rewrite HK.
Qed.

(** The optional "!" takes a "!" when the text begins with one. *)
Lemma bang_takes {R : Type} (n : nat) (K : string -> Captures -> option R)
      (u : string) (c : Captures) (x : R) :
  match u with
  | String.String a u' =>
      if Ascii.eqb a "!" then K u' ((3%nat, "!") :: c) else K u c
  | EmptyString => K u c
  end = Some x ->
  run n bangRe u c K = Some x.
Proof.
  destruct u as [|a u']; [intros HK; cbn; exact HK|].
  change (run n bangRe (String.String a u') c K)
    with (orElse
            (if Ascii.eqb "!" a
             then K u' ((3%nat,
                         substring 0
                           (String.length (String.String a u')
                            - String.length u')
                           (String.String a u')) :: c)
             else None)
            (K (String.String a u') c)).
  rewrite (Ascii.eqb_sym "!" a).
  destruct (Ascii.eqb a "!") eqn:Ea; intros HK.
  - apply Ascii.eqb_eq in Ea. subst a.
    change (String.String "!" u') with ("!" ++ u').
    rewrite substring_append. now rewrite HK.
  - exact HK.
Qed.

(** The group "scope" takes the optional scope and the optional "!". *)
Lemma scope_takes {R : Type} (n : nat) (K : string -> Captures -> option R)
      (t : string) (c : Captures) (x : R) :
  K (afterBang (afterParen t))
    ((2%nat,
      substring 0 (String.length t
                   - String.length (afterBang (afterParen t))) t)
       :: (if startsWith "!" (afterParen t) then (3%nat, "!") :: c else c))
  = Some x ->
  run n scopeRe t c K = Some x.
Proof.
  intros HK.
  change (run n scopeRe t c K)
    with (run n parenRe t c
              (fun s1 c1 =>
                 run n bangRe s1 c1
                     (fun s2 c2 =>
                        K s2 ((2%nat,
                               substring 0
                                 (String.length t - String.length s2) t)
                                :: c2)))).
  apply paren_takes. apply bang_takes.
  destruct (afterParen t) as [|a u'] eqn:E; [exact HK|].
  cbn [afterBang startsWith] in HK.
  destruct (Ascii.eqb a "!"); exact HK.
Qed.

Lemma typeRe_needs_word {R : Type} (n : nat) (s : string) (c : Captures)
      (K : string -> Captures -> option R) :
  startsWithWord s = false -> run n typeRe s c K = None.
Proof.
  destruct s as [|a s]; [reflexivity|]. cbn [startsWithWord]. intros H.
  cbn [run typeRe Plus]. now rewrite H.
Qed.

(** What [conventionalCommitRex] reads: it matches when a word follows
    the leading blanks, reads that word as the type, and reads a "!"
    when one follows the word and its optional scope. *)
Lemma conventional_reading (msg : string) :
  if startsWithWord (dropWhile perlS msg)
  then exists s' c',
         search (syntax conventionalCommitRex) (String.length msg) msg
         = Some (msg, s', c')
         /\ lookup 1 c' = firstWord msg
         /\ lookup 3 c'
            = if startsWith "!" (afterParen (afterWord msg)) then "!" else ""
  else search (syntax conventionalCommitRex) (String.length msg) msg = None.
Proof.
  set (n := String.length msg).
  change (syntax conventionalCommitRex)
    with (Cat BeginText
              (Cat (Star true (Class perlS))
                   (Cat typeRe (Cat scopeRe (Quest subjectRe))))).
  unfold n. rewrite search_anchored. fold n.
  change (run n (Cat (Star true (Class perlS))
                     (Cat typeRe (Cat scopeRe (Quest subjectRe))))
              msg [] finish)
    with (run n (Star true (Class perlS)) msg []
              (fun s1 c1 =>
                 run n typeRe s1 c1
                     (fun s2 c2 =>
                        run n scopeRe s2 c2
                            (fun s3 c3 =>
                               run n (Quest subjectRe) s3 c3 finish)))).
  destruct (takeWhile_dropWhile perlS msg) as (E & Hws & Hs0).
  unfold firstWord, afterWord.
  remember (takeWhile perlS msg) as ws eqn:Ews.
  remember (dropWhile perlS msg) as s0 eqn:Es0.
  clear Ews Es0.
  destruct (startsWithWord s0) eqn:Hword.
  - destruct s0 as [|a rest0]; [discriminate|]. cbn [startsWithWord] in Hword.
    destruct (takeWhile_dropWhile perlW rest0) as (E' & Hty & Ht).
    cbn [takeWhile dropWhile]. rewrite Hword.
    remember (takeWhile perlW rest0) as ty eqn:Ety.
    remember (dropWhile perlW rest0) as t eqn:Et.
    clear Ety Et.
    set (bang := startsWith "!" (afterParen t)).
    set (rest := afterBang (afterParen t)).
    destruct (subject_keeps
                (fun c => lookup 1 c = String.String a ty
                          /\ lookup 3 c = if bang then "!" else "")
                n rest
                ((2%nat, substring 0 (String.length t - String.length rest) t)
                   :: (if bang then [(3%nat, "!"); (1%nat, String.String a ty)]
                       else [(1%nat, String.String a ty)])))
      as (s' & c' & Hrun & H1 & H3); [auto | destruct bang; auto |].
    exists s', c'.
    match goal with
    | |- context [run n (Star true (Class perlS)) msg [] ?K] =>
        pose proof (run_star_class n perlS K ws (String.String a rest0) []
                                   (s', c') Hws) as H0
    end.
    rewrite <- E in H0. rewrite H0; [repeat split; trivial | |].
    + cbn [stopsAt]. now rewrite (perlW_not_perlS a Hword).
    + rewrite E'. apply type_step; trivial.
      apply scope_takes. fold bang rest. exact Hrun.
  - destruct (run n _ msg [] _) as [[s1 c1]|] eqn:Er; [|reflexivity].
    apply (run_sound n (fun _ => True)) in Er; [|exact I | exact I].
    destruct Er as (w1 & s1' & c1' & E1 & Hw1 & _ & Hk).
    destruct (startsWithWord s1') eqn:Hs1.
    + rewrite E1 in E.
      apply (span_unique perlS) in E;
        [| exact Hw1 | exact Hws | | exact Hs0].
      * destruct E as [_ <-]. congruence.
      * destruct s1' as [|b s1']; [reflexivity|]. cbn [startsWithWord] in Hs1.
        cbn [stopsAt]. now rewrite (perlW_not_perlS b Hs1).
    + now rewrite typeRe_needs_word in Hk.
Qed.

Lemma conventional_fields (msg : string) :
  conventionalType msg = firstWord msg
  /\ breakingMark msg = bangAfterScope msg.
Proof.
  pose proof (conventional_reading msg) as H.
  unfold conventionalType, breakingMark, bangAfterScope, findNamedMatches,
    FindStringSubmatch.
  assert (Hw : nonEmpty (firstWord msg)
               = startsWithWord (dropWhile perlS msg)).
  { unfold firstWord. destruct (dropWhile perlS msg) as [|a s0];
      [reflexivity|].
    cbn [takeWhile startsWithWord]. now destruct (perlW a). }
  destruct (startsWithWord (dropWhile perlS msg)); rewrite Hw.
  - destruct H as (s' & c' & -> & H1 & H3).
    cbn [SubexpNames conventionalCommitRex List.length Nat.sub
         seq map combine fold_left mapAssign fst snd].
    cbn [mapGet mapIndex String.eqb Ascii.eqb Bool.eqb].
    rewrite H1, H3. split; [reflexivity|].
    now destruct (startsWith "!" _).
  - rewrite H. cbn [mapGet mapIndex andb]. split; [|reflexivity].
    unfold nonEmpty in Hw. apply negb_false_iff in Hw.
    apply String.eqb_eq in Hw. now rewrite Hw.
Qed.

(** Under the Conventional Commits scheme the type of a message is its
    first word, the longest run of letters, digits and underscores
    after the leading blanks, whether a colon follows or not; the
    message is breaking when "!" follows that word and its optional
    scope, or when it has a "BREAKING CHANGE:" footer; and the
    classification is Major when it is breaking, else what the table
    gives for the type, except that with strictMatch a type outside
    the table gives none at all. *)
Theorem conventional_type_is_first_word (msg : string) (strict : bool) :
  conventionalType msg = firstWord msg
  /\ breakingMark msg = bangAfterScope msg
  /\ parseConventionalCommit msg strict
     = (let bumperType :=
          mapIndex conventionalCommitAuthorizedTypes (firstWord msg) in
        if strict && negb (isSome bumperType) then None
        else if breakingFooter msg || bangAfterScope msg
             then Some majorBumper
             else bumperType).
Proof.
  destruct (conventional_fields msg) as [Ht Hb].
  repeat split; trivial.
  rewrite <- Ht, <- Hb. cbv zeta.
  unfold parseConventionalCommit, conventionalType, breakingMark,
    breakingFooter.
  destruct (strict && _); [reflexivity|].
  destruct (strings.Contains msg _); [reflexivity|]. cbn [orb].
  destruct (mapIndex (findNamedMatches conventionalCommitRex msg)
                     "breaking") as [b|]; [|reflexivity].
  now destruct (String.eqb b "!").
Qed.

End ConventionalHeader.

(** ** Decimal numbers read back *)

Section DecimalRoundTrip.
Import regexp version.

Lemma decValue_ge (d : Decimal.uint) : forall acc, 0 <= acc -> acc <= decValue acc d.
Proof.
  induction d; intros acc H; cbn [decValue]; try lia;
    (etransitivity; [|apply IHd]; lia).
Qed.

Lemma parseUintLoop_step (acc k : Z) (c : ascii) (s : string) :
  strconv.isDigit c = true -> strconv.digitVal c = k ->
  0 <= acc -> 0 <= k -> 10 * acc + k <= strconv.maxUint64 ->
  strconv.parseUintLoop acc (String.String c s)
  = strconv.parseUintLoop (10 * acc + k) s.
Proof.
  intros Hc Hk Ha Hk0 Hmax. cbn [strconv.parseUintLoop]. rewrite Hc, Hk.
  unfold strconv.maxUint64 in *.
  change (2 ^ 64 - 1) with 18446744073709551615 in *.
  change (18446744073709551615 / 10 + 1) with 1844674407370955162.
  destruct (1844674407370955162 <=? acc) eqn:E1;
    [apply Z.leb_le in E1; lia|].
  destruct (18446744073709551615 <? acc * 10 + k) eqn:E2;
    [apply Z.ltb_lt in E2; lia|].
  f_equal. lia.
Qed.

Lemma parseUintLoop_decimal (d : Decimal.uint) : forall acc,
  0 <= acc -> decValue acc d <= strconv.maxUint64 ->
  strconv.parseUintLoop acc (NilEmpty.string_of_uint d)
  = (decValue acc d, None).
Proof.
  induction d; intros acc H Hmax; cbn [decValue NilEmpty.string_of_uint] in *;
    [reflexivity|..];
    match goal with
    | Hm : decValue ?a d <= _ |- _ =>
        pose proof (decValue_ge d a ltac:(lia)) as Hge
    end;
    (match goal with
     | |- strconv.parseUintLoop acc (String.String ?c _)
          = (decValue (10 * acc + ?k) d, None) =>
         rewrite (parseUintLoop_step acc k c)
     | |- strconv.parseUintLoop acc (String.String ?c _)
          = (decValue (10 * acc) d, None) =>
         rewrite (parseUintLoop_step acc 0 c), ?Z.add_0_r
     end;
     [ apply IHd; [lia | exact Hmax]
     | reflexivity | reflexivity | lia | lia | lia ]).
Qed.

Lemma decValue_pos (d : Decimal.uint) : forall p,
  decValue (Z.pos p) d = Z.pos (Pos.of_uint_acc d p).
Proof.
  induction d; intros p; cbn [decValue Pos.of_uint_acc]; [reflexivity|..];
    rewrite <- IHd; f_equal; lia.
Qed.

Lemma decValue_of_uint (d : Decimal.uint) :
  decValue 0 d = Z.of_N (Pos.of_uint d).
Proof.
  induction d; cbn [decValue Pos.of_uint]; [reflexivity | exact IHd |..];
    cbn [Z.mul Z.add]; apply decValue_pos.
Qed.

Lemma string_of_uint_nonempty (d : Decimal.uint) :
  d <> Decimal.Nil -> NilEmpty.string_of_uint d <> "".
Proof. destruct d; [congruence | discriminate..]. Qed.

(** [ParseUint] reads back what [FormatUint] writes. *)
Lemma ParseUint_FormatUint (n : Z) :
  0 <= n <= strconv.maxUint64 ->
  strconv.ParseUint (strconv.FormatUint n) = (n, None).
Proof.
  intros Hn. unfold strconv.FormatUint.
  set (d := N.to_uint (Z.to_N n)).
  assert (Hd : d <> Decimal.Nil).
  { subst d. destruct (Z.to_N n); [discriminate|].
    apply DecimalPos.Unsigned.to_uint_nonnil. }
  assert (Hv : decValue 0 d = n).
  { rewrite decValue_of_uint. subst d.
    change (Pos.of_uint (N.to_uint (Z.to_N n)))
      with (N.of_uint (N.to_uint (Z.to_N n))).
    rewrite DecimalN.Unsigned.of_to. lia. }
  assert (Hs : NilZero.string_of_uint d = NilEmpty.string_of_uint d)
    by (destruct d; [congruence | reflexivity..]).
  rewrite Hs. unfold strconv.ParseUint.
  pose proof (string_of_uint_nonempty d Hd) as Hne.
  destruct (NilEmpty.string_of_uint d) eqn:E; [congruence|].
  rewrite <- E, parseUintLoop_decimal; [now rewrite Hv | lia | lia].
Qed.

Lemma FormatInt_FormatUint (z : Z) :
  0 <= z -> strconv.FormatInt z = strconv.FormatUint z.
Proof. destruct z; [reflexivity | reflexivity | lia]. Qed.

Lemma digit_not_sign (a : ascii) :
  isDigit a = true -> Ascii.eqb a "+" = false /\ Ascii.eqb a "-" = false.
Proof.
  destruct a as [[] [] [] [] [] [] [] []]; vm_compute; split; congruence.
Qed.

(** [ParseInt] reads back what [FormatInt] writes. *)
Lemma ParseInt_FormatInt (z : Z) :
  0 <= z <= strconv.maxInt64 ->
  strconv.ParseInt (strconv.FormatInt z) = (z, None).
Proof.
  intros Hz.
  assert (Hmax : strconv.maxInt64 < strconv.maxUint64) by reflexivity.
  destruct (FormatInt_digits z (proj1 Hz)) as [Hd Hne].
  pose proof (ParseUint_FormatUint z ltac:(lia)) as Hp.
  rewrite <- FormatInt_FormatUint in Hp by lia.
  unfold strconv.ParseInt.
  destruct (strconv.FormatInt z) as [|a s] eqn:E; [congruence|].
  cbn [allChars] in Hd. apply andb_true_iff in Hd as [Ha _].
  destruct (digit_not_sign a Ha) as [-> ->]. cbn [orb negb andb].
  rewrite Hp.
  destruct (strconv.maxInt64 + 1 <=? z) eqn:E1;
    [apply Z.leb_le in E1; lia | reflexivity].
Qed.

End DecimalRoundTrip.

(** ** The version expression on the text of a version *)

Section VersionExpression.
Import regexp version.

Lemma versionRegexp_pieces :
  VersionRegexpRaw
  = Cat (Quest (Lit "v"))
        (Cat segmentsRe (Cat (Quest prereleaseRe) (QuestLazy metadataRe))).
Proof. reflexivity. Qed.

Lemma Takes_Empty n s c : Takes n Empty s s c c.
Proof. intros R K x H. exact H. Qed.

Lemma Takes_Cat n r1 r2 s s1 s2 c c1 c2 :
  Takes n r1 s s1 c c1 -> Takes n r2 s1 s2 c1 c2 ->
  Takes n (Cat r1 r2) s s2 c c2.
Proof.
  intros H1 H2 R K x HK. cbn [run]. apply H1. now apply H2.
Qed.

Lemma Takes_Alt_l n r1 r2 s s' c c' :
  Takes n r1 s s' c c' -> Takes n (Alt r1 r2) s s' c c'.
Proof.
  intros H R K x HK. cbn [run]. now rewrite (H R K x HK).
Qed.

Lemma Takes_Alt_r n r1 r2 s s' c c' :
  Fails n r1 s c -> Takes n r2 s s' c c' -> Takes n (Alt r1 r2) s s' c c'.
Proof.
  intros H1 H2 R K x HK. cbn [run]. rewrite (H1 R K). cbn [orElse].
  now apply H2.
Qed.

Lemma Takes_Group n i r w s' c c' :
  Takes n r (w ++ s') s' c c' ->
  Takes n (Group i r) (w ++ s') s' c ((i, w) :: c').
Proof.
  intros H R K x HK. cbn [run]. apply H. now rewrite substring_append.
Qed.

Lemma Takes_star_class n p w s' c :
  allChars p w = true -> stopsAt p s' = true ->
  Takes n (Star true (Class p)) (w ++ s') s' c c.
Proof. intros Hw Hs R K x HK. now apply run_star_class. Qed.

Lemma Takes_Plus_class n p w s' c :
  word p w = true -> stopsAt p s' = true ->
  Takes n (Plus (Class p)) (w ++ s') s' c c.
Proof.
  unfold word. intros Hw Hs R K x HK.
  destruct w as [|a w]; [discriminate|].
  cbn [nonEmpty String.eqb negb andb allChars] in Hw.
  apply andb_true_iff in Hw as [Ha Hw].
  change (run n (Plus (Class p)) (String.String a w ++ s') c K)
    with (if p a then run n (Star true (Class p)) (w ++ s') c K else None).
  rewrite Ha. now apply run_star_class.
Qed.

Lemma run_Lit {R : Type} n (t : string) :
  forall s c (K : string -> Captures -> option R),
    run n (Lit t) (t ++ s) c K = K s c.
Proof.
  induction t as [|a t IH]; intros s c K; cbn [Lit run append];
    [reflexivity|].
  rewrite Ascii.eqb_refl. apply IH.
Qed.

Lemma Takes_Lit n t s c : Takes n (Lit t) (t ++ s) s c c.
Proof. intros R K x HK. now rewrite run_Lit. Qed.

Lemma Fails_Lit n a t s c :
  startsWith a s = false -> Fails n (Lit (String.String a t)) s c.
Proof.
  intros H R K. destruct s as [|b s]; [reflexivity|].
  cbn [startsWith] in H. cbn [Lit run].
  now rewrite Ascii.eqb_sym, H.
Qed.

Lemma Fails_Plus_class n p s c :
  stopsAt p s = true -> Fails n (Plus (Class p)) s c.
Proof.
  intros H R K. destruct s as [|b s]; [reflexivity|].
  cbn [stopsAt] in H. apply negb_true_iff in H.
  cbn [Plus run]. now rewrite H.
Qed.

Lemma Fails_Cat n r1 r2 s c : Fails n r1 s c -> Fails n (Cat r1 r2) s c.
Proof. intros H R K. cbn [run]. apply H. Qed.

Lemma Fails_Group n i r s c : Fails n r s c -> Fails n (Group i r) s c.
Proof. intros H R K. cbn [run]. apply H. Qed.

Lemma Fails_Alt n r1 r2 s c :
  Fails n r1 s c -> Fails n r2 s c -> Fails n (Alt r1 r2) s c.
Proof. intros H1 H2 R K. cbn [run]. now rewrite H1, H2. Qed.

Lemma Fails_Lit_then n t r s c :
  Fails n r s c -> Fails n (Cat (Lit t) r) (t ++ s) c.
Proof. intros H R K. cbn [run]. rewrite run_Lit. apply H. Qed.

(** One dotted part. *)
Lemma Takes_dottedGroup n i p id tail c :
  word p id = true -> stopsAt p tail = true ->
  Takes n (dottedGroup i p) ("." ++ id ++ tail) tail c ((i, "." ++ id) :: c).
Proof.
  intros Hid Ht. unfold dottedGroup.
  rewrite <- append_assoc. apply Takes_Group. rewrite append_assoc.
  eapply Takes_Cat; [apply Takes_Lit|].
  now apply Takes_Plus_class.
Qed.

Lemma dots_stops (p : ascii -> bool) (ids : list string) (rest : string) :
  p "."%char = false -> stopsAt p rest = true ->
  stopsAt p (dots ids ++ rest) = true.
Proof.
  intros Hdot Hr. destruct ids as [|id ids]; [exact Hr|].
  cbn [dots append stopsAt]. now rewrite Hdot.
Qed.

Lemma length_dots_tail (id tail : string) :
  (String.length tail <? String.length ("." ++ id ++ tail))%nat = true.
Proof.
  apply Nat.ltb_lt. cbn [append String.length]. rewrite length_append. lia.
Qed.

(** The dotted parts under a star: a greedy star takes them all when
    the rest does not begin with a dot, a lazy one when what follows
    fails on every text that begins with a dot. *)
Lemma starLoop_dotted {R : Type} n i p (g : bool) ids :
  forall rest c (K : string -> Captures -> option R) x fuel,
    Forall (fun id => word p id = true) ids ->
    p "."%char = false -> stopsAt p rest = true ->
    (if g then startsWith "." rest = false
     else forall t c', K (String.String "." t) c' = None) ->
    (String.length (dots ids ++ rest) <= fuel)%nat ->
    K rest (pushAll i ids c) = Some x ->
    starLoop (run n (dottedGroup i p)) g K fuel (dots ids ++ rest) c = Some x.
Proof.
  induction ids as [|id ids IH]; intros rest c K x fuel Hids Hdot Hr Hg Hf HK.
  - cbn [dots append pushAll fold_left] in *.
    destruct fuel as [|fuel]; [exact HK|]. cbn [starLoop].
    destruct g.
    + assert (Hfail : Fails n (dottedGroup i p) rest c).
      { apply Fails_Group, Fails_Cat, Fails_Lit. exact Hg. }
      rewrite Hfail. cbn [orElse]. exact HK.
    + now rewrite HK.
  - inversion Hids as [|? ? Hid Hids']; subst.
    cbn [dots pushAll fold_left] in *.
    rewrite !append_assoc in *.
    destruct fuel as [|fuel]; [cbn [append String.length] in Hf; lia|].
    cbn [starLoop].
    assert (Hagain :
              run n (dottedGroup i p) ("." ++ id ++ dots ids ++ rest) c
                  (fun s1 c1 =>
                     if (String.length s1
                         <? String.length ("." ++ id ++ dots ids ++ rest))%nat
                     then starLoop (run n (dottedGroup i p)) g K fuel s1 c1
                     else None)
              = Some x).
    { apply Takes_dottedGroup; trivial.
      - now apply dots_stops.
      - rewrite length_dots_tail. apply IH; trivial.
        cbn [append String.length] in Hf. rewrite length_append in Hf. lia. }
    rewrite Hagain. destruct g; [reflexivity|].
    cbn [append]. now rewrite Hg.
Qed.

Lemma Takes_dotted n i ids rest c :
  Forall (fun id => word idChar id = true) ids ->
  stopsAt idChar rest = true -> startsWith "." rest = false ->
  Takes n (dotted i) (dots ids ++ rest) rest c (pushAll i ids c).
Proof.
  intros Hids Hr Hd R K x HK. unfold dotted.
  change (run n (Star true (Group i (Cat (Lit ".") (Plus (Class idChar)))))
              (dots ids ++ rest) c K)
    with (starLoop (run n (dottedGroup i idChar)) true K
                   (String.length (dots ids ++ rest)) (dots ids ++ rest) c).
  apply starLoop_dotted; trivial.
Qed.

Lemma stopsAt_app (p : ascii -> bool) (r tail : string) :
  stopsAt p r = true -> (r = "" -> stopsAt p tail = true) ->
  stopsAt p (r ++ tail) = true.
Proof. destruct r; cbn [append stopsAt]; auto. Qed.

Lemma stopsAt_weaken (p q : ascii -> bool) (s : string) :
  (forall a, p a = true -> q a = true) ->
  stopsAt q s = true -> stopsAt p s = true.
Proof.
  intros Hpq. destruct s as [|a s]; [reflexivity|]. cbn [stopsAt].
  intros H. apply negb_true_iff in H. apply negb_true_iff.
  destruct (p a) eqn:E; [|reflexivity]. apply Hpq in E. congruence.
Qed.

Lemma isDigit_idChar (a : ascii) : isDigit a = true -> idChar a = true.
Proof. unfold idChar. now intros ->. Qed.

Lemma idStart_idChar (a : ascii) : idStart a = true -> idChar a = true.
Proof.
  unfold idChar, idStart. intros H.
  destruct (isDigit a); [reflexivity|]. exact H.
Qed.

Lemma idChar_cases (a : ascii) :
  idChar a = true -> isDigit a = false -> idStart a = true.
Proof.
  unfold idChar, idStart. intros H Hd. now rewrite Hd in H.
Qed.

Lemma word_split (p q : ascii -> bool) (id : string) :
  (forall a, p a = true -> q a = true) ->
  word q id = true -> startsWithClass p id = true ->
  word p (takeWhile p id) = true
  /\ allChars q (dropWhile p id) = true
  /\ stopsAt p (dropWhile p id) = true
  /\ id = takeWhile p id ++ dropWhile p id.
Proof.
  intros Hpq Hid Hs. destruct (takeWhile_dropWhile p id) as (E & Hw & Ht).
  unfold word in *. apply andb_true_iff in Hid as [_ Hq].
  repeat split; trivial.
  - destruct id as [|a id]; [discriminate|]. cbn [startsWithClass] in Hs.
    cbn [takeWhile]. rewrite Hs. cbn [nonEmpty String.eqb negb andb].
    cbn [takeWhile] in Hw. now rewrite Hs in Hw.
  - rewrite E, allChars_app in Hq. now apply andb_true_iff in Hq as [_ ?].
Qed.

(** An identifier and the dotted ones after it, as the tail of the
    pre-release and of the metadata take them. *)
Lemma Takes_identifiers n p i id0 ids rest c :
  (forall a, p a = true -> idChar a = true) ->
  word idChar id0 = true -> startsWithClass p id0 = true ->
  Forall (fun id => word idChar id = true) ids ->
  stopsAt idChar rest = true -> startsWith "." rest = false ->
  Takes n (Cat (Plus (Class p)) (Cat (Star true (Class idChar)) (dotted i)))
        (dottedText id0 ids ++ rest) rest c (pushAll i ids c).
Proof.
  intros Hp Hid0 Hs Hids Hr Hd. unfold dottedText.
  destruct (word_split p idChar id0 Hp Hid0 Hs) as (Hw & Hq & Hst & E).
  assert (Htail : stopsAt idChar (dots ids ++ rest) = true)
    by now apply dots_stops.
  rewrite E, !append_assoc.
  eapply Takes_Cat; [|eapply Takes_Cat].
  - apply Takes_Plus_class; trivial.
    apply stopsAt_app; trivial. intros _.
    now apply (stopsAt_weaken p idChar).
  - now apply Takes_star_class.
  - now apply Takes_dotted.
Qed.

Lemma lookup_pushAll (k i : nat) (ids : list string) : forall c,
  k <> i -> lookup k (pushAll i ids c) = lookup k c.
Proof.
  induction ids as [|id ids IH]; intros c H; [reflexivity|].
  cbn [pushAll fold_left]. fold (pushAll i ids ((i, "." ++ id) :: c)).
  rewrite IH by exact H. cbn [lookup].
  destruct (k =? i)%nat eqn:E; [apply Nat.eqb_eq in E; congruence|].
  reflexivity.
Qed.

(** The metadata. *)
Lemma Takes_metadata n id0 ids rest c :
  word idChar id0 = true ->
  Forall (fun id => word idChar id = true) ids ->
  stopsAt idChar rest = true -> startsWith "." rest = false ->
  Takes n metadataRe ("+" ++ dottedText id0 ids ++ rest) rest c
        ((9%nat, "+" ++ dottedText id0 ids)
           :: (10%nat, dottedText id0 ids) :: pushAll 11 ids c).
Proof.
  intros Hid0 Hids Hr Hd. unfold metadataRe.
  rewrite <- append_assoc. apply Takes_Group. rewrite append_assoc.
  eapply Takes_Cat; [apply Takes_Lit|].
  apply Takes_Group. unfold dottedText. rewrite append_assoc.
  eapply Takes_Cat.
  - apply Takes_Plus_class; trivial. now apply dots_stops.
  - now apply Takes_dotted.
Qed.

(** The pre-release after a hyphen: group 4 holds it when it begins
    with a digit, group 7 otherwise. *)
Lemma Takes_prerelease n id0 ids rest c :
  word idChar id0 = true ->
  Forall (fun id => word idChar id = true) ids ->
  stopsAt idChar rest = true -> startsWith "." rest = false ->
  Takes n prereleaseRe ("-" ++ dottedText id0 ids ++ rest) rest c
        (if startsWithClass isDigit id0
         then (3%nat, "-" ++ dottedText id0 ids)
                :: (4%nat, dottedText id0 ids) :: pushAll 5 ids c
         else (3%nat, "-" ++ dottedText id0 ids)
                :: (6%nat, "-" ++ dottedText id0 ids)
                :: (7%nat, dottedText id0 ids) :: pushAll 8 ids c).
Proof.
  intros Hid0 Hids Hr Hd. unfold prereleaseRe.
  destruct (startsWithClass isDigit id0) eqn:Es.
  - rewrite <- append_assoc. apply Takes_Group. rewrite append_assoc.
    apply Takes_Alt_l.
    eapply Takes_Cat; [apply Takes_Lit|].
    apply Takes_Group.
    apply (Takes_identifiers n isDigit); trivial.
    apply isDigit_idChar.
  - assert (Hs7 : startsWithClass idStart id0 = true).
    { unfold word in Hid0. destruct id0 as [|a id0]; [discriminate|].
      cbn in Hid0. cbn [startsWithClass] in *.
      apply andb_true_iff in Hid0 as [Ha _]. now apply idChar_cases. }
    rewrite <- append_assoc. apply Takes_Group. rewrite append_assoc.
    apply Takes_Alt_r.
    + apply Fails_Lit_then, Fails_Group, Fails_Cat, Fails_Plus_class.
      unfold dottedText. rewrite append_assoc.
      destruct id0 as [|a id0]; [discriminate|].
      cbn [startsWithClass] in Es. cbn [append stopsAt]. now rewrite Es.
    + rewrite <- append_assoc. apply Takes_Group. rewrite append_assoc.
      eapply Takes_Cat; [apply Takes_Alt_l, Takes_Lit|].
      apply Takes_Group.
      apply (Takes_identifiers n idStart); trivial.
      apply idStart_idChar.
Qed.

Lemma Fails_Quest_then n a r s c :
  Fails n a s c -> Fails n r s c -> Fails n (Cat (Quest a) r) s c.
Proof.
  intros Ha Hr R K. unfold Quest. cbn [run]. now rewrite Ha, Hr.
Qed.

(** Without a hyphen and a first character of an identifier there is
    no pre-release. *)
Lemma Fails_prerelease n s c :
  startsWith "-" s = false -> stopsAt idStart s = true ->
  Fails n prereleaseRe s c.
Proof.
  intros Hh Hs. unfold prereleaseRe.
  apply Fails_Group, Fails_Alt.
  - now apply Fails_Cat, Fails_Lit.
  - apply Fails_Group, Fails_Quest_then; [now apply Fails_Lit|].
    now apply Fails_Group, Fails_Cat, Fails_Plus_class.
Qed.

Lemma forallb_Forall {A : Type} (f : A -> bool) (l : list A) :
  forallb f l = true -> Forall (fun x => f x = true) l.
Proof.
  induction l as [|a l IH]; cbn [forallb]; [constructor|].
  intros H. apply andb_true_iff in H as [Ha Hl]. auto.
Qed.

Lemma partsOK_text (o : Parts) :
  partsOK o = true ->
  match o with
  | Some (id0, ids) =>
      word idChar id0 = true
      /\ Forall (fun id => word idChar id = true) ids
      /\ String.eqb (partsText o) "" = false
  | None => partsText o = ""
  end.
Proof.
  destruct o as [[id0 ids]|]; [|reflexivity]. cbn [partsOK partsText].
  intros H. apply andb_true_iff in H as [H0 H1].
  repeat split; trivial; [now apply forallb_Forall|].
  unfold word in H0. destruct id0; [discriminate | reflexivity].
Qed.

(** The end of the text after the optional metadata. *)
Lemma metadata_end n (meta : Parts) (c : Captures) :
  partsOK meta = true ->
  run n (QuestLazy metadataRe) (optional "+" (partsText meta)) c
      (fun s1 c1 => run n EndText s1 c1 finish)
  = Some ("", metaCaps meta c).
Proof.
  intros H. apply partsOK_text in H. unfold optional, QuestLazy.
  destruct meta as [[id0 ids]|].
  - destruct H as (H0 & H1 & ->). cbn [partsText metaCaps].
    change (run n (Alt Empty metadataRe) ("+" ++ dottedText id0 ids) c
                (fun s1 c1 => run n EndText s1 c1 finish))
      with (orElse
              (run n EndText ("+" ++ dottedText id0 ids) c finish)
              (run n metadataRe ("+" ++ dottedText id0 ids) c
                   (fun s1 c1 => run n EndText s1 c1 finish))).
    cbn [append run orElse].
    pose proof (Takes_metadata n id0 ids "" c H0 H1 eq_refl eq_refl) as HT.
    rewrite append_nil_r in HT. apply HT. reflexivity.
  - rewrite H. reflexivity.
Qed.

Lemma optional_stops (p : ascii -> bool) (sep : ascii) (x : string) :
  p sep = false -> stopsAt p (optional (String.String sep "") x) = true.
Proof.
  intros H. unfold optional. destruct (String.eqb x ""); [reflexivity|].
  cbn [append stopsAt]. now rewrite H.
Qed.

Lemma optional_starts (a sep : ascii) (x : string) :
  Ascii.eqb sep a = false ->
  startsWith a (optional (String.String sep "") x) = false.
Proof.
  intros H. unfold optional. destruct (String.eqb x ""); [reflexivity|].
  exact H.
Qed.

(** The optional pre-release before the metadata. *)
Lemma Takes_optional_prerelease n (pre meta : Parts) (c : Captures) :
  partsOK pre = true ->
  Takes n (Quest prereleaseRe)
        (optional "-" (partsText pre) ++ optional "+" (partsText meta))
        (optional "+" (partsText meta)) c (preCaps pre c).
Proof.
  intros H. apply partsOK_text in H. unfold Quest.
  destruct pre as [[id0 ids]|].
  - destruct H as (H0 & H1 & E). unfold optional at 1. rewrite E.
    cbn [partsText preCaps]. rewrite append_assoc.
    apply Takes_Alt_l, Takes_prerelease; trivial.
    + now apply optional_stops.
    + now apply optional_starts.
  - unfold optional at 1. rewrite H. cbn [append preCaps String.eqb].
    apply Takes_Alt_r; [|apply Takes_Empty].
    apply Fails_prerelease.
    + now apply optional_starts.
    + now apply optional_stops.
Qed.

(** What follows the segments fails on a text that begins with a
    dot. *)
Lemma after_segments_needs_no_dot n (t : string) (c : Captures) :
  run n (Quest prereleaseRe) (String.String "." t) c
      (fun s3 c3 =>
         run n (QuestLazy metadataRe) s3 c3
             (fun s4 c4 => run n EndText s4 c4 finish))
  = None.
Proof.
  unfold Quest.
  change (run n (Alt prereleaseRe Empty) (String.String "." t) c ?K)
    with (orElse (run n prereleaseRe (String.String "." t) c K)
                 (K (String.String "." t) c)).
  rewrite Fails_prerelease by reflexivity. cbn [orElse].
  unfold QuestLazy.
  change (run n (Alt Empty metadataRe) (String.String "." t) c ?K)
    with (orElse (K (String.String "." t) c)
                 (run n metadataRe (String.String "." t) c K)).
  cbn [run orElse].
  assert (Hf : Fails n metadataRe (String.String "." t) c)
    by (apply Fails_Group, Fails_Cat, Fails_Lit; reflexivity).
  apply Hf.
Qed.

(** The segments, lazily: one more only when what follows fails. *)
Lemma run_segments {R : Type} n (seg0 : string) (segs : list string)
      (rest : string) (c : Captures)
      (K : string -> Captures -> option R) (x : R) :
  word isDigit seg0 = true ->
  Forall (fun seg => word isDigit seg = true) segs ->
  stopsAt isDigit rest = true ->
  (forall t c', K (String.String "." t) c' = None) ->
  K rest ((1%nat, dottedText seg0 segs) :: pushAll 2 segs c) = Some x ->
  run n segmentsRe (dottedText seg0 segs ++ rest) c K = Some x.
Proof.
  intros H0 Hs Hr Hdot HK. unfold segmentsRe, dottedText.
  set (s := (seg0 ++ dots segs) ++ rest).
  change (run n (Group 1 (Cat (Plus (Class isDigit))
                              (Star false (dottedGroup 2 isDigit))))
              s c K)
    with (run n (Plus (Class isDigit)) s c
              (fun s1 c1 =>
                 starLoop (run n (dottedGroup 2 isDigit)) false
                          (fun s2 c2 =>
                             K s2 ((1%nat,
                                    substring 0
                                      (String.length s - String.length s2) s)
                                     :: c2))
                          (String.length s1) s1 c1)).
  subst s. rewrite append_assoc.
  apply Takes_Plus_class; trivial.
  { now apply dots_stops. }
  apply starLoop_dotted; trivial.
  rewrite <- append_assoc, substring_append. exact HK.
Qed.

(** The whole expression on the text of a version. *)
Lemma versionRegexp_reads_text n (seg0 : string) (segs : list string)
      (pre meta : Parts) :
  word isDigit seg0 = true ->
  Forall (fun seg => word isDigit seg = true) segs ->
  partsOK pre = true -> partsOK meta = true ->
  run n (Cat VersionRegexpRaw EndText) (versionText seg0 segs pre meta) []
      finish
  = Some ("", metaCaps meta
                (preCaps pre
                   ((1%nat, dottedText seg0 segs) :: pushAll 2 segs []))).
Proof.
  intros H0 Hs Hpre Hmeta. rewrite versionRegexp_pieces.
  unfold versionText.
  set (s := dottedText seg0 segs ++ optional "-" (partsText pre)
            ++ optional "+" (partsText meta)).
  change (run n (Cat (Cat (Quest (Lit "v"))
                          (Cat segmentsRe
                               (Cat (Quest prereleaseRe)
                                    (QuestLazy metadataRe))))
                     EndText) s [] finish)
    with (orElse
            (run n (Lit "v") s []
                 (fun s1 c1 =>
                    run n segmentsRe s1 c1
                        (fun s2 c2 =>
                           run n (Quest prereleaseRe) s2 c2
                               (fun s3 c3 =>
                                  run n (QuestLazy metadataRe) s3 c3
                                      (fun s4 c4 =>
                                         run n EndText s4 c4 finish)))))
            (run n segmentsRe s []
                 (fun s2 c2 =>
                    run n (Quest prereleaseRe) s2 c2
                        (fun s3 c3 =>
                           run n (QuestLazy metadataRe) s3 c3
                               (fun s4 c4 => run n EndText s4 c4 finish))))).
  assert (Hv : Fails n (Lit "v") s []).
  { apply Fails_Lit. subst s. unfold dottedText, word in *.
    destruct seg0 as [|d seg0]; [discriminate|].
    cbn in H0. apply andb_true_iff in H0 as [Hd _].
    cbn [append startsWith]. rewrite Ascii.eqb_sym. now apply digit_not_v. }
  rewrite Hv. cbn [orElse]. subst s.
  apply run_segments; [exact H0 | exact Hs | | |].
  - apply stopsAt_app.
    + now apply optional_stops.
    + intros _. now apply optional_stops.
  - intros t c'. apply after_segments_needs_no_dot.
  - apply Takes_optional_prerelease; trivial.
    now apply metadata_end.
Qed.

(** What [version.NewVersion] reads in the captures. *)
Lemma captures_of_text (seg0 : string) (segs : list string)
      (pre meta : Parts) :
  partsOK pre = true -> partsOK meta = true ->
  let c := metaCaps meta
             (preCaps pre
                ((1%nat, dottedText seg0 segs) :: pushAll 2 segs [])) in
  lookup 1 c = dottedText seg0 segs
  /\ (if String.eqb (lookup 7 c) "" then lookup 4 c else lookup 7 c)
     = partsText pre
  /\ lookup 10 c = partsText meta.
Proof.
  intros Hpre Hmeta. apply partsOK_text in Hpre, Hmeta.
  destruct meta as [[m0 ms]|]; destruct pre as [[p0 ps]|];
    cbn [metaCaps preCaps partsText] in *;
    try destruct (startsWithClass isDigit p0);
    cbn [lookup Nat.eqb]; rewrite ?lookup_pushAll by discriminate;
    cbn [lookup Nat.eqb]; rewrite ?lookup_pushAll by discriminate;
    cbn [lookup Nat.eqb]; rewrite ?lookup_pushAll by discriminate;
    cbn [lookup Nat.eqb String.eqb];
    repeat split; trivial;
    try (destruct Hpre as (_ & _ & ->); reflexivity);
    try (rewrite Hmeta; reflexivity).
Qed.

Lemma Split_dot_cons (s : string) :
  strings.Split (String.String "." s) "." = "" :: strings.Split s ".".
Proof. reflexivity. Qed.

Lemma Split_word (p : ascii -> bool) (w s : string) :
  p "."%char = false -> allChars p w = true ->
  strings.Split (w ++ s) "."
  = match strings.Split s "." with
    | h :: t => (w ++ h) :: t
    | [] => [w]
    end.
Proof.
  intros Hdot. pose proof (Split_nonempty s ".") as Hne.
  induction w as [|a w IH]; intros Hw.
  - cbn [append]. destruct (strings.Split s "."); [congruence|reflexivity].
  - cbn [allChars] in Hw. apply andb_true_iff in Hw as [Ha Hw].
    cbn [append strings.Split].
    destruct (Ascii.eqb a ".") eqn:E.
    { apply Ascii.eqb_eq in E. subst a. congruence. }
    rewrite (IH Hw).
    destruct (strings.Split s "."); [congruence|reflexivity].
Qed.

Lemma Split_dots (p : ascii -> bool) (segs : list string) :
  p "."%char = false ->
  Forall (fun seg => word p seg = true) segs ->
  forall seg0, allChars p seg0 = true ->
               strings.Split (seg0 ++ dots segs) "." = seg0 :: segs.
Proof.
  intros Hdot. induction segs as [|seg segs IH]; intros Hs seg0 H0.
  - cbn [dots]. rewrite (Split_word p seg0 "" Hdot H0). cbn.
    now rewrite append_nil_r.
  - inversion Hs as [|? ? Hseg Hs']; subst. cbn [dots].
    rewrite (Split_word p seg0 _ Hdot H0).
    cbn [append]. rewrite Split_dot_cons, append_nil_r.
    unfold word in Hseg. apply andb_true_iff in Hseg as [_ Hseg].
    now rewrite (IH Hs' seg Hseg).
Qed.

Lemma parseSegments_FormatInt (zs : list Z) :
  Forall (fun z => 0 <= z <= strconv.maxInt64) zs ->
  parseSegments (map strconv.FormatInt zs) = Some zs.
Proof.
  induction 1 as [|z zs Hz _ IH]; [reflexivity|].
  cbn [map parseSegments]. now rewrite (ParseInt_FormatInt z Hz), IH.
Qed.

Lemma FormatInt_word (z : Z) :
  0 <= z -> word isDigit (strconv.FormatInt z) = true.
Proof.
  intros Hz. destruct (FormatInt_digits z Hz) as [Hd Hne].
  unfold word, nonEmpty. rewrite Hd.
  destruct (strconv.FormatInt z); [congruence | reflexivity].
Qed.

(** [version.NewVersion] on the text of segments, a pre-release and a
    metadata gives back the three. *)
Lemma NewVersion_text (z0 : Z) (zs : list Z) (pre meta : Parts) :
  Forall (fun z => 0 <= z <= strconv.maxInt64) (z0 :: zs) ->
  partsOK pre = true -> partsOK meta = true ->
  let text := versionText (strconv.FormatInt z0) (map strconv.FormatInt zs)
                          pre meta in
  NewVersion text
  = Ok {| metadata := partsText meta;
          pre := partsText pre;
          segments := pad3 (z0 :: zs);
          si := S (List.length zs);
          original := text |}.
Proof.
  intros Hz Hpre Hmeta text.
  assert (Hw0 : word isDigit (strconv.FormatInt z0) = true).
  { inversion Hz as [|? ? [Hz0 _] _]; subst. now apply FormatInt_word. }
  assert (Hws : Forall (fun seg => word isDigit seg = true)
                       (map strconv.FormatInt zs)).
  { inversion Hz as [|? ? _ Hzs]; subst. apply Forall_map.
    eapply Forall_impl; [|exact Hzs]. intros z [Hzz _].
    now apply FormatInt_word. }
  unfold NewVersion, FindStringSubmatch.
  change (syntax versionRegexp)
    with (Cat BeginText (Cat VersionRegexpRaw EndText)).
  rewrite search_anchored. subst text.
  rewrite versionRegexp_reads_text by assumption.
  destruct (captures_of_text (strconv.FormatInt z0)
                             (map strconv.FormatInt zs) pre meta Hpre Hmeta)
    as (H1 & H47 & H10).
  cbv zeta in H1, H47, H10.
  cbn [SubexpNames versionRegexp repeat List.length Nat.sub seq map nth].
  rewrite H1, H10, H47.
  assert (Hsplit : strings.Split
                     (dottedText (strconv.FormatInt z0)
                                 (map strconv.FormatInt zs)) "."
                   = map strconv.FormatInt (z0 :: zs)).
  { unfold dottedText. apply (Split_dots isDigit); trivial.
    unfold word in Hw0. now apply andb_true_iff in Hw0 as [_ ?]. }
  rewrite Hsplit, parseSegments_FormatInt by exact Hz.
  cbn [map List.length]. now rewrite length_map.
Qed.

End VersionExpression.

(** ** The texts the matcher takes *)

Section MatcherLanguage.
Import regexp version.

(** A successful run of [r] consumed a text of [r], kept every property
    the groups of [r] keep, and ended in a successful call of its
    continuation. *)
Lemma run_language {R : Type} (n : nat) (I : Captures -> Prop) (r : Syntax) :
  Keeps I r ->
  forall (s : string) (c : Captures) (k : string -> Captures -> option R)
         (x : R),
    I c ->
    run n r s c k = Some x ->
    exists w s' c',
      s = w ++ s' /\ Lang r w /\ I c' /\ k s' c' = Some x.
Proof.
  induction r as [| p | r1 IH1 r2 IH2 | r1 IH1 r2 IH2 | g r1 IH1
                  | i r1 IH1 | |]; intros HP s c k x HI H; simpl in H.
  - exists "", s, c. cbn. auto.
  - destruct s as [|a s]; [discriminate|].
    destruct (p a) eqn:Ep; [|discriminate].
    exists (String.String a ""), s, c. cbn. eauto 6.
  - destruct HP as [HP1 HP2].
    apply (IH1 HP1) in H; trivial.
    destruct H as (w1 & s1 & c1 & -> & Hw1 & HI1 & H).
    apply (IH2 HP2) in H; trivial.
    destruct H as (w2 & s2 & c2 & -> & Hw2 & HI2 & H).
    exists (w1 ++ w2), s2, c2. rewrite append_assoc.
    repeat split; trivial. cbn. eauto.
  - destruct HP as [HP1 HP2].
    destruct (run n r1 s c k) eqn:E1; simpl in H.
    + injection H as ->. apply (IH1 HP1) in E1; trivial.
      destruct E1 as (w & s' & c' & -> & Hw & HI' & Hk).
      exists w, s', c'. cbn. auto.
    + apply (IH2 HP2) in H; trivial.
      destruct H as (w & s' & c' & -> & Hw & HI' & Hk).
      exists w, s', c'. cbn. auto.
  - simpl in HP. remember (String.length s) as fuel eqn:Hf. clear Hf.
    revert s c x HI H.
    induction fuel as [|fuel IHf]; intros s c x HI H; simpl in H.
    + exists "", s, c. repeat split; trivial. exists []. cbn. auto.
    + assert (Hagain :
                forall y,
                  run n r1 s c
                      (fun s1 c1 =>
                         if (String.length s1 <? String.length s)%nat
                         then starLoop (run n r1) g k fuel s1 c1
                         else None) = Some y ->
                  exists w s' c',
                    s = w ++ s' /\ Lang (Star g r1) w
                    /\ I c' /\ k s' c' = Some y).
      { intros y Hy. apply (IH1 HP) in Hy; trivial.
        destruct Hy as (w1 & s1 & c1 & -> & Hw1 & HI1 & Hy).
        destruct (String.length s1 <? String.length (w1 ++ s1))%nat;
          [|discriminate].
        apply IHf in Hy; trivial.
        destruct Hy as (w2 & s2 & c2 & -> & (ws & -> & Hws) & HI2 & Hy).
        exists (w1 ++ flatten ws), s2, c2. rewrite append_assoc.
        repeat split; trivial. exists (w1 :: ws). cbn. auto. }
      destruct g; unfold orElse in H.
      * match type of H with
        | match ?a with _ => _ end = _ => destruct a eqn:E
        end.
        -- injection H as ->. now apply Hagain.
        -- exists "", s, c. repeat split; trivial. exists []. cbn. auto.
      * destruct (k s c) eqn:E.
        -- injection H as ->. exists "", s, c.
           repeat split; trivial. exists []. cbn. auto.
        -- now apply Hagain.
  - destruct HP as [HP1 HG].
    apply (IH1 HP1) in H; trivial.
    destruct H as (w & s' & c' & -> & Hw & HI' & Hk).
    rewrite substring_append in Hk.
    exists w, s', ((i, w) :: c'). cbn. auto.
  - destruct (String.length s =? n)%nat; [|discriminate].
    exists "", s, c. cbn. auto.
  - destruct s; [|discriminate].
    exists "", "", c. cbn. auto.
Qed.

Lemma search_language (I : Captures -> Prop) (r : Syntax) (n : nat) :
  Keeps I r -> I [] ->
  forall s s0 s1 c, search r n s = Some (s0, s1, c) -> I c.
Proof.
  intros HP HI. induction s as [|a s IH]; intros s0 s1 c H; cbn [search] in H.
  - destruct (run n r "" [] _) as [[s' c']|] eqn:E; [|discriminate].
    injection H as _ _ <-.
    apply (run_language n I r HP) in E; trivial.
    destruct E as (w2 & s2 & c2 & _ & _ & H2 & Hk). now injection Hk as _ <-.
  - destruct (run n r (String.String a s) [] _) as [[s' c']|] eqn:E.
    + injection H as _ _ <-.
      apply (run_language n I r HP) in E; trivial.
      destruct E as (w2 & s2 & c2 & _ & _ & H2 & Hk).
      now injection Hk as _ <-.
    + now apply IH in H.
Qed.

Lemma Lang_star_class (g : bool) (p : ascii -> bool) (w : string) :
  Lang (Star g (Class p)) w -> allChars p w = true.
Proof.
  intros (ws & -> & Hws). induction Hws as [|x ws Hx _ IH]; [reflexivity|].
  destruct Hx as (a & -> & Ha). cbn [flatten fold_right append allChars].
  fold (flatten ws). now rewrite Ha, IH.
Qed.

Lemma Lang_Plus_class (p : ascii -> bool) (w : string) :
  Lang (Plus (Class p)) w -> word p w = true.
Proof.
  intros (w1 & w2 & -> & (a & -> & Ha) & H2).
  apply Lang_star_class in H2. unfold word.
  cbn [append nonEmpty String.eqb negb andb allChars]. now rewrite Ha, H2.
Qed.

Lemma Lang_Lit (t : string) : forall w, Lang (Lit t) w -> w = t.
Proof.
  induction t as [|a t IH]; intros w H; cbn [Lit Lang] in H; [exact H|].
  destruct H as (w1 & w2 & -> & (b & -> & Hb) & H2).
  apply Ascii.eqb_eq in Hb. subst b. now rewrite (IH _ H2).
Qed.

Lemma Lang_dotted (i : nat) (w : string) :
  Lang (dotted i) w ->
  exists ids, w = dots ids /\ forallb (word idChar) ids = true.
Proof.
  intros (ws & -> & Hws). induction Hws as [|x ws Hx _ (ids & E & Hids)].
  - exists []. auto.
  - destruct Hx as (w1 & w2 & -> & H1 & H2).
    apply Lang_Lit in H1. apply Lang_Plus_class in H2. subst w1.
    exists (w2 :: ids). cbn [flatten fold_right dots forallb].
    fold (flatten ws). rewrite E, H2, Hids, append_assoc. auto.
Qed.

Lemma word_app (p : ascii -> bool) (w1 w2 : string) :
  word p w1 = true -> allChars p w2 = true -> word p (w1 ++ w2) = true.
Proof.
  unfold word. intros H1 H2. apply andb_true_iff in H1 as [Hne H1].
  rewrite allChars_app, H1, H2.
  destruct w1; [discriminate | reflexivity].
Qed.

Lemma word_mono (p q : ascii -> bool) (w : string) :
  (forall a, p a = true -> q a = true) -> word p w = true -> word q w = true.
Proof.
  unfold word. intros Hpq H. apply andb_true_iff in H as [-> H].
  now rewrite (allChars_mono p q w Hpq H).
Qed.

(** The texts of the pre-release groups and of the metadata group. *)
Lemma Lang_identifiers (p : ascii -> bool) (i : nat) (w : string) :
  (forall a, p a = true -> idChar a = true) ->
  Lang (Cat (Plus (Class p)) (Cat (Star true (Class idChar)) (dotted i))) w ->
  shaped w.
Proof.
  intros Hp (w1 & w23 & -> & H1 & w2 & w3 & -> & H2 & H3).
  apply Lang_Plus_class in H1. apply Lang_star_class in H2.
  apply Lang_dotted in H3. destruct H3 as (ids & -> & Hids).
  exists (Some (w1 ++ w2, ids)). cbn [partsOK partsText]. unfold dottedText.
  rewrite Hids, append_assoc, andb_true_r. split; [|reflexivity].
  apply word_app; trivial. now apply (word_mono p).
Qed.

Lemma Lang_metadata (i : nat) (w : string) :
  Lang (Cat (Plus (Class idChar)) (dotted i)) w -> shaped w.
Proof.
  intros (w1 & w3 & -> & H1 & H3).
  apply Lang_Plus_class in H1.
  apply Lang_dotted in H3. destruct H3 as (ids & -> & Hids).
  exists (Some (w1, ids)). cbn [partsOK partsText]. unfold dottedText.
  now rewrite Hids, H1.
Qed.

Lemma shaped_empty : shaped "".
Proof. now exists None. Qed.

(** The captures of [versionRegexp] keep their shape. *)
Lemma versionRegexp_keeps : Keeps shapedCaptures (syntax versionRegexp).
Proof.
  unfold versionRegexp, VersionRegexpRaw, Quest, QuestLazy.
  cbn [syntax Keeps Lit Plus dotted].
  repeat match goal with
         | |- _ /\ _ => split
         | |- True => exact I
         end;
    intros w c H (H4 & H7 & H10); unfold shapedCaptures;
    cbn [lookup Nat.eqb]; repeat split; trivial.
  - now apply (Lang_identifiers isDigit 5 w isDigit_idChar).
  - now apply (Lang_identifiers idStart 8 w idStart_idChar).
  - now apply (Lang_metadata 11 w).
Qed.

Lemma ParseInt_upper (s : string) (n : Z) :
  strconv.ParseInt s = (n, None) -> n <= strconv.maxInt64.
Proof.
  unfold strconv.ParseInt. destruct s as [|a s]; [discriminate|].
  destruct (strconv.ParseUint _) as [un err] eqn:E.
  assert (Hun : err = None -> 0 <= un).
  { intros ->. now apply ParseUint_range in E. }
  assert (Hr : err = Some strconv.ErrRange -> un = strconv.maxUint64).
  { intros ->. unfold strconv.ParseUint in E.
    destruct (if (Ascii.eqb a "+" || Ascii.eqb a "-")%bool then s
              else String.String a s); [discriminate|].
    now apply parseUintLoop_ErrRange in E. }
  unfold strconv.maxInt64, strconv.maxUint64 in *.
  change (2 ^ 63 - 1) with 9223372036854775807 in *.
  change (2 ^ 64 - 1) with 18446744073709551615 in *.
  destruct err as [[|]|]; [discriminate| |].
  - specialize (Hr eq_refl). subst un.
    destruct (Ascii.eqb a "-"); cbn; discriminate.
  - specialize (Hun eq_refl).
    destruct (Ascii.eqb a "-"); cbn [negb andb].
    + destruct (_ <? un); [discriminate|]. intros H. injection H as <-. lia.
    + destruct (_ <=? un) eqn:E1; [discriminate|].
      apply Z.leb_gt in E1. intros H. injection H as <-. lia.
Qed.

Lemma parseSegments_upper (l : list string) : forall segs,
  parseSegments l = Some segs ->
  Forall (fun z => z <= strconv.maxInt64) segs.
Proof.
  induction l as [|s l IH]; intros segs H; cbn [parseSegments] in H.
  - injection H as <-. constructor.
  - destruct (strconv.ParseInt s) as [n [e|]] eqn:E; [discriminate|].
    destruct (parseSegments l) as [vals|]; [|discriminate].
    injection H as <-. constructor; [now apply ParseInt_upper in E|].
    now apply IH.
Qed.

(** A version [version.NewVersion] returns has at least three
    segments, each in the range of a signed word, and a pre-release and
    a metadata of proper identifiers. *)
Lemma NewVersion_canonical (s : string) (v : Version) :
  NewVersion s = Ok v ->
  (3 <= List.length (segments v))%nat
  /\ Forall (fun z => 0 <= z <= strconv.maxInt64) (segments v)
  /\ shaped (pre v) /\ shaped (metadata v).
Proof.
  intros H. pose proof (NewVersion_nonneg s v H) as Hnn.
  unfold NewVersion, FindStringSubmatch in H.
  destruct (search _ _ s) as [[[s0 s1] c]|] eqn:Es; [|discriminate].
  apply (search_language shapedCaptures) in Es;
    [| apply versionRegexp_keeps
     | repeat split; apply shaped_empty].
  destruct Es as (H4 & H7 & H10).
  cbn [SubexpNames versionRegexp repeat List.length Nat.sub seq map nth] in H.
  destruct (parseSegments _) as [segs|] eqn:Ep; [|discriminate].
  apply parseSegments_upper in Ep.
  injection H as <-. cbn [segments pre metadata] in *.
  repeat split; trivial.
  - unfold pad3. rewrite length_app, repeat_length. lia.
  - unfold nonneg in Hnn. cbn [segments] in Hnn.
    assert (Hup : Forall (fun z => z <= strconv.maxInt64) (pad3 segs)).
    { unfold pad3. apply Forall_app. split; [exact Ep|].
      apply Forall_forall. intros z Hz. apply repeat_spec in Hz. now subst. }
    rewrite Forall_forall in *. intros z Hz. split; auto.
  - now destruct (String.eqb (lookup 7 c) "").
Qed.

End MatcherLanguage.

(** ** Versions read back from their text *)

Section ReadBack.
Import regexp version.

Lemma Join_dottedText (x : string) (l : list string) :
  strings.Join (x :: l) "." = dottedText x l.
Proof.
  unfold dottedText. revert x.
  induction l as [|y l IH]; intros x; rewrite Join_cons.
  - reflexivity.
  - now rewrite IH.
Qed.

(** A text is its parts between dots. *)
Lemma Split_join (s : string) :
  match strings.Split s "." with
  | h :: t => s = dottedText h t
  | [] => False
  end.
Proof.
  unfold dottedText.
  induction s as [|a s IH]; cbn [strings.Split]; [reflexivity|].
  destruct (Ascii.eqb a ".") eqn:E.
  - apply Ascii.eqb_eq in E. subst a. cbn [dots append].
    destruct (strings.Split s "."); [contradiction|]. now rewrite IH at 1.
  - destruct (strings.Split s "."); [contradiction|].
    cbn [append]. now rewrite IH at 1.
Qed.

Lemma idChar_dot : idChar "." = false.
Proof. reflexivity. Qed.

Lemma dottedOK_shaped (x : string) : dottedOK x = true <-> shaped x.
Proof.
  unfold dottedOK. split.
  - intros H. destruct (String.eqb x "") eqn:E.
    + apply String.eqb_eq in E. subst. apply shaped_empty.
    + cbn [orb] in H. pose proof (Split_join x) as Hj.
      destruct (strings.Split x ".") as [|h t]; [contradiction|].
      exists (Some (h, t)). split; [exact H | exact Hj].
  - intros ([[id0 ids]|] & Hok & ->); [|reflexivity].
    cbn [partsOK partsText] in *. apply orb_true_iff. right.
    apply andb_true_iff in Hok as [H0 Hs].
    unfold dottedText.
    rewrite (Split_dots idChar ids idChar_dot (forallb_Forall _ _ Hs)).
    + cbn [forallb]. now rewrite H0, Hs.
    + unfold word in H0. now apply andb_true_iff in H0 as [_ ?].
Qed.

Lemma canonical_spec (v : Version) :
  canonical v = true <->
  (3 <= List.length (segments v))%nat
  /\ Forall (fun z => 0 <= z <= strconv.maxInt64) (segments v)
  /\ shaped (pre v) /\ shaped (metadata v).
Proof.
  unfold canonical. rewrite !andb_true_iff, Nat.leb_le, !dottedOK_shaped.
  rewrite forallb_forall, Forall_forall.
  split.
  - intros [[[H1 H2] H3] H4]. repeat split; trivial;
      apply H2 in H; apply andb_true_iff in H as [Ha Hb]; lia.
  - intros (H1 & H2 & H3 & H4). repeat split; trivial.
    intros z Hz. apply H2 in Hz. apply andb_true_iff. split; lia.
Qed.

(** Every version [version.NewVersion] returns is in normal form. *)
Lemma NewVersion_normal (s : string) (v : Version) :
  NewVersion s = Ok v -> canonical v = true.
Proof.
  intros H. apply canonical_spec. now apply (NewVersion_canonical s).
Qed.

(** The text of a version in normal form, as segments, pre-release and
    metadata. *)
Lemma String_versionText (v : Version) (z0 : Z) (zs : list Z)
      (preP metaP : Parts) :
  segments v = z0 :: zs -> pre v = partsText preP ->
  metadata v = partsText metaP ->
  version.String v
  = versionText (strconv.FormatInt z0) (map strconv.FormatInt zs) preP metaP.
Proof.
  intros Hs Hp Hm. unfold version.String, versionText, optional.
  rewrite Hs, Hp, Hm. cbn [map]. now rewrite Join_dottedText.
Qed.

(** [version.NewVersion] reads a version in normal form back from its
    text. *)
Lemma NewVersion_String (v : Version) :
  canonical v = true -> NewVersion (version.String v) = Ok (reparsed v).
Proof.
  intros H. apply canonical_spec in H.
  destruct H as (Hlen & Hz & (preP & Hpre & Ep) & (metaP & Hmeta & Em)).
  destruct (segments v) as [|z0 zs] eqn:Es; [cbn in Hlen; lia|].
  rewrite (String_versionText v z0 zs preP metaP Es Ep Em).
  rewrite NewVersion_text by assumption.
  unfold reparsed. rewrite Es, Ep, Em.
  rewrite <- (String_versionText v z0 zs preP metaP Es Ep Em).
  f_equal. f_equal. unfold pad3.
  replace (3 - List.length (z0 :: zs))%nat with 0%nat by lia.
  apply app_nil_r.
Qed.

End ReadBack.

(** ** Tags written and read back *)

Section WrittenTags.
Import regexp version.

Lemma alphabet_no_newline (a : ascii) :
  alphabet VersionRegexpRaw a = true -> anyCharNotNL a = true.
Proof.
  destruct a as [[] [] [] [] [] [] [] []]; vm_compute; congruence.
Qed.

(** A text [version.NewVersion] accepts holds no line feed. *)
Lemma NewVersion_no_newline (s : string) (v : Version) :
  NewVersion s = Ok v -> allChars anyCharNotNL s = true.
Proof.
  unfold NewVersion, FindStringSubmatch.
  change (syntax versionRegexp)
    with (Cat BeginText (Cat VersionRegexpRaw EndText)).
  rewrite search_anchored.
  change (run (String.length s) (Cat VersionRegexpRaw EndText) s [] finish)
    with (run (String.length s) VersionRegexpRaw s []
              (fun s1 c1 => run (String.length s) EndText s1 c1 finish)).
  destruct (run _ VersionRegexpRaw s [] _) as [[s' c]|] eqn:E;
    [|discriminate].
  intros _.
  apply (run_sound _ (fun _ => True)) in E; [| cbn; tauto | exact I].
  destruct E as (w & s1 & c1 & -> & Hw & _ & Hk).
  destruct s1; [|discriminate]. rewrite append_nil_r.
  eapply allChars_mono; [|exact Hw]. apply alphabet_no_newline.
Qed.

Lemma String_starts_with_digit (v : Version) :
  canonical v = true -> startsWithDigit (version.String v) = true.
Proof.
  intros H. apply canonical_spec in H. destruct H as (Hlen & Hz & _).
  destruct (segments v) as [|z0 zs] eqn:Es; [cbn in Hlen; lia|].
  inversion Hz as [|? ? [Hz0 _] _]; subst.
  destruct (FormatInt_digits z0 Hz0) as [Hd Hne].
  unfold version.String. rewrite Es. cbn [map]. rewrite Join_cons.
  destruct (strconv.FormatInt z0) as [|d rest]; [congruence|].
  cbn [allChars] in Hd. apply andb_true_iff in Hd as [Hd _].
  cbn [append startsWithDigit]. exact Hd.
Qed.

(** [parseVersion] reads a version in normal form back from its text,
    with or without a "v" before it. *)
Lemma parseVersion_String (v : Version) :
  canonical v = true ->
  parseVersion (version.String v) = (Some (reparsed v), None)
  /\ parseVersion ("v" ++ version.String v) = (Some (reparsed v), None).
Proof.
  intros H. pose proof (NewVersion_String v H) as Hn.
  pose proof (NewVersion_no_newline _ _ Hn) as Hnl.
  destruct (versionRex_submatch _ (String_starts_with_digit v H))
    as (g & H1 & H2 & Hg).
  specialize (Hg Hnl). subst g.
  assert (Hm : forall t m, FindStringSubmatch versionRex t = Some m ->
                           MatchString versionRex t = true).
  { intros t m. unfold FindStringSubmatch, MatchString.
    now destruct (search _ _ t) as [[[? ?] ?]|]. }
  unfold parseVersion.
  rewrite (Hm _ _ H1), (Hm _ _ H2), H1, H2.
  cbn [List.length Nat.leb nth]. now rewrite Hn.
Qed.

Lemma String_reparsed (v : Version) :
  version.String (reparsed v) = version.String v.
Proof. reflexivity. Qed.

(** The tag [tagNewVersion] writes for a version in normal form is the
    text of the version, after a "v" when the prefix is on, on the
    commit of the branch; read as a tag it is that version again: the
    same segments, pre-release and metadata, equal in precedence. *)
Theorem written_tag_reads_back (r : GitRepo) (v : Version) :
  newVersion r = Some v ->
  canonical v = true ->
  (forall CreateTag,
      tagNewVersion CreateTag r
      = match CreateTag (tagNameOf r v) (branchID r) with
        | Some msg => Err (ErrExternal ("error creating tag: " ++ msg))
        | None => Ok tt
        end)
  /\ maybeVersionFromTag (tagNameOf r v) = Ok (Some (reparsed v))
  /\ Segments64 (reparsed v) = Segments64 v
  /\ Prerelease (reparsed v) = Prerelease v
  /\ Metadata (reparsed v) = Metadata v
  /\ Compare (reparsed v) v = 0.
Proof.
  intros Hn Hc. destruct (parseVersion_String v Hc) as [H1 H2].
  pose proof (String_starts_with_digit v Hc) as Hd.
  repeat split.
  - intros CreateTag. unfold tagNewVersion, tagNameOf. now rewrite Hn.
  - unfold maybeVersionFromTag, tagNameOf.
    destruct (prefix r).
    + now rewrite H2.
    + rewrite H1. destruct (version.String v); [discriminate|reflexivity].
  - unfold Compare. now rewrite String_reparsed, String.eqb_refl.
Qed.

Lemma written_tag_reads_back_witness :
  maybeVersionFromTag
    (tagNameOf strictIndexed
               candidateVersion)
  = Ok (Some (reparsed
                candidateVersion)).
Proof.
  exact (proj1 (proj2 (written_tag_reads_back
                         (setNewVersion
                            strictIndexed
                            (Some candidateVersion))
                         candidateVersion
                         eq_refl eq_refl))).
Defined.

(** A version a tag is read as has at least three segments, each
    between 0 and the greatest signed word, and a pre-release and a
    metadata that are empty or made of non-empty identifiers between
    dots; its text, read as a tag, is that version again. *)
Theorem tag_versions_are_normal (tag : string) (v : Version) :
  maybeVersionFromTag tag = Ok (Some v) ->
  (3 <= List.length (Segments64 v))%nat
  /\ Forall (fun z => 0 <= z <= strconv.maxInt64) (Segments64 v)
  /\ dottedOK (Prerelease v) = true
  /\ dottedOK (Metadata v) = true
  /\ maybeVersionFromTag (version.String v) = Ok (Some (reparsed v)).
Proof.
  unfold maybeVersionFromTag.
  destruct (String.eqb tag ""); [discriminate|].
  unfold parseVersion.
  match goal with
  | |- context [NewVersion ?t] => destruct (NewVersion t) as [w|e] eqn:E
  end; [|discriminate].
  intros H. injection H as <-.
  pose proof (NewVersion_normal _ _ E) as Hc.
  pose proof Hc as Hs. apply canonical_spec in Hs.
  destruct Hs as (H1 & H2 & H3 & H4).
  apply dottedOK_shaped in H3, H4.
  repeat split; trivial.
  destruct (parseVersion_String w Hc) as [Hp _].
  pose proof (String_starts_with_digit w Hc) as Hd.
  fold (parseVersion (version.String w)). rewrite Hp.
  destruct (version.String w); [discriminate|reflexivity].
Qed.

Lemma tag_versions_are_normal_witness :
  (3 <= List.length (Segments64 shortVersion))%nat
  /\ maybeVersionFromTag "1.2.0"
     = Ok (Some (reparsed shortVersion)).
Proof.
  pose proof (tag_versions_are_normal
                "v1.2" shortVersion eq_refl)
    as (H1 & _ & _ & _ & H5).
  split; [exact H1 | exact H5].
Defined.

End WrittenTags.

(** ** The fields of the versions the resolution builds *)

Section BuiltVersions.
Import regexp version.

Lemma NewVersion_with_pre (v : Version) (p : string) :
  canonical v = true -> pre v = "" -> metadata v = "" ->
  dottedOK p = true -> p <> "" ->
  NewVersion (version.String v ++ "-" ++ p) = Ok (withPre v p).
Proof.
  intros Hc Hp Hm Hok Hne.
  assert (Hs : version.String (withPre v p) = version.String v ++ "-" ++ p).
  { unfold version.String, withPre. cbn [segments pre metadata].
    rewrite Hp, Hm. cbn [String.eqb append].
    destruct p as [|a p]; [congruence|]. cbn [String.eqb].
    now rewrite !append_nil_r. }
  assert (Hcw : canonical (withPre v p) = true).
  { unfold canonical in *. cbn [segments pre metadata withPre].
    rewrite Hok. rewrite Hm in Hc.
    apply andb_true_iff in Hc as [Hc _].
    apply andb_true_iff in Hc as [Hc _]. now rewrite Hc. }
  rewrite <- Hs, (NewVersion_String _ Hcw).
  unfold reparsed. rewrite Hs. reflexivity.
Qed.

Lemma NewVersion_with_meta (v : Version) (m : string) :
  canonical v = true -> metadata v = "" ->
  dottedOK m = true -> m <> "" ->
  NewVersion (version.String v ++ "+" ++ m) = Ok (withMeta v m).
Proof.
  intros Hc Hm Hok Hne.
  assert (Hs : version.String (withMeta v m) = version.String v ++ "+" ++ m).
  { unfold version.String, withMeta. cbn [segments pre metadata].
    rewrite Hm. cbn [String.eqb].
    destruct m as [|a m]; [congruence|]. cbn [String.eqb].
    now rewrite append_nil_r, !append_assoc. }
  assert (Hcw : canonical (withMeta v m) = true).
  { unfold canonical in *. cbn [segments pre metadata withMeta].
    rewrite Hok. apply andb_true_iff in Hc as [Hc _]. now rewrite Hc. }
  rewrite <- Hs, (NewVersion_String _ Hcw).
  unfold reparsed. rewrite Hs. reflexivity.
Qed.

Lemma Split_app_dot (a b : string) :
  strings.Split (a ++ "." ++ b) "."
  = (strings.Split a "." ++ strings.Split b ".")%list.
Proof.
  induction a as [|c a IH]; [reflexivity|].
  cbn [append strings.Split] in *.
  destruct (Ascii.eqb c "."); [now rewrite IH|].
  rewrite IH. pose proof (Split_nonempty a ".") as Hne.
  destruct (strings.Split a "."); [congruence | reflexivity].
Qed.

Lemma Split_no_dot (s : string) :
  strings.Contains s "." = false -> strings.Split s "." = [s].
Proof.
  induction s as [|a s IH]; [reflexivity|].
  cbn [strings.Contains String.prefix strings.Split].
  destruct (ascii_dec "." a) as [<-|Hne].
  { destruct s; discriminate. }
  destruct (Ascii.eqb a ".") eqn:E.
  { apply Ascii.eqb_eq in E. congruence. }
  intros H. now rewrite (IH H).
Qed.

Lemma dottedOK_app (a b : string) :
  forallb (word idChar) (strings.Split a ".") = true ->
  forallb (word idChar) (strings.Split b ".") = true ->
  dottedOK (a ++ "." ++ b) = true.
Proof.
  intros Ha Hb. unfold dottedOK.
  rewrite Split_app_dot, forallb_app, Ha, Hb. apply orb_true_r.
Qed.

Lemma word_Split (p : ascii -> bool) (w : string) :
  p "."%char = false -> word p w = true -> strings.Split w "." = [w].
Proof.
  intros Hdot Hw. unfold word in Hw. apply andb_true_iff in Hw as [_ Hw].
  pose proof (Split_word p w "" Hdot Hw) as H. cbn [strings.Split] in H.
  now rewrite !append_nil_r in H.
Qed.

Lemma word_parts (w : string) :
  word idChar w = true ->
  forallb (word idChar) (strings.Split w ".") = true.
Proof.
  intros H. rewrite (word_Split idChar w idChar_dot H). cbn. now rewrite H.
Qed.

Lemma alnumHyphen_idChar (a : ascii) :
  alnumHyphen a = true -> idChar a = true.
Proof.
  unfold alnumHyphen, idChar. intros ->. reflexivity.
Qed.

(** A valid pre-release name and a valid build metadata are made of
    proper identifiers. *)
Lemma valid_name_parts (name : string) :
  validateSemVerPreReleaseName name = true ->
  forallb (word idChar) (strings.Split name ".") = true /\ name <> "".
Proof.
  unfold validateSemVerPreReleaseName, semVerPreReleaseName. intros H.
  split; [|intros ->; discriminate].
  induction (strings.Split name ".") as [|s l IH]; [reflexivity|].
  cbn [forallb] in *. apply andb_true_iff in H as [Hs Hl].
  rewrite (IH Hl), andb_true_r.
  rewrite MatchString_class_line in Hs.
  apply negb_true_iff, orb_false_iff in Hs as [_ Hs].
  apply negb_false_iff in Hs. apply (word_mono alnumHyphen); trivial.
  apply alnumHyphen_idChar.
Qed.

Lemma valid_metadata_parts (meta : string) :
  validateSemVerBuildMetadata meta = true ->
  forallb (word idChar) (strings.Split meta ".") = true /\ meta <> "".
Proof.
  unfold validateSemVerBuildMetadata, semVerBuildMetaRex. intros H.
  split; [|intros ->; discriminate].
  induction (strings.Split meta ".") as [|s l IH]; [reflexivity|].
  cbn [forallb] in *. apply andb_true_iff in H as [Hs Hl].
  rewrite (IH Hl), andb_true_r.
  rewrite MatchString_class_line in Hs.
  apply negb_true_iff, orb_false_iff in Hs as [_ Hs].
  apply negb_false_iff in Hs. apply (word_mono alnumHyphen); trivial.
  apply alnumHyphen_idChar.
Qed.

Lemma FormatInt_idword (z : Z) : word idChar (strconv.FormatInt z) = true.
Proof.
  destruct z as [|p|p].
  - reflexivity.
  - apply (word_mono isDigit); [apply isDigit_idChar|].
    apply FormatInt_word. lia.
  - unfold strconv.FormatInt. cbn [Z.to_int NilZero.string_of_int].
    pose proof (FormatInt_word (Z.pos p) ltac:(lia)) as H.
    unfold strconv.FormatInt in H. cbn [Z.to_int NilZero.string_of_int] in H.
    apply (word_mono isDigit idChar _ isDigit_idChar) in H.
    unfold word in *. apply andb_true_iff in H as [_ H].
    cbn [nonEmpty String.eqb negb andb allChars]. now rewrite H.
Qed.

Lemma FormatUint_idword (k : Z) :
  0 <= k -> word idChar (strconv.FormatUint k) = true.
Proof.
  intros Hk. rewrite <- FormatInt_FormatUint by exact Hk.
  apply FormatInt_idword.
Qed.

Lemma append_nonempty (a b : string) : a <> "" -> a ++ b <> "".
Proof. destruct a; [congruence | discriminate]. Qed.

(** A candidate without pre-release gets the configured name as its
    pre-release, the name and ".1" when numbered for the first time,
    the name and the seconds since the epoch with the layout "epoch":
    its segments stay, and it has no metadata. *)
Theorem prerelease_name_becomes_the_prerelease
        (now : time.Time) (v : Version) (cur : option Version)
        (name : string) (inc : bool) :
  canonical v = true -> Prerelease v = "" -> Metadata v = "" ->
  validateSemVerPreReleaseName name = true ->
  preReleaseVersion now v cur name "" false = Ok (withPre v name)
  /\ preReleaseVersion now v None name "" true
     = Ok (withPre v (name ++ "." ++ "1"))
  /\ preReleaseVersion now v cur name "epoch" inc
     = Ok (withPre v (name ++ "." ++ strconv.FormatInt (time.Unix now)))
  /\ preReleaseVersion now v cur "" "epoch" inc
     = Ok (withPre v (strconv.FormatInt (time.Unix now))).
Proof.
  unfold Prerelease, Metadata. intros Hc Hp Hm Hname.
  destruct (valid_name_parts name Hname) as [Hparts Hne].
  destruct (length_pos _ Hne) as [Hpos Hz].
  unfold preReleaseVersion, Prerelease. rewrite Hp, Hz, Hpos.
  cbn [String.length Nat.eqb Nat.ltb Nat.leb andb bind String.eqb].
  repeat split.
  - apply NewVersion_with_pre; trivial.
    unfold dottedOK. rewrite Hparts. apply orb_true_r.
  - rewrite append_assoc. apply NewVersion_with_pre; trivial.
    + now apply dottedOK_app.
    + now apply append_nonempty.
  - rewrite append_assoc. apply NewVersion_with_pre; trivial.
    + apply dottedOK_app; trivial. apply word_parts, FormatInt_idword.
    + now apply append_nonempty.
  - apply NewVersion_with_pre; trivial.
    + unfold dottedOK. rewrite (word_parts _ (FormatInt_idword _)).
      apply orb_true_r.
    + pose proof (FormatInt_idword (time.Unix now)) as H.
      unfold word in H. destruct (strconv.FormatInt _); [discriminate|].
      discriminate.
Qed.

Lemma prerelease_name_becomes_the_prerelease_witness :
  preReleaseVersion testrepo.clock shortVersion None "rc" "" false
  = Ok (withPre shortVersion "rc")
  /\ preReleaseVersion testrepo.clock shortVersion None "rc" "epoch" true
     = Ok (withPre shortVersion ("rc" ++ "." ++ "1546300800")).
Proof.
  pose proof (prerelease_name_becomes_the_prerelease
                testrepo.clock shortVersion None "rc" true
                eq_refl eq_refl eq_refl eq_refl) as (H1 & _ & H3 & _).
  split; [exact H1 | exact H3].
Defined.

(** The number of a numbered pre-release counts up: when the recorded
    pre-release is the name, without a dot in it, followed by a dot
    and the decimal number [k], the candidate gets the name, a dot and
    [k + 1], and that pre-release continues the name in its turn. *)
Theorem prerelease_number_counts_up
        (now : time.Time) (v cur : Version) (name : string) (k : Z) :
  canonical v = true -> Prerelease v = "" -> Metadata v = "" ->
  validateSemVerPreReleaseName name = true ->
  strings.Contains name "." = false ->
  0 <= k < strconv.maxUint64 ->
  Prerelease cur = name ++ "." ++ strconv.FormatUint k ->
  preReleaseVersion now v (Some cur) name "" true
  = Ok (withPre v (name ++ "." ++ strconv.FormatUint (k + 1)))
  /\ continues name (withPre v (name ++ "." ++ strconv.FormatUint (k + 1)))
     = true
  /\ strconv.ParseUint (strconv.FormatUint (k + 1)) = (k + 1, None).
Proof.
  unfold Prerelease, Metadata. intros Hc Hp Hm Hname Hdot Hk Hcur.
  destruct (valid_name_parts name Hname) as [Hparts Hne].
  destruct (length_pos _ Hne) as [Hpos Hz].
  assert (Hk1 : 0 <= k + 1 <= strconv.maxUint64) by lia.
  repeat split.
  - unfold preReleaseVersion, Prerelease. rewrite Hp, Hz, Hpos, Hcur.
    cbn [String.length Nat.eqb Nat.ltb Nat.leb andb bind].
    rewrite Split_app_dot, (Split_no_dot name Hdot).
    rewrite (word_Split idChar _ idChar_dot (FormatUint_idword k (proj1 Hk))).
    cbn [app List.length Nat.eqb nth].
    rewrite (ParseUint_FormatUint k) by lia.
    rewrite incUint64_small by exact Hk. cbn [bind].
    rewrite append_assoc. apply NewVersion_with_pre; trivial.
    + apply dottedOK_app; trivial.
      apply word_parts, FormatUint_idword. lia.
    + now apply append_nonempty.
  - unfold continues, strings.HasPrefix, Prerelease, withPre. cbn [pre].
    rewrite <- append_assoc.
    generalize (name ++ "."). intros s.
    induction s as [|a s IH]; cbn [append String.prefix].
    + now destruct (strconv.FormatUint (k + 1)).
    + destruct (ascii_dec a a); [exact IH | congruence].
  - now apply ParseUint_FormatUint.
Qed.

Lemma prerelease_number_counts_up_witness :
  preReleaseVersion testrepo.clock shortVersion
                    (Some (withPre shortVersion ("dev" ++ "." ++ "41")))
                    "dev" "" true
  = Ok (withPre shortVersion ("dev" ++ "." ++ strconv.FormatUint (41 + 1))).
Proof.
  refine (proj1 (prerelease_number_counts_up
                   testrepo.clock shortVersion
                   (withPre shortVersion ("dev" ++ "." ++ "41")) "dev" 41
                   eq_refl eq_refl eq_refl eq_refl eq_refl _ eq_refl)).
  split; [lia | reflexivity].
Defined.

(** With buildNumber the candidate, which has no metadata yet, gets
    "1" as its metadata when the latest tag has none, and the decimal
    number [k + 1] when the latest tag has the decimal number [k]: the
    counter replaces nothing else, and reads back as [k + 1]. *)
Theorem build_number_counts_up
        (r : GitRepo) (new latest : Version) :
  buildNumber r = true -> buildMetadata r = "" ->
  latestTagVersion r = Some latest -> newVersion r = Some new ->
  canonical new = true -> Metadata new = "" ->
  (Metadata latest = "" ->
   appendBuildMetadata r = Ok (setNewVersion r (Some (withMeta new "1"))))
  /\ forall k,
       0 <= k < strconv.maxUint64 ->
       Metadata latest = strconv.FormatUint k ->
       appendBuildMetadata r
       = Ok (setNewVersion
               r (Some (withMeta new (strconv.FormatUint (k + 1)))))
       /\ strconv.ParseUint
            (Metadata (withMeta new (strconv.FormatUint (k + 1))))
          = (k + 1, None).
Proof.
  unfold Metadata. intros Hb Hbm Hl Hn Hc Hm.
  unfold appendBuildMetadata. rewrite Hb, Hbm, Hl, Hn.
  cbn [nonEmpty String.eqb negb bind deref]. unfold Metadata. split.
  - intros ->. cbn [String.eqb bind].
    rewrite NewVersion_with_meta; trivial; discriminate.
  - intros k Hk Hmeta. rewrite Hmeta.
    assert (Hk1 : 0 <= k + 1 <= strconv.maxUint64) by lia.
    pose proof (FormatUint_idword k (proj1 Hk)) as Hw.
    assert (Hne : String.eqb (strconv.FormatUint k) "" = false).
    { unfold word in Hw. now destruct (strconv.FormatUint k). }
    rewrite Hne, (ParseUint_FormatUint k) by lia.
    rewrite incUint64_small by exact Hk. cbn [bind metadata withMeta].
    split; [|now apply ParseUint_FormatUint].
    rewrite NewVersion_with_meta; trivial.
    + unfold dottedOK.
      rewrite (word_parts _ (FormatUint_idword (k + 1) ltac:(lia))).
      apply orb_true_r.
    + pose proof (FormatUint_idword (k + 1) ltac:(lia)) as Hw1.
      unfold word in Hw1. destruct (strconv.FormatUint (k + 1));
        [discriminate | discriminate].
Qed.

Lemma build_number_counts_up_witness :
  appendBuildMetadata countedBuild
  = Ok (setNewVersion
          countedBuild
          (Some (withMeta shortVersion (strconv.FormatUint (4 + 1))))).
Proof.
  refine (proj1 (proj2 (build_number_counts_up
                          countedBuild shortVersion builtTag
                          eq_refl eq_refl eq_refl eq_refl eq_refl eq_refl)
                       4 _ eq_refl)).
  split; [lia | reflexivity].
Defined.

End BuiltVersions.

(** ** The state a construction leaves *)

Section Construction.
Import regexp version.

Lemma scanKeys_settings keys : forall r i r1,
  scanKeys r i keys = Ok r1 -> settings r1 = settings r.
Proof.
  induction keys as [|[v c] keys IH]; intros r i r1 H; simpl in H;
    [discriminate|].
  destruct (String.length (Prerelease v) =? 0)%nat.
  - injection H as <-.
    destruct (i =? 0)%nat; fields;
      repeat match goal with |- context [if ?x then _ else _] =>
                               destruct x end; reflexivity.
  - apply IH in H. rewrite H.
    destruct (i =? 0)%nat; fields;
      repeat match goal with |- context [if ?x then _ else _] =>
                               destruct x end; reflexivity.
Qed.

Lemma parseTags_settings (r r1 : GitRepo) :
  parseTags r = Ok r1 -> settings r1 = settings r.
Proof.
  unfold parseTags.
  destruct (git.Tags (repo r)); [|discriminate].
  destruct (collectVersions _ _ _); simpl; [|discriminate].
  apply scanKeys_settings.
Qed.

Lemma locateBranch_values (branches : list string) : forall found,
  locateBranch branches found = found
  \/ locateBranch branches found = "main"
  \/ locateBranch branches found = "master".
Proof.
  induction branches as [|b rest IH]; intros found; [now left|].
  cbn [locateBranch]. destruct (String.eqb b "main"); [now right; left|].
  destruct (String.eqb b "master"); [|apply IH].
  destruct (IH "master") as [H|[H|H]]; auto.
Qed.

(** A state [NewRepo] returns is ready for use: the configuration was
    valid, the branch is the configured one or, when none is, "main" or
    "master", the options are those of the configuration, the recorded
    commit is that of the branch, the baseline is a stable version, and
    there is a candidate, so that [LatestVersion] and [AutoTag]
    dereference no nil pointer. *)
Theorem constructed_repo_is_ready
        (env : Env) (cfg : GitRepoConfig) (r : GitRepo) :
  NewRepo env cfg = Ok r ->
  validateConfig cfg = None
  /\ (Branch cfg <> "" -> branch r = Branch cfg)
  /\ (Branch cfg = "" -> branch r = "main" \/ branch r = "master")
  /\ (preReleaseName r, preReleaseNumber r, buildMetadata r, scheme r,
      strictMatch r, prefix r, buildNumber r)
     = (PreReleaseName cfg, PreReleaseNumber cfg, BuildMetadata cfg,
        Scheme cfg, StrictMatch cfg, Prefix cfg, BuildNumber cfg)
  /\ git.BranchCommitID (repo r) (branch r) = Ok (branchID r)
  /\ exists cur nv,
       currentVersion r = Some cur /\ Prerelease cur = ""
       /\ newVersion r = Some nv
       /\ LatestVersion r = Ok (version.String nv)
       /\ forall CreateTag,
            AutoTag CreateTag r
            = match CreateTag (tagNameOf r nv) (branchID r) with
              | Some msg => Err (ErrExternal ("error creating tag: " ++ msg))
              | None => Ok tt
              end.
Proof.
  unfold NewRepo. destruct (validateConfig cfg) as [e|]; [discriminate|].
  destruct (generateGitDirPath env (RepoPath cfg)) as [dir|e];
    cbn [bind]; [|discriminate].
  destruct (statNotExist env dir) as [e|]; [discriminate|].
  destruct (gitOpen env dir) as [rp|e]; cbn [bind]; [|discriminate].
  match goal with
  | |- bind ?m _ = _ -> _ =>
      assert (Hb : forall b, m = Ok b ->
                             (Branch cfg <> "" -> b = Branch cfg)
                             /\ (Branch cfg = "" -> b = "main" \/ b = "master"));
      [|destruct m as [b|e]; cbn [bind]; [|discriminate];
        specialize (Hb b eq_refl)]
  end.
  { intros b. destruct (String.eqb_spec (Branch cfg) "") as [E|E].
    - destruct (git.Branches rp) as [branches|e]; cbn [bind];
        [|discriminate].
      destruct (String.eqb_spec (locateBranch branches "") "") as [E1|E1];
        [discriminate|].
      intros [= <-]. split; [congruence|]. intros _.
      destruct (locateBranch_values branches "") as [H|H]; tauto.
    - intros [= <-]. split; [reflexivity | congruence]. }
  match goal with
  | |- bind (parseTags ?x) _ = _ -> _ =>
      destruct (parseTags x) as [r2|e] eqn:Ep; cbn [bind]; [|discriminate]
  end.
  pose proof (parseTags_settings _ _ Ep) as Hs.
  destruct (parseTags_wf _ _ Ep) as (cur & tag & Hc & Ht & _ & Hp).
  destruct (parseTags_latest_set _ _ Ep) as [lt Hl].
  pose proof (calcVersion_result (timeNow env) r2 cur lt tag Hc Ht Hl) as Hr.
  intros E. rewrite E in Hr. destruct Hr as (id & nv & Hid & ->).
  unfold settings in Hs. cbn [repo branch preReleaseName
    preReleaseTimestampLayout preReleaseNumber buildMetadata scheme
    strictMatch prefix buildNumber] in Hs.
  injection Hs as Hrp Hbr Hn Hlay Hnum Hbm Hsch Hst Hpf Hbn.
  fields. rewrite Hbr.
  split; [reflexivity|]. split; [tauto|]. split; [tauto|].
  split; [congruence|]. split; [rewrite <- Hbr; exact Hid|].
  exists cur, nv. repeat split; trivial.
Qed.

Lemma constructed_repo_is_ready_witness :
  branch builtOnMaster = "master"
  /\ exists nv, LatestVersion builtOnMaster = Ok (version.String nv).
Proof.
  destruct (constructed_repo_is_ready
              (branchesEnv ["develop"; "master"]) noBranchConfig
              builtOnMaster eq_refl)
    as (_ & _ & _ & _ & _ & cur & nv & _ & _ & _ & H & _).
  split; [reflexivity | now exists nv].
Defined.

End Construction.
(** ** Failures of the tag index, and schemes that are none *)

Section IndexFailures.
Import regexp version.

Lemma collectVersions_unreadable (rp : git.Repository) (tags : list string)
      (t : string) (cause : error) :
  In t tags -> isVersionTag t = true ->
  git.CommitByRevision rp t = Err cause ->
  forall acc, exists t' cause',
    collectVersions rp tags acc = Err (ErrReadingCommit t' cause').
Proof.
  intros Hin Hv Hc. induction tags as [|x tags IH]; [destruct Hin|].
  intros acc. cbn [collectVersions].
  destruct Hin as [->|Hin].
  - unfold isVersionTag, versionOfTag in Hv.
    destruct (maybeVersionFromTag t) as [[v|]|]; try discriminate.
    rewrite Hc. now exists t, cause.
  - destruct (maybeVersionFromTag x) as [[v|]|]; try apply (IH Hin).
    destruct (git.CommitByRevision rp x) as [c|e];
      [apply (IH Hin) | now exists x, e].
Qed.

(** The tag index fails in three ways only: the tags cannot be listed;
    the commit of a tag that names a version cannot be read; or no tag
    names a version without pre-release.  It succeeds only when the
    commit of every tag that names a version can be read, those of the
    pre-release tags included, which are never the baseline; a tag
    that names no version is never resolved. *)
Theorem tag_index_fails_three_ways (r : GitRepo) :
  match parseTags r with
  | Ok r' =>
      exists tags,
        git.Tags (repo r) = Ok tags
        /\ forall t, In t tags -> isVersionTag t = true ->
                     isOk (git.CommitByRevision (repo r) t) = true
  | Err e =>
      (exists cause, git.Tags (repo r) = Err cause /\ e = ErrFetchTags cause)
      \/ (exists tags t cause,
            git.Tags (repo r) = Ok tags
            /\ e = ErrReadingCommit t cause
            /\ In t tags /\ isVersionTag t = true
            /\ git.CommitByRevision (repo r) t = Err cause)
      \/ (exists tags,
            git.Tags (repo r) = Ok tags
            /\ e = ErrNoStableTags
            /\ (forall w, In w (parsedVersions tags) -> Prerelease w <> "")
            /\ forall t, In t tags -> isVersionTag t = true ->
                         isOk (git.CommitByRevision (repo r) t) = true)
  end.
Proof.
  assert (Hread : forall tags vs,
             collectVersions (repo r) tags [] = Ok vs ->
             forall t, In t tags -> isVersionTag t = true ->
                       isOk (git.CommitByRevision (repo r) t) = true).
  { intros tags vs Ec t Hin Hv.
    destruct (git.CommitByRevision (repo r) t) as [c|cause] eqn:E;
      [reflexivity|].
    destruct (collectVersions_unreadable _ tags t cause Hin Hv E [])
      as (t' & cause' & H). congruence. }
  unfold parseTags.
  destruct (git.Tags (repo r)) as [tags|cause] eqn:Et.
  2:{ left. now exists cause. }
  destruct (collectVersions (repo r) tags []) as [vs|e] eqn:Ec; cbn [bind].
  - destruct (scanKeys r 0 (sortReverse vs)) as [r'|e] eqn:Es.
    + exists tags. split; [reflexivity | apply (Hread tags vs Ec)].
    + right. right. exists tags.
      destruct (parseTags_no_stable r tags Et) as (_ & Hno & _).
      assert (Hp : parseTags r = Err e).
      { unfold parseTags. rewrite Et, Ec. exact Es. }
      apply scanKeys_err in Es as [-> _].
      specialize (Hno Hp). rewrite Forall_forall in Hno.
      repeat split; [|apply (Hread tags vs Ec)].
      intros w Hw E. specialize (Hno w Hw). unfold stable in Hno.
      rewrite E in Hno. discriminate.
  - right. left.
    apply collectVersions_err in Ec as (t & cause & -> & Hin & Hv & Hc).
    now exists tags, t, cause.
Qed.

Example unreadable_prerelease_tag_fails_index :
  parseTags unreadableTag
  = Err (ErrReadingCommit "v1.1.0-rc.1" (ErrExternal "object not found")).
Proof. vm_compute. reflexivity. Qed.

(** A scheme other than "conventional", "autotag" and the empty one
    classifies no commit: without strictMatch the walk over any commits
    leaves the state as it is, and with strictMatch it fails at the
    oldest commit, whatever the messages are. *)
Theorem unknown_scheme_classifies_nothing
        (r : GitRepo) (c : git.Commit) (cs : list git.Commit) :
  scheme r <> "conventional" -> scheme r <> "" -> scheme r <> "autotag" ->
  parseCommit r c
  = (if strictMatch r then Err (ErrNoMatch (git.ID c)) else Ok None)
  /\ walkCommits r (map Some (c :: cs))
     = (if strictMatch r then Err (ErrNoMatch (git.ID c)) else Ok r).
Proof.
  intros H1 H2 H3.
  assert (Hp : forall x, parseCommit r x
                         = if strictMatch r then Err (ErrNoMatch (git.ID x))
                           else Ok None).
  { intros x. unfold parseCommit, schemeBumper.
    destruct (String.eqb_spec (scheme r) "conventional"); [contradiction|].
    destruct (String.eqb_spec (scheme r) ""); [contradiction|].
    destruct (String.eqb_spec (scheme r) "autotag"); [contradiction|].
    reflexivity. }
  split; [apply Hp|].
  cbn [map walkCommits]. rewrite Hp.
  destruct (strictMatch r) eqn:Es; [reflexivity|]. cbn [bind].
  induction cs as [|x cs IH]; [reflexivity|].
  cbn [map walkCommits]. rewrite Hp. cbn [bind]. exact IH.
Qed.

Lemma unknown_scheme_classifies_nothing_witness :
  walkCommits semverScheme
              (map Some (git.mkCommit "c1" "feat!: [major] rewrite"
                           :: threeCommits))
  = Err (ErrNoMatch "c1").
Proof.
  refine (proj2 (unknown_scheme_classifies_nothing
                   semverScheme (git.mkCommit "c1" "feat!: [major] rewrite")
                   threeCommits _ _ _)); discriminate.
Defined.

(** Without buildNumber, build metadata that the configuration check
    accepts is appended as it is to a candidate without metadata: the
    version parser accepts it, and the candidate keeps its segments and
    its pre-release.  A pre-release name the check accepts and such a
    metadata compose, on a plain candidate, into the text of the
    candidate, "-", the name, "+" and the metadata. *)
Theorem custom_metadata_is_appended_verbatim
        (now : time.Time) (r : GitRepo) (new : Version) :
  buildNumber r = false ->
  validateSemVerBuildMetadata (buildMetadata r) = true ->
  newVersion r = Some new -> canonical new = true -> Metadata new = "" ->
  appendBuildMetadata r
  = Ok (setNewVersion r (Some (withMeta new (buildMetadata r))))
  /\ (Prerelease new = "" ->
      validateSemVerPreReleaseName (preReleaseName r) = true ->
      preReleaseTimestampLayout r = "" -> preReleaseNumber r = false ->
      exists v,
        (r1 <- appendPreRelease now r ;; appendBuildMetadata r1)
        = Ok (setNewVersion r (Some v))
        /\ version.String v
           = version.String new ++ "-" ++ preReleaseName r
             ++ "+" ++ buildMetadata r
        /\ Segments64 v = Segments64 new).
Proof.
  unfold Metadata, Prerelease. intros Hb Hv Hn Hc Hm.
  destruct (valid_metadata_parts _ Hv) as [Hparts Hne].
  assert (Hok : dottedOK (buildMetadata r) = true).
  { unfold dottedOK. rewrite Hparts. apply orb_true_r. }
  assert (Hnon : nonEmpty (buildMetadata r) = true).
  { unfold nonEmpty. destruct (String.eqb_spec (buildMetadata r) "");
      [contradiction | reflexivity]. }
  split.
  - unfold appendBuildMetadata. rewrite Hb, Hnon, Hn. cbn [bind deref].
    now rewrite NewVersion_with_meta.
  - intros Hp Hname Hlay Hnum.
    destruct (valid_name_parts _ Hname) as [Hnparts Hnne].
    destruct (length_pos _ Hnne) as [Hpos Hz].
    assert (Hpre : preReleaseVersion now new (curPreReleaseVer r)
                     (preReleaseName r) "" false
                   = Ok (withPre new (preReleaseName r))).
    { unfold preReleaseVersion, Prerelease. rewrite Hp, Hz, Hpos.
      cbn [String.length Nat.eqb Nat.ltb Nat.leb andb bind].
      apply NewVersion_with_pre; trivial.
      unfold dottedOK. rewrite Hnparts. apply orb_true_r. }
    assert (Hcw : canonical (withPre new (preReleaseName r)) = true).
    { unfold canonical in *. cbn [segments pre metadata withPre].
      rewrite Hm in Hc. apply andb_true_iff in Hc as [Hc _].
      apply andb_true_iff in Hc as [Hc _]. rewrite Hc.
      unfold dottedOK at 1. rewrite Hnparts, orb_true_r. reflexivity. }
    exists (withMeta (withPre new (preReleaseName r)) (buildMetadata r)).
    split; [|split; [|reflexivity]].
    + unfold appendPreRelease. rewrite Hpos, Hn, Hlay, Hnum.
      cbn [orb bind deref]. rewrite Hpre. cbn [bind].
      unfold appendBuildMetadata. fields. rewrite Hb, Hnon.
      cbn [bind deref].
      rewrite NewVersion_with_meta; trivial.
    + unfold version.String at 1.
      cbn [withMeta withPre segments pre metadata].
      destruct (preReleaseName r) as [|a n]; [congruence|].
      destruct (buildMetadata r) as [|b m]; [congruence|].
      cbn [String.eqb]. unfold version.String. rewrite Hp, Hm.
      cbn [String.eqb]. now rewrite !append_nil_r.
Qed.

Lemma custom_metadata_is_appended_verbatim_witness :
  appendBuildMetadata customBuild
  = Ok (setNewVersion customBuild
                      (Some (withMeta shortVersion "g12345678"))).
Proof.
  exact (proj1 (custom_metadata_is_appended_verbatim
                  testrepo.clock customBuild shortVersion
                  eq_refl eq_refl eq_refl eq_refl eq_refl)).
Defined.

End IndexFailures.

(** * The order of the tag index *)

Section ConsistentOrder.
Import regexp version.

Lemma consistent_spec (vs : list Version) :
  consistent vs = true ->
  (forall a b, In a vs -> In b vs ->
               LessThan a b = true -> LessThan b a = false)
  /\ (forall a b c, In a vs -> In b vs -> In c vs ->
                    LessThan a b = false -> LessThan b c = false ->
                    LessThan a c = false).
Proof.
  unfold consistent. rewrite forallb_forall. intros H. split.
  - intros a b Ha Hb Hab. specialize (H a Ha).
    rewrite forallb_forall in H. specialize (H b Hb).
    apply andb_true_iff in H as [H _]. rewrite Hab in H.
    cbn [negb orb] in H. now apply negb_true_iff in H.
  - intros a b c Ha Hb Hc Hab Hbc. specialize (H a Ha).
    rewrite forallb_forall in H. specialize (H b Hb).
    apply andb_true_iff in H as [_ H].
    rewrite forallb_forall in H. specialize (H c Hc).
    rewrite Hab, Hbc in H. cbn [orb] in H. now apply negb_true_iff in H.
Qed.

Section Insertion.
Variable vs : list Version.
Hypothesis Hasym : forall a b, In a vs -> In b vs ->
                               LessThan a b = true -> LessThan b a = false.
Hypothesis Htrans : forall a b c, In a vs -> In b vs -> In c vs ->
                                  LessThan a b = false ->
                                  LessThan b c = false ->
                                  LessThan a c = false.

Lemma insert_descending (x : Version * git.Commit) acc :
  In (fst x) vs -> Forall (fun k => In (fst k) vs) acc ->
  descending acc -> descending (sort.insert lessKey x acc).
Proof.
  intros Hx Hacc Hs. induction Hs as [|p acc Hs IH Hp]; cbn [sort.insert].
  - repeat constructor.
  - inversion Hacc as [|? ? Hpv Haccv]; subst.
    destruct (lessKey x p) eqn:E; unfold lessKey in E.
    + constructor; [now apply IH|].
      apply Forall_forall. intros y Hy. apply insert_In in Hy.
      destruct Hy as [->|Hy].
      * now apply Hasym.
      * rewrite Forall_forall in Hp. now apply Hp.
    + constructor; [now constructor|].
      constructor; trivial.
      rewrite Forall_forall in *. intros y Hy.
      apply (Htrans _ (fst p)); auto.
Qed.

Lemma fold_insert_descending (l : list (Version * git.Commit)) :
  forall acc,
    Forall (fun k => In (fst k) vs) l ->
    Forall (fun k => In (fst k) vs) acc ->
    descending acc ->
    descending (fold_left (fun acc x => sort.insert lessKey x acc) l acc).
Proof.
  induction l as [|x l IH]; intros acc Hl Hacc Hs; cbn [fold_left];
    [exact Hs|].
  inversion Hl; subst. apply IH; trivial.
  - apply Forall_forall. intros y Hy. apply insert_In in Hy.
    destruct Hy as [->|Hy]; trivial.
    rewrite Forall_forall in Hacc. auto.
  - now apply insert_descending.
Qed.

Lemma descending_before (l1 : list (Version * git.Commit)) : forall v l2,
  descending (l1 ++ v :: l2) ->
  Forall (fun w => LessThan (fst v) (fst w) = false) l1.
Proof.
  induction l1 as [|a l1 IH]; intros v l2 H; [constructor|].
  cbn [app] in H. inversion H as [|? ? Hs Ha]; subst.
  constructor; [|now apply (IH v l2)].
  rewrite Forall_forall in Ha. apply Ha. apply in_or_app. right. now left.
Qed.

(** On keys whose versions the order is consistent on, no entry of the
    sorted keys is [LessThan] an entry that follows it. *)
Lemma sortReverse_descending (keys : list (Version * git.Commit)) :
  Forall (fun k => In (fst k) vs) keys ->
  forall front v back,
    sortReverse keys = (front ++ v :: back)%list ->
    Forall (fun w => LessThan (fst v) (fst w) = false) back.
Proof.
  intros Hk front v back E. unfold sortReverse, sort.Sort in E.
  change (fun x p => LessThan (fst p) (fst x)) with lessKey in E.
  pose proof (fold_insert_descending keys [] Hk (Forall_nil _)
                                     (SSorted_nil _)) as Hd.
  apply (f_equal (@rev _)) in E. rewrite rev_involutive in E.
  rewrite rev_app_distr in E. cbn [rev] in E. rewrite <- app_assoc in E.
  cbn [app] in E. rewrite E in Hd. apply descending_before in Hd.
  apply Forall_forall. intros w Hw. rewrite Forall_forall in Hd.
  apply Hd. now apply -> in_rev.
Qed.

End Insertion.

(** The sorted keys of a tag index on whose versions the order is
    consistent. *)
Lemma collected_descending (rp : git.Repository) (tags : list string)
      (vs : list (Version * git.Commit)) :
  collectVersions rp tags [] = Ok vs ->
  consistent (parsedVersions tags) = true ->
  forall front v back,
    sortReverse vs = (front ++ v :: back)%list ->
    Forall (fun w => LessThan (fst v) (fst w) = false) back.
Proof.
  intros Ec Hcons.
  destruct (consistent_spec _ Hcons) as [Ha Ht].
  pose proof (collectVersions_ok _ _ _ _ Ec) as Hvs. cbn [map app] in Hvs.
  apply (sortReverse_descending (parsedVersions tags) Ha Ht).
  apply Forall_forall. intros k Hk. rewrite <- Hvs. now apply in_map.
Qed.

End ConsistentOrder.

(** ** Success of the tag index *)

Section TagIndexSuccess.
Import regexp version.

(** The index succeeds when some parsed version is stable and the
    commit of every version tag can be read. *)
Lemma parseTags_succeeds (r : GitRepo) (tags : list string) (w : Version) :
  git.Tags (repo r) = Ok tags ->
  In w (parsedVersions tags) -> Prerelease w = "" ->
  (forall t, In t tags -> isVersionTag t = true ->
             isOk (git.CommitByRevision (repo r) t) = true) ->
  exists r', parseTags r = Ok r'.
Proof.
  intros Ht Hw Hs Hread.
  destruct (parseTags r) as [r'|e] eqn:Ep; [now exists r'|].
  exfalso. unfold parseTags in Ep. rewrite Ht in Ep.
  destruct (collectVersions (repo r) tags []) as [vs|e0] eqn:Ec;
    cbn [bind] in Ep.
  - pose proof (collected_nonneg _ _ _ Ec) as Hnn.
    pose proof (collectVersions_ok _ _ _ _ Ec) as Hvs. simpl in Hvs.
    destruct (sortReverse_spec vs Hnn) as [Hin _].
    apply scanKeys_err in Ep as [_ Hk].
    rewrite <- Hvs in Hw. apply in_map_iff in Hw as (k & <- & Hk').
    rewrite Forall_forall in Hk. apply Hin in Hk'.
    specialize (Hk k Hk'). unfold stable in Hk. rewrite Hs in Hk.
    discriminate.
  - apply collectVersions_err in Ec
      as (t & cause & _ & Hin & Hvt & Hc).
    specialize (Hread t Hin Hvt). rewrite Hc in Hread. discriminate.
Qed.

(** A successful index has read the commit of every version tag. *)
Lemma parseTags_read (r r' : GitRepo) (tags : list string) :
  git.Tags (repo r) = Ok tags ->
  parseTags r = Ok r' ->
  forall t, In t tags -> isVersionTag t = true ->
            isOk (git.CommitByRevision (repo r) t) = true.
Proof.
  intros Ht H t Hin Hv. unfold parseTags in H. rewrite Ht in H.
  destruct (git.CommitByRevision (repo r) t) as [c|cause] eqn:E;
    [reflexivity|].
  destruct (collectVersions_unreadable _ tags t cause Hin Hv E [])
    as (t' & cause' & Hc).
  rewrite Hc in H. discriminate H.
Qed.

Lemma parsedVersions_In (tags : list string) (w : Version) :
  In w (parsedVersions tags)
  <-> exists t, In t tags /\ versionOfTag t = Some w.
Proof.
  unfold parsedVersions. rewrite in_flat_map. split.
  - intros (t & Ht & Hw). exists t. split; [exact Ht|].
    destruct (versionOfTag t) as [v|]; [|destruct Hw].
    destruct Hw as [->|[]]. reflexivity.
  - intros (t & Ht & E). exists t. split; [exact Ht|].
    rewrite E. now left.
Qed.

(** The parsed versions depend on the set of the version tags only. *)
Lemma parsedVersions_same (tags tags' : list string) :
  (forall t, isVersionTag t = true -> (In t tags' <-> In t tags)) ->
  forall w, In w (parsedVersions tags') <-> In w (parsedVersions tags).
Proof.
  intros H w. rewrite !parsedVersions_In.
  split; intros (t & Ht & E); exists t; (split; [|exact E]);
    apply H; trivial; unfold isVersionTag; now rewrite E.
Qed.

(** C5: when some parsed version has an empty prerelease and the commit
    of every version tag can be read, the tag index succeeds, whatever
    pre-release versions come before in descending order; its baseline
    is a parsed version with an empty prerelease that no other such
    version is greater than.  It fails when no parsed version has an
    empty prerelease, the whole construction with it, and
    [ErrNoStableTags] means just that.  Tag names that are not
    versions, and the order of the tags, change nothing: with the same
    version tags the index succeeds or fails alike, and neither
    baseline is greater than the other. *)
Theorem tag_index_selects_highest_stable (r : GitRepo) (tags : list string) :
  git.Tags (repo r) = Ok tags ->
  ((exists w, In w (parsedVersions tags) /\ Prerelease w = "") ->
   (forall t, In t tags -> isVersionTag t = true ->
              isOk (git.CommitByRevision (repo r) t) = true) ->
   exists r' v,
     parseTags r = Ok r'
     /\ currentVersion r' = Some v
     /\ Prerelease v = ""
     /\ In v (parsedVersions tags)
     /\ forall w, In w (parsedVersions tags) -> Prerelease w = "" ->
                  GreaterThan w v = false)
  /\ (forall r', parseTags r = Ok r' ->
        exists v,
          currentVersion r' = Some v
          /\ Prerelease v = ""
          /\ In v (parsedVersions tags)
          /\ forall w, In w (parsedVersions tags) -> Prerelease w = "" ->
                       GreaterThan w v = false)
  /\ ((forall w, In w (parsedVersions tags) -> Prerelease w <> "") ->
      isOk (parseTags r) = false
      /\ forall env cfg, gitOpenOnly env (repo r) ->
                         isOk (NewRepo env cfg) = false)
  /\ (parseTags r = Err ErrNoStableTags ->
      forall w, In w (parsedVersions tags) -> Prerelease w <> "")
  /\ forall tags',
       (forall t, isVersionTag t = true -> (In t tags' <-> In t tags)) ->
       isOk (parseTags (withTags r tags')) = isOk (parseTags r)
       /\ forall r1 r2 v1 v2,
            parseTags (withTags r tags') = Ok r1 -> parseTags r = Ok r2 ->
            currentVersion r1 = Some v1 -> currentVersion r2 = Some v2 ->
            GreaterThan v1 v2 = false /\ GreaterThan v2 v1 = false.
Proof.
  intros Ht.
  assert (Hst : forall w, stable w = true <-> Prerelease w = "").
  { intros w. apply String.eqb_eq. }
  assert (Hno : (forall w, In w (parsedVersions tags) -> Prerelease w <> "")
                <-> Forall (fun w => stable w = false) (parsedVersions tags)).
  { rewrite Forall_forall. split; intros H w Hw; specialize (H w Hw).
    - destruct (stable w) eqn:E; [|reflexivity]. now apply Hst in E.
    - intros E. apply Hst in E. congruence. }
  assert (Hbase : forall s ts s', git.Tags (repo s) = Ok ts ->
            parseTags s = Ok s' ->
            exists v,
              currentVersion s' = Some v
              /\ Prerelease v = ""
              /\ In v (parsedVersions ts)
              /\ forall w, In w (parsedVersions ts) -> Prerelease w = "" ->
                           GreaterThan w v = false).
  { intros s ts s' Hts H. destruct (parseTags_baseline s s' ts Hts H)
      as (v & Hcv & Hv & Hin & Hmax).
    exists v. repeat split; trivial; [now apply Hst|].
    intros w Hw Hpw. apply Hmax; trivial. now apply Hst. }
  destruct (parseTags_no_stable r tags Ht) as (Hfail & Herr & _).
  split; [|split; [exact (fun r' => Hbase r tags r' Ht)
                  |split; [|split]]].
  - intros (w & Hw & Hs) Hread.
    destruct (parseTags_succeeds r tags w Ht Hw Hs Hread) as [r' Hr].
    destruct (Hbase r tags r' Ht Hr) as (v & H). exists r', v. now split.
  - intros H. split; [apply Hfail; now apply Hno|].
    intros env cfg Hopen. apply Hno in H. unfold NewRepo.
    destruct (validateConfig cfg); [reflexivity|].
    destruct (generateGitDirPath env (RepoPath cfg)) as [dir|];
      [|reflexivity].
    simpl. destruct (statNotExist env dir); [reflexivity|].
    destruct (gitOpen env dir) as [rp|] eqn:Eo; [|reflexivity].
    apply Hopen in Eo. subst rp. simpl.
    match goal with
    | |- isOk (bind ?m _) = false => destruct m as [br|]
    end; [|reflexivity].
    simpl.
    match goal with
    | |- isOk (bind (parseTags ?r0) _) = false =>
        destruct (parseTags_no_stable r0 tags Ht) as (Hfail0 & _);
        specialize (Hfail0 H); destruct (parseTags r0)
    end; [discriminate | reflexivity].
  - intros H. apply Hno. now apply Herr.
  - intros tags' Hsame.
    pose proof (parsedVersions_same tags tags' Hsame) as Hpv.
    assert (Ht' : git.Tags (repo (withTags r tags')) = Ok tags')
      by reflexivity.
    assert (Hok : forall s ts ts',
               git.Tags (repo s) = Ok ts ->
               (forall t, isVersionTag t = true -> (In t ts' <-> In t ts)) ->
               forall s0, git.Tags (repo s0) = Ok ts' ->
               git.CommitByRevision (repo s0) = git.CommitByRevision (repo s) ->
               isOk (parseTags s) = true -> isOk (parseTags s0) = true).
    { intros s ts ts' Hts Hs s0 Hts0 Hcr H.
      destruct (parseTags s) as [s'|] eqn:E; [|discriminate H].
      destruct (Hbase s ts s' Hts E) as (v & _ & Hv & Hin & _).
      pose proof (parseTags_read s s' ts Hts E) as Hread.
      destruct (parseTags_succeeds s0 ts' v Hts0) as [s0' ->];
        trivial.
      - now apply (parsedVersions_same ts ts' Hs).
      - intros t Hin' Hvt. rewrite Hcr. apply Hread; trivial.
        now apply Hs. }
    split.
    + destruct (isOk (parseTags r)) eqn:E1.
      * apply (Hok r tags tags' Ht Hsame _ Ht' eq_refl E1).
      * destruct (isOk (parseTags (withTags r tags'))) eqn:E2;
          [|reflexivity].
        rewrite <- E1. symmetry.
        apply (Hok (withTags r tags') tags' tags Ht'); trivial.
        intros t Hvt. symmetry. now apply Hsame.
    + intros r1 r2 v1 v2 H1 H2 Hc1 Hc2.
      destruct (Hbase _ tags' r1 Ht' H1) as (w1 & E1 & Hs1 & Hin1 & Hmax1).
      destruct (Hbase _ tags r2 Ht H2) as (w2 & E2 & Hs2 & Hin2 & Hmax2).
      rewrite Hc1 in E1. injection E1 as <-.
      rewrite Hc2 in E2. injection E2 as <-.
      split.
      * apply Hmax2; trivial. now apply Hpv.
      * apply Hmax1; trivial. now apply Hpv.
Qed.

Lemma tag_index_selects_highest_stable_witness :
  exists r' v,
    parseTags (initial mixedTags [] plainConfig) = Ok r'
    /\ currentVersion r' = Some v
    /\ Prerelease v = ""
    /\ In v (parsedVersions mixedTags)
    /\ forall w, In w (parsedVersions mixedTags) -> Prerelease w = "" ->
                 GreaterThan w v = false.
Proof.
  refine (proj1 (tag_index_selects_highest_stable
                   (initial mixedTags [] plainConfig) mixedTags eq_refl)
                _ _).
  - exists firstRelease. split; [vm_compute; auto | reflexivity].
  - intros t _ _. reflexivity.
Defined.

End TagIndexSuccess.

(** ** The magnitude a walk selects *)

Section HighestMagnitudeWins.
Import regexp version.

Lemma outcome_walkable (sch : string) (strict : bool)
      (ms : list (option string)) : forall acc,
  walkable sch strict ms = true ->
  outcome sch strict ms acc
  = Some (fold_left better (classified sch strict ms) acc).
Proof.
  induction ms as [|[m|] ms IH]; intros acc H; cbn [walkable forallb] in H;
    [reflexivity | | discriminate].
  apply andb_true_iff in H as [Hm Hms]. fold (walkable sch strict ms) in Hms.
  unfold classified. cbn [outcome flat_map]. fold (classified sch strict ms).
  destruct (schemeBumper sch strict m) as [b|].
  - cbn [app fold_left]. now apply IH.
  - destruct strict; [discriminate|]. now apply IH.
Qed.

(** The phases after the walk leave a bumped candidate alone when no
    pre-release and no build metadata is configured. *)
Lemma compose_plain (now : time.Time) (r : GitRepo) (cur : Version)
      (b : bumper) :
  currentVersion r = Some cur -> nonneg cur ->
  newVersion r = Some (bumped b cur) ->
  preReleaseName r = "" -> preReleaseTimestampLayout r = "" ->
  buildNumber r = false -> buildMetadata r = "" ->
  compose now r = Ok r.
Proof.
  intros Hc Hn Hv Hp Hl Hb Hm.
  unfold compose, bumpFallback. rewrite Hv, Hc. cbn [deref bind].
  rewrite (Equal_bumped_cur b cur Hn). cbn [bind].
  unfold appendPreRelease. rewrite Hp, Hl. cbn [String.length Nat.ltb Nat.leb orb bind].
  unfold appendBuildMetadata. rewrite Hb, Hm. reflexivity.
Qed.

(** C2: two commit ranges with the same messages, in any order, resolve
    to the same version, or both fail.  When no commit of the range is
    nil and, with strictMatch, every commit is classified, the walk
    succeeds in either order and selects the bump of the baseline by
    the greatest magnitude among the classified commits, the baseline
    itself when none is classified; the fallback leaves a bump alone,
    and with no pre-release and no build metadata configured it is the
    version the run resolves to. *)
Theorem highest_magnitude_wins_in_any_order
        (now : time.Time) (r0 r : GitRepo)
        (commits commits' : list (option git.Commit)) :
  parseTags r0 = Ok r ->
  Permutation (messages commits) (messages commits') ->
  let bs := classified (scheme r) (strictMatch r) (messages commits) in
  resolved (calcVersion now (withCommits r (rev commits)))
  = resolved (calcVersion now (withCommits r (rev commits')))
  /\ (forall r1,
        walkCommits (setNewVersion r (currentVersion r)) commits = Ok r1 ->
        exists cur,
          currentVersion r = Some cur
          /\ newVersion r1 = Some (selected cur (maxMagnitude bs))
          /\ (bs <> [] ->
              exists top,
                maxMagnitude bs = Some top /\ In top bs
                /\ (forall b, In b bs -> (magnitude b <= magnitude top)%nat)
                /\ bumpFallback r1 = Ok r1))
  /\ (walkable (scheme r) (strictMatch r) (messages commits) = true ->
      exists cur,
        currentVersion r = Some cur
        /\ walkCommits (setNewVersion r (currentVersion r)) commits
           = Ok (setNewVersion r (Some (selected cur (maxMagnitude bs))))
        /\ walkCommits (setNewVersion r (currentVersion r)) commits'
           = Ok (setNewVersion r (Some (selected cur (maxMagnitude bs))))
        /\ (bs <> [] ->
            exists top,
              maxMagnitude bs = Some top
              /\ In top bs
              /\ (forall b, In b bs -> (magnitude b <= magnitude top)%nat)
              /\ bump top cur = Ok (selected cur (maxMagnitude bs))
              /\ forall id h,
                   git.BranchCommitID (repo r) (branch r) = Ok id ->
                   git.BranchCommit (repo r) (branch r) = Ok h ->
                   preReleaseName r = "" ->
                   preReleaseTimestampLayout r = "" ->
                   buildNumber r = false -> buildMetadata r = "" ->
                   resolved (calcVersion now (withCommits r (rev commits)))
                   = Some (bumped top cur)
                   /\ resolved
                        (calcVersion now (withCommits r (rev commits')))
                      = Some (bumped top cur))).
Proof.
  intros Hp Hperm bs.
  destruct (parseTags_wf _ _ Hp) as (cur & tag & Hc & Ht & Hn & _).
  assert (Hfirst :
            resolved (calcVersion now (withCommits r (rev commits)))
            = resolved (calcVersion now (withCommits r (rev commits')))).
  { rewrite !(calcVersion_withCommits now r cur tag); trivial.
    destruct (git.BranchCommitID (repo r) (branch r)); [|reflexivity].
    destruct (git.BranchCommit (repo r) (branch r)); [|reflexivity].
    assert (Hlen : List.length (rev commits) = List.length (rev commits')).
    { rewrite !length_rev.
      apply Permutation_length in Hperm. unfold messages in Hperm.
      now rewrite !length_map in Hperm. }
    rewrite Hlen, !rev_involutive.
    now rewrite (outcome_perm _ _ _ _ Hperm). }
  split; [exact Hfirst|]. split.
  - intros r1 Hw.
    pose proof (walkCommits_outcome commits
                  (setNewVersion r (currentVersion r)) cur None) as Ho.
    cbn [currentVersion newVersion scheme strictMatch selected
         setNewVersion] in Ho.
    rewrite Hc in Ho, Hw. specialize (Ho eq_refl Hn eq_refl).
    destruct (outcome _ _ _ _) as [best|] eqn:Eo;
      [|rewrite Hw in Ho; discriminate].
    apply outcome_classified in Eo. fold bs in Eo.
    fold (maxMagnitude bs) in Eo. subst best.
    rewrite Hw in Ho. injection Ho as ->.
    exists cur. repeat split; trivial.
    intros Hne.
    destruct (fold_better_spec bs None)
      as [[E _]|(top & Etop & Hin & Hmax & _)]; [contradiction|].
    fold (maxMagnitude bs) in Etop.
    exists top. repeat split; trivial.
    + destruct Hin as [Hin|Hin]; [exact Hin | discriminate].
    + unfold bumpFallback. cbn [newVersion currentVersion setNewVersion].
      rewrite Hc, Etop. cbn [deref bind selected].
      rewrite Equal_bumped_cur; trivial.
  - intros Hwalk.
    pose proof (outcome_walkable _ _ _ None Hwalk) as Ho.
    fold bs in Ho. fold (maxMagnitude bs) in Ho.
    pose proof Ho as Ho'. rewrite (outcome_perm _ _ _ _ Hperm) in Ho'.
    assert (Hw : forall l,
               outcome (scheme r) (strictMatch r) (messages l) None
               = Some (maxMagnitude bs) ->
               walkCommits (setNewVersion r (currentVersion r)) l
               = Ok (setNewVersion
                       r (Some (selected cur (maxMagnitude bs))))).
    { intros l Hl.
      pose proof (walkCommits_outcome l
                    (setNewVersion r (currentVersion r)) cur None) as H.
      cbn [currentVersion newVersion scheme strictMatch selected
           setNewVersion] in H.
      rewrite Hc in H. specialize (H eq_refl Hn eq_refl).
      rewrite Hl in H. rewrite Hc. exact H. }
    exists cur.
    split; [exact Hc|]. split; [now apply Hw|]. split; [now apply Hw|].
    intros Hne.
    destruct (fold_better_spec bs None)
      as [[E _]|(top & Etop & Hin & Hmax & _)]; [contradiction|].
    destruct Hin as [Hin|Hin]; [|discriminate].
    fold (maxMagnitude bs) in Etop.
    exists top.
    split; [exact Etop|]. split; [exact Hin|]. split; [exact Hmax|].
    split; [now rewrite Etop|].
    intros id h Hid Hh Hpn Hpl Hbn Hbm.
    assert (Hres : resolved (calcVersion now (withCommits r (rev commits)))
                   = Some (bumped top cur)).
    { rewrite (calcVersion_withCommits now r cur tag); trivial.
      rewrite Hid, Hh, rev_involutive, Ho, Etop, length_rev.
      destruct commits as [|c commits]; [now destruct Hne|].
      cbn [List.length Nat.eqb andb selected].
      rewrite (compose_plain now _ cur top); trivial. }
    split; [exact Hres | rewrite <- Hfirst; exact Hres].
Qed.

End HighestMagnitudeWins.

Lemma highest_magnitude_wins_in_any_order_witness :
  resolved (calcVersion testrepo.clock
              (withCommits (indexed ["1.0.0"] [] plainConfig)
                           (rev minorThenMajor)))
  = Some (bumped majorBumper firstRelease)
  /\ resolved (calcVersion testrepo.clock
                 (withCommits (indexed ["1.0.0"] [] plainConfig)
                              (rev majorThenMinor)))
     = Some (bumped majorBumper firstRelease).
Proof.
  destruct (highest_magnitude_wins_in_any_order
              testrepo.clock
              (initial ["1.0.0"] [] plainConfig)
              (indexed ["1.0.0"] [] plainConfig)
              minorThenMajor majorThenMinor eq_refl
              (perm_swap _ _ _))
    as (_ & _ & H).
  destruct H as (cur & Hc & _ & _ & H); [reflexivity|].
  destruct H as (top & _ & _ & Hmax & _ & H); [discriminate|].
  injection Hc as <-.
  assert (Etop : top = majorBumper).
  { specialize (Hmax majorBumper (or_intror (or_introl eq_refl))).
    destruct top; cbn in Hmax; [reflexivity | lia | lia]. }
  rewrite Etop in H.
  exact (H "c0" (git.mkCommit "c0" "seed")
           eq_refl eq_refl eq_refl eq_refl eq_refl eq_refl).
Defined.

(** ** The highest numbered pre-release *)

Section NumberedPreReleases.
Import regexp version.

Lemma comparePart_refl (a : string) : comparePart a a = 0.
Proof. unfold comparePart. now rewrite String.eqb_refl. Qed.

Lemma compareParts_common (ns : list string) (a b : string) :
  compareParts (ns ++ [a]) (ns ++ [b]) = comparePart a b.
Proof.
  induction ns as [|n ns IH]; cbn [app compareParts].
  - destruct (Z.eqb_spec (comparePart a b) 0) as [E|E];
      [now rewrite E | reflexivity].
  - rewrite comparePart_refl. cbn [Z.eqb]. exact IH.
Qed.

Lemma FormatUint_nonempty (k : Z) : 0 <= k -> strconv.FormatUint k <> "".
Proof.
  intros Hk. rewrite <- FormatInt_FormatUint by exact Hk.
  now apply FormatInt_digits.
Qed.

(** Two decimal numbers within the range of a signed word compare as
    numbers. *)
Lemma comparePart_numbers (k j : Z) :
  0 <= k <= strconv.maxInt64 -> 0 <= j <= strconv.maxInt64 -> k < j ->
  comparePart (strconv.FormatUint k) (strconv.FormatUint j) = -1.
Proof.
  intros Hk Hj Hlt. unfold comparePart.
  rewrite <- !FormatInt_FormatUint by tauto.
  destruct (String.eqb_spec (strconv.FormatInt k) (strconv.FormatInt j))
    as [E|E].
  { apply FormatInt_inj in E. lia. }
  rewrite !ParseInt_FormatInt by assumption. cbn [isSome negb andb].
  destruct (String.eqb_spec (strconv.FormatInt k) "") as [E1|_].
  { now apply FormatInt_digits in E1. }
  destruct (String.eqb_spec (strconv.FormatInt j) "") as [E1|_].
  { now apply FormatInt_digits in E1. }
  destruct (Z.ltb_spec j k); [lia | reflexivity].
Qed.

Lemma append_cancel (a b c : string) : a ++ b = a ++ c -> b = c.
Proof.
  induction a as [|x a IH]; cbn [append]; [trivial|].
  intros H. injection H as H. now apply IH.
Qed.

Lemma plus_stops (m : string) :
  stopsAt isDigit (if String.eqb m "" then "" else "+" ++ m) = true.
Proof. destruct m; reflexivity. Qed.

(** Versions with the same segments and numbered pre-releases of the
    same name: the one with the lower number is [LessThan] the
    other. *)
Lemma LessThan_numbers (p w : Version) (name : string) (k j : Z) :
  segments p = segments w ->
  0 <= k <= strconv.maxInt64 -> 0 <= j <= strconv.maxInt64 ->
  Prerelease p = name ++ "." ++ strconv.FormatUint k ->
  Prerelease w = name ++ "." ++ strconv.FormatUint j ->
  k < j -> LessThan p w = true.
Proof.
  unfold Prerelease. intros Hs Hk Hj Hp Hw Hlt.
  assert (Hne : forall z, 0 <= z ->
                  String.eqb (name ++ "." ++ strconv.FormatUint z) "" = false).
  { intros z _. destruct name; reflexivity. }
  unfold LessThan, Compare, Segments64, Prerelease.
  destruct (String.eqb_spec (version.String p) (version.String w)) as [E|_].
  { exfalso. unfold version.String in E. rewrite Hs, Hp, Hw in E.
    rewrite !Hne in E by tauto.
    apply append_cancel in E. cbn [append] in E. injection E as E.
    rewrite !append_assoc in E. apply append_cancel in E.
    cbn [append] in E. injection E as E.
    rewrite <- !FormatInt_FormatUint in E by tauto.
    apply span_unique with (p := isDigit) in E as [E _];
      try apply plus_stops; try (apply FormatInt_digits; tauto).
    apply FormatInt_inj in E. lia. }
  destruct (list_eq_dec Z.eq_dec (segments p) (segments w)) as [_|N];
    [|contradiction].
  rewrite Hp, Hw, !Hne by tauto. cbn [andb].
  unfold comparePrereleases.
  destruct (String.eqb_spec (name ++ "." ++ strconv.FormatUint k)
                            (name ++ "." ++ strconv.FormatUint j)) as [E|_].
  { exfalso. apply append_cancel in E. cbn [append] in E. injection E as E.
    rewrite <- !FormatInt_FormatUint in E by tauto.
    apply FormatInt_inj in E. lia. }
  rewrite !Split_app_dot.
  rewrite !(word_Split idChar _ idChar_dot (FormatUint_idword _ (proj1 Hk))).
  rewrite !(word_Split idChar _ idChar_dot (FormatUint_idword _ (proj1 Hj))).
  rewrite compareParts_common, comparePart_numbers; trivial.
Qed.

Lemma continues_numbered (name rest : string) (w : Version) :
  Prerelease w = name ++ "." ++ rest -> continues name w = true.
Proof.
  intros H. unfold continues, strings.HasPrefix. rewrite H.
  rewrite <- append_assoc. generalize (name ++ "."). intros s.
  induction s as [|a s IH]; cbn [append String.prefix].
  - now destruct rest.
  - destruct (ascii_dec a a); [exact IH | congruence].
Qed.

(** With a pre-release name configured, the pre-release the tag index
    records for the number to continue from is a parsed version whose
    pre-release begins with the name and a dot, and that sorts at or
    above the baseline and every other such version by segments.
    Where go-version's order is consistent on the tag versions, it is
    [LessThan] neither the baseline nor any other version that
    continues the name; so among the tags with its segments and the
    name followed by a decimal number, its number is the highest.
    When the index records none, every version that continues the name
    sorts at or below the baseline by segments, and the baseline is
    not [LessThan] it where the order is consistent. *)
Theorem prerelease_counter_continues_highest_above_baseline
        (r r' : GitRepo) (tags : list string) :
  git.Tags (repo r) = Ok tags ->
  curPreReleaseVer r = None ->
  parseTags r = Ok r' ->
  exists base,
    currentVersion r' = Some base
    /\ match curPreReleaseVer r' with
       | Some p =>
           preReleaseName r <> ""
           /\ In p (parsedVersions tags)
           /\ continues (preReleaseName r) p = true
           /\ segLe (segments base) (segments p)
           /\ (forall w, In w (parsedVersions tags) ->
                         continues (preReleaseName r) w = true ->
                         segLe (segments w) (segments p))
           /\ (consistent (parsedVersions tags) = true ->
               LessThan p base = false
               /\ (forall w, In w (parsedVersions tags) ->
                             continues (preReleaseName r) w = true ->
                             LessThan p w = false)
               /\ forall w k j,
                    In w (parsedVersions tags) ->
                    segments w = segments p ->
                    0 <= k <= strconv.maxInt64 ->
                    0 <= j <= strconv.maxInt64 ->
                    Prerelease p
                    = preReleaseName r ++ "." ++ strconv.FormatUint k ->
                    Prerelease w
                    = preReleaseName r ++ "." ++ strconv.FormatUint j ->
                    j <= k)
       | None =>
           preReleaseName r = ""
           \/ ((forall w, In w (parsedVersions tags) ->
                          continues (preReleaseName r) w = true ->
                          segLe (segments w) (segments base))
               /\ (consistent (parsedVersions tags) = true ->
                   forall w, In w (parsedVersions tags) ->
                             continues (preReleaseName r) w = true ->
                             LessThan base w = false))
       end.
Proof.
  intros Ht Hp H. unfold parseTags in H. rewrite Ht in H.
  destruct (collectVersions (repo r) tags []) as [vs|] eqn:Ec;
    [|discriminate].
  cbn [bind] in H.
  pose proof (collected_nonneg _ _ _ Ec) as Hnn.
  pose proof (collectVersions_ok _ _ _ _ Ec) as Hvs. cbn [map app] in Hvs.
  destruct (sortReverse_spec vs Hnn) as [Hin Hsorted].
  pose proof (collected_descending _ _ _ Ec) as Hdesc.
  apply (scanKeys_pre _ _ _ _ Hp) in H.
  destruct H as (front & base & c & back & Ek & Hf & Hst & Hcv & Hpre).
  assert (Hkey : forall w, In w (parsedVersions tags) ->
                           exists cw, In (w, cw) (sortReverse vs)).
  { intros w Hw. rewrite <- Hvs in Hw. apply in_map_iff in Hw.
    destruct Hw as ([w' cw] & <- & Hw). exists cw. now apply Hin. }
  assert (Hbase : continues (preReleaseName r) base = false).
  { unfold continues, strings.HasPrefix. unfold stable in Hst.
    apply String.eqb_eq in Hst. fold (Prerelease base). rewrite Hst.
    destruct (preReleaseName r); reflexivity. }
  assert (Hrefl : forall v, LessThan v v = false).
  { intros v. unfold LessThan. now rewrite Compare_refl. }
  exists base. split; [exact Hcv|]. rewrite Hpre.
  destruct (nonEmpty (preReleaseName r)) eqn:En.
  2:{ left. unfold nonEmpty in En. apply negb_false_iff in En.
      now apply String.eqb_eq in En. }
  destruct (find _ front) as [[p cp]|] eqn:Efind; cbn [option_map fst].
  - apply find_split in Efind.
    destruct Efind as (f1 & f2 & -> & Hf1 & Hcont). cbn [fst] in Hcont.
    rewrite <- app_assoc in Ek. cbn [app] in Ek.
    specialize (Hsorted _ _ _ Ek). rewrite Forall_forall in Hsorted.
    assert (Hafter : forall w, In w (parsedVersions tags) ->
                       continues (preReleaseName r) w = true ->
                       w = p \/ exists cw, In (w, cw) (f2 ++ (base, c) :: back)).
    { intros w Hw Hwc. destruct (Hkey w Hw) as [cw Hk].
      rewrite Ek in Hk. apply in_app_or in Hk.
      destruct Hk as [Hk|[Hk|Hk]].
      - rewrite Forall_forall in Hf1. apply Hf1 in Hk. cbn [fst] in Hk.
        congruence.
      - injection Hk as <- <-. now left.
      - right. now exists cw. }
    split; [intros E; now rewrite E in En|].
    split.
    { rewrite <- Hvs. change p with (fst (p, cp)). apply in_map.
      apply Hin. rewrite Ek. apply in_or_app. right. now left. }
    split; [exact Hcont|].
    split.
    { apply (Hsorted (base, c)). apply in_or_app. right. now left. }
    split.
    { intros w Hw Hwc. destruct (Hafter w Hw Hwc) as [->|[cw Hk]];
        [apply segLe_refl | apply (Hsorted (w, cw) Hk)]. }
    intros Hcons. specialize (Hdesc Hcons _ _ _ Ek).
    rewrite Forall_forall in Hdesc.
    assert (Hmax : forall w, In w (parsedVersions tags) ->
                     continues (preReleaseName r) w = true ->
                     LessThan p w = false).
    { intros w Hw Hwc. destruct (Hafter w Hw Hwc) as [->|[cw Hk]];
        [apply Hrefl | apply (Hdesc (w, cw) Hk)]. }
    split.
    { apply (Hdesc (base, c)). apply in_or_app. right. now left. }
    split; [exact Hmax|].
    intros w k j Hw Hseg Hk Hj Epk Ewj.
    destruct (Z.le_gt_cases j k) as [Hle|Hgt]; [exact Hle|]. exfalso.
    pose proof (LessThan_numbers p w _ k j (eq_sym Hseg) Hk Hj Epk Ewj
                                 ltac:(lia)) as Hlt.
    rewrite (Hmax w Hw (continues_numbered _ _ _ Ewj)) in Hlt.
    discriminate.
  - right. apply find_none_Forall in Efind. rewrite Forall_forall in Efind.
    assert (Hafter : forall w, In w (parsedVersions tags) ->
                       continues (preReleaseName r) w = true ->
                       exists cw, In (w, cw) back).
    { intros w Hw Hwc. destruct (Hkey w Hw) as [cw Hk].
      rewrite Ek in Hk. apply in_app_or in Hk.
      destruct Hk as [Hk|[Hk|Hk]].
      - apply Efind in Hk. cbn [fst] in Hk. congruence.
      - injection Hk as <- <-. congruence.
      - now exists cw. }
    split.
    + intros w Hw Hwc. destruct (Hafter w Hw Hwc) as [cw Hk].
      specialize (Hsorted _ _ _ Ek). rewrite Forall_forall in Hsorted.
      apply (Hsorted (w, cw) Hk).
    + intros Hcons w Hw Hwc. destruct (Hafter w Hw Hwc) as [cw Hk].
      specialize (Hdesc Hcons _ _ _ Ek). rewrite Forall_forall in Hdesc.
      apply (Hdesc (w, cw) Hk).
Qed.

End NumberedPreReleases.

Lemma prerelease_counter_continues_highest_above_baseline_witness :
  curPreReleaseVer (indexed numberedTags [] devNumberConfig) = Some tenthDev
  /\ (forall w, In w (parsedVersions numberedTags) ->
                continues "dev" w = true -> version.LessThan tenthDev w = false)
  /\ forall w j,
       In w (parsedVersions numberedTags) ->
       version.segments w = version.segments tenthDev ->
       0 <= j <= strconv.maxInt64 ->
       version.Prerelease w = "dev" ++ "." ++ strconv.FormatUint j ->
       j <= 10.
Proof.
  destruct (prerelease_counter_continues_highest_above_baseline
              (initial numberedTags [] devNumberConfig)
              (indexed numberedTags [] devNumberConfig) numberedTags
              eq_refl eq_refl eq_refl) as (base & _ & H).
  change (curPreReleaseVer (indexed numberedTags [] devNumberConfig))
    with (Some tenthDev) in H.
  destruct H as (_ & _ & _ & _ & _ & H).
  destruct (H eq_refl) as (_ & Hmax & Hnum).
  split; [reflexivity|]. split; [exact Hmax|].
  intros w j Hw Hs Hj Hp.
  apply (Hnum w 10 j Hw Hs); [split; [lia | now vm_compute] | exact Hj | | exact Hp].
  reflexivity.
Defined.

Example prerelease_below_baseline_is_not_continued :
  option_map version.Prerelease
             (curPreReleaseVer (indexed devTags [] devNumberConfig))
  = Some "dev.3".
Proof. vm_compute. reflexivity. Qed.

Example numbered_prerelease_continues_highest :
  testrepo.latest numberedTags [] devNumberConfig = Ok "1.0.1-dev.11".
Proof. vm_compute. reflexivity. Qed.

Example stable_tag_comes_before_its_prereleases :
  testrepo.latest releasedTags [] buildNumberConfig = Ok "1.0.3+4".
Proof. vm_compute. reflexivity. Qed.

(** go-version's order has cycles: the pre-releases "a.b", "a" and
    "a.1" of the same segments. *)
Example order_is_not_consistent_everywhere :
  consistent (parsedVersions ["1.0.0-a.b"; "1.0.0-a"; "1.0.0-a.1"]) = false
  /\ consistent (parsedVersions numberedTags) = true.
Proof. vm_compute. split; reflexivity. Qed.

(** ** The counter of the build number *)

Section BuildCounter.
Import regexp version.

(** With buildNumber and no custom metadata, the phases after the walk
    resolve to what [version.NewVersion] reads from the text of the
    version they resolve to without buildNumber, "+" and the counter
    taken from the latest tag. *)
Lemma compose_counter (now : time.Time) (s : GitRepo) (latest : Version) :
  buildNumber s = true -> buildMetadata s = "" ->
  latestTagVersion s = Some latest ->
  resolved (compose now s)
  = match resolved (compose now (setBuildNumber s false)) with
    | None => None
    | Some c =>
        if String.eqb (Metadata latest) ""
        then parsedText (version.String c ++ "+" ++ "1")
        else match strconv.ParseUint (Metadata latest) with
             | (_, Some _) => None
             | (n, None) =>
                 parsedText (version.String c ++ "+"
                             ++ strconv.FormatUint (strconv.incUint64 n))
             end
    end.
Proof.
  destruct s as [rp cv ct nv br bid cpv ltv ltc pn pl pnum bm sch st pf bn].
  cbn [buildNumber buildMetadata latestTagVersion]. intros -> -> ->.
  destruct nv as [nv|]; cbn [deref bind resolved]; [|reflexivity].
  destruct cv as [cv|]; cbn [deref bind resolved]; [|reflexivity].
  assert (Hrest : forall x : Version,
    resolved
      (r <- (let r := {| repo := rp; currentVersion := Some cv;
                         currentTag := ct; newVersion := Some x;
                         branch := br; branchID := bid;
                         curPreReleaseVer := cpv;
                         latestTagVersion := Some latest;
                         latestTagCommit := ltc; preReleaseName := pn;
                         preReleaseTimestampLayout := pl;
                         preReleaseNumber := pnum; buildMetadata := "";
                         scheme := sch; strictMatch := st; prefix := pf;
                         buildNumber := true |} in
             appendPreRelease now r) ;; appendBuildMetadata r)
    = match resolved
              (r <- (let r := {| repo := rp; currentVersion := Some cv;
                                 currentTag := ct; newVersion := Some x;
                                 branch := br; branchID := bid;
                                 curPreReleaseVer := cpv;
                                 latestTagVersion := Some latest;
                                 latestTagCommit := ltc; preReleaseName := pn;
                                 preReleaseTimestampLayout := pl;
                                 preReleaseNumber := pnum;
                                 buildMetadata := "";
                                 scheme := sch; strictMatch := st;
                                 prefix := pf; buildNumber := false |} in
                     appendPreRelease now r) ;; appendBuildMetadata r)
      with
      | None => None
      | Some c =>
          if String.eqb (Metadata latest) ""
          then parsedText (version.String c ++ "+" ++ "1")
          else match strconv.ParseUint (Metadata latest) with
               | (_, Some _) => None
               | (n, None) =>
                   parsedText (version.String c ++ "+"
                               ++ strconv.FormatUint (strconv.incUint64 n))
               end
      end).
  { intros x. cbv zeta. unfold appendPreRelease, appendBuildMetadata,
      parsedText. fields.
    assert (Hlast : forall v : Version,
      resolved
        (latest0 <- deref (Some latest) ;;
         buildMetadata0 <-
           (if String.eqb (Metadata latest0) "" then Ok "1"
            else match strconv.ParseUint (Metadata latest0) with
                 | (_, Some _) => Err ErrBuildNumber
                 | (currentBuildNumber, None) =>
                     Ok (strconv.FormatUint
                           (strconv.incUint64 currentBuildNumber))
                 end) ;;
         new <- deref (Some v) ;;
         v0 <- NewVersion (version.String new ++ "+" ++ buildMetadata0) ;;
         Ok {| repo := rp; currentVersion := Some cv; currentTag := ct;
               newVersion := Some v0; branch := br; branchID := bid;
               curPreReleaseVer := cpv; latestTagVersion := Some latest;
               latestTagCommit := ltc; preReleaseName := pn;
               preReleaseTimestampLayout := pl; preReleaseNumber := pnum;
               buildMetadata := ""; scheme := sch; strictMatch := st;
               prefix := pf; buildNumber := true |})
      = if String.eqb (Metadata latest) ""
        then match NewVersion (version.String v ++ "+" ++ "1") with
             | Ok v1 => Some v1
             | Err _ => None
             end
        else match strconv.ParseUint (Metadata latest) with
             | (_, Some _) => None
             | (n, None) =>
                 match NewVersion
                         (version.String v ++ "+"
                          ++ strconv.FormatUint (strconv.incUint64 n)) with
                 | Ok v1 => Some v1
                 | Err _ => None
                 end
             end).
    { intros v. cbn [deref bind].
      destruct (String.eqb (Metadata latest) ""); cbn [bind].
      - match goal with
        | |- context [NewVersion ?y] => destruct (NewVersion y)
        end; reflexivity.
      - destruct (strconv.ParseUint (Metadata latest)) as [n [e|]];
          cbn [bind resolved]; [reflexivity|].
        match goal with
        | |- context [NewVersion ?y] => destruct (NewVersion y)
        end; reflexivity. }
    destruct (_ || _); cbn [deref bind resolved]; fields.
    - destruct (preReleaseVersion _ _ _ _ _ _) as [v|e];
        cbn [deref bind resolved]; fields; [|reflexivity].
      change (nonEmpty "") with false. cbv iota. cbn [resolved newVersion].
      apply Hlast.
    - change (nonEmpty "") with false. cbv iota. cbn [resolved newVersion].
      apply Hlast. }
  cbv zeta in Hrest. unfold compose, bumpFallback, setBuildNumber, bump.
  fields. cbn [deref bind].
  destruct (Equal nv cv); [destruct st|]; cbn [bind resolved];
    try reflexivity; apply Hrest.
Qed.

(** The resolution with buildNumber, from the resolution without. *)
Lemma calcVersion_counter (now : time.Time) (r : GitRepo)
      (cur latest : Version) (tag : git.Commit)
      (l : list (option git.Commit)) :
  currentVersion r = Some cur -> currentTag r = Some tag -> nonneg cur ->
  latestTagVersion r = Some latest ->
  buildNumber r = true -> buildMetadata r = "" ->
  resolved (calcVersion now (withCommits r l))
  = match resolved (calcVersion now (withCommits (setBuildNumber r false) l))
    with
    | None => None
    | Some c =>
        if String.eqb (Metadata latest) ""
        then parsedText (version.String c ++ "+" ++ "1")
        else match strconv.ParseUint (Metadata latest) with
             | (_, Some _) => None
             | (n, None) =>
                 parsedText (version.String c ++ "+"
                             ++ strconv.FormatUint (strconv.incUint64 n))
             end
    end.
Proof.
  intros Hc Ht Hn Hl Hb Hm.
  rewrite (calcVersion_withCommits now r cur tag l Hc Ht Hn).
  rewrite (calcVersion_withCommits now (setBuildNumber r false) cur tag l
                                   Hc Ht Hn).
  change (repo (setBuildNumber r false)) with (repo r).
  change (branch (setBuildNumber r false)) with (branch r).
  change (scheme (setBuildNumber r false)) with (scheme r).
  change (strictMatch (setBuildNumber r false)) with (strictMatch r).
  destruct (git.BranchCommitID (repo r) (branch r)) as [id|]; [|reflexivity].
  destruct (git.BranchCommit (repo r) (branch r)) as [h|]; [|reflexivity].
  destruct (_ && _); [reflexivity|].
  destruct (outcome _ _ _ _) as [best|]; [|reflexivity].
  apply (compose_counter now
           (setNewVersion (setBranchID r id) (Some (selected cur best)))
           latest); assumption.
Qed.

End BuildCounter.

Section LatestTag.
Import regexp version.

(** At equal segments a pre-release is [LessThan] a stable version. *)
Lemma LessThan_stable (p w : Version) :
  segments p = segments w -> Prerelease p <> "" -> Prerelease w = "" ->
  LessThan p w = true.
Proof.
  unfold Prerelease. intros Hs Hp Hw.
  unfold LessThan, Compare, Segments64, Prerelease.
  apply String.eqb_neq in Hp.
  destruct (String.eqb_spec (version.String p) (version.String w)) as [E|_].
  { exfalso. unfold version.String in E. rewrite Hs, Hp, Hw in E.
    cbn [String.eqb] in E. apply append_cancel in E.
    cbn [append] in E. destruct (String.eqb (metadata w) ""); discriminate. }
  destruct (list_eq_dec Z.eq_dec (segments p) (segments w)) as [_|N];
    [|contradiction].
  rewrite Hp, Hw. reflexivity.
Qed.

(** Where the order is consistent on the tag versions, the latest
    version is [LessThan] none of them. *)
Lemma parseTags_latest_max (r r' : GitRepo) (tags : list string)
      (latest : Version) :
  git.Tags (repo r) = Ok tags ->
  parseTags r = Ok r' ->
  latestTagVersion r' = Some latest ->
  consistent (parsedVersions tags) = true ->
  forall w, In w (parsedVersions tags) -> LessThan latest w = false.
Proof.
  intros Ht H Hl Hcons. unfold parseTags in H. rewrite Ht in H.
  destruct (collectVersions (repo r) tags []) as [vs|] eqn:Ec;
    [|discriminate].
  cbn [bind] in H.
  pose proof (collected_nonneg _ _ _ Ec) as Hnn.
  pose proof (collectVersions_ok _ _ _ _ Ec) as Hvs. cbn [map app] in Hvs.
  destruct (sortReverse_spec vs Hnn) as [Hin _].
  pose proof (collected_descending _ _ _ Ec Hcons) as Hdesc.
  destruct (sortReverse vs) as [|[v c] keys] eqn:Ek; [discriminate|].
  apply scanKeys_latest in H. destruct H as [Hl' _].
  rewrite Hl in Hl'. injection Hl' as ->.
  intros w Hw. rewrite <- Hvs in Hw. apply in_map_iff in Hw.
  destruct Hw as ([w' cw] & <- & Hw). cbn [fst].
  apply Hin in Hw. destruct Hw as [[= <- <-]|Hw].
  - unfold LessThan. now rewrite Compare_refl.
  - specialize (Hdesc [] (v, c) keys eq_refl).
    rewrite Forall_forall in Hdesc. apply (Hdesc _ Hw).
Qed.

(** C1, amended: with buildNumber, the counter appended to the resolved
    version is computed from the build metadata of [latestTagVersion],
    the first of the sorted version tags, pre-release tags included:
    a parsed version that no parsed version comes after by segments
    and, where go-version's order is consistent on the tags, that is
    [LessThan] none of them, a stable tag thus coming before the
    pre-release tags of its segments.  It is the baseline when it is
    stable, and only then.  For every commit range the run resolves to what
    [version.NewVersion] reads from the text of the version resolved
    without buildNumber, "+" and the counter: "1" for empty metadata,
    the value plus 1 for a value below 2^64-1, and the run fails when
    [ParseUint] does not read the metadata as a 64-bit unsigned
    decimal.  When the version resolved without buildNumber is in
    normal form and without metadata, the run succeeds and resolves to
    that version with the counter as its metadata. *)
Theorem build_number_from_latest_tag
        (now : time.Time) (r0 r : GitRepo) (tags : list string)
        (l : list (option git.Commit)) :
  git.Tags (repo r0) = Ok tags ->
  parseTags r0 = Ok r ->
  exists latest,
    latestTagVersion r = Some latest
    /\ In latest (parsedVersions tags)
    /\ (forall w, In w (parsedVersions tags) ->
                  segLe (segments w) (segments latest))
    /\ (consistent (parsedVersions tags) = true ->
        (forall w, In w (parsedVersions tags) -> LessThan latest w = false)
        /\ forall w, In w (parsedVersions tags) ->
                     segments w = segments latest ->
                     Prerelease w = "" -> Prerelease latest = "")
    /\ (Prerelease latest = "" <-> currentVersion r = Some latest)
    /\ (buildNumber r = true -> buildMetadata r = "" ->
        let run := calcVersion now (withCommits r l) in
        let plain :=
          resolved (calcVersion now
                      (withCommits (setBuildNumber r false) l)) in
        (Metadata latest = "" ->
         resolved run
         = match plain with
           | Some c => parsedText (version.String c ++ "+" ++ "1")
           | None => None
           end)
        /\ (Metadata latest <> "" ->
            snd (strconv.ParseUint (Metadata latest)) <> None ->
            isOk run = false)
        /\ (forall n,
              Metadata latest <> "" ->
              strconv.ParseUint (Metadata latest) = (n, None) ->
              n < strconv.maxUint64 ->
              resolved run
              = match plain with
                | Some c =>
                    parsedText (version.String c ++ "+"
                                ++ strconv.FormatUint (n + 1))
                | None => None
                end)
        /\ forall c,
             plain = Some c -> canonical c = true -> Metadata c = "" ->
             (Metadata latest = "" ->
              resolved run = Some (withMeta c "1"))
             /\ forall n,
                  Metadata latest <> "" ->
                  strconv.ParseUint (Metadata latest) = (n, None) ->
                  n < strconv.maxUint64 ->
                  resolved run
                  = Some (withMeta c (strconv.FormatUint (n + 1)))).
Proof.
  intros Ht Hp.
  destruct (parseTags_latest r0 r tags Ht Hp)
    as (latest & Hl & Hin & Hmax & Hcur).
  destruct (parseTags_wf _ _ Hp) as (cur & tag & Hc & Htag & Hn & Hstable).
  exists latest.
  split; [exact Hl|]. split; [exact Hin|]. split; [exact Hmax|].
  split.
  { intros Hcons.
    pose proof (parseTags_latest_max r0 r tags latest Ht Hp Hl Hcons)
      as Hle.
    split; [exact Hle|].
    intros w Hw Hs Hst.
    destruct (String.eqb_spec (Prerelease latest) "") as [E|E]; [exact E|].
    pose proof (Hle w Hw) as Hf.
    rewrite (LessThan_stable latest w (eq_sym Hs) E Hst) in Hf.
    discriminate Hf. }
  split.
  { split; [exact Hcur|]. intros E. rewrite Hc in E.
    injection E as <-. exact Hstable. }
  intros Hb Hm run plain.
  pose proof (calcVersion_counter now r cur latest tag l Hc Htag Hn Hl Hb Hm)
    as Hrun.
  fold run plain in Hrun.
  assert (Hsmall : forall n,
             strconv.ParseUint (Metadata latest) = (n, None) ->
             n < strconv.maxUint64 -> strconv.incUint64 n = n + 1).
  { intros n Hn' Hlt. apply incUint64_small.
    apply ParseUint_range in Hn'. lia. }
  assert (Hone : Metadata latest = "" ->
                 resolved run
                 = match plain with
                   | Some c => parsedText (version.String c ++ "+" ++ "1")
                   | None => None
                   end).
  { intros E. rewrite Hrun, E. reflexivity. }
  assert (Hnum : forall n,
             Metadata latest <> "" ->
             strconv.ParseUint (Metadata latest) = (n, None) ->
             n < strconv.maxUint64 ->
             resolved run
             = match plain with
               | Some c =>
                   parsedText (version.String c ++ "+"
                               ++ strconv.FormatUint (n + 1))
               | None => None
               end).
  { intros n E Hn' Hlt. apply String.eqb_neq in E.
    rewrite Hrun, E, Hn', (Hsmall n Hn' Hlt). reflexivity. }
  split; [exact Hone|]. split; [|split; [exact Hnum|]].
  - intros E He. apply String.eqb_neq in E.
    assert (Hnone : resolved run = None).
    { rewrite Hrun, E. destruct plain; [|reflexivity].
      destruct (strconv.ParseUint (Metadata latest)) as [n [e|]];
        [reflexivity | now destruct He]. }
    pose proof (calcVersion_result now (withCommits r l) cur latest tag
                                   Hc Htag Hl) as Hres.
    fold run in Hres. destruct run as [r1|e]; [|reflexivity].
    destruct Hres as (id & nv & _ & ->). discriminate Hnone.
  - intros c Hplain Hcan Hmeta. split.
    + intros E. rewrite (Hone E), Hplain. unfold parsedText.
      rewrite NewVersion_with_meta; trivial; discriminate.
    + intros n E Hn' Hlt. rewrite (Hnum n E Hn' Hlt), Hplain.
      unfold parsedText.
      assert (Hk : 0 <= n + 1).
      { apply ParseUint_range in Hn'. lia. }
      rewrite NewVersion_with_meta; trivial.
      * unfold dottedOK.
        rewrite (word_parts _ (FormatUint_idword (n + 1) Hk)).
        apply orb_true_r.
      * now apply FormatUint_nonempty.
Qed.

Lemma build_number_from_latest_tag_witness :
  resolved (calcVersion testrepo.clock
              (withCommits (indexed countedTags [] buildNumberConfig) []))
  = Some (withMeta patchedRelease (strconv.FormatUint (9 + 1)))
  /\ exists latest,
       latestTagVersion (indexed countedTags [] buildNumberConfig)
       = Some latest
       /\ Metadata latest = "9"
       /\ forall w, In w (parsedVersions countedTags) ->
                    LessThan latest w = false.
Proof.
  destruct (build_number_from_latest_tag
              testrepo.clock
              (initial countedTags [] buildNumberConfig)
              (indexed countedTags [] buildNumberConfig)
              countedTags [] eq_refl eq_refl)
    as (latest & Hl & _ & _ & Hord & _ & H).
  destruct (Hord eq_refl) as [Hmax _].
  injection Hl as <-.
  destruct (H eq_refl eq_refl) as (_ & _ & _ & Hc).
  destruct (Hc patchedRelease eq_refl eq_refl eq_refl) as [_ Hn].
  split.
  - apply (Hn 9); [discriminate | reflexivity | reflexivity].
  - eexists. split; [reflexivity|]. split; [reflexivity | exact Hmax].
Defined.

End LatestTag.
